(** * First-order hexahedral finite elements: [src/fem/jax_fem.py]

    A shallow embedding of the classes [Mesh], [FEM], [Laplace],
    [LinearPoisson], [NonlinearPoisson], [LinearElasticity],
    [HyperElasticity] and [Plasticity], followed by the properties of the
    element tables, the geometric mapping, the boundary resolvers, the
    load vectors, the residual assembly, the material laws and the
    surface integrals.

    Conventions.
    - A float is idealised as a real number: sums and products are exact,
      and [inf] and [NaN] have no counterpart.  [np.linalg.det] and
      [np.linalg.inv] are the determinant and the adjugate over the
      determinant.
    - An [ndarray] is a nested list in row-major order, its shape the
      lengths of the lists; an index is a natural number.  An axis of
      length one that the program inserts for broadcasting is left out
      where the comment of a definition says so.
    - A Python exception is the [Raise] result of the error monad.  A
      method of an object is a function in the state monad [M] of the
      object: it returns its result, or raises, and the object.
    - [jax.grad] of a shape function, and of the energy of
      [HyperElasticity], is written out and proved to be the gradient.
      [periodic_bc_info] is only stored by the program and left out. *)

From Stdlib Require Import Reals Lra Lia List ZArith Bool Arith RNsatz.
Import ListNotations.
Local Open Scope R_scope.

(** ** Exceptions and the error monad *)

Inductive exn : Type :=
| AssertionError   (* a failed [assert] *)
| ShapeError       (* shapes that cannot be broadcast, reshaped or mapped together *)
| IndexError.      (* a Python list indexed past its end *)

Inductive result (A : Type) : Type :=
| Ok (a : A)
| Raise (e : exn).
Arguments Ok {A} a.
Arguments Raise {A} e.

Definition bind {A B : Type} (c : result A) (k : A -> result B) : result B :=
  match c with
  | Ok a => k a
  | Raise e => Raise e
  end.

Notation "x <- c ;; k" := (bind c (fun x => k))
  (at level 61, c at next level, right associativity).
Notation "' p <- c ;; k" := (bind c (fun p => k))
  (at level 61, p pattern, c at next level, right associativity).

Definition assert_ (b : bool) : result unit :=
  if b then Ok tt else Raise AssertionError.

Fixpoint mapM {A B : Type} (f : A -> result B) (l : list A) : result (list B) :=
  match l with
  | [] => Ok []
  | a :: l' => b <- f a ;; bs <- mapM f l' ;; Ok (b :: bs)
  end.

(** ** Arrays *)

Abbreviation vector := (list R) (only parsing).
Abbreviation matrix := (list (list R)) (only parsing).
Abbreviation tensor3 := (list (list (list R))) (only parsing).
Abbreviation tensor4 := (list (list (list (list R)))) (only parsing).
Abbreviation tensor5 := (list (list (list (list (list R))))) (only parsing).

(** [x[i]] on a one-dimensional array and [m[i, j]] on a matrix. *)
Definition vget (x : vector) (i : nat) : R := nth i x 0.
Definition mget (m : matrix) (i j : nat) : R := vget (nth i m []) j.

Definition map2 {A B C : Type} (f : A -> B -> C) (l1 : list A) (l2 : list B) : list C :=
  map (fun p => f (fst p) (snd p)) (combine l1 l2).

(** [range(n)] over Python integers. *)
Definition range (n : nat) : list Z := map Z.of_nat (seq 0 n).

(** The functions of [numpy] / [jax.numpy] the program calls. *)
Module np.

Definition sum (v : vector) : R := fold_right Rplus 0 v.

(** [np.take(a, i, axis=0)] for one index.  An index past the end is clamped
    to the last row (gather mode [clip]); [d] stands for a row of an empty
    array. *)
Definition take {A : Type} (d : A) (a : list A) (i : nat) : A :=
  nth i a (last a d).

(** [np.roll(l, shift)]: the entry at position [i] moves to [(i + shift) mod n]. *)
Definition roll {A : Type} (l : list A) (shift : nat) : list A :=
  let n := length l in
  let k := (n - shift mod n)%nat in
  skipn k l ++ firstn k l.

(** [np.argwhere(flags).reshape(-1)] on a one-dimensional boolean array. *)
Definition argwhere (flags : list bool) : list nat :=
  map fst (filter snd (combine (seq 0 (length flags)) flags)).

(** [np.argwhere(flags)] on a two-dimensional boolean array: the index
    pairs of the true entries, in row-major order. *)
Definition argwhere2 (flags : list (list bool)) : list (nat * nat) :=
  flat_map (fun p => map (fun j => (fst p, j)) (argwhere (snd p)))
           (combine (seq 0 (length flags)) flags).

Definition all (flags : list bool) : bool := forallb (fun b => b) flags.

Definition zeros (n m : nat) : matrix := repeat (repeat 0 m) n.

Definition zeros_like (a : matrix) : matrix := map (map (fun _ => 0)) a.

Definition atol : R := 1 / 100000000.
Definition rtol : R := 1 / 100000.

(** [np.isclose(a, b)] with the default tolerances. *)
Definition isclose (a b : R) : bool :=
  if Rle_dec (Rabs (a - b)) (atol + rtol * Rabs b) then true else false.

(** 3x3 determinant and inverse ([np.linalg.det], [np.linalg.inv]); the
    inverse is the adjugate over the determinant. *)
Definition det (m : matrix) : R :=
  mget m 0 0 * (mget m 1 1 * mget m 2 2 - mget m 1 2 * mget m 2 1)
  - mget m 0 1 * (mget m 1 0 * mget m 2 2 - mget m 1 2 * mget m 2 0)
  + mget m 0 2 * (mget m 1 0 * mget m 2 1 - mget m 1 1 * mget m 2 0).

Definition inv (m : matrix) : matrix :=
  let d := det m in
  [ [ (mget m 1 1 * mget m 2 2 - mget m 1 2 * mget m 2 1) / d;
      (mget m 0 2 * mget m 2 1 - mget m 0 1 * mget m 2 2) / d;
      (mget m 0 1 * mget m 1 2 - mget m 0 2 * mget m 1 1) / d ];
    [ (mget m 1 2 * mget m 2 0 - mget m 1 0 * mget m 2 2) / d;
      (mget m 0 0 * mget m 2 2 - mget m 0 2 * mget m 2 0) / d;
      (mget m 0 2 * mget m 1 0 - mget m 0 0 * mget m 1 2) / d ];
    [ (mget m 1 0 * mget m 2 1 - mget m 1 1 * mget m 2 0) / d;
      (mget m 0 1 * mget m 2 0 - mget m 0 0 * mget m 2 1) / d;
      (mget m 0 0 * mget m 1 1 - mget m 0 1 * mget m 1 0) / d ] ].

Definition trace (m : matrix) : R := mget m 0 0 + mget m 1 1 + mget m 2 2.

Definition eye (n : nat) : matrix :=
  map (fun i => map (fun j => if Nat.eqb i j then 1 else 0) (seq 0 n)) (seq 0 n).

(** [m.T] for a square matrix. *)
Definition T (m : matrix) : matrix :=
  map (fun i => map (fun j => mget m j i) (seq 0 (length m))) (seq 0 (length m)).

(** [np.where(x > 0., a, b)]. *)
Definition where_gt0 (x a b : R) : R := if Rlt_dec 0 x then a else b.

End np.

(** ** The reference element *)

Definition dim : nat := 3.
Definition num_quads : nat := 8.
Definition num_nodes : nat := 8.
Definition num_faces : nat := 6.

(** [FEM.get_shape_val_functions]: the hard-coded trilinear shape functions. *)
Definition f1 (x : vector) : R := - 1 / 8 * (vget x 0 - 1) * (vget x 1 - 1) * (vget x 2 - 1).
Definition f2 (x : vector) : R := 1 / 8 * (vget x 0 + 1) * (vget x 1 - 1) * (vget x 2 - 1).
Definition f3 (x : vector) : R := - 1 / 8 * (vget x 0 + 1) * (vget x 1 + 1) * (vget x 2 - 1).
Definition f4 (x : vector) : R := 1 / 8 * (vget x 0 - 1) * (vget x 1 + 1) * (vget x 2 - 1).
Definition f5 (x : vector) : R := 1 / 8 * (vget x 0 - 1) * (vget x 1 - 1) * (vget x 2 + 1).
Definition f6 (x : vector) : R := - 1 / 8 * (vget x 0 + 1) * (vget x 1 - 1) * (vget x 2 + 1).
Definition f7 (x : vector) : R := 1 / 8 * (vget x 0 + 1) * (vget x 1 + 1) * (vget x 2 + 1).
Definition f8 (x : vector) : R := - 1 / 8 * (vget x 0 - 1) * (vget x 1 + 1) * (vget x 2 + 1).

Definition get_shape_val_functions : list (vector -> R) :=
  [f1; f2; f3; f4; f5; f6; f7; f8].

(** [jax.grad(f)] for each shape function [f]: the three partial derivatives,
    written out ([shape_grad_is_gradient] below relates them to [f]). *)
Definition grad_f1 (x : vector) : vector :=
  [ - 1 / 8 * (vget x 1 - 1) * (vget x 2 - 1);
    - 1 / 8 * (vget x 0 - 1) * (vget x 2 - 1);
    - 1 / 8 * (vget x 0 - 1) * (vget x 1 - 1) ].
Definition grad_f2 (x : vector) : vector :=
  [ 1 / 8 * (vget x 1 - 1) * (vget x 2 - 1);
    1 / 8 * (vget x 0 + 1) * (vget x 2 - 1);
    1 / 8 * (vget x 0 + 1) * (vget x 1 - 1) ].
Definition grad_f3 (x : vector) : vector :=
  [ - 1 / 8 * (vget x 1 + 1) * (vget x 2 - 1);
    - 1 / 8 * (vget x 0 + 1) * (vget x 2 - 1);
    - 1 / 8 * (vget x 0 + 1) * (vget x 1 + 1) ].
Definition grad_f4 (x : vector) : vector :=
  [ 1 / 8 * (vget x 1 + 1) * (vget x 2 - 1);
    1 / 8 * (vget x 0 - 1) * (vget x 2 - 1);
    1 / 8 * (vget x 0 - 1) * (vget x 1 + 1) ].
Definition grad_f5 (x : vector) : vector :=
  [ 1 / 8 * (vget x 1 - 1) * (vget x 2 + 1);
    1 / 8 * (vget x 0 - 1) * (vget x 2 + 1);
    1 / 8 * (vget x 0 - 1) * (vget x 1 - 1) ].
Definition grad_f6 (x : vector) : vector :=
  [ - 1 / 8 * (vget x 1 - 1) * (vget x 2 + 1);
    - 1 / 8 * (vget x 0 + 1) * (vget x 2 + 1);
    - 1 / 8 * (vget x 0 + 1) * (vget x 1 - 1) ].
Definition grad_f7 (x : vector) : vector :=
  [ 1 / 8 * (vget x 1 + 1) * (vget x 2 + 1);
    1 / 8 * (vget x 0 + 1) * (vget x 2 + 1);
    1 / 8 * (vget x 0 + 1) * (vget x 1 + 1) ].
Definition grad_f8 (x : vector) : vector :=
  [ - 1 / 8 * (vget x 1 + 1) * (vget x 2 + 1);
    - 1 / 8 * (vget x 0 - 1) * (vget x 2 + 1);
    - 1 / 8 * (vget x 0 - 1) * (vget x 1 + 1) ].

(** [FEM.get_shape_grad_functions]. *)
Definition get_shape_grad_functions : list (vector -> vector) :=
  [grad_f1; grad_f2; grad_f3; grad_f4; grad_f5; grad_f6; grad_f7; grad_f8].

(** The coordinate [(2*(k % 2) - 1) * np.sqrt(1./3.)] of a Gauss point. *)
Definition gauss (k : Z) : R := IZR (2 * (k mod 2) - 1) * sqrt (1 / 3).

(** [FEM.get_quad_points]: the 2x2x2 Gauss points, first coordinate fastest. *)
Definition get_quad_points : matrix :=
  let quad_degree := 2%nat in
  flat_map (fun i =>
    flat_map (fun j =>
      map (fun k => [gauss k; gauss j; gauss i]) (range quad_degree))
      (range quad_degree))
    (range quad_degree).

Definition face_extremes : vector := [-1; 1].

(** [FEM.get_face_quad_points]: four Gauss points on each of the six faces,
    and the six face normals. *)
Definition get_face_quad_points : tensor3 * matrix :=
  let face_quad_degree := 2%nat in
  let faces :=
    flat_map (fun d =>
      map (fun s =>
        (flat_map (fun i =>
           map (fun j => np.roll [s; gauss j; gauss i] d) (range face_quad_degree))
           (range face_quad_degree),
         np.roll [s; 0; 0] d))
        face_extremes)
      (seq 0 dim) in
  (map fst faces, map snd faces).

(** The inner loops of the table builders: every function at one point. *)
Definition eval_fns {B : Type} (fns : list (vector -> B)) (quad_point : vector) : list B :=
  map (fun fn => fn quad_point) fns.

(** [FEM.get_shape_vals]: [(num_quads, num_nodes)]. *)
Definition get_shape_vals : result matrix :=
  let shape_vals := map (eval_fns get_shape_val_functions) get_quad_points in
  _ <- assert_ (Nat.eqb (length shape_vals) num_quads
                && Nat.eqb (length (hd [] shape_vals)) num_nodes) ;;
  Ok shape_vals.

(** [FEM.get_face_shape_vals]: [(num_faces, num_face_quads, num_nodes)]. *)
Definition get_face_shape_vals : tensor3 :=
  map (fun f_quad_points => map (eval_fns get_shape_val_functions) f_quad_points)
      (fst get_face_quad_points).

(** The local [shape_grads_reference] of [FEM.get_shape_grads]:
    [(num_quads, num_nodes, dim)]. *)
Definition shape_grads_reference : tensor3 :=
  map (eval_fns get_shape_grad_functions) get_quad_points.

(** The local [face_shape_grads_reference] of [FEM.get_face_shape_grads]:
    [(num_faces, num_face_quads, num_nodes, dim)]. *)
Definition face_shape_grads_reference : tensor4 :=
  map (fun f_quad_points => map (eval_fns get_shape_grad_functions) f_quad_points)
      (fst get_face_quad_points).

(** The sum of a list of vectors of [n] components, component by component
    ([np.sum(..., axis=0)]). *)
Definition sum_vectors (n : nat) (vs : list vector) : vector :=
  map (fun d => np.sum (map (fun v => vget v d) vs)) (seq 0 n).

(** ** The mesh and the geometric mapping *)

(** [class Mesh]: nodal coordinates [(num_total_nodes, dim)] and the
    connectivity [(num_cells, num_nodes)]. *)
Record Mesh : Type := { points : matrix; cells : list (list nat) }.

Definition num_cells (m : Mesh) : nat := length (cells m).
Definition num_total_nodes (m : Mesh) : nat := length (points m).

(** [np.take(self.points, self.cells, axis=0)]: [(num_cells, num_nodes, dim)]. *)
Definition physical_coos (m : Mesh) : tensor3 :=
  map (map (np.take [] (points m))) (cells m).

(** [np.sum(coos[:, :, None] * grads[:, None, :], axis=0)] for the nodes of
    one cell and the reference gradients at one quadrature point: the
    Jacobian [dx/deta], entry [(i, j)] being the sum over the nodes [n] of
    [coos[n, i] * grads[n, j]]. *)
Definition jacobian (coos grads_q : matrix) : matrix :=
  map (fun i =>
    map (fun j => np.sum (map2 (fun x g => vget x i * vget g j) coos grads_q))
        (seq 0 dim))
    (seq 0 dim).

(** A row vector times a matrix: [(v[None, :] @ m)[0, :]]. *)
Definition vecmat (v : vector) (m : matrix) : vector :=
  map (fun j => np.sum (map (fun k => vget v k * mget m k j) (seq 0 dim))) (seq 0 dim).

(** [FEM.get_shape_grads]: the physical shape gradients
    [(num_cells, num_quads, num_nodes, dim)] and [JxW (num_cells, num_quads)].
    The axis of length one kept by [keepdims] is left out. *)
Definition get_shape_grads (m : Mesh) : result (tensor4 * matrix) :=
  let shape_grads_reference := shape_grads_reference in
  _ <- assert_ (Nat.eqb (length shape_grads_reference) num_quads
                && Nat.eqb (length (hd [] shape_grads_reference)) num_nodes
                && Nat.eqb (length (hd [] (hd [] shape_grads_reference))) dim) ;;
  let physical_coos := physical_coos m in
  let jacobian_dx_deta :=
    map (fun coos => map (jacobian coos) shape_grads_reference) physical_coos in
  let jacobian_det := map (map np.det) jacobian_dx_deta in
  let jacobian_deta_dx := map (map np.inv) jacobian_dx_deta in
  let shape_grads_physical :=
    map (fun invs =>
           map2 (fun grads_q inv_q => map (fun g => vecmat g inv_q) grads_q)
                shape_grads_reference invs)
        jacobian_deta_dx in
  let quad_weights := 1 in
  let JxW := map (map (fun d => d * quad_weights)) jacobian_det in
  Ok (shape_grads_physical, JxW).

(** [FEM.get_physical_quad_points]: [(num_cells, num_quads, dim)]. *)
Definition get_physical_quad_points (m : Mesh) (shape_vals : matrix) : tensor3 :=
  map (fun coos =>
         map (fun vals_q =>
                map (fun d => np.sum (map2 (fun s x => s * vget x d) vals_q coos))
                    (seq 0 dim))
             shape_vals)
      (physical_coos m).

(** ** Boundary conditions *)

Definition location_fn : Type := vector -> bool.
Definition value_fn : Type := vector -> R.

(** [dirichlet_bc_info = [location_fns, vecs, value_fns]]. *)
Definition dirichlet_bc_info : Type :=
  (list location_fn * list Z * list value_fn)%type.

(** What one pass of the loop of [FEM.Dirichlet_boundary_conditions]
    computes from [location_fns[i]], [vecs[i]] and [value_fns[i]]. *)
Definition dirichlet_entry (m : Mesh) (loc : location_fn) (vec_i : Z) (val : value_fn)
  : list nat * list Z * vector :=
  let node_inds := np.argwhere (map loc (points m)) in
  let vec_inds := map (fun _ => (1 * vec_i)%Z) node_inds in
  let values := map val (map (np.take [] (points m)) node_inds) in
  (node_inds, vec_inds, values).

(** [FEM.Dirichlet_boundary_conditions]: the three parallel lists
    [node_inds_list], [vec_inds_list], [vals_list]. *)
Definition Dirichlet_boundary_conditions (m : Mesh) (info : dirichlet_bc_info)
  : result (list (list nat) * list (list Z) * list vector) :=
  let '(location_fns, vecs, value_fns) := info in
  _ <- assert_ (Nat.eqb (length location_fns) (length value_fns)
                && Nat.eqb (length value_fns) (length vecs)) ;;
  Ok (fold_left
        (fun acc i =>
           let '(node_inds_list, vec_inds_list, vals_list) := acc in
           let '(node_inds, vec_inds, values) :=
             dirichlet_entry m (nth i location_fns (fun _ => false))
                             (nth i vecs 0%Z) (nth i value_fns (fun _ => 0)) in
           (node_inds_list ++ [node_inds], vec_inds_list ++ [vec_inds],
            vals_list ++ [values]))
        (seq 0 (length location_fns))
        ([], [], [])).

(** The hard-coded reference nodes of [FEM.get_face_inds]. *)
Definition node_points : matrix :=
  [ [-1; -1; -1]; [1; -1; -1]; [1; 1; -1]; [-1; 1; -1];
    [-1; -1; 1];  [1; -1; 1];  [1; 1; 1];  [-1; 1; 1] ].

(** [FEM.get_face_inds]: [(num_faces, num_face_nodes)]. *)
Definition get_face_inds : list (list nat) :=
  flat_map (fun d =>
    map (fun s => np.argwhere (map (fun p => np.isclose (vget p d) s) node_points))
        face_extremes)
    (seq 0 dim).

(** The local [cell_face_points] of [FEM.Neuman_boundary_conditions_inds]:
    [(num_cells, num_faces, num_face_nodes, dim)]. *)
Definition cell_face_points (m : Mesh) : tensor4 :=
  let face_inds := get_face_inds in
  let cell_points := physical_coos m in
  map (fun coos => map (fun face => map (np.take [] coos) face) face_inds) cell_points.

(** The local function [on_boundary] for one location function. *)
Definition on_boundary (loc : location_fn) (face_points : matrix) : bool :=
  let boundary_flag := map loc face_points in
  np.all boundary_flag.

(** [FEM.Neuman_boundary_conditions_inds]: for every location function the
    array [(num_selected_faces, 2)] of [(cell, local face)] pairs. *)
Definition Neuman_boundary_conditions_inds (m : Mesh) (location_fns : list location_fn)
  : list (list (nat * nat)) :=
  let cell_face_points := cell_face_points m in
  fold_left
    (fun boundary_inds_list i =>
       let loc := nth i location_fns (fun _ => false) in
       let boundary_flags := map (map (on_boundary loc)) cell_face_points in
       let boundary_inds := np.argwhere2 boundary_flags in
       boundary_inds_list ++ [boundary_inds])
    (seq 0 (length location_fns))
    [].

(** ** Array operations that check shapes *)

(** The second extent of a two-dimensional array. *)
Definition ncols (a : matrix) : nat := length (hd [] a).

Fixpoint chunk_fuel {A : Type} (fuel n : nat) (l : list A) : list (list A) :=
  match fuel with
  | O => []
  | S fuel' =>
      match l with
      | [] => []
      | _ :: _ => firstn n l :: chunk_fuel fuel' n (skipn n l)
      end
  end.

(** Consecutive pieces of [n] entries. *)
Definition chunk {A : Type} (n : nat) (l : list A) : list (list A) :=
  chunk_fuel (length l) n l.

(** [a.reshape(-1, n)] on the entries [flat] of [a] in row-major order. *)
Definition reshape_rows {A : Type} (n : nat) (flat : list A) : result (list (list A)) :=
  if Nat.eqb n 0 then Raise ShapeError
  else if Nat.eqb (length flat mod n) 0 then Ok (chunk n flat)
  else Raise ShapeError.

(** One extent broadcast to [n]: kept when it is [n], repeated when it is 1. *)
Definition broadcast_axis {A : Type} (d : A) (n : nat) (l : list A) : result (list A) :=
  if Nat.eqb (length l) n then Ok l
  else if Nat.eqb (length l) 1 then Ok (repeat (hd d l) n)
  else Raise ShapeError.

(** A two-dimensional array broadcast to the shape [(k, n)]. *)
Definition broadcast_to (k n : nat) (a : matrix) : result matrix :=
  rows <- broadcast_axis [] k a ;;
  mapM (broadcast_axis 0 n) rows.

(** [a - b] on two-dimensional arrays, with broadcasting. *)
Definition np_subtract (a b : matrix) : result matrix :=
  let k := if Nat.eqb (length a) 1 then length b else length a in
  let n := if Nat.eqb (ncols a) 1 then ncols b else ncols a in
  a' <- broadcast_to k n a ;;
  b' <- broadcast_to k n b ;;
  Ok (map2 (map2 Rminus) a' b').

(** [res.at[i].add(row)] for one index; an index past the end is dropped. *)
Fixpoint at_add (res : matrix) (i : nat) (row : vector) : matrix :=
  match res, i with
  | [], _ => []
  | r :: res', O => map2 Rplus r row :: res'
  | r :: res', S i' => r :: at_add res' i' row
  end.

(** [res.at[inds].add(updates)]: the updates are broadcast to one row per
    index and added in turn, so that rows named more than once accumulate. *)
Definition scatter_add (res : matrix) (inds : list nat) (updates : matrix) : result matrix :=
  updates' <- broadcast_to (length inds) (ncols res) updates ;;
  Ok (fold_left (fun acc p => at_add acc (fst p) (snd p)) (combine inds updates') res).

(** ** The state monad of a method: it may raise, and returns the object *)

Definition M (S A : Type) : Type := S -> result A * S.

Definition retM {S A : Type} (a : A) : M S A := fun self => (Ok a, self).

Definition bindM {S A B : Type} (c : M S A) (k : A -> M S B) : M S B :=
  fun self =>
    match c self with
    | (Ok a, self') => k a self'
    | (Raise e, self') => (Raise e, self')
    end.

Definition getM {S : Type} : M S S := fun self => (Ok self, self).
Definition putM {S : Type} (self' : S) : M S unit := fun _ => (Ok tt, self').
Definition liftM {S A : Type} (c : result A) : M S A := fun self => (c, self).

Notation "x <~ c ;; k" := (bindM c (fun x => k))
  (at level 61, c at next level, right associativity).

(** ** [class FEM] *)

Record FEM : Type := {
  mesh : Mesh;
  vec : nat;
  shape_vals : matrix;             (* (num_quads, num_nodes) *)
  shape_grads : tensor4;           (* (num_cells, num_quads, num_nodes, dim) *)
  JxW : matrix;                    (* (num_cells, num_quads) *)
  face_shape_vals : tensor3;       (* (num_faces, num_face_quads, num_nodes) *)
  node_inds_list : list (list nat);
  vec_inds_list : list (list Z);
  vals_list : list vector
}.

(** [FEM.__init__], after the subclass has set [self.vec]. *)
Definition FEM_init (vec : nat) (mesh : Mesh) (dirichlet : dirichlet_bc_info) : result FEM :=
  shape_vals <- get_shape_vals ;;
  ' (shape_grads, JxW) <- get_shape_grads mesh ;;
  let face_shape_vals := get_face_shape_vals in
  ' (node_inds_list, vec_inds_list, vals_list) <-
      Dirichlet_boundary_conditions mesh dirichlet ;;
  Ok {| mesh := mesh; vec := vec; shape_vals := shape_vals;
        shape_grads := shape_grads; JxW := JxW;
        face_shape_vals := face_shape_vals;
        node_inds_list := node_inds_list; vec_inds_list := vec_inds_list;
        vals_list := vals_list |}.

(** [FEM.update_Dirichlet_boundary_conditions]. *)
Definition update_Dirichlet_boundary_conditions (dirichlet : dirichlet_bc_info)
  : M FEM unit :=
  self <~ getM ;;
  r <~ liftM (Dirichlet_boundary_conditions (mesh self) dirichlet) ;;
  putM {| mesh := mesh self; vec := vec self; shape_vals := shape_vals self;
          shape_grads := shape_grads self; JxW := JxW self;
          face_shape_vals := face_shape_vals self;
          node_inds_list := fst (fst r); vec_inds_list := snd (fst r);
          vals_list := snd r |}.

(** [FEM.get_physical_surface_quad_points]:
    [(num_selected_faces, num_face_quads, dim)]. *)
Definition get_physical_surface_quad_points (self : FEM) (boundary_inds : list (nat * nat))
  : tensor3 :=
  let physical_coos := physical_coos (mesh self) in
  map (fun p =>
         let coos := np.take [] physical_coos (fst p) in
         let vals := np.take [] (face_shape_vals self) (snd p) in
         map (fun vals_q =>
                map (fun d => np.sum (map2 (fun s x => s * vget x d) vals_q coos))
                    (seq 0 dim))
             vals)
      boundary_inds.

(** [np.linalg.norm] of a vector. *)
Definition norm (v : vector) : R := sqrt (np.sum (map (fun x => x * x) v)).

(** [FEM.get_face_shape_grads]: the physical face shape gradients
    [(num_selected_faces, num_face_quads, num_nodes, dim)] and
    [nanson_scale (num_selected_faces, num_face_quads)]. *)
Definition get_face_shape_grads (m : Mesh) (boundary_inds : list (nat * nat))
  : tensor4 * matrix :=
  let face_normals := snd get_face_quad_points in
  let physical_coos := physical_coos m in
  let selected :=
    map (fun p =>
           let coos := np.take [] physical_coos (fst p) in
           let grads_ref := np.take [] face_shape_grads_reference (snd p) in
           let normal := np.take [] face_normals (snd p) in
           let jacobian_dx_deta := map (jacobian coos) grads_ref in
           let jacobian_det := map np.det jacobian_dx_deta in
           let jacobian_deta_dx := map np.inv jacobian_dx_deta in
           let grads_physical :=
             map2 (fun grads_q inv_q => map (fun g => vecmat g inv_q) grads_q)
                  grads_ref jacobian_deta_dx in
           let quad_weights := 1 in
           let nanson_scale :=
             map2 (fun inv_q det_q => norm (vecmat normal inv_q) * det_q * quad_weights)
                  jacobian_deta_dx jacobian_det in
           (grads_physical, nanson_scale))
        boundary_inds in
  (map fst selected, map snd selected).

(** [FEM.Neuman_boundary_conditions_vals]: the traction at the face
    quadrature points, [(num_selected_faces, num_face_quads, vec)] for
    every value function. *)
Definition Neuman_boundary_conditions_vals
           (self : FEM) (value_fns : list (vector -> vector))
           (boundary_inds_list : list (list (nat * nat))) : result (list tensor3) :=
  mapM (fun i =>
          match nth_error boundary_inds_list i with
          | None => Raise IndexError
          | Some boundary_inds =>
              let subset_quad_points :=
                get_physical_surface_quad_points self boundary_inds in
              Ok (map (map (nth i value_fns (fun _ => []))) subset_quad_points)
          end)
       (seq 0 (length value_fns)).

(** ** [class Laplace] *)

Record Laplace : Type := {
  fem : FEM;
  body_force : matrix;             (* (num_total_nodes, vec) *)
  neumann : matrix;                (* (num_total_nodes, vec) *)
  v_grads_JxW : tensor5            (* (num_cells, num_quads, num_nodes, 1, dim) *)
}.

(** A value of [vec] components against an extent [vec] or 1 of the other
    operand of a product. *)
Definition bget (row : vector) (v : nat) : R :=
  if Nat.eqb (length row) 1 then hd 0 row else vget row v.

(** The last extent of [t] can be broadcast against [vec]. *)
Definition check_components (vec : nat) (t : tensor3) : result unit :=
  if forallb (forallb (fun row => Nat.eqb (length row) vec || Nat.eqb (length row) 1)) t
  then Ok tt else Raise ShapeError.

(** [Laplace.compute_body_force]. *)
Definition compute_body_force (self : FEM) (source_info : option (vector -> vector))
  : result matrix :=
  let rhs := np.zeros (num_total_nodes (mesh self)) (vec self) in
  match source_info with
  | None => Ok rhs
  | Some body_force_fn =>
      let physical_quad_points :=
        get_physical_quad_points (mesh self) (shape_vals self) in
      let body_force := map (map body_force_fn) physical_quad_points in
      _ <- check_components (vec self) body_force ;;
      let rhs_vals :=
        map2 (fun force_c JxW_c =>
                map (fun n =>
                       map (fun v =>
                              np.sum (map2 (fun vals_q fq =>
                                              vget vals_q n * bget (fst fq) v * snd fq)
                                           (shape_vals self)
                                           (combine force_c JxW_c)))
                           (seq 0 (vec self)))
                    (seq 0 num_nodes))
             body_force (JxW self) in
      rhs_vals <- reshape_rows (vec self) (concat (concat rhs_vals)) ;;
      scatter_add rhs (concat (cells (mesh self))) rhs_vals
  end.

(** [Laplace.compute_Neumann_integral]. *)
Definition compute_Neumann_integral
           (self : FEM)
           (neumann_bc_info : option (list location_fn * list (vector -> vector)))
  : result matrix :=
  let integral := np.zeros (num_total_nodes (mesh self)) (vec self) in
  match neumann_bc_info with
  | None => Ok integral
  | Some (location_fns, value_fns) =>
      let boundary_inds_list :=
        Neuman_boundary_conditions_inds (mesh self) location_fns in
      traction_list <-
        Neuman_boundary_conditions_vals self value_fns boundary_inds_list ;;
      fold_left
        (fun acc ib =>
           integral <- acc ;;
           let '(i, boundary_inds) := ib in
           match nth_error traction_list i with
           | None => Raise IndexError
           | Some traction =>
               _ <- check_components (vec self) traction ;;
               let nanson_scale := snd (get_face_shape_grads (mesh self) boundary_inds) in
               let v_vals :=
                 map (fun p => np.take [] (face_shape_vals self) (snd p)) boundary_inds in
               let subset_cells :=
                 map (fun p => np.take [] (cells (mesh self)) (fst p)) boundary_inds in
               let int_vals :=
                 map (fun s =>
                        map (fun n =>
                               map (fun v =>
                                      np.sum (map2 (fun vq tq =>
                                                      vget vq n * bget (fst tq) v * snd tq)
                                                   (fst (fst s))
                                                   (combine (snd (fst s)) (snd s))))
                                   (seq 0 (vec self)))
                            (seq 0 num_nodes))
                     (combine (combine v_vals traction) nanson_scale) in
               int_vals <- reshape_rows (vec self) (concat (concat int_vals)) ;;
               scatter_add integral (concat subset_cells) int_vals
           end)
        (combine (seq 0 (length boundary_inds_list)) boundary_inds_list)
        (Ok integral)
  end.

(** [shape_grads[:, :, :, None, :] * JxW[:, :, None, None, None]]. *)
Definition make_v_grads_JxW (shape_grads : tensor4) (JxW : matrix) : tensor5 :=
  map2 (fun grads_c JxW_c =>
          map2 (fun grads_q JxW_q =>
                  map (fun g => [map (fun x => x * JxW_q) g]) grads_q)
               grads_c JxW_c)
       shape_grads JxW.

(** [Laplace.__init__]. *)
Definition Laplace_init (vec : nat) (mesh : Mesh) (dirichlet : dirichlet_bc_info)
           (neumann_bc_info : option (list location_fn * list (vector -> vector)))
           (source_info : option (vector -> vector)) : result Laplace :=
  self <- FEM_init vec mesh dirichlet ;;
  body_force <- compute_body_force self source_info ;;
  neumann <- compute_Neumann_integral self neumann_bc_info ;;
  Ok {| fem := self; body_force := body_force; neumann := neumann;
        v_grads_JxW := make_v_grads_JxW (shape_grads self) (JxW self) |}.

(** The first two lines of [Laplace.compute_residual] (and of
    [Plasticity.update_stress_strain]): the gradient of the solution at
    every quadrature point, [(num_cells, num_quads, vec, dim)]. *)
Definition compute_u_grads (self : FEM) (sol : matrix) : tensor4 :=
  map2 (fun cell grads_c =>
          let u := map (np.take [] sol) cell in
          map (fun grads_q =>
                 map (fun v =>
                        map (fun d =>
                               np.sum (map2 (fun u_n g_n => vget u_n v * vget g_n d)
                                            u grads_q))
                            (seq 0 dim))
                     (seq 0 (ncols sol)))
              grads_c)
       (cells (mesh self)) (shape_grads self).

(** [np.sum(u_physics[:, :, None, :, :] * self.v_grads_JxW, axis=(1, -1))]:
    [(num_cells, num_nodes, vec)]. *)
Definition weak_form (u_physics : tensor4) (v_grads_JxW : tensor5) : tensor3 :=
  let components := length (hd [] (hd [] u_physics)) in
  map2 (fun physics_c v_c =>
          map (fun n =>
                 map (fun v =>
                        np.sum (map2 (fun physics_q v_q =>
                                        np.sum (map (fun d =>
                                                       mget physics_q v d
                                                       * vget (hd [] (nth n v_q [])) d)
                                                    (seq 0 dim)))
                                     physics_c v_c))
                     (seq 0 components))
              (seq 0 num_nodes))
       u_physics v_grads_JxW.

(** The material model: a subclass of [Laplace] with its [compute_physics]. *)
Class Physics (Self : Type) : Type := {
  laplace : Self -> Laplace;
  compute_physics : matrix -> tensor4 -> M Self tensor4
}.

(** [Laplace.compute_residual]. *)
Definition compute_residual {Self : Type} `{Physics Self} (sol : matrix) : M Self matrix :=
  self <~ getM ;;
  let L := laplace self in
  let u_grads := compute_u_grads (fem L) sol in
  u_physics <~ compute_physics sol u_grads ;;
  weak <~ liftM (reshape_rows (vec (fem L))
                   (concat (concat (weak_form u_physics (v_grads_JxW L))))) ;;
  let res := np.zeros_like sol in
  res <~ liftM (scatter_add res (concat (cells (mesh (fem L)))) weak) ;;
  res <~ liftM (np_subtract res (body_force L)) ;;
  liftM (np_subtract res (neumann L)).

(** [class LinearPoisson]: [vec = 1] and the inherited [compute_physics],
    the identity. *)
Record LinearPoisson : Type := { poisson_base : Laplace }.

Definition LinearPoisson_init (mesh : Mesh) (dirichlet : dirichlet_bc_info)
           (neumann_bc_info : option (list location_fn * list (vector -> vector)))
           (source_info : option (vector -> vector)) : result LinearPoisson :=
  base <- Laplace_init 1 mesh dirichlet neumann_bc_info source_info ;;
  Ok {| poisson_base := base |}.

(** [Laplace.compute_physics]. *)
Definition Laplace_compute_physics {Self : Type} (sol : matrix) (u_grads : tensor4)
  : M Self tensor4 :=
  retM u_grads.

#[export] Instance LinearPoisson_Physics : Physics LinearPoisson := {
  laplace := poisson_base;
  compute_physics := Laplace_compute_physics
}.

(** [class NonlinearPoisson]: [vec = 1] and the flux [(1 + u^2) * grad u]. *)
Record NonlinearPoisson : Type := { nonlinear_base : Laplace }.

Definition NonlinearPoisson_init (mesh : Mesh) (dirichlet : dirichlet_bc_info)
           (neumann_bc_info : option (list location_fn * list (vector -> vector)))
           (source_info : option (vector -> vector)) : result NonlinearPoisson :=
  base <- Laplace_init 1 mesh dirichlet neumann_bc_info source_info ;;
  Ok {| nonlinear_base := base |}.

(** [NonlinearPoisson.compute_physics]. *)
Definition NonlinearPoisson_compute_physics (sol : matrix) (u_grads : tensor4)
  : M NonlinearPoisson tensor4 :=
  self <~ getM ;;
  let L := fem (nonlinear_base self) in
  let u_vals :=
    map (fun cell =>
           let u := map (np.take [] sol) cell in
           map (fun vals_q =>
                  map (fun v => np.sum (map2 (fun u_n s => vget u_n v * s) u vals_q))
                      (seq 0 (ncols sol)))
               (shape_vals L))
        (cells (mesh L)) in
  retM (map2 (map2 (fun u_q grad_q =>
                      map2 (fun u_v grad_v => map (fun g => (1 + u_v * u_v) * g) grad_v)
                           u_q grad_q))
             u_vals u_grads).

#[export] Instance NonlinearPoisson_Physics : Physics NonlinearPoisson := {
  laplace := nonlinear_base;
  compute_physics := NonlinearPoisson_compute_physics
}.

(** ** Elementwise operations on matrices *)

Definition mmap2 (f : R -> R -> R) (a b : matrix) : matrix := map2 (map2 f) a b.
Definition mscale (c : R) (a : matrix) : matrix := map (map (Rmult c)) a.
Definition mdiv (a : matrix) (c : R) : matrix := map (map (fun x => x / c)) a.
(** [np.sum] over all entries of a matrix. *)
Definition msum (a : matrix) : R := np.sum (concat a).

(** [u_grads.reshape(-1, vec, dim)]. *)
Definition reshape_matrices (vec dim : nat) (u_grads : tensor4) : result tensor3 :=
  rows <- reshape_rows dim (concat (concat (concat u_grads))) ;;
  reshape_rows vec rows.

(** [t.reshape(u_grads.shape)] for [t] with as many entries as [u_grads]. *)
Definition reshape_like (u_grads : tensor4) (t : tensor3) : tensor4 :=
  let num_quads := length (hd [] u_grads) in
  let vec := length (hd [] (hd [] u_grads)) in
  let dim := length (hd [] (hd [] (hd [] u_grads))) in
  chunk num_quads (chunk vec (chunk dim (concat (concat t)))).

(** [t.reshape(old.shape)] for [t] with the entries [flat], as many as [old] has. *)
Definition reshape_like3 (old : tensor3) (flat : vector) : tensor3 :=
  let vec := length (hd [] old) in
  let dim := length (hd [] (hd [] old)) in
  chunk vec (chunk dim flat).

(** [jax.vmap(f)] over three arrays: they must agree on the mapped extent. *)
Definition vmap3 {A B C D : Type} (f : A -> B -> C -> D)
           (a : list A) (b : list B) (c : list C) : result (list D) :=
  if Nat.eqb (length a) (length b) && Nat.eqb (length b) (length c)
  then Ok (map2 (fun x yz => f x (fst yz) (snd yz)) a (combine b c))
  else Raise ShapeError.

(** ** [class LinearElasticity] *)

Definition E : R := 70000.
Definition nu : R := 3 / 10.
Definition mu : R := E / (2 * (1 + nu)).
Definition lmbda : R := E * nu / ((1 + nu) * (1 - 2 * nu)).

(** The local function [stress] of [LinearElasticity.stress_strain_fns]. *)
Definition elastic_stress (u_grad : matrix) : matrix :=
  let epsilon := mscale (1 / 2) (mmap2 Rplus u_grad (np.T u_grad)) in
  mmap2 Rplus (mscale (lmbda * np.trace epsilon) (np.eye dim)) (mscale (2 * mu) epsilon).

Record LinearElasticity : Type := { elasticity_base : Laplace }.

Definition LinearElasticity_init (mesh : Mesh) (dirichlet : dirichlet_bc_info)
           (neumann_bc_info : option (list location_fn * list (vector -> vector)))
           (source_info : option (vector -> vector)) : result LinearElasticity :=
  base <- Laplace_init 3 mesh dirichlet neumann_bc_info source_info ;;
  Ok {| elasticity_base := base |}.

(** [LinearElasticity.compute_physics]. *)
Definition LinearElasticity_compute_physics (sol : matrix) (u_grads : tensor4)
  : M LinearElasticity tensor4 :=
  self <~ getM ;;
  u_grads_reshape <~
    liftM (reshape_matrices (vec (fem (elasticity_base self))) dim u_grads) ;;
  let vmap_stress := map elastic_stress in
  retM (reshape_like u_grads (vmap_stress u_grads_reshape)).

#[export] Instance LinearElasticity_Physics : Physics LinearElasticity := {
  laplace := elasticity_base;
  compute_physics := LinearElasticity_compute_physics
}.

(** ** [class Plasticity] *)

Record Plasticity : Type := {
  plasticity_base : Laplace;
  epsilons_old : tensor3;          (* (num_cells * num_quads, vec, dim) *)
  sigmas_old : tensor3             (* (num_cells * num_quads, vec, dim) *)
}.

(** [Plasticity.__init__]. *)
Definition Plasticity_init (mesh : Mesh) (dirichlet : dirichlet_bc_info)
           (neumann_bc_info : option (list location_fn * list (vector -> vector)))
           (source_info : option (vector -> vector)) : result Plasticity :=
  base <- Laplace_init 3 mesh dirichlet neumann_bc_info source_info ;;
  let epsilons_old :=
    repeat (np.zeros (vec (fem base)) dim) (length (cells mesh) * num_quads) in
  Ok {| plasticity_base := base;
        epsilons_old := epsilons_old;
        sigmas_old := map np.zeros_like epsilons_old |}.

(** The local definitions of [Plasticity.stress_strain_fns]. *)
Definition EPS : R := 1 / 10000000000.

Definition safe_sqrt (x : R) : R :=
  let safe_x := np.where_gt0 x x EPS in
  sqrt safe_x.

Definition strain (u_grad : matrix) : matrix :=
  mscale (1 / 2) (mmap2 Rplus u_grad (np.T u_grad)).

Definition stress (epsilon : matrix) : matrix :=
  mmap2 Rplus (mscale (lmbda * np.trace epsilon) (np.eye dim)) (mscale (2 * mu) epsilon).

Definition stress_return_map (u_grad sigma_old epsilon_old : matrix) : matrix :=
  let sig0 := 250 in
  let epsilon_crt := strain u_grad in
  let epsilon_inc := mmap2 Rminus epsilon_crt epsilon_old in
  let sigma_trial := mmap2 Rplus (stress epsilon_inc) sigma_old in
  let s_dev :=
    mmap2 Rminus sigma_trial
          (mscale (1 / INR dim * np.trace sigma_trial) (np.eye dim)) in
  let s_norm := safe_sqrt (3 / 2 * msum (mmap2 Rmult s_dev s_dev)) in
  let f_yield := s_norm - sig0 in
  let f_yield_plus := np.where_gt0 f_yield f_yield 0 in
  mmap2 Rminus sigma_trial (mdiv (mscale f_yield_plus s_dev) (s_norm + EPS)).

(** [Plasticity.stress_strain_fns]: [(vmap_strain, vmap_stress_return_map)]. *)
Definition stress_strain_fns
  : (tensor3 -> tensor3) * (tensor3 -> tensor3 -> tensor3 -> result tensor3) :=
  (map strain, vmap3 stress_return_map).

(** [Plasticity.compute_physics]. *)
Definition Plasticity_compute_physics (sol : matrix) (u_grads : tensor4)
  : M Plasticity tensor4 :=
  self <~ getM ;;
  u_grads_reshape <~
    liftM (reshape_matrices (vec (fem (plasticity_base self))) dim u_grads) ;;
  let vmap_stress_rm := snd stress_strain_fns in
  sigmas <~ liftM (vmap_stress_rm u_grads_reshape (sigmas_old self) (epsilons_old self)) ;;
  retM (reshape_like u_grads sigmas).

#[export] Instance Plasticity_Physics : Physics Plasticity := {
  laplace := plasticity_base;
  compute_physics := Plasticity_compute_physics
}.

(** [Plasticity.update_stress_strain]. *)
Definition update_stress_strain (sol : matrix) : M Plasticity unit :=
  self <~ getM ;;
  let u_grads := compute_u_grads (fem (plasticity_base self)) sol in
  u_grads_reshape <~
    liftM (reshape_matrices (vec (fem (plasticity_base self))) dim u_grads) ;;
  let vmap_strain := fst stress_strain_fns in
  let vmap_stress_rm := snd stress_strain_fns in
  sigmas <~ liftM (vmap_stress_rm u_grads_reshape (sigmas_old self) (epsilons_old self)) ;;
  let sigmas := reshape_like u_grads sigmas in
  let epsilons := vmap_strain u_grads_reshape in
  putM {| plasticity_base := plasticity_base self;
          sigmas_old :=
            reshape_like3 (sigmas_old self) (concat (concat (concat sigmas)));
          epsilons_old :=
            reshape_like3 (epsilons_old self) (concat (concat epsilons)) |}.

(** [Plasticity.compute_avg_stress]. *)
Definition compute_avg_stress : M Plasticity matrix :=
  self <~ getM ;;
  let L := fem (plasticity_base self) in
  let weights := concat (JxW L) in
  let k := if Nat.eqb (length weights) 1 then length (sigmas_old self)
           else length weights in
  weights <~ liftM (broadcast_axis 0 k weights) ;;
  sigmas <~ liftM (broadcast_axis [] k (sigmas_old self)) ;;
  let sigma :=
    map (fun i =>
           map (fun j => np.sum (map2 (fun s w => mget s i j * w) sigmas weights))
               (seq 0 (length (hd [] (hd [] (sigmas_old self))))))
        (seq 0 (length (hd [] (sigmas_old self)))) in
  let vol := msum (JxW L) in
  retM (mdiv sigma vol).

(** ** The return mapping, entry by entry

    The formulas of the specification for the radial return, to compare
    with [stress_return_map]. *)

Definition kron (i j : nat) : R := if Nat.eqb i j then 1 else 0.

(** The [dim] x [dim] matrix with the entries [f i j]. *)
Definition entries (f : nat -> nat -> R) : matrix :=
  map (fun i => map (fun j => f i j) (seq 0 dim)) (seq 0 dim).

(** An array of shape [(k, n)]. *)
Definition shape2 {A : Type} (a : list (list A)) (k n : nat) : Prop :=
  length a = k /\ Forall (fun row => length row = n) a.

Section ReturnMapping.

Variables u_grad sigma_old epsilon_old : matrix.

(** The strain increment: the symmetric gradient minus the stored strain. *)
Definition strain_increment (i j : nat) : R :=
  (mget u_grad i j + mget u_grad j i) / 2 - mget epsilon_old i j.

(** The trial stress: the linear-elastic stress of the strain increment
    plus the stored stress. *)
Definition trial_stress (i j : nat) : R :=
  lmbda * (strain_increment 0 0 + strain_increment 1 1 + strain_increment 2 2)
  * kron i j
  + 2 * mu * strain_increment i j
  + mget sigma_old i j.

(** The deviatoric part of the trial stress. *)
Definition deviatoric_stress (i j : nat) : R :=
  trial_stress i j
  - (trial_stress 0 0 + trial_stress 1 1 + trial_stress 2 2) / 3 * kron i j.

(** [3/2 * sum(s_dev * s_dev)]. *)
Definition deviatoric_square : R :=
  3 / 2 * msum (entries (fun i j => deviatoric_stress i j * deviatoric_stress i j)).

(** The regularised norm: the square root of [deviatoric_square], or of
    [EPS] when [deviatoric_square] is not positive. *)
Definition regularised_norm : R :=
  sqrt (if Rlt_dec 0 deviatoric_square then deviatoric_square else EPS).

Definition yield_excess : R := regularised_norm - 250.

Definition returned_stress (i j : nat) : R :=
  if Rle_dec yield_excess 0 then trial_stress i j
  else trial_stress i j
       - yield_excess * deviatoric_stress i j / (regularised_norm + EPS).

End ReturnMapping.

(** ** Well-formed meshes and the volume of a cell *)

(** The invariant of the mesh data model: points have [dim] coordinates and
    every cell names [num_nodes] nodes of the mesh. *)
Definition mesh_wf (m : Mesh) : Prop :=
  Forall (fun p => length p = dim) (points m)
  /\ Forall (fun cell => length cell = num_nodes
                         /\ Forall (fun n => (n < num_total_nodes m)%nat) cell)
            (cells m).

(** Six times the signed volume of the tetrahedron with corners the origin,
    [p], [q] and [r]. *)
Definition triple_product (p q r : vector) : R := np.det [p; q; r].

(** Twelve times the signed volume of the cone from the origin over the
    face with corners [a], [b], [c], [d] (in this order around the face, counter-clockwise
    seen from outside), taken as the mean over the two ways of cutting the
    face into two triangles. *)
Definition face_cone (coos : matrix) (a b c d : nat) : R :=
  let P n := nth n coos [] in
  triple_product (P a) (P b) (P c) + triple_product (P a) (P c) (P d)
  + triple_product (P a) (P b) (P d) + triple_product (P b) (P c) (P d).

(** The physical volume of a cell with nodal coordinates [coos], in the
    node order of [node_points]: the volume enclosed by its six faces, by
    the divergence theorem.  This follows the specification ("the cell's
    physical volume"), not the program. *)
Definition physical_volume (coos : matrix) : R :=
  (face_cone coos 0 3 2 1 + face_cone coos 4 5 6 7
   + face_cone coos 0 1 5 4 + face_cone coos 3 7 6 2
   + face_cone coos 0 4 7 3 + face_cone coos 1 2 6 5) / 12.

(** Simpson's rule on [-1, 1] (exact on cubic polynomials), divided by two. *)
Definition simpson (p : R -> R) : R := (p (-1) + 4 * p 0 + p 1) / 6.

(** The mean of [F] over the reference cube [-1, 1]^3 by Simpson's rule in
    each coordinate; times 8, the integral of [F] when [F] has degree at
    most three in each coordinate. *)
Definition cube_mean (F : R -> R -> R -> R) : R :=
  simpson (fun x => simpson (fun y => simpson (fun z => F x y z))).

(** The Jacobian determinant of the cell at the reference point [x]. *)
Definition jacobian_det_at (coos : matrix) (x : vector) : R :=
  np.det (jacobian coos (eval_fns get_shape_grad_functions x)).

(** The local [jacobian_det] of [FEM.get_shape_grads]: the determinant of
    the Jacobian of the reference-to-physical map for every cell and every
    quadrature point, [(num_cells, num_quads)]. *)
Definition jacobian_dets (m : Mesh) : matrix :=
  map (fun coos => map np.det (map (jacobian coos) shape_grads_reference))
      (physical_coos m).

(** ** Sample meshes *)

(** The unit cube as a single hexahedron. *)
Definition unit_cube : Mesh :=
  {| points := [ [0; 0; 0]; [1; 0; 0]; [1; 1; 0]; [0; 1; 0];
                 [0; 0; 1]; [1; 0; 1]; [1; 1; 1]; [0; 1; 1] ];
     cells := [ [0; 1; 2; 3; 4; 5; 6; 7]%nat ] |}.

(** The Jacobian of the unit cube. *)
Definition half : matrix := [[1 / 2; 0; 0]; [0; 1 / 2; 0]; [0; 0; 1 / 2]].

(** The same cube with the bottom and the top face exchanged in the
    connectivity: an inverted element. *)
Definition inverted_cube : Mesh :=
  {| points := points unit_cube;
     cells := [ [4; 5; 6; 7; 0; 1; 2; 3]%nat ] |}.

(** The coordinates of the four nodes of local face [f] of cell [c]:
    [points[cells[c, face_inds[f, k]]]] for [k = 0, 1, 2, 3]. *)
Definition face_node_coordinates (m : Mesh) (c f : nat) : matrix :=
  map (fun k => nth (nth k (nth c (cells m) []) 0%nat) (points m) [])
      (nth f get_face_inds []).

(** Sample boundary data: the location function of the docstring,
    [lambda x: np.isclose(x[0], 0.)], its counterpart for [x[0] = 1], and
    the constant value 1. *)
Definition on_x0 : location_fn := fun x => np.isclose (vget x 0) 0.
Definition on_x1 : location_fn := fun x => np.isclose (vget x 0) 1.
Definition one : value_fn := fun _ => 1.

(** ** Invariants of the objects *)

(** What [Laplace.__init__] establishes: arrays per cell for every cell of
    a well-formed mesh, and [(num_total_nodes, vec)] load vectors. *)
Definition laplace_wf (L : Laplace) : Prop :=
  let m := mesh (fem L) in
  mesh_wf m
  /\ (0 < vec (fem L))%nat
  /\ (0 < num_total_nodes m)%nat
  /\ length (shape_grads (fem L)) = num_cells m
  /\ Forall (fun grads => length grads = num_quads) (shape_grads (fem L))
  /\ length (v_grads_JxW L) = num_cells m
  /\ shape2 (body_force L) (num_total_nodes m) (vec (fem L))
  /\ shape2 (neumann L) (num_total_nodes m) (vec (fem L)).

(** What [Plasticity.__init__] establishes and [update_stress_strain]
    keeps: three components, and one stored 3x3 stress and strain per
    quadrature point of every cell. *)
Definition plasticity_wf (self : Plasticity) : Prop :=
  let L := plasticity_base self in
  laplace_wf L
  /\ vec (fem L) = dim
  /\ length (sigmas_old self) = (num_cells (mesh (fem L)) * num_quads)%nat
  /\ length (epsilons_old self) = (num_cells (mesh (fem L)) * num_quads)%nat
  /\ Forall (fun s => shape2 s dim dim) (sigmas_old self)
  /\ Forall (fun e => shape2 e dim dim) (epsilons_old self).

(** The part of [Laplace.compute_residual] that follows the call of
    [compute_physics]. *)
Definition assemble (L : Laplace) (sol : matrix) (u_physics : tensor4) : result matrix :=
  weak <- reshape_rows (vec (fem L))
            (concat (concat (weak_form u_physics (v_grads_JxW L)))) ;;
  res <- scatter_add (np.zeros_like sol) (concat (cells (mesh (fem L)))) weak ;;
  res <- np_subtract res (body_force L) ;;
  np_subtract res (neumann L).

(** ** Predicates of the statements *)

(** [g] is the gradient of [f]: its three components are the partial
    derivatives of [f] at every point. *)
Definition is_gradient (f : vector -> R) (g : vector -> vector) : Prop :=
  forall x y z,
    length (g [x; y; z]) = dim
    /\ derivable_pt_lim (fun t => f [t; y; z]) x (vget (g [x; y; z]) 0)
    /\ derivable_pt_lim (fun t => f [x; t; z]) y (vget (g [x; y; z]) 1)
    /\ derivable_pt_lim (fun t => f [x; y; t]) z (vget (g [x; y; z]) 2).

(** A row of shape values, and a block of shape gradients, of a table built
    by the inner loop at some point. *)
Definition unit_row (row : vector) : Prop :=
  length row = num_nodes /\ np.sum row = 1.

Definition null_block (grads : matrix) : Prop :=
  length grads = num_nodes /\ sum_vectors dim grads = [0; 0; 0].

(** [p] is a polynomial of degree at most two. *)
Definition quadratic (p : R -> R) : Prop :=
  forall t, p t = p 0 + (p 1 - p (-1)) / 2 * t + ((p 1 + p (-1)) / 2 - p 0) * (t * t).

(** The nodal coordinates of one cell: [num_nodes] points of [dim]
    coordinates. *)
Definition cell_coos_wf (coos : matrix) : Prop :=
  length coos = num_nodes /\ Forall (fun p => length p = dim) coos.

(** The cell spanned by the edges [e1], [e2], [e3] at the corner [p]. *)
Definition parallelepiped (p e1 e2 e3 : vector) : matrix :=
  map (fun b : Z * Z * Z =>
         map (fun d => vget p d + IZR (fst (fst b)) * vget e1 d
                       + IZR (snd (fst b)) * vget e2 d + IZR (snd b) * vget e3 d)
             (seq 0 dim))
      [ (0, 0, 0); (1, 0, 0); (1, 1, 0); (0, 1, 0);
        (0, 0, 1); (1, 0, 1); (1, 1, 1); (0, 1, 1) ]%Z.

(** A method that only reads the object. *)
Definition read_only {S A : Type} (c : M S A) : Prop :=
  forall self, snd (c self) = self.

(** ** Notions of the further statements *)

(** The integral of [t^i] over [[-1, 1]]: [2 / (i + 1)] for an even [i]
    and 0 for an odd one. *)
Definition monomial_integral (i : nat) : R := (1 - (-1) ^ (i + 1)) / INR (i + 1).

(** The monomial [x^i * y^j * z^k] at the point [q]. *)
Definition monomial (i j k : nat) (q : vector) : R :=
  vget q 0 ^ i * vget q 1 ^ j * vget q 2 ^ k.

(** The coordinate axis a local face is orthogonal to, and the value of
    that coordinate on the face: faces are listed for [d] in [range(dim)]
    and, for each [d], for [s] in [face_extremes]. *)
Definition face_axis (f : nat) : nat := (f / 2)%nat.
Definition face_side (f : nat) : R := nth (f mod 2) face_extremes 0.

(** The scalar product of two vectors of [dim] components. *)
Definition dot (a x : vector) : R :=
  vget a 0 * vget x 0 + vget a 1 * vget x 1 + vget a 2 * vget x 2.

(** The vector product. *)
Definition cross (u v : vector) : vector :=
  [ vget u 1 * vget v 2 - vget u 2 * vget v 1;
    vget u 2 * vget v 0 - vget u 0 * vget v 2;
    vget u 0 * vget v 1 - vget u 1 * vget v 0 ].

(** The image of the reference point [x] under the affine map that sends
    the reference cube to the cell spanned by [e1], [e2], [e3] at [p]. *)
Definition affine_image (p e1 e2 e3 x : vector) : vector :=
  map (fun d => vget p d + (1 + vget x 0) / 2 * vget e1 d
                + (1 + vget x 1) / 2 * vget e2 d + (1 + vget x 2) / 2 * vget e3 d)
      (seq 0 dim).

(** The two edges of a parallelepiped that span its faces orthogonal to
    the reference axis of the local face [f]. *)
Definition face_span (f : nat) (e1 e2 e3 : vector) : vector * vector :=
  nth (face_axis f) [(e2, e3); (e3, e1); (e1, e2)] ([], []).

(** The sum of the component [v] over the rows of a two-dimensional array:
    [np.sum(a[:, v])]. *)
Definition column_sum (a : matrix) (v : nat) : R :=
  np.sum (map (fun row => vget row v) a).

(** The test-function gradients of one quadrature point (a block of
    [v_grads_JxW]) sum to zero over the nodes, in every direction. *)
Definition balanced_block (V : tensor3) : Prop :=
  forall d, np.sum (map (fun n => vget (hd [] (nth n V [])) d) (seq 0 num_nodes)) = 0.

(** The deviatoric part of a stress, as [stress_return_map] computes it
    for the trial stress, and its von Mises norm [sqrt(3/2 * s:s)]. *)
Definition deviator (sigma : matrix) : matrix :=
  mmap2 Rminus sigma (mscale (1 / INR dim * np.trace sigma) (np.eye dim)).

Definition von_mises (sigma : matrix) : R :=
  sqrt (3 / 2 * msum (mmap2 Rmult (deviator sigma) (deviator sigma))).

(** The local [sigma_trial] of [stress_return_map]. *)
Definition sigma_trial (u_grad sigma_old epsilon_old : matrix) : matrix :=
  mmap2 Rplus (stress (mmap2 Rminus (strain u_grad) epsilon_old)) sigma_old.

(** The nodal values of the affine field [x |-> b + A x] on the mesh [m]:
    a solution array of shape [(num_total_nodes, dim)]. *)
Definition affine_field (b : vector) (A : matrix) (m : Mesh) : matrix :=
  map (fun x => map (fun v => vget b v + dot (nth v A []) x) (seq 0 dim)) (points m).

(** ** [class HyperElasticity] *)

(** [a @ b] on two matrices whose inner extents agree. *)
Definition matmul (a b : matrix) : matrix :=
  map (fun row =>
         map (fun j => np.sum (map2 (fun x brow => x * vget brow j) row b))
             (seq 0 (ncols b)))
      a.

Definition kappa : R := E / (3 * (1 - 2 * nu)).

(** The local function [psi] of [HyperElasticity.stress_strain_fns], the
    strain energy density of the deformation gradient [F].  The power
    [J ** (-2/3)] is the real power [Rpower], which is the power of the
    program for [J > 0]; for [J <= 0] the program computes [inf] or [nan],
    which have no counterpart here. *)
Definition psi (F : matrix) : R :=
  let J := np.det F in
  let Jinv := Rpower J (-2 / 3) in
  let I1 := np.trace (matmul (np.T F) F) in
  mu / 2 * (Jinv * I1 - 3) + kappa / 2 * (J - 1) ^ 2.

(** The matrix of the cofactors of a 3x3 matrix: the partial derivatives
    of its determinant with respect to its entries. *)
Definition cofactor (F : matrix) : matrix :=
  entries (fun i j =>
             mget F ((i + 1) mod 3) ((j + 1) mod 3) * mget F ((i + 2) mod 3) ((j + 2) mod 3)
             - mget F ((i + 1) mod 3) ((j + 2) mod 3)
               * mget F ((i + 2) mod 3) ((j + 1) mod 3)).

(** [P_fn = jax.grad(psi)], written out by the chain rule: entry [(i, j)]
    is the partial derivative of [psi] with respect to [F[i, j]]
    ([P_fn_is_gradient] below, for [det F > 0]). *)
Definition P_fn (F : matrix) : matrix :=
  let J := np.det F in
  let I1 := np.trace (matmul (np.T F) F) in
  entries (fun i j =>
             mu / 2 * (-2 / 3 * Rpower J (-2 / 3 - 1) * mget (cofactor F) i j * I1
                       + Rpower J (-2 / 3) * (2 * mget F i j))
             + kappa / 2 * (2 * (J - 1) * mget (cofactor F) i j)).

(** The local function [first_PK_stress]. *)
Definition first_PK_stress (u_grad : matrix) : matrix :=
  let I := np.eye dim in
  let F := mmap2 Rplus u_grad I in
  P_fn F.

Record HyperElasticity : Type := { hyper_base : Laplace }.

Definition HyperElasticity_init (mesh : Mesh) (dirichlet : dirichlet_bc_info)
           (neumann_bc_info : option (list location_fn * list (vector -> vector)))
           (source_info : option (vector -> vector)) : result HyperElasticity :=
  base <- Laplace_init 3 mesh dirichlet neumann_bc_info source_info ;;
  Ok {| hyper_base := base |}.

(** [HyperElasticity.compute_physics]. *)
Definition HyperElasticity_compute_physics (sol : matrix) (u_grads : tensor4)
  : M HyperElasticity tensor4 :=
  self <~ getM ;;
  u_grads_reshape <~
    liftM (reshape_matrices (vec (fem (hyper_base self))) dim u_grads) ;;
  let vmap_stress := map first_PK_stress in
  retM (reshape_like u_grads (vmap_stress u_grads_reshape)).

#[export] Instance HyperElasticity_Physics : Physics HyperElasticity := {
  laplace := hyper_base;
  compute_physics := HyperElasticity_compute_physics
}.

(** The matrix [F] with the entry [(i, j)] replaced by [t]. *)
Definition set_entry (F : matrix) (i j : nat) (t : R) : matrix :=
  entries (fun a b => if Nat.eqb a i && Nat.eqb b j then t else mget F a b).

(** A rotation: an orthogonal 3x3 matrix of determinant one. *)
Definition rotation (Q : matrix) : Prop :=
  shape2 Q dim dim /\ matmul (np.T Q) Q = np.eye dim /\ np.det Q = 1.

(** ** Post-processing: surface integrals *)

(** One extent of each of two arrays broadcast against the other: the
    extents are equal, or one of them is 1. *)
Definition broadcast_pair {A B : Type} (da : A) (db : B) (a : list A) (b : list B)
  : result (list (A * B)) :=
  let k := if Nat.eqb (length a) 1 then length b else length a in
  a' <- broadcast_axis da k a ;;
  b' <- broadcast_axis db k b ;;
  Ok (combine a' b').

(** The local [u_grads_face] of [Laplace.surface_integral]: the gradient of
    the solution at the quadrature points of the selected faces,
    [(num_selected_faces, num_face_quads, vec, dim)]. *)
Definition compute_u_grads_face (self : FEM) (boundary_inds : list (nat * nat))
           (sol : matrix) : tensor4 :=
  let face_shape_grads_physical := fst (get_face_shape_grads (mesh self) boundary_inds) in
  let cells_sol := map (map (np.take [] sol)) (cells (mesh self)) in
  map2 (fun p grads_f =>
          let u := np.take [] cells_sol (fst p) in
          map (fun grads_q =>
                 map (fun v =>
                        map (fun d =>
                               np.sum (map2 (fun u_n g_n => vget u_n v * vget g_n d)
                                            u grads_q))
                            (seq 0 dim))
                     (seq 0 (ncols sol)))
              grads_f)
       boundary_inds face_shape_grads_physical.

(** [Laplace.surface_integral].  A nested list shows no extents when no
    face is selected, so [surface_fn] takes the extent [vec] of
    [u_grads_face] with the array, and returns the last extent of the
    traction with the traction. *)
Definition surface_integral (self : FEM) (location_fn : location_fn)
           (surface_fn : nat -> tensor4 -> result (nat * tensor3)) (sol : matrix)
  : result vector :=
  let boundary_inds :=
    hd [] (Neuman_boundary_conditions_inds (mesh self) [location_fn]) in
  let nanson_scale := snd (get_face_shape_grads (mesh self) boundary_inds) in
  let u_grads_face := compute_u_grads_face self boundary_inds sol in
  ' (components, traction) <- surface_fn (ncols sol) u_grads_face ;;
  faces <- broadcast_pair [] [] traction nanson_scale ;;
  quads <- mapM (fun tn => broadcast_pair [] 0 (fst tn) (snd tn)) faces ;;
  Ok (map (fun v =>
             np.sum (map (fun quads_f =>
                            np.sum (map (fun tq => vget (fst tq) v * snd tq) quads_f))
                         quads))
          (seq 0 components)).

(** The local function [unity_fn] of [LinearElasticity.compute_surface_area]. *)
Definition unity_fn (vec : nat) (u_grads : tensor4) : result (nat * tensor3) :=
  let unity := map (map (map (map (fun _ => 1)))) u_grads in
  Ok (vec, map (map (map (fun row => vget row 0))) unity).

(** [LinearElasticity.compute_surface_area]. *)
Definition compute_surface_area (location_fn : location_fn) (sol : matrix)
  : M LinearElasticity vector :=
  self <~ getM ;;
  liftM (surface_integral (fem (elasticity_base self)) location_fn unity_fn sol).

(** The local function [traction_fn] of [HyperElasticity.compute_traction]:
    the stress times the fixed vector [(0, 0, 1)]. *)
Definition traction_fn (self : HyperElasticity) (vec0 : nat) (u_grads : tensor4)
  : result (nat * tensor3) :=
  u_grads_reshape <- reshape_matrices (vec (fem (hyper_base self))) dim u_grads ;;
  let sigmas := reshape_like u_grads (map first_PK_stress u_grads_reshape) in
  let normals := [[0]; [0]; [1]] in
  Ok (vec0, map (map (fun sigma => map (fun row => vget row 0) (matmul sigma normals)))
                sigmas).

(** [HyperElasticity.compute_traction]. *)
Definition compute_traction (location_fn : location_fn) (sol : matrix)
  : M HyperElasticity vector :=
  self <~ getM ;;
  liftM (surface_integral (fem (hyper_base self)) location_fn (traction_fn self) sol).

(** The area of local face [f] of a parallelepiped with the edges [e1],
    [e2], [e3]. *)
Definition face_area (f : nat) (e1 e2 e3 : vector) : R :=
  norm (cross (fst (face_span f e1 e2 e3)) (snd (face_span f e1 e2 e3))).

(* ================================================================== *)
(** * Properties *)

(** ** Reference element *)

Lemma shape_vals_partition_of_unity (x : vector) :
  np.sum (eval_fns get_shape_val_functions x) = 1.
Proof.
  unfold eval_fns, get_shape_val_functions, f1, f2, f3, f4, f5, f6, f7, f8.
  cbn [map np.sum fold_right]. field.
Qed.

Lemma shape_grads_sum_zero (x : vector) :
  sum_vectors dim (eval_fns get_shape_grad_functions x) = [0; 0; 0].
Proof.
  unfold sum_vectors, eval_fns, get_shape_grad_functions, dim,
    grad_f1, grad_f2, grad_f3, grad_f4, grad_f5, grad_f6, grad_f7, grad_f8.
  cbn [map seq np.sum fold_right vget nth].
  repeat f_equal; field.
Qed.

(** A function with [p (x + h) = p x + h * l] for every [h] has derivative
    [l] at [x]. *)
Lemma affine_increment_derivative (p : R -> R) (x l : R) :
  (forall h, p (x + h) = p x + h * l) -> derivable_pt_lim p x l.
Proof.
  intros Hp eps Heps.
  exists (mkposreal 1 Rlt_0_1). intros h Hh _.
  rewrite Hp.
  replace ((p x + h * l - p x) / h - l) with 0 by (field; exact Hh).
  rewrite Rabs_R0. exact Heps.
Qed.

Ltac gradient_by_increment :=
  intros x y z; split; [reflexivity|];
  repeat split; apply affine_increment_derivative; intro h;
  cbn [vget nth]; ring.

(** The hand-written gradients are the gradients [jax.grad] stands for. *)
Lemma shape_grad_is_gradient :
  Forall2 is_gradient get_shape_val_functions get_shape_grad_functions.
Proof.
  unfold get_shape_val_functions, get_shape_grad_functions.
  repeat apply Forall2_cons; try apply Forall2_nil.
  - unfold f1, grad_f1; gradient_by_increment.
  - unfold f2, grad_f2; gradient_by_increment.
  - unfold f3, grad_f3; gradient_by_increment.
  - unfold f4, grad_f4; gradient_by_increment.
  - unfold f5, grad_f5; gradient_by_increment.
  - unfold f6, grad_f6; gradient_by_increment.
  - unfold f7, grad_f7; gradient_by_increment.
  - unfold f8, grad_f8; gradient_by_increment.
Qed.

Lemma Forall_eval_vals (pts : matrix) :
  Forall unit_row (map (eval_fns get_shape_val_functions) pts).
Proof.
  apply Forall_map, Forall_forall. intros x _. split.
  - reflexivity.
  - apply shape_vals_partition_of_unity.
Qed.

Lemma Forall_eval_grads (pts : matrix) :
  Forall null_block (map (eval_fns get_shape_grad_functions) pts).
Proof.
  apply Forall_map, Forall_forall. intros x _. split.
  - reflexivity.
  - apply shape_grads_sum_zero.
Qed.

Lemma get_shape_vals_ok :
  get_shape_vals = Ok (map (eval_fns get_shape_val_functions) get_quad_points).
Proof. reflexivity. Qed.

(** C10.  At each of the 8 volume quadrature points and each of the 6 x 4
    face quadrature points the 8 shape values sum to 1 and the 8 reference
    shape gradients sum to the zero vector. *)
Theorem shape_tables_partition_of_unity :
  (exists shape_vals,
      get_shape_vals = Ok shape_vals
      /\ length shape_vals = 8%nat
      /\ Forall unit_row shape_vals)
  /\ (length get_face_shape_vals = 6%nat
      /\ Forall (fun face => length face = 4%nat /\ Forall unit_row face)
                get_face_shape_vals)
  /\ (length shape_grads_reference = 8%nat
      /\ Forall null_block shape_grads_reference)
  /\ (length face_shape_grads_reference = 6%nat
      /\ Forall (fun face => length face = 4%nat /\ Forall null_block face)
                face_shape_grads_reference).
Proof.
  split; [|split; [|split]].
  - eexists. split; [apply get_shape_vals_ok|]. split.
    + reflexivity.
    + apply Forall_eval_vals.
  - split; [reflexivity|].
    unfold get_face_shape_vals. apply Forall_map, Forall_forall.
    intros pts Hin. split.
    + rewrite length_map.
      unfold get_face_quad_points in Hin. cbn in Hin.
      repeat (destruct Hin as [<- | Hin]; [reflexivity|]). destruct Hin.
    + apply Forall_eval_vals.
  - split; [reflexivity|]. apply Forall_eval_grads.
  - split; [reflexivity|].
    unfold face_shape_grads_reference. apply Forall_map, Forall_forall.
    intros pts Hin. split.
    + rewrite length_map.
      unfold get_face_quad_points in Hin. cbn in Hin.
      repeat (destruct Hin as [<- | Hin]; [reflexivity|]). destruct Hin.
    + apply Forall_eval_grads.
Qed.

(** ** Geometric mapping *)

Lemma unit_cube_wf : mesh_wf unit_cube.
Proof.
  split.
  - repeat constructor.
  - repeat constructor; cbn; lia.
Qed.

Lemma inverted_cube_wf : mesh_wf inverted_cube.
Proof.
  split.
  - repeat constructor.
  - repeat constructor; cbn; lia.
Qed.

Lemma sqrt_third_sqr : sqrt (1 / 3) * sqrt (1 / 3) = 1 / 3.
Proof. apply sqrt_sqrt. lra. Qed.

(** The two-point Gauss rule agrees with Simpson's rule on quadratics. *)
Lemma gauss_simpson (p : R -> R) :
  quadratic p ->
  p (-1 * sqrt (1 / 3)) + p (1 * sqrt (1 / 3)) = 2 * simpson p.
Proof.
  intros Hp. unfold simpson.
  rewrite (Hp (-1 * sqrt (1 / 3))), (Hp (1 * sqrt (1 / 3))).
  replace (-1 * sqrt (1 / 3) * (-1 * sqrt (1 / 3))) with (1 / 3)
    by (rewrite <- sqrt_third_sqr at 1; ring).
  replace (1 * sqrt (1 / 3) * (1 * sqrt (1 / 3))) with (1 / 3)
    by (rewrite <- sqrt_third_sqr at 1; ring).
  field.
Qed.

Lemma simpson_ext (p q : R -> R) : (forall t, p t = q t) -> simpson p = simpson q.
Proof. intros H. unfold simpson. now rewrite !H. Qed.

Lemma simpson_plus (p q : R -> R) :
  simpson p + simpson q = simpson (fun t => p t + q t).
Proof. unfold simpson. field. Qed.

Lemma simpson_scal (c : R) (p : R -> R) :
  c * simpson p = simpson (fun t => c * p t).
Proof. unfold simpson. field. Qed.

(** The 2x2x2 Gauss rule of [get_quad_points], with unit weights, gives
    eight times the mean over the reference cube of a function that is
    quadratic in each coordinate. *)
Lemma gauss_rule_cube (F : R -> R -> R -> R) :
  (forall y z, quadratic (fun x => F x y z)) ->
  (forall x z, quadratic (fun y => F x y z)) ->
  (forall x y, quadratic (fun z => F x y z)) ->
  np.sum (map (fun q => F (vget q 0) (vget q 1) (vget q 2)) get_quad_points)
  = 8 * cube_mean F.
Proof.
  intros Hx Hy Hz.
  unfold get_quad_points, gauss. cbn -[IZR sqrt Rdiv Rmult Rplus].
  set (a := sqrt (1 / 3)).
  assert (X : forall y z, F (-1 * a) y z + F (1 * a) y z
                          = 2 * simpson (fun x => F x y z)).
  { intros y z. apply (gauss_simpson (fun x => F x y z)), Hx. }
  assert (Y : forall G : R -> R -> R, (forall z, quadratic (fun y => G y z)) ->
              forall z, G (-1 * a) z + G (1 * a) z = 2 * simpson (fun y => G y z)).
  { intros G HG z. apply (gauss_simpson (fun y => G y z)), HG. }
  transitivity ((F (-1 * a) (-1 * a) (-1 * a) + F (1 * a) (-1 * a) (-1 * a))
                + (F (-1 * a) (1 * a) (-1 * a) + F (1 * a) (1 * a) (-1 * a))
                + ((F (-1 * a) (-1 * a) (1 * a) + F (1 * a) (-1 * a) (1 * a))
                   + (F (-1 * a) (1 * a) (1 * a) + F (1 * a) (1 * a) (1 * a)))).
  { ring. }
  rewrite !X.
  pose (G := fun y z => simpson (fun x => F x y z)).
  assert (HG : forall z, quadratic (fun y => G y z)).
  { intros z t. unfold G, simpson.
    rewrite (Hy (-1) z t), (Hy 0 z t), (Hy 1 z t). field. }
  change (2 * G (-1 * a) (-1 * a) + 2 * G (1 * a) (-1 * a)
          + (2 * G (-1 * a) (1 * a) + 2 * G (1 * a) (1 * a)) = 8 * cube_mean F).
  replace (2 * G (-1 * a) (-1 * a) + 2 * G (1 * a) (-1 * a)
           + (2 * G (-1 * a) (1 * a) + 2 * G (1 * a) (1 * a)))
    with (2 * (G (-1 * a) (-1 * a) + G (1 * a) (-1 * a))
          + 2 * (G (-1 * a) (1 * a) + G (1 * a) (1 * a))) by ring.
  rewrite !(Y G HG).
  pose (K := fun z => simpson (fun y => G y z)).
  assert (HK : quadratic K).
  { intros t. unfold K, G, simpson.
    rewrite !(Hz _ _ t). field. }
  change (2 * (2 * K (-1 * a)) + 2 * (2 * K (1 * a)) = 8 * cube_mean F).
  replace (2 * (2 * K (-1 * a)) + 2 * (2 * K (1 * a)))
    with (4 * (K (-1 * a) + K (1 * a))) by ring.
  pose proof (gauss_simpson K HK) as Z. fold a in Z. rewrite Z.
  unfold K, G, cube_mean, simpson. field.
Qed.

Ltac unfold_det_at :=
  unfold jacobian_det_at, np.det, jacobian, eval_fns, get_shape_grad_functions,
    grad_f1, grad_f2, grad_f3, grad_f4, grad_f5, grad_f6, grad_f7, grad_f8,
    map2, mget, vget, dim;
  cbn [map seq combine fst snd nth np.sum fold_right].

Section OneCell.

(** The coordinates of the eight nodes of a cell. *)
Variables x0 y0 z0 x1 y1 z1 x2 y2 z2 x3 y3 z3 : R.
Variables x4 y4 z4 x5 y5 z5 x6 y6 z6 x7 y7 z7 : R.

Let coos : matrix :=
  [ [x0; y0; z0]; [x1; y1; z1]; [x2; y2; z2]; [x3; y3; z3];
    [x4; y4; z4]; [x5; y5; z5]; [x6; y6; z6]; [x7; y7; z7] ].

Let D (x y z : R) : R := jacobian_det_at coos [x; y; z].

Lemma jacobian_det_quadratic_0 y z : quadratic (fun x => D x y z).
Proof. intros t. unfold D, coos. unfold_det_at. field. Qed.

Lemma jacobian_det_quadratic_1 x z : quadratic (fun y => D x y z).
Proof. intros t. unfold D, coos. unfold_det_at. field. Qed.

Lemma jacobian_det_quadratic_2 x y : quadratic (fun z => D x y z).
Proof. intros t. unfold D, coos. unfold_det_at. field. Qed.

(** The integral of the Jacobian determinant over the reference cube is
    the volume enclosed by the faces of the cell. *)
Lemma jacobian_det_mean_volume : 8 * cube_mean D = physical_volume coos.
Proof.
  unfold cube_mean, simpson, D, physical_volume, face_cone, triple_product, coos.
  unfold_det_at. field.
Qed.

Lemma JxW_sum_one_cell :
  np.sum (map (fun d => d * 1) (map np.det (map (jacobian coos) shape_grads_reference)))
  = physical_volume coos.
Proof.
  rewrite <- jacobian_det_mean_volume.
  rewrite <- (gauss_rule_cube D jacobian_det_quadratic_0 jacobian_det_quadratic_1
                jacobian_det_quadratic_2).
  unfold shape_grads_reference. rewrite !map_map.
  f_equal. apply map_ext. intros q. rewrite Rmult_1_r. reflexivity.
Qed.

End OneCell.

Lemma take_in_range {A : Type} (d : A) (a : list A) (i : nat) :
  (i < length a)%nat -> np.take d a i = nth i a d /\ In (np.take d a i) a.
Proof.
  intros Hi. unfold np.take. split.
  - apply nth_indep, Hi.
  - apply nth_In, Hi.
Qed.

Lemma physical_coos_wf (m : Mesh) :
  mesh_wf m -> Forall cell_coos_wf (physical_coos m).
Proof.
  intros [Hp Hc]. unfold physical_coos. apply Forall_map.
  eapply Forall_impl; [|exact Hc].
  intros cell [Hlen Hin]. split.
  - rewrite length_map. exact Hlen.
  - apply Forall_map. eapply Forall_impl; [|exact Hin].
    intros n Hn. cbn beta.
    rewrite Forall_forall in Hp. apply Hp.
    apply take_in_range, Hn.
Qed.

Lemma vector3_explicit (p : vector) :
  length p = 3%nat -> p = [vget p 0; vget p 1; vget p 2].
Proof.
  destruct p as [|a [|b [|c [|e p]]]]; try discriminate. reflexivity.
Qed.

Lemma list8_explicit {A : Type} (d : A) (l : list A) :
  length l = 8%nat ->
  l = [nth 0 l d; nth 1 l d; nth 2 l d; nth 3 l d;
       nth 4 l d; nth 5 l d; nth 6 l d; nth 7 l d].
Proof.
  do 9 (destruct l as [|? l]; try discriminate). reflexivity.
Qed.

Lemma cell_coos_explicit (coos : matrix) :
  cell_coos_wf coos ->
  coos = map (fun n => [mget coos n 0; mget coos n 1; mget coos n 2]) (seq 0 8).
Proof.
  intros [Hlen Hall].
  rewrite Forall_forall in Hall.
  assert (E : forall n, (n < 8)%nat ->
                nth n coos [] = [mget coos n 0; mget coos n 1; mget coos n 2]).
  { intros n Hn. apply vector3_explicit, Hall, nth_In. rewrite Hlen. exact Hn. }
  cbn [map seq].
  rewrite <- (E 0%nat), <- (E 1%nat), <- (E 2%nat), <- (E 3%nat), <- (E 4%nat),
    <- (E 5%nat), <- (E 6%nat), <- (E 7%nat) by lia.
  apply list8_explicit, Hlen.
Qed.

Lemma JxW_sum_cell (coos : matrix) :
  cell_coos_wf coos ->
  np.sum (map (fun d => d * 1) (map np.det (map (jacobian coos) shape_grads_reference)))
  = physical_volume coos.
Proof.
  intros H. rewrite (cell_coos_explicit coos H). cbn [map seq].
  apply JxW_sum_one_cell.
Qed.

Lemma get_shape_grads_ok (m : Mesh) :
  exists shape_grads,
    get_shape_grads m
    = Ok (shape_grads,
          map (fun coos => map (fun d => d * 1)
                             (map np.det (map (jacobian coos) shape_grads_reference)))
              (physical_coos m))
    /\ length shape_grads = num_cells m.
Proof.
  eexists. split.
  - unfold get_shape_grads. cbn [assert_ bind]. 
    change (Nat.eqb (length shape_grads_reference) num_quads) with true.
    cbn [andb  assert_ bind]. rewrite !map_map. reflexivity.
  - rewrite !length_map. unfold physical_coos. now rewrite length_map.
Qed.

Lemma unit_cube_volume :
  physical_volume (nth 0 (physical_coos unit_cube) []) = 1.
Proof.
  unfold physical_volume, face_cone, triple_product, np.det, mget, vget.
  cbn [physical_coos unit_cube points cells map np.take nth]. field.
Qed.

(** C7.  For every cell of a mesh the sum of [JxW] over the cell's eight
    quadrature points is the physical volume of the cell, and for the unit
    cube made of one hexahedron the sum is 1. *)
Theorem JxW_sum_is_cell_volume (m : Mesh) :
  mesh_wf m ->
  exists shape_grads JxW,
    get_shape_grads m = Ok (shape_grads, JxW)
    /\ length JxW = num_cells m
    /\ (forall c, (c < num_cells m)%nat ->
          length (nth c JxW []) = num_quads
          /\ np.sum (nth c JxW []) = physical_volume (nth c (physical_coos m) []))
    /\ (m = unit_cube -> map np.sum JxW = [1]).
Proof.
  intros Hwf.
  destruct (get_shape_grads_ok m) as [sg [Hsg Hlen]].
  eexists sg, _. split; [exact Hsg|].
  assert (Hc : forall c, (c < num_cells m)%nat ->
     length (nth c (map (fun coos => map (fun d => d * 1)
                 (map np.det (map (jacobian coos) shape_grads_reference)))
                 (physical_coos m)) []) = num_quads
     /\ np.sum (nth c (map (fun coos => map (fun d => d * 1)
                 (map np.det (map (jacobian coos) shape_grads_reference)))
                 (physical_coos m)) [])
        = physical_volume (nth c (physical_coos m) [])).
  { intros c Hc.
    assert (Hc' : (c < length (physical_coos m))%nat).
    { unfold physical_coos. now rewrite length_map. }
    rewrite (nth_indep _ [] (map (fun d => d * 1)
              (map np.det (map (jacobian []) shape_grads_reference))))
      by now rewrite length_map.
    rewrite (map_nth (fun coos => map (fun d => d * 1)
              (map np.det (map (jacobian coos) shape_grads_reference)))).
    split.
    - now rewrite !length_map.
    - apply JxW_sum_cell.
      pose proof (physical_coos_wf m Hwf) as Hall.
      rewrite Forall_forall in Hall. apply Hall, nth_In, Hc'. }
  split; [|split].
  - rewrite length_map. unfold physical_coos. now rewrite length_map.
  - exact Hc.
  - intros ->. destruct (Hc 0%nat) as [_ H0]; [cbv; lia|].
    rewrite unit_cube_volume in H0.
    cbn [physical_coos unit_cube cells map] in H0 |- *.
    cbn [nth] in H0. now rewrite H0.
Qed.

(** An instance of [JxW_sum_is_cell_volume]: the unit cube. *)
Lemma JxW_sum_unit_cube :
  mesh_wf unit_cube
  /\ exists shape_grads JxW,
       get_shape_grads unit_cube = Ok (shape_grads, JxW)
       /\ map np.sum JxW = [1].
Proof.
  split; [exact unit_cube_wf|].
  destruct (JxW_sum_is_cell_volume unit_cube unit_cube_wf)
    as [sg [JxW [H1 [_ [_ H4]]]]].
  exists sg, JxW. split; [exact H1|]. apply H4. reflexivity.
Defined.

(** On a parallelepiped [physical_volume] is the triple product of the edges. *)
Lemma physical_volume_parallelepiped (p e1 e2 e3 : vector) :
  physical_volume (parallelepiped p e1 e2 e3) = triple_product e1 e2 e3.
Proof.
  unfold physical_volume, face_cone, triple_product, np.det, parallelepiped, mget, dim.
  cbn [map seq nth fst snd]. unfold vget at 1. cbn [nth]. unfold vget; cbn [nth].
  field.
Qed.

(** C4 (as the program has it).  [get_shape_grads] does not look at the sign
    of the Jacobian determinant: on every well-formed mesh it returns the
    gradients and [JxW] without an error, and [JxW] is the determinant
    times the unit weight, whatever its sign. *)
Theorem get_shape_grads_never_rejects (m : Mesh) :
  mesh_wf m ->
  exists shape_grads JxW,
    get_shape_grads m = Ok (shape_grads, JxW)
    /\ JxW = map (map (fun d => d * 1)) (jacobian_dets m).
Proof.
  intros _.
  destruct (get_shape_grads_ok m) as [sg [Hsg _]].
  eexists sg, _. split; [exact Hsg|].
  unfold jacobian_dets. rewrite map_map. reflexivity.
Qed.

Lemma jacobian_dets_at (m : Mesh) :
  jacobian_dets m
  = map (fun coos => map (jacobian_det_at coos) get_quad_points) (physical_coos m).
Proof.
  unfold jacobian_dets, shape_grads_reference. apply map_ext. intros coos.
  now rewrite !map_map.
Qed.

Lemma inverted_cube_det_at (x : vector) :
  jacobian_det_at (nth 0 (physical_coos inverted_cube) []) x = - 1 / 8.
Proof.
  cbn [physical_coos inverted_cube unit_cube points cells map np.take nth].
  unfold_det_at. field.
Qed.

Lemma inverted_cube_dets : jacobian_dets inverted_cube = [repeat (- 1 / 8) 8].
Proof.
  rewrite jacobian_dets_at.
  change (physical_coos inverted_cube) with [nth 0 (physical_coos inverted_cube) []].
  cbn [map]. f_equal.
  rewrite (map_ext _ (fun _ => - 1 / 8) inverted_cube_det_at).
  reflexivity.
Qed.

(** C4, refuted as stated: the inverted cube has Jacobian determinant
    [-1/8] at each of its eight quadrature points, and [get_shape_grads]
    returns its arrays, with [JxW = -1/8] throughout. *)
Lemma inverted_cube_accepted :
  mesh_wf inverted_cube
  /\ jacobian_dets inverted_cube = [repeat (- 1 / 8) 8]
  /\ Forall (Forall (fun d => d <= 0)) (jacobian_dets inverted_cube)
  /\ exists shape_grads,
       get_shape_grads inverted_cube
       = Ok (shape_grads, [repeat (- 1 / 8 * 1) 8]).
Proof.
  split; [exact inverted_cube_wf|]. split; [exact inverted_cube_dets|]. split.
  - rewrite inverted_cube_dets. repeat constructor; lra.
  - destruct (get_shape_grads_ok inverted_cube) as [sg [Hsg _]].
    exists sg. rewrite Hsg. do 2 f_equal.
    change (map (fun coos => map (fun d => d * 1)
                   (map np.det (map (jacobian coos) shape_grads_reference)))
                (physical_coos inverted_cube))
      with (map (fun ds => map (fun d => d * 1) ds)
                (map (fun coos => map np.det (map (jacobian coos) shape_grads_reference))
                     (physical_coos inverted_cube))).
    fold (jacobian_dets inverted_cube). rewrite inverted_cube_dets. reflexivity.
Qed.

(** An instance of [get_shape_grads_never_rejects]: the inverted cube. *)
Lemma get_shape_grads_inverted_cube :
  mesh_wf inverted_cube
  /\ exists shape_grads JxW,
       get_shape_grads inverted_cube = Ok (shape_grads, JxW)
       /\ JxW = map (map (fun d => d * 1)) (jacobian_dets inverted_cube).
Proof.
  split; [exact inverted_cube_wf|].
  exact (get_shape_grads_never_rejects inverted_cube inverted_cube_wf).
Defined.

(** ** Boundary resolution *)

Lemma argwhere_from (s : nat) (flags : list bool) :
  map fst (filter snd (combine (seq s (length flags)) flags))
  = filter (fun k => nth (k - s) flags false) (seq s (length flags)).
Proof.
  revert s. induction flags as [|b flags IH]; intros s; [reflexivity|].
  cbn [length seq combine filter snd].
  replace (s - s)%nat with 0%nat by lia.
  change (nth 0 (b :: flags) false) with b.
  assert (E : filter (fun k => nth (k - s) (b :: flags) false) (seq (S s) (length flags))
              = filter (fun k => nth (k - S s) flags false) (seq (S s) (length flags))).
  { apply filter_ext_in. intros k Hk. apply in_seq in Hk.
    replace (k - s)%nat with (S (k - S s)) by lia. reflexivity. }
  destruct b; cbn [map fst]; rewrite IH, E; reflexivity.
Qed.

Lemma argwhere_filter (flags : list bool) :
  np.argwhere flags = filter (fun k => nth k flags false) (seq 0 (length flags)).
Proof.
  unfold np.argwhere. rewrite argwhere_from.
  apply filter_ext. intros k. now rewrite Nat.sub_0_r.
Qed.

Lemma argwhere_In (flags : list bool) (k : nat) :
  In k (np.argwhere flags) <-> (k < length flags)%nat /\ nth k flags false = true.
Proof.
  rewrite argwhere_filter, filter_In, in_seq. intuition lia.
Qed.


Lemma argwhere_map_In {A : Type} (p : A -> bool) (l : list A) (d : A) (k : nat) :
  In k (np.argwhere (map p l)) <-> (k < length l)%nat /\ p (nth k l d) = true.
Proof.
  rewrite argwhere_In, length_map. split.
  - intros [Hk H]. split; [exact Hk|].
    rewrite (nth_indep _ false (p d)) in H by now rewrite length_map.
    now rewrite map_nth in H.
  - intros [Hk H]. split; [exact Hk|].
    rewrite (nth_indep _ false (p d)) by now rewrite length_map.
    now rewrite map_nth.
Qed.

Lemma combine_seq_In {A : Type} (l : list A) (d : A) (i : nat) (a : A) :
  In (i, a) (combine (seq 0 (length l)) l) <-> (i < length l)%nat /\ a = nth i l d.
Proof.
  split.
  - intros Hin.
    destruct (In_nth _ _ (0%nat, d) Hin) as [n [Hn En]].
    rewrite length_combine, length_seq, Nat.min_id in Hn.
    rewrite combine_nth in En by now rewrite length_seq.
    rewrite seq_nth in En by exact Hn. cbn [Nat.add] in En.
    inversion En; subst. split; [exact Hn|reflexivity].
  - intros [Hi ->].
    replace (i, nth i l d) with (nth i (combine (seq 0 (length l)) l) (0%nat, d)).
    + apply nth_In. now rewrite length_combine, length_seq, Nat.min_id.
    + rewrite combine_nth by now rewrite length_seq.
      now rewrite seq_nth.
Qed.

Lemma argwhere2_In (flags : list (list bool)) (i j : nat) :
  In (i, j) (np.argwhere2 flags)
  <-> (i < length flags)%nat /\ In j (np.argwhere (nth i flags [])).
Proof.
  unfold np.argwhere2. rewrite in_flat_map. split.
  - intros [[i' row] [Hin Hj]]. cbn [fst snd] in Hj.
    apply in_map_iff in Hj as [j' [E Hj']]. inversion E; subst i' j'.
    apply (combine_seq_In flags []) in Hin as [Hi ->]. now split.
  - intros [Hi Hj]. exists (i, nth i flags []). split.
    + apply (combine_seq_In flags []). now split.
    + cbn [fst snd]. apply in_map_iff. now exists j.
Qed.

(** A loop that appends one result per index builds the list of the results. *)
Lemma fold_left_append {A B : Type} (f : A -> B) (l : list A) (acc : list B) :
  fold_left (fun acc a => acc ++ [f a]) l acc = acc ++ map f l.
Proof.
  revert acc. induction l as [|a l IH]; intros acc; cbn.
  - now rewrite app_nil_r.
  - rewrite IH, <- app_assoc. reflexivity.
Qed.

Lemma dirichlet_loop (m : Mesh) (location_fns : list location_fn) (vecs : list Z)
      (value_fns : list value_fn) (idx : list nat) acc1 acc2 acc3 :
  let entry i := dirichlet_entry m (nth i location_fns (fun _ => false))
                                 (nth i vecs 0%Z) (nth i value_fns (fun _ => 0)) in
  fold_left
    (fun acc i =>
       let '(node_inds_list, vec_inds_list, vals_list) := acc in
       let '(node_inds, vec_inds, values) :=
         dirichlet_entry m (nth i location_fns (fun _ => false))
                         (nth i vecs 0%Z) (nth i value_fns (fun _ => 0)) in
       (node_inds_list ++ [node_inds], vec_inds_list ++ [vec_inds],
        vals_list ++ [values]))
    idx (acc1, acc2, acc3)
  = (acc1 ++ map (fun i => fst (fst (entry i))) idx,
     acc2 ++ map (fun i => snd (fst (entry i))) idx,
     acc3 ++ map (fun i => snd (entry i)) idx).
Proof.
  intros entry. revert acc1 acc2 acc3.
  induction idx as [|i idx IH]; intros acc1 acc2 acc3; cbn [fold_left map].
  - now rewrite !app_nil_r.
  - subst entry. cbn beta.
    destruct (dirichlet_entry m (nth i location_fns (fun _ => false))
                (nth i vecs 0%Z) (nth i value_fns (fun _ => 0))) as [[a b] c] eqn:E.
    rewrite IH. cbn [fst snd]. rewrite <- !app_assoc. reflexivity.
Qed.

(** C8.  When the three Dirichlet lists do not have one common length the
    resolver raises the assertion error; no list of indices or values is
    returned. *)
Theorem Dirichlet_length_mismatch_rejected
        (m : Mesh) (location_fns : list location_fn) (vecs : list Z)
        (value_fns : list value_fn) :
  ~ (length location_fns = length value_fns /\ length value_fns = length vecs) ->
  Dirichlet_boundary_conditions m (location_fns, vecs, value_fns)
  = Raise AssertionError.
Proof.
  intros H. unfold Dirichlet_boundary_conditions.
  destruct (Nat.eqb (length location_fns) (length value_fns)) eqn:E1;
    [destruct (Nat.eqb (length value_fns) (length vecs)) eqn:E2|]; try reflexivity.
  exfalso. apply H. split; now apply Nat.eqb_eq.
Qed.

(** An instance of [Dirichlet_length_mismatch_rejected]: one location
    function, one value function, no component. *)
Lemma Dirichlet_length_mismatch_unit_cube :
  ~ (length [fun _ : vector => true] = length [fun _ : vector => 0]
     /\ length [fun _ : vector => 0] = length (@nil Z))
  /\ Dirichlet_boundary_conditions
       unit_cube ([fun _ => true], [], [fun _ => 0])
     = Raise AssertionError.
Proof.
  assert (H : ~ (length [fun _ : vector => true] = length [fun _ : vector => 0]
                 /\ length [fun _ : vector => 0] = length (@nil Z))).
  { cbn. intros [_ H]. discriminate H. }
  split; [exact H|].
  exact (Dirichlet_length_mismatch_rejected unit_cube _ _ _ H).
Defined.

Lemma nth_map_seq {B : Type} (f : nat -> B) (n i : nat) (d : B) :
  (i < n)%nat -> nth i (map f (seq 0 n)) d = f i.
Proof.
  intros Hi. rewrite (nth_indep _ d (f 0%nat)) by now rewrite length_map, length_seq.
  rewrite map_nth, seq_nth by exact Hi. reflexivity.
Qed.



Lemma isclose_refl (a : R) : np.isclose a a = true.
Proof.
  unfold np.isclose. destruct (Rle_dec _ _) as [_|H]; [reflexivity|].
  exfalso. apply H. unfold Rminus. rewrite Rplus_opp_r, Rabs_R0.
  pose proof (Rabs_pos a). unfold np.atol, np.rtol. nra.
Qed.

Lemma isclose_far (a b : R) :
  1 <= Rabs (a - b) -> Rabs b <= 1 -> np.isclose a b = false.
Proof.
  intros H1 H2. unfold np.isclose. destruct (Rle_dec _ _) as [H|_]; [|reflexivity].
  exfalso. unfold np.atol, np.rtol in H. lra.
Qed.

Lemma isclose_m1_1 : np.isclose (-1) 1 = false.
Proof.
  apply isclose_far.
  - replace (-1 - 1) with (- (2)) by lra. rewrite Rabs_Ropp, Rabs_pos_eq; lra.
  - rewrite Rabs_pos_eq; lra.
Qed.

Lemma isclose_1_m1 : np.isclose 1 (-1) = false.
Proof.
  apply isclose_far.
  - replace (1 - -1) with 2 by lra. rewrite Rabs_pos_eq; lra.
  - replace (-1) with (- (1)) by lra. rewrite Rabs_Ropp, Rabs_pos_eq; lra.
Qed.

(** The table [get_face_inds] computes: the four nodes of each face, faces
    in the order [x = -1], [x = 1], [y = -1], [y = 1], [z = -1], [z = 1]. *)
Lemma get_face_inds_eq :
  get_face_inds
  = [ [0; 3; 4; 7]; [1; 2; 5; 6]; [0; 1; 4; 5];
      [2; 3; 6; 7]; [0; 1; 2; 3]; [4; 5; 6; 7] ]%nat.
Proof.
  unfold get_face_inds, node_points, face_extremes, dim.
  cbn [flat_map seq map app vget nth].
  rewrite !isclose_refl, !isclose_m1_1, !isclose_1_m1.
  reflexivity.
Qed.

Lemma face_inds_in_range :
  Forall (fun face => length face = 4%nat /\ Forall (fun k => (k < num_nodes)%nat) face)
         get_face_inds.
Proof.
  rewrite get_face_inds_eq. unfold num_nodes.
  repeat constructor.
Qed.

Lemma nth_map_in_range {A B : Type} (g : A -> B) (l : list A) (i : nat) (da : A) (db : B) :
  (i < length l)%nat -> nth i (map g l) db = g (nth i l da).
Proof.
  intros Hi. rewrite (nth_indep _ db (g da)) by now rewrite length_map.
  apply map_nth.
Qed.


(** On a well-formed mesh the gathered face points are the coordinates of
    the face nodes. *)
Lemma cell_face_points_nth (m : Mesh) (c f : nat) :
  mesh_wf m -> (c < num_cells m)%nat -> (f < num_faces)%nat ->
  length (nth c (cell_face_points m) []) = num_faces
  /\ nth f (nth c (cell_face_points m) []) [] = face_node_coordinates m c f.
Proof.
  intros [Hp Hc] Hlt Hf. unfold cell_face_points, physical_coos. cbn zeta.
  rewrite map_map.
  rewrite (@nth_map_in_range (list nat) tensor3 _ (cells m) c [] []) by exact Hlt.
  split.
  - rewrite length_map, get_face_inds_eq. reflexivity.
  - rewrite (@nth_map_in_range (list nat) matrix _ get_face_inds f [] [])
      by (rewrite get_face_inds_eq; exact Hf).
    unfold face_node_coordinates. apply map_ext_in. intros k Hk.
    pose proof face_inds_in_range as Hfi. rewrite Forall_forall in Hfi.
    destruct (Hfi (nth f get_face_inds [])) as [_ Hk8].
    { apply nth_In. rewrite get_face_inds_eq. exact Hf. }
    rewrite Forall_forall in Hk8. specialize (Hk8 k Hk).
    rewrite Forall_forall in Hc.
    destruct (Hc (nth c (cells m) [])) as [Hlen Hin]; [apply nth_In, Hlt|].
    destruct (take_in_range [] (map (np.take [] (points m)) (nth c (cells m) [])) k)
      as [-> _]; [rewrite length_map, Hlen; exact Hk8|].
    rewrite (@nth_map_in_range nat vector _ _ k 0%nat []) by (rewrite Hlen; exact Hk8).
    apply take_in_range.
    rewrite Forall_forall in Hin. apply Hin, nth_In. rewrite Hlen. exact Hk8.
Qed.


Lemma Neuman_boundary_conditions_inds_map (m : Mesh) (location_fns : list location_fn) :
  Neuman_boundary_conditions_inds m location_fns
  = map (fun i => np.argwhere2
                    (map (map (on_boundary (nth i location_fns (fun _ => false))))
                         (cell_face_points m)))
        (seq 0 (length location_fns)).
Proof.
  unfold Neuman_boundary_conditions_inds. cbn zeta.
  now rewrite (fold_left_append
                 (fun i => np.argwhere2
                    (map (map (on_boundary (nth i location_fns (fun _ => false))))
                         (cell_face_points m)))).
Qed.


(** Deciding [np.isclose] on two given numbers. *)
Ltac decide_isclose :=
  unfold np.isclose, np.atol, np.rtol;
  match goal with
  | |- context [Rle_dec ?a ?b] =>
      let H := fresh "H" in
      destruct (Rle_dec a b) as [H|H];
      first [ reflexivity
            | exfalso; revert H; unfold Rabs; repeat destruct (Rcase_abs _); lra ]
  end.

Lemma isclose_0_0 : np.isclose 0 0 = true.
Proof. apply isclose_refl. Qed.

Lemma isclose_1_0 : np.isclose 1 0 = false.
Proof. decide_isclose. Qed.

Lemma isclose_0_1 : np.isclose 0 1 = false.
Proof. decide_isclose. Qed.

(** The face [x = 0] of the unit cube holds the nodes 0, 3, 4 and 7: the
    resolver returns them, with the component and the values asked for. *)
Lemma Dirichlet_unit_cube_x0 :
  Dirichlet_boundary_conditions unit_cube ([on_x0], [0%Z], [one])
  = Ok ([[0; 3; 4; 7]%nat], [[0; 0; 0; 0]%Z], [[1; 1; 1; 1]]).
Proof.
  unfold Dirichlet_boundary_conditions.
  cbn [length Nat.eqb andb assert_ bind seq fold_left nth app].
  unfold dirichlet_entry. cbn [unit_cube points map].
  unfold on_x0. cbn [vget nth].
  rewrite !isclose_0_0, !isclose_1_0. reflexivity.
Qed.

(** The location function [x = 1] selects face 1 of the only cell of the
    unit cube, and a location function that holds nowhere selects nothing. *)
Lemma Neumann_unit_cube_x1 :
  Neuman_boundary_conditions_inds unit_cube [on_x1; fun _ => false]
  = [[(0, 1)%nat]; []].
Proof.
  rewrite Neuman_boundary_conditions_inds_map.
  unfold cell_face_points. rewrite get_face_inds_eq.
  cbn [length seq map nth physical_coos unit_cube points cells np.take].
  unfold on_boundary, on_x1. cbn [map vget nth].
  rewrite !isclose_refl, !isclose_0_1. reflexivity.
Qed.


(** Two entries for the same face and component are both resolved in
    full: nothing is merged. *)
Lemma Dirichlet_unit_cube_x0_twice :
  Dirichlet_boundary_conditions unit_cube ([on_x0; on_x0], [0%Z; 0%Z], [one; one])
  = Ok ([[0; 3; 4; 7]%nat; [0; 3; 4; 7]%nat],
        [[0; 0; 0; 0]%Z; [0; 0; 0; 0]%Z],
        [[1; 1; 1; 1]; [1; 1; 1; 1]]).
Proof.
  unfold Dirichlet_boundary_conditions.
  cbn [length Nat.eqb andb assert_ bind seq fold_left nth app].
  unfold dirichlet_entry. cbn [unit_cube points map].
  unfold on_x0. cbn [vget nth].
  rewrite !isclose_0_0, !isclose_1_0. reflexivity.
Qed.

(** ** Methods and the state of the object *)

Lemma read_only_ret {S A : Type} (a : A) : read_only (@retM S A a).
Proof. intros self. reflexivity. Qed.

Lemma read_only_get {S : Type} : read_only (@getM S).
Proof. intros self. reflexivity. Qed.

Lemma read_only_lift {S A : Type} (c : result A) : read_only (@liftM S A c).
Proof. intros self. reflexivity. Qed.

Lemma read_only_bind {S A B : Type} (c : M S A) (k : A -> M S B) :
  read_only c -> (forall a, read_only (k a)) -> read_only (bindM c k).
Proof.
  intros Hc Hk self. unfold bindM. specialize (Hc self).
  destruct (c self) as [[a|e] self']; cbn [snd] in Hc; subst self'.
  - apply Hk.
  - reflexivity.
Qed.

Ltac read_only :=
  repeat first [ apply read_only_bind; [|intro]
               | apply read_only_ret | apply read_only_get | apply read_only_lift ].

Lemma Plasticity_compute_physics_read_only (sol : matrix) (u_grads : tensor4) :
  read_only (Plasticity_compute_physics sol u_grads).
Proof. unfold Plasticity_compute_physics. read_only. Qed.

Lemma LinearElasticity_compute_physics_read_only (sol : matrix) (u_grads : tensor4) :
  read_only (LinearElasticity_compute_physics sol u_grads).
Proof. unfold LinearElasticity_compute_physics. read_only. Qed.

Lemma compute_residual_read_only {Self : Type} `{Physics Self} (sol : matrix) :
  (forall u_grads, read_only (compute_physics sol u_grads)) ->
  read_only (compute_residual sol).
Proof.
  intros Hphys. unfold compute_residual. read_only. apply Hphys.
Qed.

Lemma compute_avg_stress_read_only : read_only compute_avg_stress.
Proof. unfold compute_avg_stress. read_only. Qed.

(** A read-only method returns the same result when it is called again. *)
Lemma read_only_twice {S A : Type} (c : M S A) (self : S) :
  read_only c ->
  (r1 <~ c ;; r2 <~ c ;; retM (r1, r2)) self
  = match fst (c self) with
    | Ok r => (Ok (r, r), self)
    | Raise e => (Raise e, self)
    end.
Proof.
  intros Hc. unfold bindM, retM. specialize (Hc self).
  destruct (c self) as [[r|e] self'] eqn:E1; cbn [snd fst] in *; subst self'.
  - rewrite E1. reflexivity.
  - reflexivity.
Qed.

(** What [update_stress_strain] stores. *)
Lemma update_stress_strain_state (sol : matrix) (self : Plasticity) :
  let base := plasticity_base self in
  let u_grads := compute_u_grads (fem base) sol in
  match reshape_matrices (vec (fem base)) dim u_grads with
  | Raise e => update_stress_strain sol self = (Raise e, self)
  | Ok u_grads_reshape =>
      match vmap3 stress_return_map u_grads_reshape (sigmas_old self) (epsilons_old self) with
      | Raise e => update_stress_strain sol self = (Raise e, self)
      | Ok sigmas =>
          update_stress_strain sol self
          = (Ok tt,
             {| plasticity_base := base;
                sigmas_old :=
                  reshape_like3 (sigmas_old self)
                    (concat (concat (concat (reshape_like u_grads sigmas))));
                epsilons_old :=
                  reshape_like3 (epsilons_old self)
                    (concat (concat (map strain u_grads_reshape))) |})
      end
  end.
Proof.
  cbn zeta. unfold update_stress_strain, bindM, getM, liftM, putM, stress_strain_fns.
  cbn [fst snd].
  destruct (reshape_matrices _ _ _) as [ur|e]; [|reflexivity].
  destruct (vmap3 _ _ _ _) as [s|e]; reflexivity.
Qed.

(** ** The return mapping *)

(** Equality of nested lists of reals, entry by entry. *)
Ltac list_eq :=
  repeat match goal with
         | |- cons _ _ = cons _ _ => apply (f_equal2 cons)
         | |- @nil _ = @nil _ => reflexivity
         end.

Lemma mget_entries (f : nat -> nat -> R) (i j : nat) :
  (i < dim)%nat -> (j < dim)%nat -> mget (entries f) i j = f i j.
Proof.
  unfold dim. intros Hi Hj.
  do 3 (destruct i as [|i]; [do 3 (destruct j as [|j]; [reflexivity|]); lia|]). lia.
Qed.

Lemma matrix3_explicit (m : matrix) : shape2 m dim dim -> m = entries (mget m).
Proof.
  unfold dim. intros [Hlen Hall].
  do 4 (destruct m as [|? m]; try discriminate Hlen).
  repeat match goal with
         | H : Forall _ (_ :: _) |- _ => inversion H; clear H; subst
         end.
  repeat match goal with
         | H : length ?l = 3%nat |- _ =>
             do 4 (destruct l as [|? l]; try discriminate H); clear H
         end.
  reflexivity.
Qed.

Section ReturnMappingEntries.

Variables fu fs fe : nat -> nat -> R.

Let u_grad := entries fu.
Let sigma_old := entries fs.
Let epsilon_old := entries fe.

Lemma sigma_trial_entries :
  mmap2 Rplus (stress (mmap2 Rminus (strain u_grad) epsilon_old)) sigma_old
  = entries (trial_stress u_grad sigma_old epsilon_old).
Proof.
  unfold entries, trial_stress, strain_increment, stress, strain, mmap2, mscale,
    map2, np.trace, np.eye, np.T, kron, u_grad, sigma_old, epsilon_old, entries,
    mget, vget, dim.
  cbn [map seq combine fst snd nth length Nat.eqb].
  list_eq; field.
Qed.

Lemma s_dev_entries (t : nat -> nat -> R) :
  mmap2 Rminus (entries t) (mscale (1 / INR dim * np.trace (entries t)) (np.eye dim))
  = entries (fun i j => t i j
                        - (t 0%nat 0%nat + t 1%nat 1%nat + t 2%nat 2%nat) / 3 * kron i j).
Proof.
  unfold entries, mmap2, mscale, map2, np.trace, np.eye, kron, mget, vget, dim.
  cbn [map seq combine fst snd nth length Nat.eqb INR].
  list_eq; field.
Qed.

Lemma msum_square_entries (s : nat -> nat -> R) :
  msum (mmap2 Rmult (entries s) (entries s))
  = msum (entries (fun i j => s i j * s i j)).
Proof. reflexivity. Qed.

Lemma return_entries (t s : nat -> nat -> R) (c d : R) :
  mmap2 Rminus (entries t) (mdiv (mscale c (entries s)) d)
  = entries (fun i j => t i j - c * s i j / d).
Proof. reflexivity. Qed.

(** The array program computes the formulas of the specification. *)
Lemma stress_return_map_entries :
  stress_return_map u_grad sigma_old epsilon_old
  = entries (returned_stress u_grad sigma_old epsilon_old).
Proof.
  unfold stress_return_map. cbn zeta.
  rewrite sigma_trial_entries.
  rewrite (s_dev_entries (trial_stress u_grad sigma_old epsilon_old)).
  change (fun i j : nat =>
            trial_stress u_grad sigma_old epsilon_old i j
            - (trial_stress u_grad sigma_old epsilon_old 0 0
               + trial_stress u_grad sigma_old epsilon_old 1 1
               + trial_stress u_grad sigma_old epsilon_old 2 2) / 3 * kron i j)
    with (deviatoric_stress u_grad sigma_old epsilon_old).
  rewrite (msum_square_entries (deviatoric_stress u_grad sigma_old epsilon_old)).
  change (3 / 2 * msum (entries (fun i j : nat =>
              deviatoric_stress u_grad sigma_old epsilon_old i j
              * deviatoric_stress u_grad sigma_old epsilon_old i j)))
    with (deviatoric_square u_grad sigma_old epsilon_old).
  change (safe_sqrt (deviatoric_square u_grad sigma_old epsilon_old))
    with (regularised_norm u_grad sigma_old epsilon_old).
  change (regularised_norm u_grad sigma_old epsilon_old - 250)
    with (yield_excess u_grad sigma_old epsilon_old).
  rewrite return_entries.
  unfold returned_stress, np.where_gt0, entries.
  destruct (Rlt_dec 0 (yield_excess u_grad sigma_old epsilon_old)) as [Hpos|Hneg];
    destruct (Rle_dec (yield_excess u_grad sigma_old epsilon_old) 0) as [Hle|Hgt];
    try (exfalso; lra); try reflexivity.
  cbn [map seq dim]. list_eq; unfold Rdiv; ring.
Qed.

End ReturnMappingEntries.

(** C1.  For 3x3 arrays [u_grad], [sigma_old], [epsilon_old] the return
    mapping yields, entry by entry: the trial stress (Hooke's law on the
    symmetric gradient minus [epsilon_old], plus [sigma_old]) when the
    yield excess, the regularised norm of its deviatoric part minus 250, is
    not positive; otherwise the trial stress minus the excess times the
    deviatoric part over the norm plus [EPS]. *)
Theorem stress_return_map_spec (u_grad sigma_old epsilon_old : matrix) :
  shape2 u_grad dim dim -> shape2 sigma_old dim dim -> shape2 epsilon_old dim dim ->
  let trial := trial_stress u_grad sigma_old epsilon_old in
  let s_dev := deviatoric_stress u_grad sigma_old epsilon_old in
  let s_norm := regularised_norm u_grad sigma_old epsilon_old in
  let f := yield_excess u_grad sigma_old epsilon_old in
  f = s_norm - 250
  /\ s_norm = safe_sqrt (3 / 2 * msum (entries (fun i j => s_dev i j * s_dev i j)))
  /\ (f <= 0 -> stress_return_map u_grad sigma_old epsilon_old = entries trial)
  /\ (f > 0 ->
      stress_return_map u_grad sigma_old epsilon_old
      = entries (fun i j => trial i j - f * s_dev i j / (s_norm + EPS))).
Proof.
  intros Hu Hs He. cbn zeta.
  split; [reflexivity|]. split; [reflexivity|].
  rewrite (matrix3_explicit u_grad Hu), (matrix3_explicit sigma_old Hs),
    (matrix3_explicit epsilon_old He).
  rewrite stress_return_map_entries.
  set (u := entries (mget u_grad)). set (s := entries (mget sigma_old)).
  set (e := entries (mget epsilon_old)).
  unfold returned_stress. split; intros Hf.
  - destruct (Rle_dec (yield_excess u s e) 0); [reflexivity|lra].
  - destruct (Rle_dec (yield_excess u s e) 0); [lra|reflexivity].
Qed.

Lemma zeros_shape (k n : nat) : shape2 (np.zeros k n) k n.
Proof.
  unfold np.zeros. split.
  - apply repeat_length.
  - apply Forall_forall. intros row Hrow. apply repeat_spec in Hrow. subst row.
    apply repeat_length.
Qed.

Lemma sqrt_EPS_small : sqrt EPS <= 1.
Proof.
  rewrite <- sqrt_1. apply sqrt_le_1_alt. unfold EPS. lra.
Qed.

(** An instance of [stress_return_map_spec]: at rest (no gradient, no
    stored stress or strain) the step is elastic and the stress is the
    trial stress. *)
Lemma stress_return_map_at_rest :
  shape2 (np.zeros 3 3) dim dim
  /\ yield_excess (np.zeros 3 3) (np.zeros 3 3) (np.zeros 3 3) <= 0
  /\ stress_return_map (np.zeros 3 3) (np.zeros 3 3) (np.zeros 3 3)
     = entries (trial_stress (np.zeros 3 3) (np.zeros 3 3) (np.zeros 3 3)).
Proof.
  assert (Hz : shape2 (np.zeros 3 3) dim dim) by apply zeros_shape.
  assert (Hf : yield_excess (np.zeros 3 3) (np.zeros 3 3) (np.zeros 3 3) <= 0).
  { unfold yield_excess, regularised_norm.
    assert (E : deviatoric_square (np.zeros 3 3) (np.zeros 3 3) (np.zeros 3 3) = 0).
    { unfold deviatoric_square, msum, entries, deviatoric_stress, trial_stress,
        strain_increment, kron, np.zeros, mget, vget, dim.
      cbn [map seq concat app np.sum fold_right repeat nth Nat.eqb]. field. }
    rewrite E. destruct (Rlt_dec 0 0) as [H|_]; [lra|].
    pose proof sqrt_EPS_small. lra. }
  split; [exact Hz|]. split; [exact Hf|].
  destruct (stress_return_map_spec (np.zeros 3 3) (np.zeros 3 3) (np.zeros 3 3) Hz Hz Hz)
    as [_ [_ [Helastic _]]].
  exact (Helastic Hf).
Defined.

(** ** Reshaping and broadcasting *)

Lemma chunk_fuel_indep {A : Type} (n : nat) (fuel1 fuel2 : nat) (l : list A) :
  (0 < n)%nat -> (length l <= fuel1)%nat -> (length l <= fuel2)%nat ->
  chunk_fuel fuel1 n l = chunk_fuel fuel2 n l.
Proof.
  intros Hn. revert fuel2 l.
  induction fuel1 as [|fuel1 IH]; intros fuel2 l H1 H2.
  - destruct l; [destruct fuel2; reflexivity|cbn in H1; lia].
  - destruct l as [|a l]; [destruct fuel2; reflexivity|].
    destruct fuel2 as [|fuel2]; [cbn in H2; lia|].
    cbn [chunk_fuel]. f_equal.
    apply IH; rewrite length_skipn; cbn [length] in *; lia.
Qed.

Lemma chunk_fuel_enough {A : Type} (n : nat) (l : list A) (fuel : nat) :
  (0 < n)%nat -> (length l <= fuel)%nat ->
  chunk_fuel fuel n l = chunk_fuel (length l) n l.
Proof. intros Hn Hl. apply chunk_fuel_indep; [exact Hn|exact Hl|lia]. Qed.

Lemma chunk_app {A : Type} (n : nat) (x rest : list A) :
  (0 < n)%nat -> length x = n -> chunk n (x ++ rest) = x :: chunk n rest.
Proof.
  intros Hn Hx. unfold chunk.
  destruct x as [|a x]; [cbn in Hx; lia|].
  cbn [app length chunk_fuel]. rewrite <- Hx.
  change (a :: x ++ rest) with ((a :: x) ++ rest).
  rewrite firstn_app, skipn_app, Nat.sub_diag, firstn_all, skipn_all. cbn [firstn skipn app].
  rewrite app_nil_r. f_equal.
  rewrite Hx. apply chunk_fuel_enough; [exact Hn|].
  rewrite length_app. lia.
Qed.

Lemma chunk_concat {A : Type} (n : nat) (ls : list (list A)) :
  (0 < n)%nat -> Forall (fun l => length l = n) ls -> chunk n (concat ls) = ls.
Proof.
  intros Hn Hall. induction Hall as [|l ls Hl Hall IH]; [reflexivity|].
  cbn [concat]. rewrite chunk_app by assumption. now rewrite IH.
Qed.

Lemma length_concat_uniform {A : Type} (n : nat) (ls : list (list A)) :
  Forall (fun l => length l = n) ls -> length (concat ls) = (length ls * n)%nat.
Proof.
  intros Hall. induction Hall as [|l ls Hl Hall IH]; [reflexivity|].
  cbn [concat length]. rewrite length_app, IH, Hl. lia.
Qed.

Lemma reshape_rows_concat {A : Type} (n : nat) (ls : list (list A)) :
  (0 < n)%nat -> Forall (fun l => length l = n) ls ->
  reshape_rows n (concat ls) = Ok ls.
Proof.
  intros Hn Hall. unfold reshape_rows.
  destruct (Nat.eqb_spec n 0) as [->|_]; [lia|].
  rewrite (length_concat_uniform n ls Hall), Nat.Div0.mod_mul, Nat.eqb_refl.
  now rewrite chunk_concat.
Qed.

Lemma mapM_id {A : Type} (f : A -> result A) (l : list A) :
  Forall (fun a => f a = Ok a) l -> mapM f l = Ok l.
Proof.
  intros Hall. induction Hall as [|a l Ha Hall IH]; [reflexivity|].
  cbn [mapM]. rewrite Ha. cbn [bind]. rewrite IH. reflexivity.
Qed.

Lemma broadcast_axis_id {A : Type} (d : A) (n : nat) (l : list A) :
  length l = n -> broadcast_axis d n l = Ok l.
Proof. intros H. unfold broadcast_axis. now rewrite H, Nat.eqb_refl. Qed.

Lemma broadcast_to_id (k n : nat) (a : matrix) :
  shape2 a k n -> broadcast_to k n a = Ok a.
Proof.
  intros [Hk Hn]. unfold broadcast_to.
  rewrite broadcast_axis_id by exact Hk. cbn [bind].
  apply mapM_id. eapply Forall_impl; [|exact Hn].
  intros row Hrow. now apply broadcast_axis_id.
Qed.

(** A single row is repeated. *)
Lemma broadcast_to_row (k n : nat) (row : vector) :
  length row = n -> k <> 1%nat ->
  broadcast_to k n [row] = Ok (repeat row k).
Proof.
  intros Hrow Hk. unfold broadcast_to, broadcast_axis at 1. cbn [length hd].
  destruct (Nat.eqb_spec 1 k) as [E|_]; [lia|]. cbn [Nat.eqb bind].
  apply mapM_id. apply Forall_forall. intros r Hr.
  apply repeat_spec in Hr. subst r. now apply broadcast_axis_id.
Qed.

Lemma broadcast_to_mismatch (k n : nat) (a : matrix) :
  length a <> k -> length a <> 1%nat -> broadcast_to k n a = Raise ShapeError.
Proof.
  intros H1 H2. unfold broadcast_to, broadcast_axis at 1.
  destruct (Nat.eqb_spec (length a) k); [contradiction|].
  destruct (Nat.eqb_spec (length a) 1); [contradiction|]. reflexivity.
Qed.

Lemma shape2_ncols {A : Type} (a : list (list A)) (k n : nat) :
  shape2 a k n -> (0 < k)%nat -> length (hd [] a) = n.
Proof.
  intros [Hk Hall] Hpos. destruct a as [|row a]; [cbn in Hk; lia|].
  now inversion Hall.
Qed.

Lemma shape2_repeat {A : Type} (row : list A) (k : nat) :
  shape2 (repeat row k) k (length row).
Proof.
  split; [apply repeat_length|].
  apply Forall_forall. intros r Hr. apply repeat_spec in Hr. now subst r.
Qed.

Lemma map2_length {A B C : Type} (f : A -> B -> C) (l1 : list A) (l2 : list B) :
  length (map2 f l1 l2) = Nat.min (length l1) (length l2).
Proof. unfold map2. now rewrite length_map, length_combine. Qed.

Lemma mmap2_shape (f : R -> R -> R) (a b : matrix) (k n : nat) :
  shape2 a k n -> shape2 b k n -> shape2 (mmap2 f a b) k n.
Proof.
  intros [Ha Hra] [Hb Hrb]. unfold mmap2. split.
  - rewrite map2_length, Ha, Hb. apply Nat.min_id.
  - unfold map2 at 1. apply Forall_map, Forall_forall. intros [r1 r2] Hin.
    cbn [fst snd]. rewrite map2_length.
    rewrite Forall_forall in Hra, Hrb.
    rewrite (Hra r1), (Hrb r2); [apply Nat.min_id| |].
    + eapply in_combine_r, Hin.
    + eapply in_combine_l, Hin.
Qed.

Lemma at_add_shape (res : matrix) (i : nat) (row : vector) (k n : nat) :
  shape2 res k n -> length row = n -> shape2 (at_add res i row) k n.
Proof.
  intros [Hk Hall] Hrow. revert i k Hk.
  induction Hall as [|r res Hr Hall IH]; intros i k Hk.
  - destruct i; split; cbn; auto.
  - destruct i as [|i]; cbn [at_add].
    + split; [exact Hk|]. constructor; [|exact Hall].
      rewrite map2_length, Hr, Hrow. apply Nat.min_id.
    + cbn [length] in Hk. destruct k as [|k]; [discriminate|].
      destruct (IH i k) as [Hk' Hall']; [lia|].
      split; [cbn [length]; lia|]. constructor; assumption.
Qed.

Lemma scatter_fold_shape (res : matrix) (pairs : list (nat * vector)) (k n : nat) :
  shape2 res k n -> Forall (fun p => length (snd p) = n) pairs ->
  shape2 (fold_left (fun acc p => at_add acc (fst p) (snd p)) pairs res) k n.
Proof.
  intros Hres Hall. revert res Hres.
  induction Hall as [|p pairs Hp Hall IH]; intros res Hres; [exact Hres|].
  cbn [fold_left]. apply IH. now apply at_add_shape.
Qed.

(** [res.at[inds].add(updates)] with one update row per index keeps the
    shape of [res]. *)
Lemma scatter_add_shape (res : matrix) (inds : list nat) (updates : matrix) (k n : nat) :
  shape2 res k n -> (0 < k)%nat -> shape2 updates (length inds) n ->
  exists res', scatter_add res inds updates = Ok res' /\ shape2 res' k n.
Proof.
  intros Hres Hk Hupd. unfold scatter_add, ncols.
  rewrite (shape2_ncols res k n Hres Hk).
  rewrite broadcast_to_id by exact Hupd. cbn [bind].
  eexists. split; [reflexivity|].
  apply scatter_fold_shape; [exact Hres|].
  destruct Hupd as [_ Hall]. apply Forall_forall. intros [i row] Hin.
  cbn [snd]. rewrite Forall_forall in Hall. apply Hall.
  eapply in_combine_r, Hin.
Qed.

Lemma mapM_Forall {A B : Type} (f : A -> result B) (P : B -> Prop) (l : list A) (l' : list B) :
  (forall a b, f a = Ok b -> P b) -> mapM f l = Ok l' -> Forall P l'.
Proof.
  intros Hf. revert l'. induction l as [|a l IH]; intros l' H; cbn [mapM] in H.
  - inversion H. constructor.
  - destruct (f a) as [b|e] eqn:Ea; [|discriminate H]. cbn [bind] in H.
    destruct (mapM f l) as [bs|e] eqn:El; [|discriminate H]. cbn [bind] in H.
    inversion H; subst l'. constructor; [eapply Hf, Ea|now apply IH].
Qed.

Lemma broadcast_axis_length {A : Type} (d : A) (n : nat) (l l' : list A) :
  broadcast_axis d n l = Ok l' -> length l' = n.
Proof.
  unfold broadcast_axis. intros H.
  destruct (Nat.eqb_spec (length l) n) as [E|_].
  - inversion H; subst l'. exact E.
  - destruct (Nat.eqb (length l) 1); [|discriminate H].
    inversion H. apply repeat_length.
Qed.

Lemma broadcast_to_rows (k n : nat) (a a' : matrix) :
  broadcast_to k n a = Ok a' -> Forall (fun row => length row = n) a'.
Proof.
  unfold broadcast_to. intros H.
  destruct (broadcast_axis [] k a) as [rows|e]; [|discriminate H]. cbn [bind] in H.
  eapply mapM_Forall; [|exact H].
  intros r r' Hr. eapply broadcast_axis_length, Hr.
Qed.

(** When [res.at[inds].add(updates)] does not raise, it keeps the shape of
    [res]. *)
Lemma scatter_add_preserves (res : matrix) (inds : list nat) (updates res' : matrix)
      (k n : nat) :
  shape2 res k n -> (0 < k)%nat -> scatter_add res inds updates = Ok res' ->
  shape2 res' k n.
Proof.
  intros Hres Hk H. unfold scatter_add, ncols in H.
  rewrite (shape2_ncols res k n Hres Hk) in H.
  destruct (broadcast_to (length inds) n updates) as [upd|e] eqn:E; [|discriminate H].
  cbn [bind] in H. inversion H; subst res'.
  apply scatter_fold_shape; [exact Hres|].
  pose proof (broadcast_to_rows _ _ _ _ E) as Hall.
  apply Forall_forall. intros [i row] Hin. cbn [snd].
  rewrite Forall_forall in Hall. apply Hall. eapply in_combine_r, Hin.
Qed.

Lemma compute_body_force_shape (self : FEM) (source_info : option (vector -> vector))
      (rhs : matrix) :
  (0 < num_total_nodes (mesh self))%nat ->
  compute_body_force self source_info = Ok rhs ->
  shape2 rhs (num_total_nodes (mesh self)) (vec self).
Proof.
  intros HN H. unfold compute_body_force in H.
  destruct source_info as [f|].
  - destruct (check_components _ _) as [[]|e]; [|discriminate H]. cbn [bind] in H.
    destruct (reshape_rows _ _) as [vals|e]; [|discriminate H]. cbn [bind] in H.
    eapply scatter_add_preserves; [apply zeros_shape|exact HN|exact H].
  - inversion H. apply zeros_shape.
Qed.

Lemma compute_Neumann_integral_shape
      (self : FEM) (info : option (list location_fn * list (vector -> vector)))
      (integral : matrix) :
  (0 < num_total_nodes (mesh self))%nat ->
  compute_Neumann_integral self info = Ok integral ->
  shape2 integral (num_total_nodes (mesh self)) (vec self).
Proof.
  intros HN H. unfold compute_Neumann_integral in H.
  destruct info as [[location_fns value_fns]|].
  - destruct (Neuman_boundary_conditions_vals _ _ _) as [tractions|e];
      [|discriminate H]. cbn [bind] in H.
    revert H.
    generalize (combine
                  (seq 0 (length (Neuman_boundary_conditions_inds (mesh self) location_fns)))
                  (Neuman_boundary_conditions_inds (mesh self) location_fns)).
    intros steps.
    assert (Hstart : forall x, Ok (np.zeros (num_total_nodes (mesh self)) (vec self)) = Ok x ->
                               shape2 x (num_total_nodes (mesh self)) (vec self)).
    { intros x Hx. inversion Hx. apply zeros_shape. }
    revert Hstart.
    generalize (Ok (np.zeros (num_total_nodes (mesh self)) (vec self))).
    induction steps as [|[i inds] steps IH]; intros acc Hacc H; cbn [fold_left] in H.
    + apply Hacc, H.
    + eapply IH; [|exact H].
      intros x Hx. destruct acc as [a|e]; [|discriminate Hx]. cbn [bind] in Hx.
      destruct (nth_error tractions i) as [traction|]; [|discriminate Hx].
      destruct (check_components _ _) as [[]|e]; [|discriminate Hx]. cbn [bind] in Hx.
      destruct (reshape_rows _ _) as [vals|e]; [|discriminate Hx]. cbn [bind] in Hx.
      eapply scatter_add_preserves; [apply Hacc; reflexivity|exact HN|exact Hx].
  - inversion H. apply zeros_shape.
Qed.

Lemma get_shape_grads_lengths (m : Mesh) (grads : tensor4) (weights : matrix) :
  get_shape_grads m = Ok (grads, weights) ->
  length grads = num_cells m /\ length weights = num_cells m
  /\ Forall (fun g => length g = num_quads) grads.
Proof.
  intros H. unfold get_shape_grads in H.
  change (Nat.eqb (length shape_grads_reference) num_quads) with true in H.
  cbn [andb assert_ bind] in H. inversion H.
  unfold physical_coos, num_cells. rewrite !length_map.
  split; [reflexivity|]. split; [reflexivity|].
  rewrite !Forall_map. apply Forall_forall. intros cell _.
  rewrite map2_length, !length_map. reflexivity.
Qed.

Lemma Laplace_init_wf (vec0 : nat) (m : Mesh) (dirichlet : dirichlet_bc_info)
      (neumann_bc_info : option (list location_fn * list (vector -> vector)))
      (source_info : option (vector -> vector)) (L : Laplace) :
  mesh_wf m -> (0 < vec0)%nat -> (0 < num_total_nodes m)%nat ->
  Laplace_init vec0 m dirichlet neumann_bc_info source_info = Ok L ->
  laplace_wf L /\ mesh (fem L) = m /\ vec (fem L) = vec0.
Proof.
  intros Hwf Hvec HN H. unfold Laplace_init, FEM_init in H.
  rewrite get_shape_vals_ok in H. cbn [bind] in H.
  destruct (get_shape_grads m) as [[grads weights]|e] eqn:Eg; [|discriminate H].
  cbn [bind] in H.
  destruct (Dirichlet_boundary_conditions m dirichlet) as [[[nl vl] vals]|e];
    [|discriminate H].
  cbn [bind] in H.
  destruct (compute_body_force _ _) as [bf|e] eqn:Eb; [|discriminate H].
  cbn [bind] in H.
  destruct (compute_Neumann_integral _ _) as [nm|e] eqn:En; [|discriminate H].
  cbn [bind] in H. inversion H; subst L; clear H.
  destruct (get_shape_grads_lengths m grads weights Eg) as [Hg [Hw Hq]].
  apply compute_body_force_shape in Eb; [|exact HN].
  apply compute_Neumann_integral_shape in En; [|exact HN].
  cbn [mesh vec fem] in Eb, En.
  unfold laplace_wf. cbn [fem mesh vec shape_grads v_grads_JxW body_force neumann JxW].
  repeat split; try assumption; try apply Hwf; try apply Eb; try apply En.
  unfold make_v_grads_JxW. rewrite map2_length, Hg, Hw. apply Nat.min_id.
Qed.

(** ** The residual *)

Lemma compute_residual_assemble {Self : Type} `{Physics Self} (sol : matrix) (self : Self) :
  (forall u_grads, compute_physics sol u_grads self = (Ok u_grads, self)) ->
  compute_residual sol self
  = (assemble (laplace self) sol (compute_u_grads (fem (laplace self)) sol), self).
Proof.
  intros Hid. unfold compute_residual, assemble, bindM, getM, liftM.
  rewrite Hid.
  destruct (reshape_rows _ _) as [weak|e]; [|reflexivity]. cbn [bind].
  destruct (scatter_add _ _ _) as [res|e]; [|reflexivity]. cbn [bind].
  destruct (np_subtract res _) as [res'|e]; reflexivity.
Qed.

Lemma weak_form_shape (u_physics : tensor4) (v : tensor5) :
  shape2 (concat (weak_form u_physics v))
         (Nat.min (length u_physics) (length v) * num_nodes)
         (length (hd [] (hd [] u_physics))).
Proof.
  unfold weak_form. cbn zeta.
  set (comps := length (hd [] (hd [] u_physics))).
  unfold map2 at 1.
  rewrite <- (length_combine u_physics v).
  generalize (combine u_physics v). intros pairs.
  induction pairs as [|p pairs IH].
  - split; [reflexivity|constructor].
  - cbn [map concat length]. destruct IH as [Hlen Hall]. split.
    + rewrite length_app, Hlen, length_map, length_seq. lia.
    + apply Forall_app. split; [|exact Hall].
      apply Forall_map, Forall_forall. intros n _.
      now rewrite length_map, length_seq.
Qed.

Lemma compute_u_grads_length (self : FEM) (sol : matrix) :
  length (compute_u_grads self sol)
  = Nat.min (length (cells (mesh self))) (length (shape_grads self)).
Proof. unfold compute_u_grads. apply map2_length. Qed.

Lemma zeros_like_shape (a : matrix) (k n : nat) :
  shape2 a k n -> shape2 (np.zeros_like a) k n.
Proof.
  intros [Hk Hall]. unfold np.zeros_like. split.
  - now rewrite length_map.
  - apply Forall_map. eapply Forall_impl; [|exact Hall].
    intros row Hrow. now rewrite length_map.
Qed.

Lemma broadcast_to_ok (k n ka : nat) (a : matrix) :
  shape2 a ka n -> ka = k \/ ka = 1%nat ->
  exists a', broadcast_to k n a = Ok a' /\ shape2 a' k n.
Proof.
  intros Ha Hk.
  destruct (Nat.eq_dec ka k) as [->|Hne].
  - exists a. split; [now apply broadcast_to_id|exact Ha].
  - destruct Hk as [Hk|Hk]; [contradiction|]. subst ka.
    destruct Ha as [Hlen Hall].
    destruct a as [|row [|? ?]]; try discriminate Hlen.
    inversion Hall as [|? ? Hrow _]; subst.
    exists (repeat row k). split.
    + apply broadcast_to_row; [reflexivity|lia].
    + apply shape2_repeat.
Qed.

(** The outcome of [a - b] for arrays of [n] columns. *)
Lemma np_subtract_shape (a b : matrix) (ka kb n : nat) :
  shape2 a ka n -> shape2 b kb n -> (0 < ka)%nat -> (0 < kb)%nat ->
  (ka = kb \/ ka = 1%nat ->
   exists r, np_subtract a b = Ok r /\ shape2 r kb n)
  /\ (kb = 1%nat -> exists r, np_subtract a b = Ok r /\ shape2 r ka n)
  /\ (ka <> kb -> ka <> 1%nat -> kb <> 1%nat -> np_subtract a b = Raise ShapeError).
Proof.
  intros Ha Hb Hka Hkb. unfold np_subtract, ncols.
  rewrite (shape2_ncols a ka n Ha Hka), (shape2_ncols b kb n Hb Hkb).
  assert (En : (if Nat.eqb n 1 then n else n) = n) by now destruct (Nat.eqb n 1).
  rewrite En. destruct Ha as [Hla Hra], Hb as [Hlb Hrb]. rewrite Hla, Hlb.
  split; [|split].
  - intros Hcase.
    assert (Ek : (if Nat.eqb ka 1 then kb else ka) = kb).
    { destruct (Nat.eqb_spec ka 1); [reflexivity|]. destruct Hcase; lia. }
    rewrite Ek.
    destruct (broadcast_to_ok kb n ka a) as [a' [-> Ha']]; [now split| |].
    { destruct Hcase; [now left|now right]. }
    rewrite (broadcast_to_id kb n b) by now split. cbn [bind].
    eexists. split; [reflexivity|]. apply mmap2_shape; [exact Ha'|now split].
  - intros ->.
    destruct (Nat.eqb_spec ka 1) as [->|Hne].
    + rewrite !broadcast_to_id by now split. cbn [bind].
      eexists. split; [reflexivity|]. apply mmap2_shape; now split.
    + rewrite (broadcast_to_id ka n a) by now split. cbn [bind].
      destruct (broadcast_to_ok ka n 1 b) as [b' [-> Hb']]; [now split|now right|].
      cbn [bind]. eexists. split; [reflexivity|].
      apply mmap2_shape; [now split|exact Hb'].
  - intros H1 H2 H3.
    destruct (Nat.eqb_spec ka 1); [contradiction|].
    rewrite (broadcast_to_id ka n a) by now split. cbn [bind].
    rewrite (broadcast_to_mismatch ka n b) by lia. reflexivity.
Qed.

Lemma concat_cells_length (m : Mesh) :
  mesh_wf m -> length (concat (cells m)) = (num_cells m * num_nodes)%nat.
Proof.
  intros [_ Hc]. apply length_concat_uniform.
  eapply Forall_impl; [|exact Hc]. intros cell [H _]. exact H.
Qed.

(** The outcome of the assembly for a solution field with [k] rows of
    [vec] components, and a physics array with one entry per cell and
    [vec] components. *)
Lemma assemble_shape (L : Laplace) (sol : matrix) (u_physics : tensor4) (k : nat) :
  let N := num_total_nodes (mesh (fem L)) in
  laplace_wf L ->
  shape2 sol k (vec (fem L)) -> (0 < k)%nat ->
  length u_physics = num_cells (mesh (fem L)) ->
  ((0 < num_cells (mesh (fem L)))%nat ->
   length (hd [] (hd [] u_physics)) = vec (fem L)) ->
  (k = N \/ k = 1%nat ->
   exists r, assemble L sol u_physics = Ok r /\ shape2 r N (vec (fem L)))
  /\ (N = 1%nat ->
      exists r, assemble L sol u_physics = Ok r /\ shape2 r k (vec (fem L)))
  /\ (k <> N -> k <> 1%nat -> N <> 1%nat ->
      assemble L sol u_physics = Raise ShapeError).
Proof.
  intros N [Hwf [Hvec [HN [Hg [_ [Hv [Hbf Hnm]]]]]]] Hsol Hk Hu Hcomp.
  fold N in HN, Hbf, Hnm.
  unfold assemble.
  pose proof (weak_form_shape u_physics (v_grads_JxW L)) as Hweak.
  rewrite Hu, Hv, Nat.min_id in Hweak.
  assert (Hweak' : shape2 (concat (weak_form u_physics (v_grads_JxW L)))
                          (length (concat (cells (mesh (fem L))))) (vec (fem L))).
  { rewrite concat_cells_length by exact Hwf.
    destruct (Nat.eq_dec (num_cells (mesh (fem L))) 0) as [E0|Hpos].
    - rewrite E0 in Hweak |- *. destruct Hweak as [Hlen _].
      destruct (concat (weak_form u_physics (v_grads_JxW L))); [|discriminate Hlen].
      split; [reflexivity|constructor].
    - rewrite <- Hcomp by lia. exact Hweak. }
  rewrite reshape_rows_concat by (exact Hvec || apply Hweak'). cbn [bind].
  destruct (scatter_add_shape (np.zeros_like sol) (concat (cells (mesh (fem L))))
              (concat (weak_form u_physics (v_grads_JxW L))) k (vec (fem L)))
    as [res [-> Hres]]; [now apply zeros_like_shape|exact Hk|exact Hweak'|].
  cbn [bind].
  destruct (np_subtract_shape res (body_force L) k N (vec (fem L)) Hres Hbf Hk HN)
    as [Hsame [Hone Hbad]].
  split; [|split].
  - intros Hcase. destruct (Hsame Hcase) as [r [-> Hr]]. cbn [bind].
    destruct (np_subtract_shape r (neumann L) N N (vec (fem L)) Hr Hnm HN HN)
      as [Hsame' _].
    apply Hsame'. now left.
  - intros HN1. destruct (Hone HN1) as [r [-> Hr]]. cbn [bind].
    destruct (np_subtract_shape r (neumann L) k N (vec (fem L)) Hr Hnm Hk HN)
      as [_ [Hone' _]].
    apply Hone', HN1.
  - intros H1 H2 H3. rewrite (Hbad H1 H2 H3). reflexivity.
Qed.

(** ** The residual of [LinearPoisson] *)

Lemma LinearPoisson_identity (sol : matrix) (u_grads : tensor4) (self : LinearPoisson) :
  compute_physics sol u_grads self = (Ok u_grads, self).
Proof. reflexivity. Qed.

Lemma LinearPoisson_init_wf (m : Mesh) (dirichlet : dirichlet_bc_info)
      (neumann_bc_info : option (list location_fn * list (vector -> vector)))
      (source_info : option (vector -> vector)) (self : LinearPoisson) :
  mesh_wf m -> (0 < num_total_nodes m)%nat ->
  LinearPoisson_init m dirichlet neumann_bc_info source_info = Ok self ->
  laplace_wf (laplace self) /\ mesh (fem (laplace self)) = m
  /\ vec (fem (laplace self)) = 1%nat.
Proof.
  intros Hwf HN H. unfold LinearPoisson_init in H.
  destruct (Laplace_init 1 m dirichlet neumann_bc_info source_info) as [L|e] eqn:E;
    [|discriminate H].
  cbn [bind] in H. inversion H; subst self. cbn [laplace LinearPoisson_Physics poisson_base].
  apply (Laplace_init_wf 1 m dirichlet neumann_bc_info source_info L Hwf); [lia|exact HN|exact E].
Qed.

Lemma compute_u_grads_components (L : Laplace) (sol : matrix) (k : nat) :
  laplace_wf L -> shape2 sol k (vec (fem L)) -> (0 < k)%nat ->
  (0 < num_cells (mesh (fem L)))%nat ->
  length (hd [] (hd [] (compute_u_grads (fem L) sol))) = vec (fem L).
Proof.
  intros [_ [_ [_ [Hg [Hq _]]]]] Hsol Hk HC.
  unfold compute_u_grads, num_cells in *.
  destruct (cells (mesh (fem L))) as [|cell cs]; [cbn in HC; lia|].
  destruct (shape_grads (fem L)) as [|grads gs]; [discriminate Hg|].
  inversion Hq as [|? ? Hgrads _]; subst.
  destruct grads as [|gq grads]; [discriminate Hgrads|].
  cbn [map2 combine map hd fst snd].
  rewrite length_map, length_seq. unfold ncols.
  apply (shape2_ncols sol k _ Hsol Hk).
Qed.

Lemma compute_u_grads_cells (L : Laplace) (sol : matrix) :
  laplace_wf L ->
  length (compute_u_grads (fem L) sol) = num_cells (mesh (fem L)).
Proof.
  intros [_ [_ [_ [Hg _]]]]. rewrite compute_u_grads_length, Hg.
  apply Nat.min_id.
Qed.

(** What [compute_residual] does with a solution field of [k] rows, one
    component each, for a mesh of [N] nodes. *)
Lemma LinearPoisson_residual_rows
      (m : Mesh) (dirichlet : dirichlet_bc_info)
      (neumann_bc_info : option (list location_fn * list (vector -> vector)))
      (source_info : option (vector -> vector))
      (self : LinearPoisson) (sol : matrix) (k : nat) :
  mesh_wf m -> (0 < num_total_nodes m)%nat ->
  LinearPoisson_init m dirichlet neumann_bc_info source_info = Ok self ->
  shape2 sol k 1 -> (0 < k)%nat ->
  (k = num_total_nodes m \/ k = 1%nat ->
   exists r, compute_residual sol self = (Ok r, self)
             /\ shape2 r (num_total_nodes m) 1)
  /\ (k <> num_total_nodes m -> k <> 1%nat -> num_total_nodes m <> 1%nat ->
      compute_residual sol self = (Raise ShapeError, self)).
Proof.
  intros Hwf HN Hinit Hsol Hk.
  destruct (LinearPoisson_init_wf m _ _ _ self Hwf HN Hinit) as [HL [Hm Hv]].
  rewrite (compute_residual_assemble sol self (fun u => LinearPoisson_identity sol u self)).
  rewrite <- Hv in Hsol.
  destruct (assemble_shape (laplace self) sol
              (compute_u_grads (fem (laplace self)) sol) k HL Hsol Hk
              (compute_u_grads_cells _ sol HL)
              (compute_u_grads_components _ sol k HL Hsol Hk))
    as [Hok [_ Hbad]].
  cbn zeta in Hok, Hbad. rewrite Hm in Hok, Hbad. rewrite Hv in Hok.
  split.
  - intros Hcase. destruct (Hok Hcase) as [r [-> Hr]]. now exists r.
  - intros H1 H2 H3. now rewrite (Hbad H1 H2 H3).
Qed.

Lemma chunk_one_length {A : Type} (l : list A) : length (chunk 1 l) = length l.
Proof.
  induction l as [|a l IH]; [reflexivity|].
  change (a :: l) with ([a] ++ l). rewrite chunk_app by (reflexivity || lia).
  cbn [length app]. now rewrite IH.
Qed.

Lemma compute_u_grads_ncols (L : Laplace) (sol : matrix) :
  laplace_wf L -> (0 < num_cells (mesh (fem L)))%nat ->
  length (hd [] (hd [] (compute_u_grads (fem L) sol))) = ncols sol.
Proof.
  intros [_ [_ [_ [Hg [Hq _]]]]] HC.
  unfold compute_u_grads, num_cells in *.
  destruct (cells (mesh (fem L))) as [|cell cs]; [cbn in HC; lia|].
  destruct (shape_grads (fem L)) as [|grads gs]; [discriminate Hg|].
  inversion Hq as [|? ? Hgrads _]; subst.
  destruct grads as [|gq grads]; [discriminate Hgrads|].
  cbn [map2 combine map hd fst snd].
  now rewrite length_map, length_seq.
Qed.

(** With more or fewer than one component per node the scatter-add of
    [LinearPoisson] cannot broadcast its updates. *)
Lemma LinearPoisson_residual_components
      (m : Mesh) (dirichlet : dirichlet_bc_info)
      (neumann_bc_info : option (list location_fn * list (vector -> vector)))
      (source_info : option (vector -> vector))
      (self : LinearPoisson) (sol : matrix) (k v : nat) :
  mesh_wf m -> (0 < num_total_nodes m)%nat -> (0 < num_cells m)%nat ->
  LinearPoisson_init m dirichlet neumann_bc_info source_info = Ok self ->
  shape2 sol k v -> (0 < k)%nat -> v <> 1%nat ->
  compute_residual sol self = (Raise ShapeError, self).
Proof.
  intros Hwf HN HC Hinit Hsol Hk Hv.
  destruct (LinearPoisson_init_wf m _ _ _ self Hwf HN Hinit) as [HL [Hm Hvec]].
  rewrite (compute_residual_assemble sol self (fun u => LinearPoisson_identity sol u self)).
  f_equal. unfold assemble. rewrite Hvec, Hm.
  pose proof (weak_form_shape (compute_u_grads (fem (laplace self)) sol)
                (v_grads_JxW (laplace self))) as [Hlen Hrows].
  rewrite compute_u_grads_ncols in Hrows by (exact HL || now rewrite Hm).
  unfold ncols in Hrows. rewrite (shape2_ncols sol k v Hsol Hk) in Hrows.
  rewrite compute_u_grads_cells in Hlen by exact HL.
  destruct HL as [_ [_ [_ [_ [_ [HvJ _]]]]]]. rewrite HvJ, Hm, Nat.min_id in Hlen.
  unfold reshape_rows. cbn [Nat.eqb]. rewrite Nat.mod_1_r. cbn [Nat.eqb bind].
  unfold scatter_add.
  rewrite broadcast_to_mismatch; [reflexivity| |].
  - rewrite chunk_one_length, (length_concat_uniform v _ Hrows), Hlen.
    rewrite concat_cells_length by exact Hwf. unfold num_nodes.
    destruct v as [|[|v]]; [lia|congruence|nia].
  - rewrite chunk_one_length, (length_concat_uniform v _ Hrows), Hlen.
    unfold num_nodes. destruct v as [|[|v]]; [lia|congruence|nia].
Qed.

(** C9 (as the program has it).  [compute_residual] does not check the
    shape of [sol].  On a mesh with more than one node, a solution field
    of the wrong shape is accepted when it has a single row of one
    component, and the residual then has one row per mesh node; any other
    wrong shape raises the shape error of the scatter-add or of the final
    subtraction, which cannot broadcast. *)
Theorem compute_residual_unchecked_shape
        (m : Mesh) (dirichlet : dirichlet_bc_info)
        (neumann_bc_info : option (list location_fn * list (vector -> vector)))
        (source_info : option (vector -> vector))
        (self : LinearPoisson) (sol : matrix) (k v : nat) :
  mesh_wf m -> (1 < num_total_nodes m)%nat -> (0 < num_cells m)%nat ->
  LinearPoisson_init m dirichlet neumann_bc_info source_info = Ok self ->
  shape2 sol k v -> (0 < k)%nat ->
  k <> num_total_nodes m \/ v <> 1%nat ->
  (k = 1%nat /\ v = 1%nat ->
   exists r, compute_residual sol self = (Ok r, self)
             /\ shape2 r (num_total_nodes m) 1)
  /\ (k <> 1%nat \/ v <> 1%nat ->
      compute_residual sol self = (Raise ShapeError, self)).
Proof.
  intros Hwf HN HC Hinit Hsol Hk Hwrong.
  split.
  - intros [-> ->].
    destruct (LinearPoisson_residual_rows m dirichlet neumann_bc_info source_info
                self sol 1 Hwf ltac:(lia) Hinit Hsol Hk) as [Hok _].
    apply Hok. now right.
  - intros Hcase.
    destruct (Nat.eq_dec v 1) as [->|Hv].
    + destruct (LinearPoisson_residual_rows m dirichlet neumann_bc_info source_info
                  self sol k Hwf ltac:(lia) Hinit Hsol Hk) as [_ Hbad].
      apply Hbad; [destruct Hwrong; congruence|destruct Hcase; congruence|lia].
    + eapply LinearPoisson_residual_components; try eassumption. lia.
Qed.

Lemma LinearPoisson_init_ok (m : Mesh) :
  exists self, LinearPoisson_init m ([], [], []) None None = Ok self.
Proof.
  unfold LinearPoisson_init, Laplace_init, FEM_init.
  rewrite get_shape_vals_ok. cbn [bind].
  destruct (get_shape_grads_ok m) as [sg [-> _]]. cbn [bind].
  cbn [Dirichlet_boundary_conditions length Nat.eqb andb assert_ bind seq fold_left
       compute_body_force compute_Neumann_integral].
  eexists. reflexivity.
Qed.

(** C9, refuted as stated: on the unit cube (8 nodes) a solution field
    with a single row is not rejected; a residual with 8 rows comes back. *)
Lemma one_row_solution_accepted :
  exists self r,
    LinearPoisson_init unit_cube ([], [], []) None None = Ok self
    /\ length [[1]] <> num_total_nodes unit_cube
    /\ compute_residual [[1]] self = (Ok r, self)
    /\ length r = 8%nat.
Proof.
  destruct (LinearPoisson_init_ok unit_cube) as [self Hinit].
  destruct (LinearPoisson_residual_rows unit_cube ([], [], []) None None self [[1]] 1
              unit_cube_wf ltac:(cbn; lia) Hinit) as [Hok _].
  { split; [reflexivity|]. repeat constructor. }
  { lia. }
  destruct Hok as [r [Hr [Hlen _]]]; [now right|].
  exists self, r. split; [exact Hinit|]. split; [cbn; lia|]. split; [exact Hr|exact Hlen].
Qed.

(** An instance of [compute_residual_unchecked_shape]: the unit cube and a
    solution field with a single row. *)
Lemma compute_residual_unchecked_shape_unit_cube :
  mesh_wf unit_cube
  /\ (1 < num_total_nodes unit_cube)%nat
  /\ (0 < num_cells unit_cube)%nat
  /\ shape2 [[1]] 1 1
  /\ exists self,
       LinearPoisson_init unit_cube ([], [], []) None None = Ok self
       /\ exists r, compute_residual [[1]] self = (Ok r, self)
                    /\ shape2 r (num_total_nodes unit_cube) 1.
Proof.
  assert (HN : (1 < num_total_nodes unit_cube)%nat) by (cbn; lia).
  assert (HC : (0 < num_cells unit_cube)%nat) by (cbn; lia).
  assert (Hsol : shape2 [[1]] 1 1) by (split; [reflexivity|repeat constructor]).
  split; [exact unit_cube_wf|]. split; [exact HN|]. split; [exact HC|].
  split; [exact Hsol|].
  destruct (LinearPoisson_init_ok unit_cube) as [self Hinit].
  exists self. split; [exact Hinit|].
  destruct (compute_residual_unchecked_shape unit_cube ([], [], []) None None self
              [[1]] 1 1 unit_cube_wf HN HC Hinit Hsol
              ltac:(lia) ltac:(left; cbn; lia))
    as [Hone _].
  exact (Hone (conj eq_refl eq_refl)).
Defined.

(** ** The residual of the zero field *)

Lemma sum_zero (l : vector) : Forall (fun x => x = 0) l -> np.sum l = 0.
Proof.
  intros H. induction H as [|x l Hx _ IH]; [reflexivity|].
  cbn [np.sum fold_right]. fold (np.sum l). rewrite Hx, IH. lra.
Qed.

Lemma vget_repeat_zero (n i : nat) : vget (repeat 0 n) i = 0.
Proof.
  unfold vget. destruct (Nat.lt_ge_cases i n) as [Hi|Hi].
  - apply nth_repeat_lt, Hi.
  - apply nth_overflow. now rewrite repeat_length.
Qed.

Lemma take_zeros_vget (k n i j : nat) : vget (np.take [] (np.zeros k n) i) j = 0.
Proof.
  unfold np.take, np.zeros.
  assert (H : forall row, In row (repeat (repeat 0 n) k) -> vget row j = 0).
  { intros row Hrow. apply repeat_spec in Hrow. subst row. apply vget_repeat_zero. }
  destruct k as [|k].
  - cbn [repeat last]. destruct i; cbn; destruct j; reflexivity.
  - apply H. destruct (Nat.lt_ge_cases i (S k)) as [Hi|Hi].
    + apply nth_In. now rewrite repeat_length.
    + rewrite nth_overflow by now rewrite repeat_length.
      pose proof (@exists_last _ (repeat (repeat 0 n) (S k)) ltac:(discriminate))
        as [l' [a E]].
      rewrite E at 1. rewrite last_last.
      rewrite E. apply in_or_app. right. now left.
Qed.

Lemma map_const {A B : Type} (c : B) (l : list A) :
  map (fun _ => c) l = repeat c (length l).
Proof. induction l as [|a l IH]; [reflexivity|]. cbn. now rewrite IH. Qed.

Lemma map_ext_const {A B : Type} (f : A -> B) (c : B) (l : list A) :
  (forall a, In a l -> f a = c) -> map f l = repeat c (length l).
Proof.
  intros H. rewrite <- map_const. apply map_ext_in, H.
Qed.

(** The gradient of the zero field is zero at every quadrature point. *)
Lemma compute_u_grads_zero (self : FEM) (k n : nat) (c q i j : nat) :
  mget (nth q (nth c (compute_u_grads self (np.zeros k n)) []) []) i j = 0.
Proof.
  unfold compute_u_grads.
  set (G := fun (cell : list nat) (grads_c : list (list (list R))) => _).
  assert (HG : forall cell grads_c q', mget (nth q' (G cell grads_c) []) i j = 0).
  { intros cell grads_c q'. unfold G.
    destruct (Nat.lt_ge_cases q' (length grads_c)) as [Hq|Hq].
    - rewrite (nth_map_in_range _ grads_c q' [] []) by exact Hq.
      unfold mget.
      destruct (Nat.lt_ge_cases i (ncols (np.zeros k n))) as [Hi|Hi].
      + rewrite (nth_map_in_range _ _ i 0%nat []) by now rewrite length_seq.
        cbn beta.
        destruct (Nat.lt_ge_cases j dim) as [Hj|Hj].
        * unfold vget at 1.
          rewrite (nth_map_in_range _ _ j 0%nat 0) by now rewrite length_seq.
          apply sum_zero. unfold map2. apply Forall_map, Forall_forall.
          intros [u g] Hin. cbn [fst snd].
          apply in_combine_l, in_map_iff in Hin as [node [<- _]].
          rewrite take_zeros_vget. lra.
        * unfold vget. apply nth_overflow. now rewrite length_map, length_seq.
      + rewrite (nth_overflow (map _ (seq 0 (ncols (np.zeros k n)))))
          by (rewrite length_map, length_seq; exact Hi).
        unfold vget. now destruct j.
    - rewrite nth_overflow by now rewrite length_map.
      unfold mget, vget. destruct i, j; reflexivity. }
  unfold map2.
  destruct (Nat.lt_ge_cases c (length (combine (cells (mesh self)) (shape_grads self))))
    as [Hc|Hc].
  - rewrite (nth_map_in_range _ _ c ([], []) []) by exact Hc. apply HG.
  - rewrite (nth_overflow (map _ (combine (cells (mesh self)) (shape_grads self))))
      by now rewrite length_map.
    unfold mget, vget. destruct q, i, j; reflexivity.
Qed.

Lemma concat_repeat_repeat {A : Type} (a : A) (n k : nat) :
  concat (repeat (repeat a n) k) = repeat a (k * n).
Proof.
  induction k as [|k IH]; [reflexivity|].
  cbn [repeat concat Nat.mul]. now rewrite IH, repeat_app.
Qed.

(** A physics array that is zero everywhere gives zero weak-form rows. *)
Lemma weak_form_zero (u_physics : tensor4) (v : tensor5) :
  (forall c q i j, mget (nth q (nth c u_physics []) []) i j = 0) ->
  concat (weak_form u_physics v)
  = np.zeros (Nat.min (length u_physics) (length v) * num_nodes)
             (length (hd [] (hd [] u_physics))).
Proof.
  intros Hzero. unfold weak_form. cbn zeta.
  set (comps := length (hd [] (hd [] u_physics))).
  unfold map2 at 1.
  rewrite (map_ext_const _ (np.zeros num_nodes comps)).
  - rewrite length_combine. unfold np.zeros. apply concat_repeat_repeat.
  - intros [physics_c v_c] Hin. cbn [fst snd].
    unfold np.zeros.
    rewrite (map_ext_const _ (repeat 0 comps)); [now rewrite length_seq|].
    intros n _.
    rewrite (map_ext_const _ 0); [now rewrite length_seq|].
    intros i _.
    apply sum_zero. unfold map2. apply Forall_map, Forall_forall.
    intros [physics_q v_q] Hq. cbn [fst snd].
    apply sum_zero. apply Forall_map, Forall_forall. intros d _.
    apply in_combine_l in Hin, Hq.
    destruct (In_nth _ _ [] Hin) as [c [_ Ec]].
    destruct (In_nth _ _ [] Hq) as [q [_ Eq]].
    specialize (Hzero c q i d). rewrite Ec, Eq in Hzero. rewrite Hzero. lra.
Qed.

Lemma map2_zero_rows (f : R -> R -> R) (n : nat) :
  f 0 0 = 0 -> map2 f (repeat 0 n) (repeat 0 n) = repeat 0 n.
Proof.
  intros Hf. unfold map2. induction n as [|n IH]; [reflexivity|].
  cbn [repeat combine map fst snd]. now rewrite Hf, IH.
Qed.

Lemma at_add_zeros (k n i : nat) :
  at_add (np.zeros k n) i (repeat 0 n) = np.zeros k n.
Proof.
  unfold np.zeros. revert i. induction k as [|k IH]; intros i.
  - destruct i; reflexivity.
  - destruct i as [|i]; cbn [repeat at_add].
    + rewrite map2_zero_rows by lra. reflexivity.
    + now rewrite IH.
Qed.

Lemma scatter_fold_zeros (k n K : nat) (inds : list nat) :
  fold_left (fun acc p => at_add acc (fst p) (snd p))
            (combine inds (repeat (repeat 0 n) K)) (np.zeros k n)
  = np.zeros k n.
Proof.
  revert K. induction inds as [|i inds IH]; intros K; [reflexivity|].
  destruct K as [|K]; [reflexivity|].
  cbn [repeat combine fold_left fst snd]. rewrite at_add_zeros. apply IH.
Qed.

Lemma scatter_add_zeros (k n : nat) (inds : list nat) :
  (0 < k)%nat ->
  scatter_add (np.zeros k n) inds (np.zeros (length inds) n) = Ok (np.zeros k n).
Proof.
  intros Hk. unfold scatter_add, ncols.
  rewrite (shape2_ncols _ k n (zeros_shape k n) Hk).
  rewrite broadcast_to_id by apply zeros_shape. cbn [bind]. f_equal.
  apply scatter_fold_zeros.
Qed.

Lemma zeros_like_zeros (k n : nat) : np.zeros_like (np.zeros k n) = np.zeros k n.
Proof.
  unfold np.zeros_like, np.zeros. rewrite map_repeat. f_equal.
  now rewrite map_const, repeat_length.
Qed.

Lemma np_subtract_zeros (k n : nat) :
  (0 < k)%nat -> np_subtract (np.zeros k n) (np.zeros k n) = Ok (np.zeros k n).
Proof.
  intros Hk. unfold np_subtract, ncols.
  rewrite (shape2_ncols _ k n (zeros_shape k n) Hk).
  assert (Ek : (if Nat.eqb (length (np.zeros k n)) 1 then length (np.zeros k n)
                else length (np.zeros k n)) = k).
  { unfold np.zeros. rewrite repeat_length. now destruct (Nat.eqb k 1). }
  assert (En : (if Nat.eqb n 1 then n else n) = n) by now destruct (Nat.eqb n 1).
  rewrite Ek, En, broadcast_to_id by apply zeros_shape. cbn [bind]. f_equal.
  unfold np.zeros, map2. clear Ek Hk. induction k as [|k IH]; [reflexivity|].
  cbn [repeat combine map fst snd]. rewrite IH. f_equal.
  apply (map2_zero_rows Rminus). lra.
Qed.

(** Without source and traction the two load vectors are zero. *)
Lemma Laplace_init_no_loads (vec0 : nat) (m : Mesh) (dirichlet : dirichlet_bc_info)
      (L : Laplace) :
  Laplace_init vec0 m dirichlet None None = Ok L ->
  body_force L = np.zeros (num_total_nodes m) vec0
  /\ neumann L = np.zeros (num_total_nodes m) vec0.
Proof.
  intros H. unfold Laplace_init, FEM_init in H.
  rewrite get_shape_vals_ok in H. cbn [bind] in H.
  destruct (get_shape_grads m) as [[grads weights]|e]; [|discriminate H].
  cbn [bind] in H.
  destruct (Dirichlet_boundary_conditions m dirichlet) as [[[nl vl] vals]|e];
    [|discriminate H].
  cbn [bind compute_body_force compute_Neumann_integral mesh vec] in H.
  inversion H. split; reflexivity.
Qed.

(** The assembly for the zero field, zero physics and zero loads. *)
Lemma assemble_zero (L : Laplace) (u_physics : tensor4) :
  let N := num_total_nodes (mesh (fem L)) in
  laplace_wf L ->
  body_force L = np.zeros N (vec (fem L)) ->
  neumann L = np.zeros N (vec (fem L)) ->
  length u_physics = num_cells (mesh (fem L)) ->
  ((0 < num_cells (mesh (fem L)))%nat ->
   length (hd [] (hd [] u_physics)) = vec (fem L)) ->
  (forall c q i j, mget (nth q (nth c u_physics []) []) i j = 0) ->
  assemble L (np.zeros N (vec (fem L))) u_physics = Ok (np.zeros N (vec (fem L))).
Proof.
  intros N [Hwf [Hvec [HN [_ [_ [Hv _]]]]]] Hbf Hnm Hu Hcomp Hzero.
  fold N in HN. unfold assemble.
  rewrite (weak_form_zero u_physics _ Hzero), Hu, Hv, Nat.min_id.
  assert (E : np.zeros (num_cells (mesh (fem L)) * num_nodes)
                       (length (hd [] (hd [] u_physics)))
              = np.zeros (length (concat (cells (mesh (fem L))))) (vec (fem L))).
  { rewrite concat_cells_length by exact Hwf.
    destruct (Nat.eq_dec (num_cells (mesh (fem L))) 0) as [E0|Hpos].
    - now rewrite E0.
    - rewrite Hcomp by lia. reflexivity. }
  rewrite E.
  rewrite reshape_rows_concat by (exact Hvec || apply zeros_shape). cbn [bind].
  rewrite zeros_like_zeros, scatter_add_zeros by exact HN. cbn [bind].
  rewrite Hbf, np_subtract_zeros by exact HN. cbn [bind].
  rewrite Hnm. now apply np_subtract_zeros.
Qed.

(** C2.  For the identity material model ([LinearPoisson]), without source
    and without traction, the residual of the all-zero solution field is
    the all-zero vector, on every mesh. *)
Theorem zero_solution_zero_residual
        (m : Mesh) (dirichlet : dirichlet_bc_info) (self : LinearPoisson) :
  mesh_wf m -> (0 < num_total_nodes m)%nat ->
  LinearPoisson_init m dirichlet None None = Ok self ->
  compute_residual (np.zeros (num_total_nodes m) 1) self
  = (Ok (np.zeros (num_total_nodes m) 1), self).
Proof.
  intros Hwf HN Hinit.
  destruct (LinearPoisson_init_wf m _ _ _ self Hwf HN Hinit) as [HL [Hm Hv]].
  assert (Hloads : body_force (laplace self) = np.zeros (num_total_nodes m) 1
                   /\ neumann (laplace self) = np.zeros (num_total_nodes m) 1).
  { unfold LinearPoisson_init in Hinit.
    destruct (Laplace_init 1 m dirichlet None None) as [L|e] eqn:E; [|discriminate Hinit].
    cbn [bind] in Hinit. inversion Hinit; subst self.
    apply (Laplace_init_no_loads 1 m dirichlet L E). }
  destruct Hloads as [Hbf Hnm].
  set (sol := np.zeros (num_total_nodes m) 1).
  rewrite (compute_residual_assemble sol self (fun u => LinearPoisson_identity sol u self)).
  f_equal.
  pose proof (assemble_zero (laplace self) (compute_u_grads (fem (laplace self)) sol) HL)
    as Hz.
  cbn zeta in Hz. rewrite Hm, Hv in Hz. apply Hz.
  - exact Hbf.
  - exact Hnm.
  - pose proof (compute_u_grads_cells _ sol HL) as Hc. now rewrite Hm in Hc.
  - intros HC. rewrite <- Hv. apply (compute_u_grads_components _ sol (num_total_nodes m)).
    + exact HL.
    + rewrite Hv. apply zeros_shape.
    + exact HN.
    + now rewrite Hm.
  - intros c q i j. apply compute_u_grads_zero.
Qed.

(** An instance of [zero_solution_zero_residual]: the unit cube. *)
Lemma zero_residual_unit_cube :
  mesh_wf unit_cube
  /\ (0 < num_total_nodes unit_cube)%nat
  /\ exists self,
       LinearPoisson_init unit_cube ([], [], []) None None = Ok self
       /\ compute_residual (np.zeros 8 1) self = (Ok (np.zeros 8 1), self).
Proof.
  assert (HN : (0 < num_total_nodes unit_cube)%nat) by (cbn; lia).
  split; [exact unit_cube_wf|]. split; [exact HN|].
  destruct (LinearPoisson_init_ok unit_cube) as [self Hinit].
  exists self. split; [exact Hinit|].
  exact (zero_solution_zero_residual unit_cube ([], [], []) self unit_cube_wf HN Hinit).
Defined.

(** ** The return mapping over the quadrature points *)

Lemma chunk_firstn_skipn {A : Type} (n : nat) (l : list A) :
  (0 < n)%nat -> (n <= length l)%nat ->
  chunk n l = firstn n l :: chunk n (skipn n l).
Proof.
  intros Hn Hl. rewrite <- (firstn_skipn n l) at 1.
  apply chunk_app; [exact Hn|]. rewrite length_firstn. lia.
Qed.

Lemma nth_chunk {A : Type} (n k : nat) (l : list A) (c q : nat) (d : A) :
  (0 < n)%nat -> length l = (k * n)%nat -> (c < k)%nat -> (q < n)%nat ->
  nth q (nth c (chunk n l) []) d = nth (c * n + q) l d.
Proof.
  intros Hn. revert k l. induction c as [|c IH]; intros k l Hl Hc Hq.
  - rewrite chunk_firstn_skipn by nia. cbn [nth Nat.mul Nat.add].
    rewrite nth_firstn. destruct (Nat.ltb_spec q n); [reflexivity|lia].
  - rewrite chunk_firstn_skipn by nia. cbn [nth].
    destruct k as [|k]; [lia|].
    rewrite (IH k (skipn n l)); [|rewrite length_skipn; nia|lia|exact Hq].
    rewrite nth_skipn. f_equal. lia.
Qed.

Lemma nth_concat_uniform {A : Type} (n : nat) (ls : list (list A)) (c q : nat) (d : A) :
  Forall (fun l => length l = n) ls -> (c < length ls)%nat -> (q < n)%nat ->
  nth (c * n + q) (concat ls) d = nth q (nth c ls []) d.
Proof.
  intros Hall. revert c. induction Hall as [|l ls Hl Hall IH]; intros c Hc Hq.
  - cbn in Hc. lia.
  - cbn [concat]. destruct c as [|c].
    + cbn [Nat.mul Nat.add nth]. apply app_nth1. lia.
    + cbn [nth length] in *. rewrite app_nth2 by lia.
      rewrite <- IH by lia. f_equal. lia.
Qed.

Lemma nth_map2 {A B C : Type} (f : A -> B -> C) (l1 : list A) (l2 : list B)
      (i : nat) (da : A) (db : B) (dc : C) :
  length l1 = length l2 -> (i < length l1)%nat ->
  nth i (map2 f l1 l2) dc = f (nth i l1 da) (nth i l2 db).
Proof.
  intros Hlen Hi. unfold map2.
  rewrite (nth_map_in_range _ _ i (da, db) dc) by (rewrite length_combine; lia).
  rewrite combine_nth by exact Hlen. reflexivity.
Qed.

Lemma entries_shape (f : nat -> nat -> R) : shape2 (entries f) dim dim.
Proof. split; [reflexivity|]. repeat constructor. Qed.

Lemma stress_return_map_shape (u_grad sigma_old epsilon_old : matrix) :
  shape2 u_grad dim dim -> shape2 sigma_old dim dim -> shape2 epsilon_old dim dim ->
  shape2 (stress_return_map u_grad sigma_old epsilon_old) dim dim.
Proof.
  intros Hu Hs He.
  rewrite (matrix3_explicit u_grad Hu), (matrix3_explicit sigma_old Hs),
    (matrix3_explicit epsilon_old He), stress_return_map_entries.
  apply entries_shape.
Qed.

(** An array of shape [(_, num_quads, dim, dim)]. *)
Lemma reshape_matrices_ok (u_grads : tensor4) :
  Forall (Forall (fun u => shape2 u dim dim)) u_grads ->
  reshape_matrices dim dim u_grads = Ok (concat u_grads).
Proof.
  intros Hall. unfold reshape_matrices.
  assert (Hm : Forall (fun u => shape2 u dim dim) (concat u_grads)).
  { apply Forall_concat. exact Hall. }
  rewrite reshape_rows_concat.
  - cbn [bind]. apply reshape_rows_concat; [unfold dim; lia|].
    eapply Forall_impl; [|exact Hm]. intros u [H _]. exact H.
  - unfold dim; lia.
  - apply Forall_concat. eapply Forall_impl; [|exact Hm]. intros u [_ H]. exact H.
Qed.

Lemma reshape_like_chunk (u_grads : tensor4) (t : tensor3) (Q : nat) :
  u_grads <> [] ->
  Forall (fun uc => length uc = Q /\ Forall (fun u => shape2 u dim dim) uc) u_grads ->
  (0 < Q)%nat ->
  Forall (fun s => shape2 s dim dim) t ->
  reshape_like u_grads t = chunk Q t.
Proof.
  intros Hne Hall HQ Ht. unfold reshape_like.
  destruct u_grads as [|uc u_grads]; [contradiction|].
  inversion Hall as [|? ? [Huc Hu] _]; subst. cbn [hd].
  destruct uc as [|u uc]; [cbn in HQ; lia|].
  inversion Hu as [|? ? [Hrows Hcols] _]; subst. cbn [hd length].
  rewrite Hrows.
  destruct u as [|row u]; [discriminate Hrows|].
  inversion Hcols as [|? ? Hrow _]; subst. cbn [hd]. rewrite Hrow.
  rewrite chunk_concat.
  - rewrite chunk_concat; [reflexivity|unfold dim; lia|].
    eapply Forall_impl; [|exact Ht]. intros s [H _]. exact H.
  - unfold dim; lia.
  - apply Forall_concat. eapply Forall_impl; [|exact Ht]. intros s [_ H]. exact H.
Qed.

(** [Plasticity.compute_physics] applies the return mapping at quadrature
    point [q] of cell [c] to the gradient there and to entry
    [c * num_quads + q] of the stored stress and strain. *)
Lemma Plasticity_compute_physics_pointwise
      (self : Plasticity) (sol : matrix) (u_grads : tensor4) (Q : nat) :
  vec (fem (plasticity_base self)) = dim ->
  u_grads <> [] -> (0 < Q)%nat ->
  Forall (fun uc => length uc = Q /\ Forall (fun u => shape2 u dim dim) uc) u_grads ->
  length (sigmas_old self) = (length u_grads * Q)%nat ->
  length (epsilons_old self) = (length u_grads * Q)%nat ->
  Forall (fun s => shape2 s dim dim) (sigmas_old self) ->
  Forall (fun e => shape2 e dim dim) (epsilons_old self) ->
  exists sigmas,
    compute_physics sol u_grads self = (Ok sigmas, self)
    /\ forall c q, (c < length u_grads)%nat -> (q < Q)%nat ->
         nth q (nth c sigmas []) []
         = stress_return_map (nth q (nth c u_grads []) [])
                             (nth (c * Q + q) (sigmas_old self) [])
                             (nth (c * Q + q) (epsilons_old self) []).
Proof.
  intros Hvec Hne HQ Hall Hs He Hss Hes.
  assert (Hall' : Forall (Forall (fun u => shape2 u dim dim)) u_grads).
  { eapply Forall_impl; [|exact Hall]. intros uc [_ H]. exact H. }
  assert (HallQ : Forall (fun uc => length uc = Q) u_grads).
  { eapply Forall_impl; [|exact Hall]. intros uc [H _]. exact H. }
  assert (Hlen : length (concat u_grads) = (length u_grads * Q)%nat).
  { now apply length_concat_uniform. }
  cbn [compute_physics Plasticity_Physics].
  unfold Plasticity_compute_physics, bindM, getM, liftM, retM, stress_strain_fns.
  cbn [snd]. rewrite Hvec, reshape_matrices_ok by exact Hall'.
  unfold vmap3. rewrite Hlen, Hs, He, !Nat.eqb_refl. cbn [andb].
  eexists. split; [reflexivity|].
  intros c q Hc Hq.
  assert (Hcq : (c * Q + q < length u_grads * Q)%nat) by nia.
  set (out := map2 _ (concat u_grads) _).
  assert (Hout : length out = (length u_grads * Q)%nat).
  { unfold out. rewrite map2_length, length_combine, Hlen, Hs, He.
    now rewrite !Nat.min_id. }
  assert (Hshape : Forall (fun s => shape2 s dim dim) out).
  { unfold out, map2. apply Forall_map, Forall_forall.
    intros [u [s e]] Hin. cbn [fst snd].
    pose proof (in_combine_l _ _ _ _ Hin) as Hu.
    pose proof (in_combine_r _ _ _ _ Hin) as Hse.
    pose proof (in_combine_l _ _ _ _ Hse) as Hs'.
    pose proof (in_combine_r _ _ _ _ Hse) as He'.
    apply stress_return_map_shape.
    - pose proof (proj2 (Forall_concat _ _) Hall') as H.
      rewrite Forall_forall in H. now apply H.
    - rewrite Forall_forall in Hss. now apply Hss.
    - rewrite Forall_forall in Hes. now apply Hes. }
  rewrite (reshape_like_chunk u_grads out Q Hne Hall HQ Hshape).
  rewrite (nth_chunk Q (length u_grads) out c q []) by assumption.
  unfold out.
  rewrite (nth_map2 _ _ _ _ [] ([], []) [])
    by (rewrite ?length_combine, ?Hlen, ?Hs, ?He, ?Nat.min_id; lia).
  rewrite combine_nth by lia. cbn [fst snd].
  rewrite (nth_concat_uniform Q u_grads c q []) by assumption.
  reflexivity.
Qed.

(** ** The stored state of [Plasticity] *)

Lemma concat_chunk {A : Type} (n k : nat) (l : list A) :
  (0 < n)%nat -> length l = (k * n)%nat -> concat (chunk n l) = l.
Proof.
  intros Hn. revert l. induction k as [|k IH]; intros l Hl.
  - destruct l; [reflexivity|discriminate Hl].
  - rewrite chunk_firstn_skipn by nia. cbn [concat].
    rewrite IH by (rewrite length_skipn; nia).
    apply firstn_skipn.
Qed.

Lemma Plasticity_init_wf (m : Mesh) (dirichlet : dirichlet_bc_info)
      (neumann_bc_info : option (list location_fn * list (vector -> vector)))
      (source_info : option (vector -> vector)) (self : Plasticity) :
  mesh_wf m -> (0 < num_total_nodes m)%nat ->
  Plasticity_init m dirichlet neumann_bc_info source_info = Ok self ->
  plasticity_wf self /\ mesh (fem (plasticity_base self)) = m.
Proof.
  intros Hwf HN H. unfold Plasticity_init in H.
  destruct (Laplace_init 3 m dirichlet neumann_bc_info source_info) as [L|e] eqn:E;
    [|discriminate H].
  cbn [bind] in H. inversion H; subst self; clear H.
  destruct (Laplace_init_wf 3 m _ _ _ L Hwf ltac:(lia) HN E) as [HL [Hm Hv]].
  split; [|exact Hm].
  unfold plasticity_wf. cbn [plasticity_base sigmas_old epsilons_old].
  rewrite Hm, Hv. unfold num_cells.
  split; [exact HL|]. split; [reflexivity|].
  rewrite length_map, repeat_length. split; [reflexivity|]. split; [reflexivity|].
  split.
  - apply Forall_map, Forall_forall. intros z Hz. apply repeat_spec in Hz. subst z.
    rewrite zeros_like_zeros. apply zeros_shape.
  - apply Forall_forall. intros z Hz. apply repeat_spec in Hz. subst z.
    apply zeros_shape.
Qed.

Lemma compute_u_grads_shape (L : Laplace) (sol : matrix) :
  laplace_wf L ->
  Forall (fun uc => length uc = num_quads
                    /\ Forall (fun u => shape2 u (ncols sol) dim) uc)
         (compute_u_grads (fem L) sol).
Proof.
  intros [_ [_ [_ [_ [Hq _]]]]]. unfold compute_u_grads, map2.
  apply Forall_map, Forall_forall. intros [cell grads] Hin. cbn [fst snd].
  apply in_combine_r in Hin. rewrite Forall_forall in Hq.
  split.
  - rewrite length_map. apply Hq, Hin.
  - apply Forall_map, Forall_forall. intros gq _. split.
    + now rewrite length_map, length_seq.
    + apply Forall_map, Forall_forall. intros v _.
      now rewrite length_map, length_seq.
Qed.

(** On an object that satisfies the invariant, [update_stress_strain]
    does not raise for a solution field with three components; it stores
    the return-mapped stress and the strain of the field, one per
    quadrature point, and keeps the invariant. *)
Lemma update_stress_strain_ok (self : Plasticity) (sol : matrix) (k : nat) :
  plasticity_wf self -> (0 < num_cells (mesh (fem (plasticity_base self))))%nat ->
  shape2 sol k dim -> (0 < k)%nat ->
  let u_grads := concat (compute_u_grads (fem (plasticity_base self)) sol) in
  exists self',
    update_stress_strain sol self = (Ok tt, self')
    /\ plasticity_wf self'
    /\ plasticity_base self' = plasticity_base self
    /\ sigmas_old self'
       = map2 (fun u se => stress_return_map u (fst se) (snd se)) u_grads
              (combine (sigmas_old self) (epsilons_old self))
    /\ epsilons_old self' = map strain u_grads.
Proof.
  intros [HL [Hvec [Hs [He [Hss Hes]]]]] HC Hsol Hk. cbn zeta.
  set (L := plasticity_base self) in *.
  pose proof (compute_u_grads_shape L sol HL) as Hshape.
  unfold ncols in Hshape. rewrite (shape2_ncols sol k dim Hsol Hk) in Hshape.
  pose proof (compute_u_grads_cells L sol HL) as Hcells.
  set (ug := compute_u_grads (fem L) sol) in *.
  assert (Hne : ug <> []).
  { intros E. rewrite E in Hcells. cbn in Hcells. lia. }
  assert (Hall' : Forall (Forall (fun u => shape2 u dim dim)) ug).
  { eapply Forall_impl; [|exact Hshape]. intros uc [_ H]. exact H. }
  assert (HallQ : Forall (fun uc => length uc = num_quads) ug).
  { eapply Forall_impl; [|exact Hshape]. intros uc [H _]. exact H. }
  assert (Hlen : length (concat ug) = (num_cells (mesh (fem L)) * num_quads)%nat).
  { rewrite (length_concat_uniform num_quads ug HallQ), Hcells. reflexivity. }
  assert (Hu3 : Forall (fun u => shape2 u dim dim) (concat ug)).
  { now apply Forall_concat. }
  pose proof (update_stress_strain_state sol self) as Hstate. cbn zeta in Hstate.
  fold L in Hstate. fold ug in Hstate.
  rewrite Hvec, (reshape_matrices_ok ug Hall') in Hstate.
  unfold vmap3 in Hstate. rewrite Hlen, Hs, He, !Nat.eqb_refl in Hstate.
  cbn [andb] in Hstate.
  set (out := map2 _ (concat ug) _) in *.
  assert (Hout : length out = (num_cells (mesh (fem L)) * num_quads)%nat).
  { unfold out. rewrite map2_length, length_combine, Hlen, Hs, He.
    now rewrite !Nat.min_id. }
  assert (Hout3 : Forall (fun s => shape2 s dim dim) out).
  { unfold out, map2. apply Forall_map, Forall_forall.
    intros [u [s e]] Hin. cbn [fst snd].
    pose proof (in_combine_l _ _ _ _ Hin) as Hu.
    pose proof (in_combine_r _ _ _ _ Hin) as Hse.
    apply stress_return_map_shape.
    - rewrite Forall_forall in Hu3. now apply Hu3.
    - rewrite Forall_forall in Hss. eapply Hss, in_combine_l, Hse.
    - rewrite Forall_forall in Hes. eapply Hes, in_combine_r, Hse. }
  assert (Hstrain : Forall (fun e => shape2 e dim dim) (map strain (concat ug))).
  { apply Forall_map. eapply Forall_impl; [|exact Hu3].
    intros u Hu. rewrite (matrix3_explicit u Hu). split; [reflexivity|].
    repeat constructor. }
  assert (Eold : forall (old t : list (list (list R))),
             old <> [] -> Forall (fun s => shape2 s dim dim) old ->
             Forall (fun s => shape2 s dim dim) t ->
             reshape_like3 old (concat (concat t)) = t).
  { intros old t Hold Hold3 Ht. unfold reshape_like3.
    destruct old as [|o old]; [contradiction|].
    inversion Hold3 as [|? ? [Ho1 Ho2] _]; subst. cbn [hd]. rewrite Ho1.
    destruct o as [|row o]; [discriminate Ho1|].
    inversion Ho2 as [|? ? Hrow _]; subst. cbn [hd]. rewrite Hrow.
    rewrite chunk_concat.
    - rewrite chunk_concat; [reflexivity|unfold dim; lia|].
      eapply Forall_impl; [|exact Ht]. intros s [H _]. exact H.
    - unfold dim; lia.
    - apply Forall_concat. eapply Forall_impl; [|exact Ht]. intros s [_ H]. exact H. }
  assert (Hsne : sigmas_old self <> []).
  { intros E. rewrite E in Hs. cbn in Hs. unfold num_quads in Hs. lia. }
  assert (Hene : epsilons_old self <> []).
  { intros E. rewrite E in He. cbn in He. unfold num_quads in He. lia. }
  rewrite (reshape_like_chunk ug out num_quads Hne Hshape ltac:(unfold num_quads; lia) Hout3)
    in Hstate.
  rewrite (concat_chunk num_quads (num_cells (mesh (fem L))) out
             ltac:(unfold num_quads; lia) Hout) in Hstate.
  rewrite (Eold _ out Hsne Hss Hout3), (Eold _ _ Hene Hes Hstrain) in Hstate.
  eexists. split; [exact Hstate|].
  cbn [plasticity_base sigmas_old epsilons_old].
  split; [|split; [reflexivity|split; reflexivity]].
  unfold plasticity_wf. cbn [plasticity_base sigmas_old epsilons_old].
  rewrite length_map, Hout, Hlen. repeat split; assumption || apply HL.
Qed.

(** ** The unit cube, stretched *)

Lemma map2_map_r {A B C : Type} (f : A -> B -> C) (g : A -> B) (l : list A) :
  map2 f l (map g l) = map (fun a => f a (g a)) l.
Proof.
  unfold map2. induction l as [|a l IH]; [reflexivity|].
  cbn [map combine fst snd]. now rewrite IH.
Qed.

(** The shape gradients [get_shape_grads] returns, cell by cell and
    quadrature point by quadrature point. *)
Lemma get_shape_grads_explicit (m : Mesh) :
  get_shape_grads m
  = Ok (map (fun coos =>
               map (fun x =>
                      map (fun g => vecmat g (np.inv (jacobian coos
                                                (eval_fns get_shape_grad_functions x))))
                          (eval_fns get_shape_grad_functions x))
                   get_quad_points)
            (physical_coos m),
        map (map (fun d => d * 1)) (jacobian_dets m)).
Proof.
  unfold get_shape_grads. cbn zeta.
  change (assert_ _) with (Ok tt).
  cbn [bind]. unfold jacobian_dets. do 2 f_equal.
  - rewrite !map_map. apply map_ext. intros coos.
    rewrite map_map, map2_map_r. unfold shape_grads_reference.
    now rewrite map_map.
  - now rewrite !map_map.
Qed.

(** The reference-to-physical map of the unit cube halves every
    coordinate, at every reference point. *)
Lemma unit_cube_jacobian (x : vector) :
  jacobian (nth 0 (physical_coos unit_cube) []) (eval_fns get_shape_grad_functions x)
  = half.
Proof.
  cbn [physical_coos unit_cube points cells map np.take nth].
  unfold jacobian, eval_fns, get_shape_grad_functions,
    grad_f1, grad_f2, grad_f3, grad_f4, grad_f5, grad_f6, grad_f7, grad_f8,
    map2, vget, dim, half.
  cbn [map seq combine fst snd nth np.sum fold_right].
  list_eq; field.
Qed.

Lemma inv_half : np.inv half = [[2; 0; 0]; [0; 2; 0]; [0; 0; 2]].
Proof.
  unfold np.inv, np.det, half, mget, vget. cbn [nth]. list_eq; field.
Qed.

Lemma vecmat_twice (a b c : R) :
  vecmat [a; b; c] [[2; 0; 0]; [0; 2; 0]; [0; 0; 2]] = [2 * a; 2 * b; 2 * c].
Proof.
  unfold vecmat, mget, vget, dim. cbn [map seq nth np.sum fold_right].
  list_eq; ring.
Qed.

(** On the unit cube the field [u(x) = x] has the gradient 1 in the
    direction of [x], at the first quadrature point. *)
Lemma unit_cube_stretch_gradient (self : FEM) (grads : tensor4) (weights : matrix) :
  mesh self = unit_cube -> get_shape_grads unit_cube = Ok (grads, weights) ->
  shape_grads self = grads ->
  mget (nth 0 (concat (compute_u_grads self (points unit_cube))) []) 0 0 = 1.
Proof.
  intros Hm Hg Hs. rewrite get_shape_grads_explicit in Hg.
  apply (f_equal (fun r => match r with Ok p => fst p | Raise _ => [] end)) in Hg.
  cbv beta iota in Hg. unfold fst in Hg.
  unfold compute_u_grads. rewrite Hm, Hs, <- Hg.
  change (physical_coos unit_cube) with [nth 0 (physical_coos unit_cube) []].
  cbn [map].
  rewrite (map_ext _ (fun x => map (fun g => vecmat g [[2; 0; 0]; [0; 2; 0]; [0; 0; 2]])
                                   (eval_fns get_shape_grad_functions x)))
    by (intros x; now rewrite unit_cube_jacobian, inv_half).
  unfold get_quad_points, gauss, eval_fns, get_shape_grad_functions,
    grad_f1, grad_f2, grad_f3, grad_f4, grad_f5, grad_f6, grad_f7, grad_f8.
  cbn [unit_cube cells points map2 combine map fst snd flat_map range seq app concat
       nth np.take ncols hd length].
  rewrite !vecmat_twice.
  unfold mget, vget, dim. cbn [map seq combine fst snd nth np.sum fold_right].
  field.
Qed.

Lemma Plasticity_init_ok (m : Mesh) :
  exists self,
    Plasticity_init m ([], [], []) None None = Ok self
    /\ mesh (fem (plasticity_base self)) = m
    /\ get_shape_grads m
       = Ok (shape_grads (fem (plasticity_base self)), JxW (fem (plasticity_base self)))
    /\ epsilons_old self = repeat (np.zeros 3 dim) (num_cells m * num_quads).
Proof.
  unfold Plasticity_init, Laplace_init, FEM_init.
  rewrite get_shape_vals_ok. cbn [bind].
  destruct (get_shape_grads m) as [[grads weights]|e] eqn:E.
  - cbn [bind Dirichlet_boundary_conditions length Nat.eqb andb assert_ seq fold_left
         compute_body_force compute_Neumann_integral].
    eexists. split; [reflexivity|]. cbn [plasticity_base fem mesh shape_grads JxW].
    repeat split.
  - rewrite get_shape_grads_explicit in E. discriminate E.
Qed.

Lemma strain_entry (u : matrix) (i : nat) :
  shape2 u dim dim -> (i < dim)%nat -> mget (strain u) i i = mget u i i.
Proof.
  intros Hu Hi. rewrite (matrix3_explicit u Hu).
  unfold dim in Hi.
  do 3 (destruct i as [|i];
        [unfold strain, mscale, mmap2, map2, np.T, entries, mget, vget, dim;
         cbn [map seq combine fst snd nth length]; field|]).
  lia.
Qed.

(** [update_stress_strain] does change the stored state: on the unit cube,
    after the field [u(x) = x], the stored strain at the first quadrature
    point has the entry 1 where it had 0. *)
Lemma update_stress_strain_unit_cube :
  exists self self',
    Plasticity_init unit_cube ([], [], []) None None = Ok self
    /\ update_stress_strain (points unit_cube) self = (Ok tt, self')
    /\ mget (nth 0 (epsilons_old self) []) 0 0 = 0
    /\ mget (nth 0 (epsilons_old self') []) 0 0 = 1.
Proof.
  destruct (Plasticity_init_ok unit_cube) as [self [Hinit [Hm [Hg He]]]].
  destruct (Plasticity_init_wf unit_cube _ _ _ self unit_cube_wf ltac:(cbn; lia) Hinit)
    as [Hwf _].
  assert (Hsol : shape2 (points unit_cube) 8 dim).
  { split; [reflexivity|]. repeat constructor. }
  destruct (update_stress_strain_ok self (points unit_cube) 8 Hwf
              ltac:(rewrite Hm; cbn; lia) Hsol ltac:(lia))
    as [self' [Hup [Hwf' [Hbase [_ He']]]]].
  exists self, self'. split; [exact Hinit|]. split; [exact Hup|]. split.
  - rewrite He. reflexivity.
  - rewrite He'.
    pose proof (compute_u_grads_shape (plasticity_base self) (points unit_cube)
                  ltac:(apply Hwf)) as Hshape.
    pose proof (proj2 (Forall_concat _ _)
                  (Forall_impl _ (fun uc H => proj2 H) Hshape)) as Hu3.
    destruct Hwf' as [_ [_ [_ [Hlen _]]]].
    rewrite He', length_map, Hbase, Hm in Hlen.
    rewrite (nth_map_in_range strain _ 0 [] []) by (rewrite Hlen; cbn; lia).
    rewrite strain_entry.
    + apply (unit_cube_stretch_gradient _ _ _ Hm Hg eq_refl).
    + rewrite Forall_forall in Hu3. apply Hu3, nth_In. rewrite Hlen. cbn; lia.
    + unfold dim; lia.
Qed.

(** C5.  [Plasticity.compute_physics] returns the object as it received it,
    also when it raises, and a second call with the same arguments returns
    the same stress; [compute_residual] and [compute_avg_stress] leave the
    object alone too.  [update_stress_strain] keeps the base object and is
    the method that stores a new [sigmas_old] and [epsilons_old]: the
    return-mapped stress and the strain of the field it is given; on the
    unit cube it does change the stored strain. *)
Theorem Plasticity_state_frame (sol : matrix) (u_grads : tensor4) (self : Plasticity) :
  snd (compute_physics sol u_grads self) = self
  /\ (r1 <~ compute_physics sol u_grads ;; r2 <~ compute_physics sol u_grads ;;
      retM (r1, r2)) self
     = match fst (compute_physics sol u_grads self) with
       | Ok r => (Ok (r, r), self)
       | Raise e => (Raise e, self)
       end
  /\ snd (compute_residual sol self) = self
  /\ snd (compute_avg_stress self) = self
  /\ plasticity_base (snd (update_stress_strain sol self)) = plasticity_base self
  /\ (forall u_grads_reshape sigmas,
        reshape_matrices (vec (fem (plasticity_base self))) dim
                         (compute_u_grads (fem (plasticity_base self)) sol)
        = Ok u_grads_reshape ->
        vmap3 stress_return_map u_grads_reshape (sigmas_old self) (epsilons_old self)
        = Ok sigmas ->
        fst (update_stress_strain sol self) = Ok tt
        /\ sigmas_old (snd (update_stress_strain sol self))
           = reshape_like3 (sigmas_old self)
               (concat (concat (concat
                  (reshape_like (compute_u_grads (fem (plasticity_base self)) sol)
                                sigmas))))
        /\ epsilons_old (snd (update_stress_strain sol self))
           = reshape_like3 (epsilons_old self)
               (concat (concat (map strain u_grads_reshape))))
  /\ (exists cube cube',
        Plasticity_init unit_cube ([], [], []) None None = Ok cube
        /\ update_stress_strain (points unit_cube) cube = (Ok tt, cube')
        /\ epsilons_old cube' <> epsilons_old cube).
Proof.
  pose proof (update_stress_strain_state sol self) as Hu. cbn zeta in Hu.
  split; [|split; [|split; [|split; [|split; [|split]]]]].
  - apply Plasticity_compute_physics_read_only.
  - apply read_only_twice, Plasticity_compute_physics_read_only.
  - apply compute_residual_read_only. intros ug.
    apply Plasticity_compute_physics_read_only.
  - apply compute_avg_stress_read_only.
  - destruct (reshape_matrices _ _ _) as [ur|e]; [|now rewrite Hu].
    destruct (vmap3 _ _ _ _) as [s|e]; now rewrite Hu.
  - intros ur s E1 E2. rewrite E1, E2 in Hu. rewrite Hu.
    cbn [fst snd sigmas_old epsilons_old]. repeat split.
  - destruct update_stress_strain_unit_cube as [cube [cube' [H1 [H2 [H3 H4]]]]].
    exists cube, cube'. split; [exact H1|]. split; [exact H2|].
    intros E. rewrite E, H3 in H4. lra.
Qed.

(** ** The reference element: nodes, quadrature rule and faces *)

(** X1.  The shape functions interpolate the reference nodes in the order
    of [node_points]: the shape function of a node is 1 at its node and 0
    at the seven others, so that their values at the eight nodes form the
    identity matrix. *)
Theorem shape_functions_interpolate_nodes :
  map (eval_fns get_shape_val_functions) node_points = np.eye num_nodes.
Proof.
  unfold eval_fns, get_shape_val_functions, node_points, np.eye, num_nodes,
    f1, f2, f3, f4, f5, f6, f7, f8.
  cbn [map seq Nat.eqb vget nth].
  list_eq; field.
Qed.

(** The sum of a monomial over the eight points of [get_quad_points] is
    the product of three sums over the two Gauss coordinates. *)
Lemma quad_points_monomial_sum (i j k : nat) :
  np.sum (map (monomial i j k) get_quad_points)
  = (gauss 0 ^ i + gauss 1 ^ i) * (gauss 0 ^ j + gauss 1 ^ j)
    * (gauss 0 ^ k + gauss 1 ^ k).
Proof.
  unfold get_quad_points, monomial, range.
  cbn [flat_map map seq app Z.of_nat np.sum fold_right vget nth].
  change (Z.pos (Pos.of_succ_nat 0)) with 1%Z.
  generalize (gauss 0 ^ i) (gauss 1 ^ i) (gauss 0 ^ j) (gauss 1 ^ j)
    (gauss 0 ^ k) (gauss 1 ^ k).
  intros. ring.
Qed.

Lemma gauss_pair_monomial (i : nat) :
  (i <= 3)%nat -> gauss 0 ^ i + gauss 1 ^ i = monomial_integral i.
Proof.
  intros Hi. unfold gauss, monomial_integral.
  change (IZR (2 * (0 mod 2) - 1)) with (-1).
  change (IZR (2 * (1 mod 2) - 1)) with 1.
  pose proof sqrt_third_sqr as Ha. set (a := sqrt (1 / 3)) in *.
  destruct i as [|[|[|[|i]]]]; [| | | |lia]; cbn [pow Nat.add INR].
  - field.
  - field.
  - replace (-1 * a * (-1 * a * 1) + 1 * a * (1 * a * 1)) with (2 * (a * a)) by ring.
    rewrite Ha. cbn [INR]. field.
  - replace (-1 * a * (-1 * a * (-1 * a * 1)) + 1 * a * (1 * a * (1 * a * 1)))
      with 0 by ring.
    cbn [INR]. field.
Qed.

(** [monomial_integral i] is the Riemann integral of [t^i] over [[-1, 1]],
    by the primitive [t^(i+1) / (i+1)]. *)
Lemma power_primitive_derivable (i : nat) :
  derivable (fun t => t ^ S i / INR (S i)).
Proof. intros x. reg. Qed.

Lemma power_primitive_derive (i : nat) (x : R) :
  derive (fun t => t ^ S i / INR (S i)) (power_primitive_derivable i) x = x ^ i.
Proof.
  unfold derive. apply derive_pt_eq_0.
  assert (Hn : INR (S i) <> 0) by (apply not_0_INR; lia).
  replace (x ^ i) with (INR (S i) * x ^ pred (S i) / INR (S i))
    by (cbn [pred]; field; exact Hn).
  apply (derivable_pt_lim_div_scal (fun t => t ^ S i)).
  apply derivable_pt_lim_pow.
Qed.

Lemma power_primitive_continuous (i : nat) :
  continuity (derive (fun t => t ^ S i / INR (S i)) (power_primitive_derivable i)).
Proof.
  intros x.
  apply (continuity_pt_locally_ext (fun t => t ^ i) _ 1 x Rlt_0_1).
  - intros t _. symmetry. apply power_primitive_derive.
  - apply derivable_continuous_pt. reg.
Qed.

Lemma monomial_integral_Riemann (i : nat)
      (pr : Riemann_integrable (fun t => t ^ i) (-1) 1) :
  RiemannInt pr = monomial_integral i.
Proof.
  pose (F := mkC1 (power_primitive_continuous i)).
  pose proof (RiemannInt_P32 F (-1) 1) as pr'.
  rewrite (RiemannInt_P18 pr pr').
  - rewrite (FTC_Riemann F pr'). cbn [c1 F]. unfold monomial_integral.
    replace (i + 1)%nat with (S i) by lia.
    rewrite pow1. field. apply not_0_INR; lia.
  - lra.
  - intros x _. symmetry. apply power_primitive_derive.
Qed.

(** X2.  The quadrature rule of [get_quad_points] with the unit weights of
    [get_shape_grads] is exact on the reference cube for every monomial
    [x^i * y^j * z^k] of degree at most three in each coordinate: the sum
    over the eight points is the product of the integrals of [t^i], [t^j]
    and [t^k] over [[-1, 1]].  It is not exact for [x^4], where the sum is
    8/9 and the integral 8/5. *)
Theorem quadrature_exact_to_degree_three (i j k : nat) :
  (i <= 3)%nat -> (j <= 3)%nat -> (k <= 3)%nat ->
  np.sum (map (monomial i j k) get_quad_points)
  = monomial_integral i * monomial_integral j * monomial_integral k
  /\ (forall (n : nat) (pr : Riemann_integrable (fun t => t ^ n) (-1) 1),
        RiemannInt pr = monomial_integral n)
  /\ np.sum (map (monomial 4 0 0) get_quad_points) = 8 / 9
  /\ monomial_integral 4 * monomial_integral 0 * monomial_integral 0 = 8 / 5.
Proof.
  intros Hi Hj Hk. split; [|split; [|split]].
  - rewrite quad_points_monomial_sum, !gauss_pair_monomial by assumption.
    reflexivity.
  - apply monomial_integral_Riemann.
  - rewrite quad_points_monomial_sum.
    unfold gauss.
    change (IZR (2 * (0 mod 2) - 1)) with (-1).
    change (IZR (2 * (1 mod 2) - 1)) with 1.
    pose proof sqrt_third_sqr as Ha. set (a := sqrt (1 / 3)) in *.
    replace ((-1 * a) ^ 4 + (1 * a) ^ 4) with (2 * ((a * a) * (a * a))) by ring.
    rewrite Ha. cbn [pow]. field.
  - unfold monomial_integral. cbn [Nat.add pow INR]. field.
Qed.

Lemma quadrature_of_squares :
  np.sum (map (monomial 2 2 2) get_quad_points) = 8 / 27.
Proof.
  destruct (quadrature_exact_to_degree_three 2 2 2) as [H _]; [lia|lia|lia|].
  rewrite H. unfold monomial_integral. cbn [Nat.add pow INR]. field.
Defined.

(** The table [get_face_quad_points] computes. *)
Lemma get_face_quad_points_eq :
  get_face_quad_points
  = ( [ [ [-1; gauss 0; gauss 0]; [-1; gauss 1; gauss 0];
          [-1; gauss 0; gauss 1]; [-1; gauss 1; gauss 1] ];
        [ [1; gauss 0; gauss 0]; [1; gauss 1; gauss 0];
          [1; gauss 0; gauss 1]; [1; gauss 1; gauss 1] ];
        [ [gauss 0; -1; gauss 0]; [gauss 0; -1; gauss 1];
          [gauss 1; -1; gauss 0]; [gauss 1; -1; gauss 1] ];
        [ [gauss 0; 1; gauss 0]; [gauss 0; 1; gauss 1];
          [gauss 1; 1; gauss 0]; [gauss 1; 1; gauss 1] ];
        [ [gauss 0; gauss 0; -1]; [gauss 1; gauss 0; -1];
          [gauss 0; gauss 1; -1]; [gauss 1; gauss 1; -1] ];
        [ [gauss 0; gauss 0; 1]; [gauss 1; gauss 0; 1];
          [gauss 0; gauss 1; 1]; [gauss 1; gauss 1; 1] ] ],
      [ [-1; 0; 0]; [1; 0; 0]; [0; -1; 0]; [0; 1; 0]; [0; 0; -1]; [0; 0; 1] ] ).
Proof.
  unfold get_face_quad_points, face_extremes, range, dim, np.roll.
  cbn [flat_map map seq app Z.of_nat length Nat.modulo Nat.sub skipn firstn fst snd
       Nat.divmod].
  reflexivity.
Qed.

Ltac node_cases n :=
  destruct n as [|[|[|[|[|[|[|[|n]]]]]]]];
  [ | | | | | | | | exfalso; cbn in *; lia ].

(** X3.  The three face tables list the six faces in the same order.  For
    the local face [f], orthogonal to the axis [f / 2] at the coordinate
    [face_extremes[f mod 2]]: [get_face_inds] names the four reference
    nodes with that coordinate, and no other; the four quadrature points
    of [get_face_quad_points] have that coordinate and Gauss coordinates
    along the face; the face normal is the unit vector of the axis with the
    sign of the coordinate; and in [get_face_shape_vals] the shape
    functions of the nodes off the face vanish at the quadrature points of
    the face. *)
Theorem face_tables_agree :
  Forall (fun f =>
            let d := face_axis f in
            let s := face_side f in
            let face_nodes := nth f get_face_inds [] in
            let face_points := nth f (fst get_face_quad_points) [] in
            length face_nodes = 4%nat
            /\ (forall n, (n < num_nodes)%nat ->
                          (In n face_nodes <-> vget (nth n node_points []) d = s))
            /\ length face_points = 4%nat
            /\ Forall (fun q => length q = dim /\ vget q d = s
                                /\ forall d', (d' < dim)%nat -> d' <> d ->
                                              vget q d' = gauss 0 \/ vget q d' = gauss 1)
                      face_points
            /\ nth f (snd get_face_quad_points) []
               = map (fun d' => if Nat.eqb d' d then s else 0) (seq 0 dim)
            /\ Forall (fun vals_q =>
                         forall n, (n < num_nodes)%nat -> ~ In n face_nodes ->
                                   vget vals_q n = 0)
                      (nth f get_face_shape_vals []))
         (seq 0 num_faces).
Proof.
  unfold get_face_shape_vals.
  rewrite get_face_inds_eq, get_face_quad_points_eq.
  unfold num_faces, face_axis, face_side, face_extremes, node_points, num_nodes, dim.
  cbn [seq fst snd].
  repeat apply Forall_cons; [ | | | | | | apply Forall_nil];
    cbn [nth Nat.div Nat.modulo Nat.divmod Nat.sub fst snd map seq Nat.eqb length vget];
    (split; [reflexivity|]);
    (split; [intros n Hn; node_cases n; cbn [nth vget In];
             (split; [intros H; first [reflexivity | exfalso; intuition lia]
                     | intros H; first [exfalso; lra | intuition lia] ])|]);
    (split; [reflexivity|]);
    (split; [repeat apply Forall_cons; try apply Forall_nil;
             (split; [reflexivity|]); (split; [reflexivity|]);
             intros d' Hd' Hne; destruct d' as [|[|[|d']]]; try lia;
             cbn [nth vget]; tauto|]);
    (split; [reflexivity|]).
  all: repeat apply Forall_cons; try apply Forall_nil.
  all: intros n Hn Hnot; node_cases n;
    first [ exfalso; apply Hnot; cbn [In]; intuition lia
          | unfold eval_fns, get_shape_val_functions, f1, f2, f3, f4, f5, f6, f7, f8;
            cbn [map vget nth]; field ].
Qed.

(** ** Quadrature points in physical space *)

Lemma gauss_bounds (k : Z) : -1 <= gauss k <= 1.
Proof.
  unfold gauss.
  assert (Ha : 0 <= sqrt (1 / 3) <= 1).
  { split; [apply sqrt_pos|].
    rewrite <- sqrt_1 at 2. apply sqrt_le_1; lra. }
  assert (Hk : (2 * (k mod 2) - 1 = -1 \/ 2 * (k mod 2) - 1 = 1)%Z).
  { pose proof (Z.mod_pos_bound k 2 ltac:(lia)). lia. }
  destruct Hk as [-> | ->]; lra.
Qed.

(** Inside the reference cube every shape function is non-negative. *)
Lemma shape_vals_nonneg (x : vector) :
  -1 <= vget x 0 <= 1 -> -1 <= vget x 1 <= 1 -> -1 <= vget x 2 <= 1 ->
  Forall (fun v => 0 <= v) (eval_fns get_shape_val_functions x).
Proof.
  intros H0 H1 H2.
  unfold eval_fns, get_shape_val_functions, f1, f2, f3, f4, f5, f6, f7, f8.
  cbn [map].
  set (a := vget x 0) in *. set (b := vget x 1) in *. set (c := vget x 2) in *.
  assert (P : forall u v w, 0 <= u -> 0 <= v -> 0 <= w -> 0 <= 1 / 8 * u * v * w).
  { intros u v w Hu Hv Hw.
    apply Rmult_le_pos; [apply Rmult_le_pos; [apply Rmult_le_pos; [lra|]|]|];
      assumption. }
  repeat apply Forall_cons; try apply Forall_nil.
  - replace (-1 / 8 * (a - 1) * (b - 1) * (c - 1))
      with (1 / 8 * (1 - a) * (1 - b) * (1 - c)) by field. apply P; lra.
  - replace (1 / 8 * (a + 1) * (b - 1) * (c - 1))
      with (1 / 8 * (1 + a) * (1 - b) * (1 - c)) by field. apply P; lra.
  - replace (-1 / 8 * (a + 1) * (b + 1) * (c - 1))
      with (1 / 8 * (1 + a) * (1 + b) * (1 - c)) by field. apply P; lra.
  - replace (1 / 8 * (a - 1) * (b + 1) * (c - 1))
      with (1 / 8 * (1 - a) * (1 + b) * (1 - c)) by field. apply P; lra.
  - replace (1 / 8 * (a - 1) * (b - 1) * (c + 1))
      with (1 / 8 * (1 - a) * (1 - b) * (1 + c)) by field. apply P; lra.
  - replace (-1 / 8 * (a + 1) * (b - 1) * (c + 1))
      with (1 / 8 * (1 + a) * (1 - b) * (1 + c)) by field. apply P; lra.
  - replace (1 / 8 * (a + 1) * (b + 1) * (c + 1))
      with (1 / 8 * (1 + a) * (1 + b) * (1 + c)) by field. apply P; lra.
  - replace (-1 / 8 * (a - 1) * (b + 1) * (c + 1))
      with (1 / 8 * (1 - a) * (1 + b) * (1 + c)) by field. apply P; lra.
Qed.

Lemma quad_points_in_cube :
  Forall (fun x => -1 <= vget x 0 <= 1 /\ -1 <= vget x 1 <= 1 /\ -1 <= vget x 2 <= 1)
         get_quad_points.
Proof.
  unfold get_quad_points, range. cbn [flat_map map seq app].
  repeat apply Forall_cons; try apply Forall_nil;
    cbn [vget nth]; repeat split; apply gauss_bounds.
Qed.

(** A sum with non-negative weights lies between the bounds of its terms,
    scaled by the sum of the weights. *)
Lemma weighted_sum_bounds {A : Type} (g : A -> R) (lo hi : R) (ws : vector) (xs : list A) :
  Forall (fun w => 0 <= w) ws ->
  Forall (fun x => lo <= g x <= hi) xs ->
  length ws = length xs ->
  lo * np.sum ws <= np.sum (map2 (fun w x => w * g x) ws xs) <= hi * np.sum ws.
Proof.
  intros Hw. revert xs. induction Hw as [|w ws Hw0 Hw IH]; intros xs Hx Hlen.
  - destruct xs; [|discriminate]. cbn. lra.
  - destruct xs as [|x xs]; [discriminate|].
    inversion Hx as [|? ? Hx0 Hx']; subst.
    injection Hlen as Hlen.
    specialize (IH xs Hx' Hlen). unfold map2 in *.
    cbn [combine map np.sum fold_right fst snd].
    unfold np.sum in *.
    pose proof (Rmult_le_pos w (g x - lo) Hw0 ltac:(lra)).
    pose proof (Rmult_le_pos w (hi - g x) Hw0 ltac:(lra)).
    lra.
Qed.

Lemma nth_physical_coos (m : Mesh) (c : nat) :
  mesh_wf m -> (c < num_cells m)%nat ->
  cell_coos_wf (nth c (physical_coos m) []).
Proof.
  intros Hwf Hc.
  pose proof (physical_coos_wf m Hwf) as H. rewrite Forall_forall in H.
  apply H, nth_In. unfold physical_coos. rewrite length_map. exact Hc.
Qed.

(** X4.  On a well-formed mesh every physical quadrature point of a cell
    lies in the bounding box of the nodes of the cell: a bound of the
    [d]-th coordinates of the eight nodes bounds the [d]-th coordinate of
    the eight points of [get_physical_quad_points]. *)
Theorem physical_quad_points_in_bounding_box
        (m : Mesh) (shape_vals : matrix) (c q d : nat) (lo hi : R) :
  mesh_wf m -> get_shape_vals = Ok shape_vals ->
  (c < num_cells m)%nat -> (q < num_quads)%nat -> (d < dim)%nat ->
  Forall (fun x => lo <= vget x d <= hi) (nth c (physical_coos m) []) ->
  length (get_physical_quad_points m shape_vals) = num_cells m
  /\ length (nth c (get_physical_quad_points m shape_vals) []) = num_quads
  /\ lo <= vget (nth q (nth c (get_physical_quad_points m shape_vals) []) []) d <= hi.
Proof.
  intros Hwf Hs Hc Hq Hd Hbox.
  assert (Hs' : shape_vals = map (eval_fns get_shape_val_functions) get_quad_points)
    by (rewrite get_shape_vals_ok in Hs; congruence).
  clear Hs. subst shape_vals.
  assert (Hlen : length (physical_coos m) = num_cells m)
    by (unfold physical_coos; now rewrite length_map).
  unfold get_physical_quad_points.
  split; [now rewrite length_map|].
  rewrite (@nth_map_in_range (list (list R)) (list (list R)) _ _ c [] [])
    by (rewrite Hlen; exact Hc).
  split; [now rewrite !length_map|].
  set (x := nth q get_quad_points []).
  set (coos := nth c (physical_coos m) []) in *.
  assert (E : vget (nth q (map (fun vals_q =>
                                  map (fun d0 => np.sum (map2 (fun s p => s * vget p d0)
                                                              vals_q coos))
                                      (seq 0 dim))
                               (map (eval_fns get_shape_val_functions) get_quad_points))
                        []) d
              = np.sum (map2 (fun w p => w * vget p d)
                             (eval_fns get_shape_val_functions x) coos)).
  { rewrite (@nth_map_in_range (list R) (list R) _ _ q [] [])
      by (rewrite ?length_map; exact Hq).
    rewrite (@nth_map_in_range (list R) (list R) _ _ q [] []) by exact Hq.
    unfold vget at 1.
    rewrite (@nth_map_in_range nat R _ _ d 0%nat 0) by (rewrite length_seq; exact Hd).
    rewrite seq_nth by exact Hd. reflexivity. }
  rewrite E.
  assert (Hx : -1 <= vget x 0 <= 1 /\ -1 <= vget x 1 <= 1 /\ -1 <= vget x 2 <= 1).
  { pose proof quad_points_in_cube as H. rewrite Forall_forall in H.
    apply H, nth_In. exact Hq. }
  destruct Hx as [H0 [H1 H2]].
  pose proof (weighted_sum_bounds (fun p => vget p d) lo hi
                (eval_fns get_shape_val_functions x) coos
                (shape_vals_nonneg x H0 H1 H2) Hbox) as Hb.
  rewrite shape_vals_partition_of_unity in Hb.
  assert (Hcoos : length coos = num_nodes) by (apply nth_physical_coos; assumption).
  specialize (Hb ltac:(rewrite Hcoos; reflexivity)). lra.
Qed.

Lemma unit_cube_quad_points_in_unit_interval :
  0 <= vget (nth 0 (nth 0 (get_physical_quad_points unit_cube
               (map (eval_fns get_shape_val_functions) get_quad_points)) []) []) 0 <= 1.
Proof.
  apply (physical_quad_points_in_bounding_box unit_cube _ 0 0 0 0 1).
  - apply unit_cube_wf.
  - reflexivity.
  - cbn; lia.
  - unfold num_quads; lia.
  - unfold dim; lia.
  - cbn. repeat apply Forall_cons; try apply Forall_nil; cbn; lra.
Defined.

(** The isoparametric map reproduces affine maps: the shape functions
    interpolate the corners of a parallelepiped to the affine image of the
    reference point. *)
Lemma isoparametric_affine (p e1 e2 e3 x : vector) :
  map (fun d => np.sum (map2 (fun s y => s * vget y d)
                             (eval_fns get_shape_val_functions x)
                             (parallelepiped p e1 e2 e3)))
      (seq 0 dim)
  = affine_image p e1 e2 e3 x.
Proof.
  unfold affine_image. apply map_ext_in. intros d Hd.
  apply in_seq in Hd. unfold dim in Hd.
  unfold parallelepiped, eval_fns, get_shape_val_functions, map2,
    f1, f2, f3, f4, f5, f6, f7, f8, dim.
  destruct d as [|[|[|d]]]; [| | |lia];
    cbn [map seq combine fst snd np.sum fold_right vget nth]; field.
Qed.

(** X5.  In a cell whose nodes are the corners of a parallelepiped (in the
    node order of the reference element) the physical quadrature points
    are the images of the reference quadrature points under the affine
    map of the cell. *)
Theorem physical_quad_points_affine
        (m : Mesh) (shape_vals : matrix) (c q : nat) (p e1 e2 e3 : vector) :
  get_shape_vals = Ok shape_vals ->
  (c < num_cells m)%nat -> (q < num_quads)%nat ->
  nth c (physical_coos m) [] = parallelepiped p e1 e2 e3 ->
  nth q (nth c (get_physical_quad_points m shape_vals) []) []
  = affine_image p e1 e2 e3 (nth q get_quad_points []).
Proof.
  intros Hs Hc Hq Hcell.
  assert (Hs' : shape_vals = map (eval_fns get_shape_val_functions) get_quad_points)
    by (rewrite get_shape_vals_ok in Hs; congruence).
  clear Hs. subst shape_vals.
  assert (Hlen : length (physical_coos m) = num_cells m)
    by (unfold physical_coos; now rewrite length_map).
  unfold get_physical_quad_points.
  rewrite (@nth_map_in_range (list (list R)) (list (list R)) _ _ c [] [])
    by (rewrite Hlen; exact Hc).
  rewrite (@nth_map_in_range (list R) (list R) _ _ q [] [])
    by (rewrite ?length_map; exact Hq).
  rewrite (@nth_map_in_range (list R) (list R) _ _ q [] []) by exact Hq.
  rewrite Hcell. apply isoparametric_affine.
Qed.

Lemma unit_cube_parallelepiped :
  nth 0 (physical_coos unit_cube) []
  = parallelepiped [0; 0; 0] [1; 0; 0] [0; 1; 0] [0; 0; 1].
Proof.
  unfold physical_coos, unit_cube, parallelepiped, np.take, dim.
  cbn [points cells map nth seq fst snd vget last].
  list_eq; ring.
Qed.

Lemma unit_cube_first_quad_point :
  nth 0 (nth 0 (get_physical_quad_points unit_cube
                  (map (eval_fns get_shape_val_functions) get_quad_points)) []) []
  = affine_image [0; 0; 0] [1; 0; 0] [0; 1; 0] [0; 0; 1] (nth 0 get_quad_points []).
Proof.
  apply physical_quad_points_affine.
  - reflexivity.
  - cbn; lia.
  - unfold num_quads; lia.
  - apply unit_cube_parallelepiped.
Defined.

(** A linear form of an interpolated point is the interpolation of its
    values at the nodes. *)
Lemma dot_interpolation (a : vector) (ws : vector) (coos : matrix) :
  dot a (map (fun d => np.sum (map2 (fun s x => s * vget x d) ws coos)) (seq 0 dim))
  = np.sum (map2 (fun s x => s * dot a x) ws coos).
Proof.
  unfold dot, dim, map2. cbn [seq map vget nth].
  generalize (combine ws coos). intros l.
  induction l as [|[s x] l IH]; cbn [map np.sum fold_right fst snd].
  - ring.
  - unfold np.sum in *. rewrite <- IH. ring.
Qed.

Lemma surface_point_on_plane (coos : matrix) (f q : nat) (a : vector) (b : R) :
  length coos = num_nodes -> (f < num_faces)%nat -> (q < 4)%nat ->
  Forall (fun x => dot a x = b) (map (fun k => nth k coos []) (nth f get_face_inds [])) ->
  dot a (map (fun d =>
                np.sum (map2 (fun s x => s * vget x d)
                             (eval_fns get_shape_val_functions
                                       (nth q (nth f (fst get_face_quad_points) []) []))
                             coos))
             (seq 0 dim))
  = b.
Proof.
  intros Hlen Hf Hq Hall.
  rewrite dot_interpolation.
  rewrite get_face_inds_eq in Hall. rewrite get_face_quad_points_eq.
  assert (Hk : forall k, In k (nth f [ [0; 3; 4; 7]; [1; 2; 5; 6]; [0; 1; 4; 5];
                                       [2; 3; 6; 7]; [0; 1; 2; 3]; [4; 5; 6; 7] ]%nat [])
                         -> dot a (nth k coos []) = b).
  { intros k Hin. rewrite Forall_forall in Hall. apply Hall.
    apply (in_map (fun k => nth k coos [])), Hin. }
  clear Hall.
  rewrite (list8_explicit [] coos Hlen).
  unfold map2, eval_fns, get_shape_val_functions.
  cbn [map combine fst snd np.sum fold_right].
  set (d0 := dot a (nth 0 coos [])) in *. set (d1 := dot a (nth 1 coos [])) in *.
  set (d2 := dot a (nth 2 coos [])) in *. set (d3 := dot a (nth 3 coos [])) in *.
  set (d4 := dot a (nth 4 coos [])) in *. set (d5 := dot a (nth 5 coos [])) in *.
  set (d6 := dot a (nth 6 coos [])) in *. set (d7 := dot a (nth 7 coos [])) in *.
  unfold num_faces in Hf.
  destruct f as [|[|[|[|[|[|f]]]]]]; [| | | | | |lia];
    (destruct q as [|[|[|[|q]]]]; [| | | |lia]);
    cbn [nth] in Hk |- *;
    pose proof (fun k H => Hk k H) as Hk';
    try (pose proof (Hk 0%nat ltac:(cbn [In]; tauto)) as E0; cbn [nth] in E0; fold d0 in E0);
    try (pose proof (Hk 1%nat ltac:(cbn [In]; tauto)) as E1; cbn [nth] in E1; fold d1 in E1);
    try (pose proof (Hk 2%nat ltac:(cbn [In]; tauto)) as E2; cbn [nth] in E2; fold d2 in E2);
    try (pose proof (Hk 3%nat ltac:(cbn [In]; tauto)) as E3; cbn [nth] in E3; fold d3 in E3);
    try (pose proof (Hk 4%nat ltac:(cbn [In]; tauto)) as E4; cbn [nth] in E4; fold d4 in E4);
    try (pose proof (Hk 5%nat ltac:(cbn [In]; tauto)) as E5; cbn [nth] in E5; fold d5 in E5);
    try (pose proof (Hk 6%nat ltac:(cbn [In]; tauto)) as E6; cbn [nth] in E6; fold d6 in E6);
    try (pose proof (Hk 7%nat ltac:(cbn [In]; tauto)) as E7; cbn [nth] in E7; fold d7 in E7);
    clear Hk Hk';
    repeat match goal with E : _ = b |- _ => rewrite E; clear E end;
    clearbody d0 d1 d2 d3 d4 d5 d6 d7;
    unfold f1, f2, f3, f4, f5, f6, f7, f8; cbn [vget nth];
    generalize (gauss 0) (gauss 1); intros g0 g1; field.
Qed.

(** The coordinates of the nodes of a face, read from the gathered
    coordinates of the cell. *)
Lemma face_node_coordinates_coos (m : Mesh) (c f : nat) :
  mesh_wf m -> (c < num_cells m)%nat -> (f < num_faces)%nat ->
  face_node_coordinates m c f
  = map (fun k => nth k (nth c (physical_coos m) []) []) (nth f get_face_inds []).
Proof.
  intros Hwf Hc Hf.
  destruct (cell_face_points_nth m c f Hwf Hc Hf) as [_ <-].
  unfold cell_face_points. cbn zeta.
  assert (Hlen : length (physical_coos m) = num_cells m)
    by (unfold physical_coos; now rewrite length_map).
  rewrite (@nth_map_in_range (list (list R)) (list (list (list R))) _ _ c [] [])
    by (rewrite Hlen; exact Hc).
  rewrite (@nth_map_in_range (list nat) (list (list R)) _ _ f [] [])
    by (rewrite get_face_inds_eq; exact Hf).
  apply map_ext_in. intros k Hk.
  apply take_in_range.
  destruct (nth_physical_coos m c Hwf Hc) as [-> _].
  pose proof face_inds_in_range as Hfi. rewrite Forall_forall in Hfi.
  destruct (Hfi (nth f get_face_inds [])) as [_ Hk8].
  { apply nth_In. rewrite get_face_inds_eq. exact Hf. }
  rewrite Forall_forall in Hk8. apply Hk8, Hk.
Qed.

Lemma get_face_shape_vals_nth (f q : nat) :
  (f < num_faces)%nat -> (q < 4)%nat ->
  length get_face_shape_vals = num_faces
  /\ length (nth f get_face_shape_vals []) = 4%nat
  /\ nth q (nth f get_face_shape_vals []) []
     = eval_fns get_shape_val_functions (nth q (nth f (fst get_face_quad_points) []) []).
Proof.
  intros Hf Hq. unfold get_face_shape_vals.
  assert (H6 : length (fst get_face_quad_points) = num_faces)
    by (rewrite get_face_quad_points_eq; reflexivity).
  assert (H4 : length (nth f (fst get_face_quad_points) []) = 4%nat).
  { rewrite get_face_quad_points_eq. unfold num_faces in Hf. cbn [fst].
    destruct f as [|[|[|[|[|[|f]]]]]]; try reflexivity. lia. }
  rewrite (@nth_map_in_range (list (list R)) (list (list R)) _ _ f [] [])
    by (rewrite H6; exact Hf).
  split; [now rewrite length_map|].
  split; [now rewrite length_map|].
  apply (@nth_map_in_range (list R) (list R)). rewrite H4. exact Hq.
Qed.

(** What [FEM.__init__] stores. *)
Lemma FEM_init_fields (vec0 : nat) (m : Mesh) (dirichlet : dirichlet_bc_info) (self : FEM) :
  FEM_init vec0 m dirichlet = Ok self ->
  mesh self = m /\ vec self = vec0
  /\ shape_vals self = map (eval_fns get_shape_val_functions) get_quad_points
  /\ face_shape_vals self = get_face_shape_vals
  /\ get_shape_grads m = Ok (shape_grads self, JxW self)
  /\ Dirichlet_boundary_conditions m dirichlet
     = Ok (node_inds_list self, vec_inds_list self, vals_list self).
Proof.
  intros H. unfold FEM_init in H.
  rewrite get_shape_vals_ok in H. cbn [bind] in H.
  destruct (get_shape_grads m) as [[grads weights]|e]; [|discriminate H].
  cbn [bind] in H.
  destruct (Dirichlet_boundary_conditions m dirichlet) as [[[nl vl] vals]|e];
    [|discriminate H].
  cbn [bind] in H. inversion H; subst self; clear H.
  cbn [mesh vec shape_vals face_shape_vals shape_grads JxW node_inds_list
       vec_inds_list vals_list].
  repeat split.
Qed.

Lemma FEM_init_ok (vec0 : nat) (m : Mesh) :
  exists self, FEM_init vec0 m ([], [], []) = Ok self.
Proof.
  unfold FEM_init. rewrite get_shape_vals_ok. cbn [bind].
  destruct (get_shape_grads_ok m) as [sg [-> _]]. cbn [bind].
  cbn [Dirichlet_boundary_conditions length Nat.eqb andb assert_ bind seq fold_left].
  eexists. reflexivity.
Qed.

(** X6.  The quadrature points of a selected face lie on the face: they
    are interpolated from the four nodes of the face alone, so that every
    plane [dot a x = b] through these four nodes contains the four points
    that [get_physical_surface_quad_points] returns for the face. *)
Theorem surface_quad_points_on_face
        (vec0 : nat) (m : Mesh) (dirichlet : dirichlet_bc_info) (self : FEM)
        (boundary_inds : list (nat * nat)) (k q : nat) (a : vector) (b : R) :
  mesh_wf m -> FEM_init vec0 m dirichlet = Ok self ->
  (k < length boundary_inds)%nat -> (q < 4)%nat ->
  (fst (nth k boundary_inds (0, 0)%nat) < num_cells m)%nat ->
  (snd (nth k boundary_inds (0, 0)%nat) < num_faces)%nat ->
  Forall (fun x => dot a x = b)
         (face_node_coordinates m (fst (nth k boundary_inds (0, 0)%nat))
                                (snd (nth k boundary_inds (0, 0)%nat))) ->
  length (get_physical_surface_quad_points self boundary_inds) = length boundary_inds
  /\ length (nth k (get_physical_surface_quad_points self boundary_inds) []) = 4%nat
  /\ dot a (nth q (nth k (get_physical_surface_quad_points self boundary_inds) []) [])
     = b.
Proof.
  intros Hwf Hinit Hk Hq Hc Hf Hall.
  destruct (FEM_init_fields vec0 m dirichlet self Hinit) as [Hm [_ [_ [Hvals _]]]].
  unfold get_physical_surface_quad_points. cbn zeta. rewrite Hm.
  split; [now rewrite length_map|].
  rewrite (@nth_map_in_range (nat * nat) (list (list R)) _ _ k (0, 0)%nat []) by exact Hk.
  destruct (nth k boundary_inds (0, 0)%nat) as [c f]. cbn [fst snd] in *.
  rewrite Hvals.
  destruct (get_face_shape_vals_nth f q Hf Hq) as [H6 [H4 Hrow]].
  assert (Hlen : length (physical_coos m) = num_cells m)
    by (unfold physical_coos; now rewrite length_map).
  destruct (take_in_range [] (physical_coos m) c) as [-> _];
    [rewrite Hlen; exact Hc|].
  destruct (take_in_range [] get_face_shape_vals f) as [-> _];
    [rewrite H6; exact Hf|].
  split; [now rewrite length_map|].
  rewrite (@nth_map_in_range (list R) (list R) _ _ q [] []) by (rewrite H4; exact Hq).
  rewrite Hrow.
  apply surface_point_on_plane.
  - apply nth_physical_coos; assumption.
  - exact Hf.
  - exact Hq.
  - rewrite <- face_node_coordinates_coos by assumption. exact Hall.
Qed.

Lemma unit_cube_face_x1_quad_point :
  exists self,
    FEM_init 1 unit_cube ([], [], []) = Ok self
    /\ dot [1; 0; 0]
           (nth 0 (nth 0 (get_physical_surface_quad_points self [(0, 1)%nat]) []) [])
       = 1.
Proof.
  destruct (FEM_init_ok 1 unit_cube) as [self Hinit].
  exists self. split; [exact Hinit|].
  apply (surface_quad_points_on_face 1 unit_cube ([], [], []) self [(0, 1)%nat]
           0 0 [1; 0; 0] 1 unit_cube_wf Hinit).
  - cbn; lia.
  - lia.
  - cbn; lia.
  - cbn; unfold num_faces; lia.
  - unfold face_node_coordinates. rewrite get_face_inds_eq.
    cbn [fst snd nth map unit_cube cells points].
    repeat apply Forall_cons; try apply Forall_nil; unfold dot; cbn [vget nth]; ring.
Defined.

(** ** The surface measure of a face *)

(** The Jacobian of an affine cell: its columns are the halved edges. *)
Lemma parallelepiped_jacobian (p e1 e2 e3 x : vector) :
  jacobian (parallelepiped p e1 e2 e3) (eval_fns get_shape_grad_functions x)
  = map (fun i => [vget e1 i / 2; vget e2 i / 2; vget e3 i / 2]) (seq 0 dim).
Proof.
  unfold jacobian. apply map_ext_in. intros i Hi. apply in_seq in Hi. unfold dim in Hi.
  unfold parallelepiped, eval_fns, get_shape_grad_functions, map2, dim,
    grad_f1, grad_f2, grad_f3, grad_f4, grad_f5, grad_f6, grad_f7, grad_f8.
  destruct i as [|[|[|i]]]; [| | |lia];
    cbn [map seq combine fst snd np.sum fold_right vget nth];
    list_eq; field.
Qed.

Lemma norm_scaled (t a b c : R) :
  norm [t * a; t * b; t * c] = Rabs t * norm [a; b; c].
Proof.
  unfold norm. cbn [map np.sum fold_right].
  replace (t * a * (t * a) + (t * b * (t * b) + (t * c * (t * c) + 0)))
    with (Rsqr t * (a * a + (b * b + (c * c + 0)))) by (unfold Rsqr; ring).
  rewrite sqrt_mult_alt by apply Rle_0_sqr.
  now rewrite sqrt_Rsqr_abs.
Qed.

Lemma face_measure_scaled (s D : R) (v u w : vector) :
  D <> 0 -> (s = 1 \/ s = -1) ->
  v = [s / (4 * D) * vget (cross u w) 0; s / (4 * D) * vget (cross u w) 1;
       s / (4 * D) * vget (cross u w) 2] ->
  norm v * D * 1 = D / Rabs D * (norm (cross u w) / 4).
Proof.
  intros HD Hs ->. rewrite norm_scaled.
  assert (HA : 0 < Rabs D) by (apply Rabs_pos_lt, HD).
  assert (Ht : Rabs (s / (4 * D)) = / (4 * Rabs D)).
  { unfold Rdiv. rewrite Rabs_mult, Rabs_inv, Rabs_mult.
    rewrite (Rabs_pos_eq 4) by lra.
    destruct Hs as [-> | ->].
    - rewrite Rabs_pos_eq by lra. ring.
    - rewrite (Rabs_left (-1)) by lra. ring. }
  rewrite Ht.
  replace (norm [vget (cross u w) 0; vget (cross u w) 1; vget (cross u w) 2])
    with (norm (cross u w)) by reflexivity.
  field. lra.
Qed.

(** On the face [f] of an affine cell, the norm of the transformed normal
    times the Jacobian determinant is a quarter of the area of the face,
    with the sign of the determinant. *)
Lemma face_measure (e1 e2 e3 : vector) (f : nat) :
  (f < num_faces)%nat -> triple_product e1 e2 e3 <> 0 ->
  let J := map (fun i => [vget e1 i / 2; vget e2 i / 2; vget e3 i / 2]) (seq 0 dim) in
  norm (vecmat (nth f (snd get_face_quad_points) []) (np.inv J)) * np.det J * 1
  = triple_product e1 e2 e3 / Rabs (triple_product e1 e2 e3)
    * (norm (cross (fst (face_span f e1 e2 e3)) (snd (face_span f e1 e2 e3))) / 4).
Proof.
  intros Hf Hpos J. rewrite get_face_quad_points_eq. cbn [snd].
  assert (HD : np.det J = triple_product e1 e2 e3 / 8).
  { unfold J, triple_product, np.det, mget, dim. cbn [seq map nth vget]. unfold vget. field. }
  assert (HD0 : np.det J <> 0) by lra.
  assert (Hsign : triple_product e1 e2 e3 / Rabs (triple_product e1 e2 e3)
                  = np.det J / Rabs (np.det J)).
  { rewrite HD.
    replace (Rabs (triple_product e1 e2 e3 / 8)) with (Rabs (triple_product e1 e2 e3) / 8).
    - field. apply Rabs_no_R0. exact Hpos.
    - unfold Rdiv. rewrite Rabs_mult, (Rabs_pos_eq (/ 8)) by lra. reflexivity. }
  rewrite Hsign.
  unfold num_faces in Hf.
  destruct f as [|[|[|[|[|[|f]]]]]]; [| | | | | |lia];
    unfold face_span, face_axis; cbn [Nat.div Nat.divmod fst snd nth];
    [ apply (face_measure_scaled (-1)) | apply (face_measure_scaled 1)
    | apply (face_measure_scaled (-1)) | apply (face_measure_scaled 1)
    | apply (face_measure_scaled (-1)) | apply (face_measure_scaled 1) ];
    try exact HD0; try (now left); try (now right);
    unfold np.inv; cbv zeta; remember (np.det J) as D eqn:ED; clear ED HD Hsign;
    unfold vecmat, cross, J, mget, dim; cbn [seq map nth vget np.sum fold_right];
    unfold vget; list_eq; field; lra.
Qed.

Lemma face_shape_grads_reference_nth (f : nat) :
  (f < num_faces)%nat ->
  length face_shape_grads_reference = num_faces
  /\ nth f face_shape_grads_reference []
     = map (eval_fns get_shape_grad_functions) (nth f (fst get_face_quad_points) [])
  /\ length (nth f (fst get_face_quad_points) []) = 4%nat
  /\ length (snd get_face_quad_points) = num_faces.
Proof.
  intros Hf. unfold face_shape_grads_reference.
  assert (H6 : length (fst get_face_quad_points) = num_faces)
    by (rewrite get_face_quad_points_eq; reflexivity).
  split; [now rewrite length_map|].
  split; [apply (@nth_map_in_range (list (list R)) (list (list (list R)))); now rewrite H6|].
  split.
  - rewrite get_face_quad_points_eq. unfold num_faces in Hf. cbn [fst].
    destruct f as [|[|[|[|[|[|f]]]]]]; try reflexivity. lia.
  - rewrite get_face_quad_points_eq. reflexivity.
Qed.

(** The surface weight at a quadrature point of a face of a parallelepiped. *)
Lemma nanson_scale_value
        (m : Mesh) (boundary_inds : list (nat * nat)) (k q : nat) (p e1 e2 e3 : vector) :
  (k < length boundary_inds)%nat -> (q < 4)%nat ->
  (fst (nth k boundary_inds (0, 0)%nat) < num_cells m)%nat ->
  (snd (nth k boundary_inds (0, 0)%nat) < num_faces)%nat ->
  nth (fst (nth k boundary_inds (0, 0)%nat)) (physical_coos m) []
  = parallelepiped p e1 e2 e3 ->
  let span := face_span (snd (nth k boundary_inds (0, 0)%nat)) e1 e2 e3 in
  let area := norm (cross (fst span) (snd span)) in
  let nanson_scale := nth q (nth k (snd (get_face_shape_grads m boundary_inds)) []) 0 in
  (0 < triple_product e1 e2 e3 -> nanson_scale = area / 4)
  /\ (triple_product e1 e2 e3 < 0 -> nanson_scale = - (area / 4)).
Proof.
  intros Hk Hq Hc Hf Hcell span area nanson_scale.
  assert (E : triple_product e1 e2 e3 <> 0 ->
              nanson_scale
              = triple_product e1 e2 e3 / Rabs (triple_product e1 e2 e3) * (area / 4)).
  { intros HT. unfold nanson_scale, area, span, get_face_shape_grads. cbn zeta. cbn [snd].
    rewrite map_map. cbn [snd].
    rewrite (@nth_map_in_range (nat * nat) (list R) _ _ k (0, 0)%nat []) by exact Hk.
    destruct (nth k boundary_inds (0, 0)%nat) as [c f]. cbn [fst snd] in *.
    assert (Hlen : length (physical_coos m) = num_cells m)
      by (unfold physical_coos; now rewrite length_map).
    destruct (face_shape_grads_reference_nth f Hf) as [H6 [Href [H4 Hn6]]].
    destruct (take_in_range [] (physical_coos m) c) as [-> _];
      [rewrite Hlen; exact Hc|].
    destruct (take_in_range [] face_shape_grads_reference f) as [-> _];
      [rewrite H6; exact Hf|].
    destruct (take_in_range [] (snd get_face_quad_points) f) as [-> _];
      [rewrite Hn6; exact Hf|].
    rewrite Href, Hcell.
    rewrite (@nth_map2 _ _ _ _ _ _ q [] 0 0);
      [|now rewrite !length_map|rewrite !length_map, H4; exact Hq].
    rewrite !map_map.
    rewrite (@nth_map_in_range (list R) (list (list R)) _ _ q [] [])
      by (rewrite H4; exact Hq).
    rewrite (@nth_map_in_range (list R) R _ _ q [] 0) by (rewrite H4; exact Hq).
    rewrite parallelepiped_jacobian.
    apply face_measure; assumption. }
  split; intros HT; rewrite E by lra.
  - rewrite Rabs_pos_eq by lra. field. lra.
  - rewrite Rabs_left by exact HT. field. lra.
Qed.

(** X7.  In a cell whose nodes are the corners of a parallelepiped with
    edges [e1], [e2], [e3] of positive orientation, the surface weight
    [nanson_scale] that [get_face_shape_grads] returns at each of the four
    quadrature points of a selected face is a quarter of the area of the
    face, the norm of the vector product of the two edges that span it.
    With edges of negative orientation it is minus that: the sign of the
    Jacobian determinant is kept. *)
Theorem nanson_scale_parallelepiped
        (m : Mesh) (boundary_inds : list (nat * nat)) (k q : nat) (p e1 e2 e3 : vector) :
  (k < length boundary_inds)%nat -> (q < 4)%nat ->
  (fst (nth k boundary_inds (0, 0)%nat) < num_cells m)%nat ->
  (snd (nth k boundary_inds (0, 0)%nat) < num_faces)%nat ->
  nth (fst (nth k boundary_inds (0, 0)%nat)) (physical_coos m) []
  = parallelepiped p e1 e2 e3 ->
  let span := face_span (snd (nth k boundary_inds (0, 0)%nat)) e1 e2 e3 in
  let area := norm (cross (fst span) (snd span)) in
  let nanson_scale := nth q (nth k (snd (get_face_shape_grads m boundary_inds)) []) 0 in
  (0 < triple_product e1 e2 e3 -> nanson_scale = area / 4)
  /\ (triple_product e1 e2 e3 < 0 -> nanson_scale = - (area / 4)).
Proof.
  intros Hk Hq Hc Hf Hcell.
  exact (nanson_scale_value m boundary_inds k q p e1 e2 e3 Hk Hq Hc Hf Hcell).
Qed.

Lemma unit_cube_face_weight :
  nth 0 (nth 0 (snd (get_face_shape_grads unit_cube [(0, 1)%nat])) []) 0 = 1 / 4.
Proof.
  destruct (nanson_scale_parallelepiped unit_cube [(0, 1)%nat] 0 0
              [0; 0; 0] [1; 0; 0] [0; 1; 0] [0; 0; 1]) as [H _].
  - cbn; lia.
  - lia.
  - cbn; lia.
  - cbn; unfold num_faces; lia.
  - apply unit_cube_parallelepiped.
  - rewrite H.
    + unfold face_span, face_axis, cross, norm.
      cbn [Nat.div Nat.divmod fst snd nth vget map np.sum fold_right].
      replace ((1 * 1 - 0 * 0) * (1 * 1 - 0 * 0)
               + ((0 * 0 - 0 * 1) * (0 * 0 - 0 * 1)
                  + ((0 * 0 - 1 * 0) * (0 * 0 - 1 * 0) + 0))) with 1 by ring.
      rewrite sqrt_1. reflexivity.
    + unfold triple_product, np.det, mget, vget; cbn [nth]; lra.
Defined.

(** ** The gradient of a field *)

(** The shape gradients and weights stored by [FEM.__init__], at one
    quadrature point of one cell. *)
Lemma FEM_init_shape_grads (vec0 : nat) (m : Mesh) (dirichlet : dirichlet_bc_info)
      (self : FEM) (c q : nat) :
  FEM_init vec0 m dirichlet = Ok self ->
  (c < num_cells m)%nat -> (q < num_quads)%nat ->
  let coos := nth c (physical_coos m) [] in
  let grads := eval_fns get_shape_grad_functions (nth q get_quad_points []) in
  length (shape_grads self) = num_cells m
  /\ length (nth c (shape_grads self) []) = num_quads
  /\ nth q (nth c (shape_grads self) []) []
     = map (fun g => vecmat g (np.inv (jacobian coos grads))) grads
  /\ length (JxW self) = num_cells m
  /\ length (nth c (JxW self) []) = num_quads
  /\ nth q (nth c (JxW self) []) 0 = np.det (jacobian coos grads) * 1.
Proof.
  intros Hinit Hc Hq coos grads.
  destruct (FEM_init_fields vec0 m dirichlet self Hinit) as [_ [_ [_ [_ [Hg _]]]]].
  rewrite get_shape_grads_explicit in Hg.
  assert (Hs : shape_grads self
               = map (fun coos =>
                        map (fun x =>
                               map (fun g => vecmat g (np.inv (jacobian coos
                                                (eval_fns get_shape_grad_functions x))))
                                   (eval_fns get_shape_grad_functions x))
                            get_quad_points)
                     (physical_coos m)) by congruence.
  assert (Hw : JxW self = map (map (fun d => d * 1)) (jacobian_dets m)) by congruence.
  clear Hg.
  assert (Hlen : length (physical_coos m) = num_cells m)
    by (unfold physical_coos; now rewrite length_map).
  rewrite Hs, Hw, jacobian_dets_at.
  rewrite !length_map, Hlen.
  rewrite !map_map.
  rewrite !(@nth_map_in_range (list (list R)) _ _ _ c [] _) by (rewrite Hlen; exact Hc).
  rewrite !length_map.
  rewrite !map_map.
  rewrite (@nth_map_in_range (list R) (list (list R)) _ _ q [] []) by exact Hq.
  rewrite (@nth_map_in_range (list R) R _ _ q [] 0) by exact Hq.
  repeat split; reflexivity.
Qed.

(** One entry of the gradient array of [compute_u_grads]. *)
Lemma compute_u_grads_entry (self : FEM) (sol : matrix) (c q v d : nat) :
  (c < length (cells (mesh self)))%nat ->
  length (shape_grads self) = length (cells (mesh self)) ->
  (q < length (nth c (shape_grads self) []))%nat ->
  (v < ncols sol)%nat -> (d < dim)%nat ->
  mget (nth q (nth c (compute_u_grads self sol) []) []) v d
  = np.sum (map2 (fun u_n g_n => vget u_n v * vget g_n d)
                 (map (np.take [] sol) (nth c (cells (mesh self)) []))
                 (nth q (nth c (shape_grads self) []) [])).
Proof.
  intros Hc Hlen Hq Hv Hd. unfold compute_u_grads.
  rewrite (@nth_map2 _ _ _ _ _ _ c [] [] []) by (rewrite ?Hlen; auto).
  rewrite (@nth_map_in_range (list (list R)) (list (list R)) _ _ q [] []) by exact Hq.
  unfold mget.
  rewrite (@nth_map_in_range nat (list R) _ _ v 0%nat []) by (rewrite length_seq; exact Hv).
  unfold vget at 1.
  rewrite (@nth_map_in_range nat R _ _ d 0%nat 0) by (rewrite length_seq; exact Hd).
  rewrite !seq_nth by assumption. reflexivity.
Qed.

(** The weighted sum of the physical shape gradients, for nodal values
    that are an affine function of the nodal coordinates, in terms of the
    Jacobian and of the sum of the reference gradients. *)
Lemma affine_values_gradient_sum
      (us : vector) (xs gs : matrix) (a : vector) (b : R) (M : matrix) (d : nat) :
  Forall2 (fun u x => u = b + dot a x) us xs ->
  np.sum (map2 (fun u g => u * (vget g 0 * mget M 0 d
                                + (vget g 1 * mget M 1 d + (vget g 2 * mget M 2 d + 0))))
               us gs)
  = np.sum (map (fun k =>
                   mget M k d
                   * (b * np.sum (map (fun p => vget (snd p) k) (combine xs gs))
                      + (vget a 0 * np.sum (map2 (fun x g => vget x 0 * vget g k) xs gs)
                         + vget a 1 * np.sum (map2 (fun x g => vget x 1 * vget g k) xs gs)
                         + vget a 2 * np.sum (map2 (fun x g => vget x 2 * vget g k) xs gs))))
                (seq 0 dim)).
Proof.
  intros H. revert gs. unfold map2, dim. cbn [seq map np.sum fold_right].
  induction H as [|u x us xs Hu H IH]; intros gs.
  - cbn [combine map np.sum fold_right]. ring.
  - destruct gs as [|g gs].
    + cbn [combine map np.sum fold_right]. ring.
    + cbn [combine map np.sum fold_right fst snd]. unfold np.sum in IH.
      rewrite IH, Hu. unfold dot. ring.
Qed.

(** A matrix with a determinant other than zero, times its inverse. *)
Lemma row_times_inverse (J : matrix) (a : vector) (d : nat) :
  np.det J <> 0 -> (d < dim)%nat ->
  np.sum (map (fun k => mget (np.inv J) k d
                        * (vget a 0 * mget J 0 k + vget a 1 * mget J 1 k
                           + vget a 2 * mget J 2 k))
              (seq 0 dim))
  = vget a d.
Proof.
  intros HJ Hd. unfold dim in *. cbn [seq map np.sum fold_right].
  unfold np.inv, np.det in *. cbv zeta.
  set (j00 := mget J 0 0) in *. set (j01 := mget J 0 1) in *. set (j02 := mget J 0 2) in *.
  set (j10 := mget J 1 0) in *. set (j11 := mget J 1 1) in *. set (j12 := mget J 1 2) in *.
  set (j20 := mget J 2 0) in *. set (j21 := mget J 2 1) in *. set (j22 := mget J 2 2) in *.
  set (a0 := vget a 0). set (a1 := vget a 1). set (a2 := vget a 2).
  clearbody j00 j01 j02 j10 j11 j12 j20 j21 j22.
  destruct d as [|[|[|d]]]; [| | |lia];
    [change (vget a 0) with a0|change (vget a 1) with a1|change (vget a 2) with a2];
    clearbody a0 a1 a2; unfold mget, vget; cbn [nth]; field; exact HJ.
Qed.

Lemma map2_map_l {A A' B C : Type} (f : A' -> B -> C) (h : A -> A')
      (l1 : list A) (l2 : list B) :
  map2 f (map h l1) l2 = map2 (fun a b => f (h a) b) l1 l2.
Proof.
  unfold map2. revert l2. induction l1 as [|a l1 IH]; intros [|b l2]; try reflexivity.
  cbn [map combine fst snd]. now rewrite IH.
Qed.

Lemma map2_map_right {A B B' C : Type} (f : A -> B' -> C) (h : B -> B')
      (l1 : list A) (l2 : list B) :
  map2 f l1 (map h l2) = map2 (fun a b => f a (h b)) l1 l2.
Proof.
  unfold map2. revert l2. induction l1 as [|a l1 IH]; intros [|b l2]; try reflexivity.
  cbn [map combine fst snd]. now rewrite IH.
Qed.

Lemma map2_ext {A B C : Type} (f g : A -> B -> C) (l1 : list A) (l2 : list B) :
  (forall a b, f a b = g a b) -> map2 f l1 l2 = map2 g l1 l2.
Proof. intros H. unfold map2. apply map_ext. intros [a b]. apply H. Qed.

Lemma vecmat_vget (g : vector) (M : matrix) (d : nat) :
  (d < dim)%nat ->
  vget (vecmat g M) d
  = vget g 0 * mget M 0 d + (vget g 1 * mget M 1 d + (vget g 2 * mget M 2 d + 0)).
Proof.
  intros Hd. unfold vecmat. unfold vget at 1.
  rewrite (@nth_map_in_range nat R _ _ d 0%nat 0) by (rewrite length_seq; exact Hd).
  rewrite seq_nth by exact Hd. reflexivity.
Qed.

Lemma jacobian_entry (coos grads : matrix) (i k : nat) :
  (i < dim)%nat -> (k < dim)%nat ->
  mget (jacobian coos grads) i k
  = np.sum (map2 (fun x g => vget x i * vget g k) coos grads).
Proof.
  intros Hi Hk. unfold jacobian, mget.
  rewrite (@nth_map_in_range nat (list R) _ _ i 0%nat []) by (rewrite length_seq; exact Hi).
  unfold vget at 1.
  rewrite (@nth_map_in_range nat R _ _ k 0%nat 0) by (rewrite length_seq; exact Hk).
  rewrite !seq_nth by assumption. reflexivity.
Qed.

Lemma map_snd_combine {A B C : Type} (h : B -> C) (xs : list A) (gs : list B) :
  length xs = length gs ->
  map (fun p => h (snd p)) (combine xs gs) = map h gs.
Proof.
  revert gs. induction xs as [|x xs IH]; intros [|g gs] H; try discriminate.
  - reflexivity.
  - cbn [combine map snd]. rewrite IH by (injection H; auto). reflexivity.
Qed.

(** The reference shape gradients sum to zero in each component. *)
Lemma reference_grads_component_sum (x : vector) (k : nat) :
  np.sum (map (fun g => vget g k) (eval_fns get_shape_grad_functions x)) = 0.
Proof.
  destruct (Nat.lt_ge_cases k dim) as [Hk|Hk].
  - pose proof (shape_grads_sum_zero x) as H.
    apply (f_equal (fun v => vget v k)) in H.
    unfold sum_vectors in H. unfold vget at 1 in H.
    rewrite (@nth_map_in_range nat R _ _ k 0%nat 0) in H by (rewrite length_seq; exact Hk).
    rewrite seq_nth in H by exact Hk. cbn [Nat.add] in H. rewrite H.
    unfold dim in Hk. destruct k as [|[|[|k]]]; try reflexivity. lia.
  - apply sum_zero. apply Forall_map.
    unfold eval_fns, get_shape_grad_functions,
      grad_f1, grad_f2, grad_f3, grad_f4, grad_f5, grad_f6, grad_f7, grad_f8.
    cbn [map]. unfold dim in Hk.
    repeat apply Forall_cons; try apply Forall_nil;
      unfold vget; apply nth_overflow; cbn [length]; lia.
Qed.

(** The nodes a well-formed mesh lists for a cell, and their coordinates. *)
Lemma cell_nodes_in_range (m : Mesh) (c : nat) :
  mesh_wf m -> (c < num_cells m)%nat ->
  length (nth c (cells m) []) = num_nodes
  /\ Forall (fun n => (n < num_total_nodes m)%nat) (nth c (cells m) [])
  /\ nth c (physical_coos m) [] = map (fun n => nth n (points m) []) (nth c (cells m) []).
Proof.
  intros [_ Hcells] Hc. rewrite Forall_forall in Hcells.
  destruct (Hcells (nth c (cells m) [])) as [Hlen Hin]; [apply nth_In, Hc|].
  split; [exact Hlen|]. split; [exact Hin|].
  unfold physical_coos.
  rewrite (@nth_map_in_range (list nat) (list (list R)) _ _ c [] []) by exact Hc.
  apply map_ext_in. intros n Hn. rewrite Forall_forall in Hin.
  apply take_in_range, Hin, Hn.
Qed.

(** The gradient that [compute_u_grads] gives for nodal values that are an
    affine function of the nodal coordinates. *)
Lemma affine_gradient_entry
        (vec0 : nat) (m : Mesh) (dirichlet : dirichlet_bc_info) (self : FEM)
        (sol A : matrix) (b : vector) (c q v d : nat) :
  mesh_wf m -> FEM_init vec0 m dirichlet = Ok self ->
  length sol = num_total_nodes m ->
  (forall n, (n < num_total_nodes m)%nat ->
             vget (nth n sol []) v = vget b v + dot (nth v A []) (nth n (points m) [])) ->
  (c < num_cells m)%nat -> (q < num_quads)%nat -> (v < ncols sol)%nat -> (d < dim)%nat ->
  nth q (nth c (JxW self) []) 0 <> 0 ->
  mget (nth q (nth c (compute_u_grads self sol) []) []) v d = mget A v d.
Proof.
  intros Hwf Hinit Hsol Haff Hc Hq Hv Hd Hdet.
  destruct (FEM_init_fields vec0 m dirichlet self Hinit) as [Hm _].
  destruct (FEM_init_shape_grads vec0 m dirichlet self c q Hinit Hc Hq)
    as [Hg [Hgq [Hgrads [_ [_ HJxW]]]]].
  destruct (cell_nodes_in_range m c Hwf Hc) as [Hlen [Hin Hcoos]].
  rewrite compute_u_grads_entry; rewrite ?Hm; try assumption;
    [|rewrite Hgq; exact Hq].
  rewrite Hgrads, HJxW in *. rewrite Hcoos in *.
  set (cell := nth c (cells m) []) in *.
  set (coos := map (fun n => nth n (points m) []) cell) in *.
  set (grads := eval_fns get_shape_grad_functions (nth q get_quad_points [])) in *.
  set (J := jacobian coos grads) in *.
  assert (HJ : np.det J <> 0) by (intros H0; apply Hdet; rewrite H0; ring).
  set (a := nth v A []) in *.
  change (mget A v d) with (vget a d).
  transitivity
    (np.sum (map2 (fun u g => u * (vget g 0 * mget (np.inv J) 0 d
                                   + (vget g 1 * mget (np.inv J) 1 d
                                      + (vget g 2 * mget (np.inv J) 2 d + 0))))
                  (map (fun n => vget (np.take [] sol n) v) cell) grads)).
  { rewrite map2_map_l, map2_map_right, map2_map_l. apply f_equal, map2_ext.
    intros n g. now rewrite vecmat_vget. }
  rewrite (affine_values_gradient_sum _ coos grads a (vget b v)).
  - rewrite <- (row_times_inverse J a d HJ Hd).
    f_equal. apply map_ext_in. intros k Hk. apply in_seq in Hk.
    rewrite (map_snd_combine (fun g : list R => vget g k) coos grads)
      by (unfold coos, grads; now rewrite length_map, Hlen).
    unfold grads at 1. rewrite reference_grads_component_sum.
    unfold J. rewrite !jacobian_entry by (unfold dim in *; lia).
    f_equal. ring.
  - unfold coos. clear -Hin Haff Hsol.
    induction Hin as [|n cell Hn Hin IH]; cbn [map]; constructor.
    + destruct (take_in_range [] sol n) as [-> _]; [rewrite Hsol; exact Hn|].
      apply Haff, Hn.
    + exact IH.
Qed.

(** X8.  The gradient of an affine field is reproduced exactly.  When the
    component [v] of the solution is [b[v] + dot A[v] x] at every node [x]
    of a well-formed mesh, the gradient [compute_u_grads] (the first two
    lines of [compute_residual]) gives for this component at a quadrature
    point with a Jacobian determinant other than zero is [A[v]]. *)
Theorem affine_field_gradient
        (vec0 : nat) (m : Mesh) (dirichlet : dirichlet_bc_info) (self : FEM)
        (sol A : matrix) (b : vector) (c q v d : nat) :
  mesh_wf m -> FEM_init vec0 m dirichlet = Ok self ->
  length sol = num_total_nodes m ->
  (forall n, (n < num_total_nodes m)%nat ->
             vget (nth n sol []) v = vget b v + dot (nth v A []) (nth n (points m) [])) ->
  (c < num_cells m)%nat -> (q < num_quads)%nat -> (v < ncols sol)%nat -> (d < dim)%nat ->
  nth q (nth c (JxW self) []) 0 <> 0 ->
  mget (nth q (nth c (compute_u_grads self sol) []) []) v d = mget A v d.
Proof.
  intros Hwf Hinit.
  exact (affine_gradient_entry vec0 m dirichlet self sol A b c q v d Hwf Hinit).
Qed.

Lemma unit_cube_JxW (self : FEM) (q : nat) :
  FEM_init 1 unit_cube ([], [], []) = Ok self -> (q < num_quads)%nat ->
  nth q (nth 0 (JxW self) []) 0 = 1 / 8.
Proof.
  intros Hinit Hq.
  destruct (FEM_init_shape_grads 1 unit_cube _ self 0 q Hinit ltac:(cbn; lia) Hq)
    as [_ [_ [_ [_ [_ ->]]]]].
  rewrite unit_cube_jacobian. unfold np.det, half, mget, vget. cbn [nth]. field.
Qed.

Lemma unit_cube_gradient_of_x :
  exists self,
    FEM_init 1 unit_cube ([], [], []) = Ok self
    /\ mget (nth 0 (nth 0 (compute_u_grads self
                             [[0]; [1]; [1]; [0]; [0]; [1]; [1]; [0]]) []) []) 0 0
       = 1.
Proof.
  destruct (FEM_init_ok 1 unit_cube) as [self Hinit].
  exists self. split; [exact Hinit|].
  apply (affine_field_gradient 1 unit_cube ([], [], []) self
           [[0]; [1]; [1]; [0]; [0]; [1]; [1]; [0]] [[1; 0; 0]] [0] 0 0 0 0
           unit_cube_wf Hinit).
  - reflexivity.
  - intros n Hn. cbn in Hn.
    destruct n as [|[|[|[|[|[|[|[|n]]]]]]]]; [| | | | | | | |lia];
      unfold dot; cbn [unit_cube points nth vget]; ring.
  - cbn; lia.
  - unfold num_quads; lia.
  - cbn; lia.
  - unfold dim; lia.
  - rewrite (unit_cube_JxW self 0 Hinit) by (unfold num_quads; lia). lra.
Defined.

(** ** Sums over the nodes *)

Lemma sum_nil : np.sum [] = 0.
Proof. reflexivity. Qed.

Lemma sum_cons (x : R) (l : vector) : np.sum (x :: l) = x + np.sum l.
Proof. reflexivity. Qed.

Lemma sum_app (l1 l2 : vector) : np.sum (l1 ++ l2) = np.sum l1 + np.sum l2.
Proof.
  induction l1 as [|x l1 IH]; cbn [app].
  - rewrite sum_nil. lra.
  - rewrite !sum_cons, IH. lra.
Qed.

Lemma sum_map_plus {A : Type} (f g : A -> R) (l : list A) :
  np.sum (map (fun a => f a + g a) l) = np.sum (map f l) + np.sum (map g l).
Proof.
  induction l as [|a l IH]; cbn [map].
  - rewrite sum_nil. lra.
  - rewrite !sum_cons, IH. lra.
Qed.

Lemma sum_map_scal {A : Type} (c : R) (g : A -> R) (l : list A) :
  np.sum (map (fun a => c * g a) l) = c * np.sum (map g l).
Proof.
  induction l as [|a l IH]; cbn [map].
  - rewrite sum_nil. lra.
  - rewrite !sum_cons, IH. lra.
Qed.

(** Two nested sums can be exchanged. *)
Lemma sum_swap {A B : Type} (F : A -> B -> R) (la : list A) (lb : list B) :
  np.sum (map (fun a => np.sum (map (fun b => F a b) lb)) la)
  = np.sum (map (fun b => np.sum (map (fun a => F a b) la)) lb).
Proof.
  induction la as [|a la IH]; cbn [map].
  - rewrite sum_nil. symmetry. apply sum_zero. apply Forall_map, Forall_forall. now intros.
  - rewrite sum_cons, IH.
    rewrite <- (sum_map_plus (fun b => F a b)
                  (fun b => np.sum (map (fun a0 => F a0 b) la)) lb).
    reflexivity.
Qed.

Lemma column_sum_app (a b : matrix) (v : nat) :
  column_sum (a ++ b) v = column_sum a v + column_sum b v.
Proof. unfold column_sum. rewrite map_app. apply sum_app. Qed.

Lemma column_sum_zeros (k n v : nat) : column_sum (np.zeros k n) v = 0.
Proof.
  unfold column_sum. apply sum_zero, Forall_map, Forall_forall.
  intros row Hrow. apply repeat_spec in Hrow. subst row. apply vget_repeat_zero.
Qed.

Lemma zeros_like_eq (a : matrix) (k n : nat) :
  shape2 a k n -> np.zeros_like a = np.zeros k n.
Proof.
  intros [Hk Hall]. subst k. unfold np.zeros_like, np.zeros.
  induction Hall as [|row a Hrow Hall IH]; [reflexivity|].
  cbn [map length repeat]. rewrite IH. f_equal.
  rewrite <- Hrow. clear. induction row as [|x row IH]; [reflexivity|].
  cbn [map length repeat]. now rewrite IH.
Qed.

Lemma vget_map2_plus (r row : vector) (v : nat) :
  length r = length row ->
  vget (map2 Rplus r row) v = vget r v + vget row v.
Proof.
  revert row v. unfold vget, map2.
  induction r as [|x r IH]; intros [|y row] v H; try discriminate.
  - destruct v; cbn; lra.
  - destruct v as [|v]; cbn [combine map nth fst snd]; [reflexivity|].
    apply IH. now injection H.
Qed.

Lemma vget_map2_minus (r row : vector) (v : nat) :
  length r = length row ->
  vget (map2 Rminus r row) v = vget r v - vget row v.
Proof.
  revert row v. unfold vget, map2.
  induction r as [|x r IH]; intros [|y row] v H; try discriminate.
  - destruct v; cbn; lra.
  - destruct v as [|v]; cbn [combine map nth fst snd]; [reflexivity|].
    apply IH. now injection H.
Qed.

(** [res.at[i].add(row)] with [i] in range adds [row] to the column
    sums. *)
Lemma at_add_column_sum (res : matrix) (i : nat) (row : vector) (k n v : nat) :
  shape2 res k n -> length row = n -> (i < k)%nat ->
  column_sum (at_add res i row) v = column_sum res v + vget row v.
Proof.
  intros [Hk Hall] Hrow. revert i k Hk.
  induction Hall as [|r res Hr Hall IH]; intros i k Hk Hi.
  - cbn in Hk. lia.
  - destruct i as [|i]; cbn [at_add]; unfold column_sum in *; cbn [map];
      rewrite !sum_cons.
    + rewrite vget_map2_plus by lia. lra.
    + cbn [length] in Hk.
      rewrite (IH i (length res)); [lra|reflexivity|lia].
Qed.

Lemma scatter_fold_column_sum (res : matrix) (pairs : list (nat * vector)) (k n v : nat) :
  shape2 res k n ->
  Forall (fun p => (fst p < k)%nat /\ length (snd p) = n) pairs ->
  column_sum (fold_left (fun acc p => at_add acc (fst p) (snd p)) pairs res) v
  = column_sum res v + np.sum (map (fun p => vget (snd p) v) pairs).
Proof.
  intros Hres Hall. revert res Hres.
  induction Hall as [|p pairs [Hp1 Hp2] Hall IH]; intros res Hres; cbn [fold_left map].
  - rewrite sum_nil. lra.
  - rewrite IH by now apply at_add_shape.
    rewrite (at_add_column_sum res (fst p) (snd p) k n v Hres Hp2 Hp1).
    rewrite sum_cons. lra.
Qed.

(** [res.at[inds].add(updates)] with one update row for every index and
    every index in range: the column sums of the updates are added to
    those of [res]. *)
Lemma scatter_add_column_sum (res : matrix) (inds : list nat) (updates : matrix)
      (k n : nat) :
  shape2 res k n -> (0 < k)%nat -> shape2 updates (length inds) n ->
  Forall (fun i => (i < k)%nat) inds ->
  exists res',
    scatter_add res inds updates = Ok res' /\ shape2 res' k n
    /\ forall v, column_sum res' v = column_sum res v + column_sum updates v.
Proof.
  intros Hres Hk Hupd Hinds. unfold scatter_add, ncols.
  rewrite (shape2_ncols res k n Hres Hk).
  rewrite broadcast_to_id by exact Hupd. cbn [bind].
  assert (Hpairs : Forall (fun p => (fst p < k)%nat /\ length (snd p) = n)
                          (combine inds updates)).
  { destruct Hupd as [_ Hall]. apply Forall_forall. intros [i row] Hin.
    cbn [fst snd]. rewrite Forall_forall in Hall, Hinds. split.
    - eapply Hinds, in_combine_l, Hin.
    - eapply Hall, in_combine_r, Hin. }
  eexists. split; [reflexivity|]. split.
  - apply scatter_fold_shape; [exact Hres|].
    eapply Forall_impl; [|exact Hpairs]. now intros p [_ H].
  - intros v. rewrite (scatter_fold_column_sum res _ k n v Hres Hpairs).
    f_equal. unfold column_sum.
    rewrite (map_snd_combine (fun row : list R => vget row v)); [reflexivity|].
    symmetry. apply Hupd.
Qed.

(** [a - b] on arrays of one shape. *)
Lemma np_subtract_same_shape (a b : matrix) (k n : nat) :
  shape2 a k n -> shape2 b k n -> (0 < k)%nat ->
  np_subtract a b = Ok (mmap2 Rminus a b)
  /\ shape2 (mmap2 Rminus a b) k n
  /\ forall v, column_sum (mmap2 Rminus a b) v = column_sum a v - column_sum b v.
Proof.
  intros Ha Hb Hk. split; [|split].
  - unfold np_subtract, ncols.
    rewrite (shape2_ncols a k n Ha Hk), (shape2_ncols b k n Hb Hk).
    destruct Ha as [Hla Hra], Hb as [Hlb Hrb]. rewrite Hla, Hlb.
    assert (Ek : (if Nat.eqb k 1 then k else k) = k) by now destruct (Nat.eqb k 1).
    assert (En : (if Nat.eqb n 1 then n else n) = n) by now destruct (Nat.eqb n 1).
    rewrite Ek, En, !broadcast_to_id by now split. reflexivity.
  - now apply mmap2_shape.
  - intros v. destruct Ha as [Hla Hra], Hb as [Hlb Hrb].
    assert (Hlen : length a = length b) by lia. clear Hla Hlb Hk.
    revert b Hrb Hlen. unfold column_sum, mmap2, map2.
    induction Hra as [|r a Hr Hra IH]; intros [|r' b] Hrb Hlen; try discriminate.
    + cbn [combine map]. rewrite sum_nil. lra.
    + inversion Hrb as [|? ? Hr' Hrb']; subst.
      cbn [combine map fst snd]. rewrite !sum_cons.
      rewrite IH by (auto; now injection Hlen).
      fold (map2 Rminus r r'). rewrite vget_map2_minus by lia. lra.
Qed.

Lemma sum_seq_nth {A : Type} (F : A -> R) (l : list A) (d : A) :
  np.sum (map (fun n => F (nth n l d)) (seq 0 (length l))) = np.sum (map F l).
Proof.
  f_equal. rewrite <- (map_map (fun n => nth n l d) F). f_equal.
  clear F. induction l as [|a l IH]; [reflexivity|].
  cbn [length seq map nth]. f_equal.
  rewrite <- seq_shift, map_map. exact IH.
Qed.

Lemma column_sum_concat (blocks : list matrix) (v : nat) :
  Forall (fun b => column_sum b v = 0) blocks -> column_sum (concat blocks) v = 0.
Proof.
  intros H. induction H as [|b blocks Hb H IH]; [reflexivity|].
  cbn [concat]. rewrite column_sum_app, Hb, IH. lra.
Qed.

(** The physical shape gradients of one quadrature point sum to zero over
    the nodes, whatever the inverse Jacobian [M] is. *)
Lemma physical_grads_component_sum (x : vector) (M : matrix) (d : nat) :
  np.sum (map (fun g => vget (vecmat g M) d) (eval_fns get_shape_grad_functions x)) = 0.
Proof.
  destruct (Nat.lt_ge_cases d dim) as [Hd|Hd].
  - rewrite (map_ext _ (fun g => vget g 0 * mget M 0 d
                                 + (vget g 1 * mget M 1 d + (vget g 2 * mget M 2 d + 0))))
      by (intros g; now apply vecmat_vget).
    rewrite sum_map_plus, sum_map_plus, sum_map_plus.
    rewrite (map_ext (fun g => vget g 0 * mget M 0 d) (fun g => mget M 0 d * vget g 0))
      by (intros; ring).
    rewrite (map_ext (fun g => vget g 1 * mget M 1 d) (fun g => mget M 1 d * vget g 1))
      by (intros; ring).
    rewrite (map_ext (fun g => vget g 2 * mget M 2 d) (fun g => mget M 2 d * vget g 2))
      by (intros; ring).
    rewrite !sum_map_scal, !reference_grads_component_sum.
    rewrite (sum_zero (map (fun _ => 0) _))
      by (apply Forall_map, Forall_forall; now intros).
    ring.
  - apply sum_zero, Forall_map, Forall_forall. intros g _.
    unfold vget, vecmat. apply nth_overflow. now rewrite length_map, length_seq.
Qed.

Lemma make_v_grads_JxW_balanced (m : Mesh) (grads : tensor4) (weights : matrix) :
  get_shape_grads m = Ok (grads, weights) ->
  Forall (Forall balanced_block) (make_v_grads_JxW grads weights).
Proof.
  intros Hg. rewrite get_shape_grads_explicit in Hg.
  assert (Hs : grads
               = map (fun coos =>
                        map (fun x =>
                               map (fun g => vecmat g (np.inv (jacobian coos
                                                (eval_fns get_shape_grad_functions x))))
                                   (eval_fns get_shape_grad_functions x))
                            get_quad_points)
                     (physical_coos m)) by congruence.
  clear Hg. subst grads.
  unfold make_v_grads_JxW, map2 at 1.
  apply Forall_map, Forall_forall. intros [grads_c JxW_c] Hin. cbn [fst snd].
  apply in_combine_l, in_map_iff in Hin as [coos [<- _]].
  unfold map2. apply Forall_map, Forall_forall. intros [grads_q w] Hin. cbn [fst snd].
  apply in_combine_l, in_map_iff in Hin as [x [<- _]].
  intros d. rewrite map_map.
  set (M := np.inv _).
  set (gs := map (fun g => vecmat g M) (eval_fns get_shape_grad_functions x)).
  assert (Hlen : length gs = num_nodes) by (unfold gs; now rewrite length_map).
  rewrite <- Hlen.
  rewrite (map_ext_in _ (fun n => (fun g => vget (map (fun x0 => x0 * w) g) d)
                                    (nth n gs []))).
  - rewrite (sum_seq_nth (fun g => vget (map (fun x0 => x0 * w) g) d) gs []).
    unfold gs. rewrite map_map.
    destruct (Nat.lt_ge_cases d dim) as [Hd|Hd].
    + rewrite (map_ext _ (fun g => w * vget (vecmat g M) d)).
      * rewrite sum_map_scal, physical_grads_component_sum. ring.
      * intros g. unfold vget.
        rewrite (@nth_map_in_range R R _ _ d 0 0)
          by (unfold vecmat; now rewrite length_map, length_seq).
        ring.
    + apply sum_zero, Forall_map, Forall_forall. intros g _.
      unfold vget, vecmat. apply nth_overflow. now rewrite !length_map, length_seq.
  - intros n Hn. apply in_seq in Hn. rewrite Hlen in Hn.
    assert (H8 : (n < length (eval_fns get_shape_grad_functions x))%nat)
      by (unfold eval_fns; rewrite length_map; exact (proj2 Hn)).
    unfold gs.
    rewrite (@nth_map_in_range (list R) (list (list R)) _ _ n [] []) by exact H8.
    rewrite (@nth_map_in_range (list R) (list R) _ _ n [] []) by exact H8.
    reflexivity.
Qed.

(** The rows that the weak form gives for one cell sum to zero over the
    nodes, whatever the physics array holds. *)
Lemma weak_form_cell_sum (physics_c : tensor3) (v_c : tensor4) (comps v : nat) :
  Forall balanced_block v_c ->
  column_sum
    (map (fun n =>
            map (fun v =>
                   np.sum (map2 (fun physics_q v_q =>
                                   np.sum (map (fun d =>
                                                  mget physics_q v d
                                                  * vget (hd [] (nth n v_q [])) d)
                                               (seq 0 dim)))
                                physics_c v_c))
                (seq 0 comps))
         (seq 0 num_nodes)) v
  = 0.
Proof.
  intros Hbal. unfold column_sum. rewrite map_map.
  destruct (Nat.lt_ge_cases v comps) as [Hv|Hv].
  - rewrite (map_ext _ (fun n =>
               np.sum (map (fun pv : matrix * tensor3 =>
                              np.sum (map (fun d => mget (fst pv) v d
                                                    * vget (hd [] (nth n (snd pv) [])) d)
                                          (seq 0 dim)))
                           (combine physics_c v_c)))).
    + rewrite sum_swap.
      apply sum_zero, Forall_map, Forall_forall. intros [P V] Hin. cbn [fst snd].
      rewrite sum_swap.
      apply sum_zero, Forall_map, Forall_forall. intros d _.
      rewrite sum_map_scal.
      rewrite Forall_forall in Hbal. rewrite (Hbal V); [ring|].
      eapply in_combine_r, Hin.
    + intros n. unfold vget at 1.
      rewrite (@nth_map_in_range nat R _ _ v 0%nat 0) by (rewrite length_seq; exact Hv).
      rewrite seq_nth by exact Hv. reflexivity.
  - apply sum_zero, Forall_map, Forall_forall. intros n _.
    unfold vget. apply nth_overflow. now rewrite length_map, length_seq.
Qed.

Lemma weak_form_column_sum (u_physics : tensor4) (vJ : tensor5) (v : nat) :
  Forall (Forall balanced_block) vJ ->
  column_sum (concat (weak_form u_physics vJ)) v = 0.
Proof.
  intros Hbal. apply column_sum_concat.
  unfold weak_form. cbn zeta. unfold map2 at 1.
  apply Forall_map, Forall_forall. intros [physics_c v_c] Hin. cbn [fst snd].
  apply weak_form_cell_sum.
  rewrite Forall_forall in Hbal. eapply Hbal, in_combine_r, Hin.
Qed.

(** What [Laplace.__init__] stores. *)
Lemma Laplace_init_fields (vec0 : nat) (m : Mesh) (dirichlet : dirichlet_bc_info)
      (neumann_bc_info : option (list location_fn * list (vector -> vector)))
      (source_info : option (vector -> vector)) (L : Laplace) :
  Laplace_init vec0 m dirichlet neumann_bc_info source_info = Ok L ->
  FEM_init vec0 m dirichlet = Ok (fem L)
  /\ compute_body_force (fem L) source_info = Ok (body_force L)
  /\ compute_Neumann_integral (fem L) neumann_bc_info = Ok (neumann L)
  /\ v_grads_JxW L = make_v_grads_JxW (shape_grads (fem L)) (JxW (fem L)).
Proof.
  intros H. unfold Laplace_init in H.
  destruct (FEM_init vec0 m dirichlet) as [self|e]; [|discriminate H]. cbn [bind] in H.
  destruct (compute_body_force self source_info) as [bf|e] eqn:Eb; [|discriminate H].
  cbn [bind] in H.
  destruct (compute_Neumann_integral self neumann_bc_info) as [nm|e] eqn:En;
    [|discriminate H].
  cbn [bind] in H. inversion H; subst L; clear H.
  cbn [fem body_force neumann v_grads_JxW]. repeat split; assumption.
Qed.

(** The assembly after [compute_physics]: the residual sums, over the
    nodes, to minus the load vectors. *)
Lemma assemble_column_sum (vec0 : nat) (m : Mesh) (dirichlet : dirichlet_bc_info)
      (neumann_bc_info : option (list location_fn * list (vector -> vector)))
      (source_info : option (vector -> vector)) (L : Laplace)
      (sol : matrix) (u_physics : tensor4) :
  mesh_wf m -> (0 < vec0)%nat -> (0 < num_total_nodes m)%nat ->
  Laplace_init vec0 m dirichlet neumann_bc_info source_info = Ok L ->
  shape2 sol (num_total_nodes m) vec0 ->
  length u_physics = num_cells m ->
  ((0 < num_cells m)%nat -> length (hd [] (hd [] u_physics)) = vec0) ->
  exists res,
    assemble L sol u_physics = Ok res
    /\ shape2 res (num_total_nodes m) vec0
    /\ forall v, column_sum res v
                 = - column_sum (body_force L) v - column_sum (neumann L) v.
Proof.
  intros Hwf Hvec HN Hinit Hsol Hu Hcomp.
  destruct (Laplace_init_wf vec0 m _ _ _ L Hwf Hvec HN Hinit) as [HL [Hm Hv]].
  destruct (Laplace_init_fields vec0 m _ _ _ L Hinit) as [Hfem [_ [_ HvJ]]].
  destruct (FEM_init_fields vec0 m dirichlet (fem L) Hfem) as [_ [_ [_ [_ [Hg _]]]]].
  destruct HL as [_ [_ [_ [_ [_ [HvJlen [Hbf Hnm]]]]]]].
  rewrite Hm, Hv in *.
  unfold assemble. rewrite Hm, Hv.
  pose proof (weak_form_shape u_physics (v_grads_JxW L)) as Hweak.
  rewrite Hu, HvJlen, Nat.min_id in Hweak.
  assert (Hweak' : shape2 (concat (weak_form u_physics (v_grads_JxW L)))
                          (length (concat (cells m))) vec0).
  { rewrite concat_cells_length by exact Hwf.
    destruct (Nat.eq_dec (num_cells m) 0) as [E0|Hpos].
    - rewrite E0 in Hweak |- *. destruct Hweak as [Hlen _].
      destruct (concat (weak_form u_physics (v_grads_JxW L))); [|discriminate Hlen].
      split; [reflexivity|constructor].
    - rewrite <- Hcomp by lia. exact Hweak. }
  rewrite reshape_rows_concat by (exact Hvec || apply Hweak'). cbn [bind].
  assert (Hinds : Forall (fun i => (i < num_total_nodes m)%nat) (concat (cells m))).
  { destruct Hwf as [_ Hcells]. apply Forall_concat.
    eapply Forall_impl; [|exact Hcells]. now intros cell [_ H]. }
  destruct (scatter_add_column_sum (np.zeros_like sol) (concat (cells m))
              (concat (weak_form u_physics (v_grads_JxW L)))
              (num_total_nodes m) vec0
              (zeros_like_shape sol _ _ Hsol) HN Hweak' Hinds)
    as [res1 [-> [Hres1 Hsum1]]].
  cbn [bind].
  destruct (np_subtract_same_shape res1 (body_force L) _ _ Hres1 Hbf HN)
    as [-> [Hres2 Hsum2]].
  cbn [bind].
  destruct (np_subtract_same_shape (mmap2 Rminus res1 (body_force L)) (neumann L) _ _
              Hres2 Hnm HN) as [-> [Hres3 Hsum3]].
  eexists. split; [reflexivity|]. split; [exact Hres3|].
  intros v. rewrite Hsum3, Hsum2, Hsum1.
  rewrite (zeros_like_eq sol _ _ Hsol), column_sum_zeros.
  rewrite weak_form_column_sum; [ring|].
  rewrite HvJ. eapply make_v_grads_JxW_balanced, Hg.
Qed.

(** X9.  The residual of [LinearPoisson] balances the loads: for every
    solution field with one row per node, whatever its values, the
    residual summed over the nodes is minus the sum of the body-force
    vector minus the sum of the Neumann vector, the contribution of the
    gradient terms to the sum being zero. *)
Theorem residual_balances_loads
        (m : Mesh) (dirichlet : dirichlet_bc_info)
        (neumann_bc_info : option (list location_fn * list (vector -> vector)))
        (source_info : option (vector -> vector))
        (self : LinearPoisson) (sol : matrix) :
  mesh_wf m -> (0 < num_total_nodes m)%nat ->
  LinearPoisson_init m dirichlet neumann_bc_info source_info = Ok self ->
  shape2 sol (num_total_nodes m) 1 ->
  exists res,
    compute_residual sol self = (Ok res, self)
    /\ shape2 res (num_total_nodes m) 1
    /\ column_sum res 0
       = - column_sum (body_force (laplace self)) 0
         - column_sum (neumann (laplace self)) 0.
Proof.
  intros Hwf HN Hinit Hsol.
  destruct (LinearPoisson_init_wf m _ _ _ self Hwf HN Hinit) as [HL [Hm Hv]].
  rewrite (compute_residual_assemble sol self (fun u => LinearPoisson_identity sol u self)).
  assert (HLinit : Laplace_init 1 m dirichlet neumann_bc_info source_info
                   = Ok (laplace self)).
  { unfold LinearPoisson_init in Hinit.
    destruct (Laplace_init 1 m dirichlet neumann_bc_info source_info) as [L|e];
      [|discriminate Hinit].
    cbn [bind] in Hinit. inversion Hinit. reflexivity. }
  destruct (assemble_column_sum 1 m _ _ _ (laplace self) sol
              (compute_u_grads (fem (laplace self)) sol)
              Hwf ltac:(lia) HN HLinit Hsol) as [res [Hres [Hshape Hsum]]].
  - pose proof (compute_u_grads_cells _ sol HL) as Hc. now rewrite Hm in Hc.
  - intros HC. rewrite <- Hv.
    apply (compute_u_grads_components _ sol (num_total_nodes m)).
    + exact HL.
    + rewrite Hv. exact Hsol.
    + exact HN.
    + now rewrite Hm.
  - exists res. split; [now rewrite Hres|]. split; [exact Hshape|apply Hsum].
Qed.

Lemma unit_cube_residual_balance :
  exists self res,
    LinearPoisson_init unit_cube ([], [], []) None None = Ok self
    /\ compute_residual [[0]; [1]; [1]; [0]; [0]; [1]; [1]; [0]] self = (Ok res, self)
    /\ column_sum res 0
       = - column_sum (body_force (laplace self)) 0
         - column_sum (neumann (laplace self)) 0.
Proof.
  destruct (LinearPoisson_init_ok unit_cube) as [self Hinit].
  destruct (residual_balances_loads unit_cube ([], [], []) None None self
              [[0]; [1]; [1]; [0]; [0]; [1]; [1]; [0]]
              unit_cube_wf ltac:(cbn; lia) Hinit)
    as [res [Hres [_ Hsum]]].
  - split; [reflexivity|]. repeat constructor.
  - exists self, res. split; [exact Hinit|]. split; [exact Hres|exact Hsum].
Defined.

(** ** The body force *)

Lemma column_sum_concat_sum (blocks : list matrix) (v : nat) :
  column_sum (concat blocks) v = np.sum (map (fun b => column_sum b v) blocks).
Proof.
  induction blocks as [|b blocks IH]; [reflexivity|].
  cbn [concat map]. rewrite column_sum_app, sum_cons, IH. reflexivity.
Qed.

Lemma map_snd_combine_le {A B C : Type} (h : B -> C) (xs : list A) (gs : list B) :
  (length gs <= length xs)%nat ->
  map (fun p => h (snd p)) (combine xs gs) = map h gs.
Proof.
  revert gs. induction xs as [|x xs IH]; intros [|g gs] H; try reflexivity.
  - cbn in H. lia.
  - cbn [combine map snd]. rewrite IH by (cbn in H; lia). reflexivity.
Qed.

Lemma bget_vget (row : vector) (n v : nat) :
  length row = n -> (v < n)%nat -> bget row v = vget row v.
Proof.
  intros Hlen Hv. unfold bget.
  destruct (Nat.eqb_spec (length row) 1) as [E|_]; [|reflexivity].
  assert (v = 0%nat) by lia. subst v.
  destruct row as [|x row]; reflexivity.
Qed.

Lemma check_components_ok (vec0 : nat) (t : tensor3) :
  Forall (Forall (fun row => length row = vec0)) t -> check_components vec0 t = Ok tt.
Proof.
  intros H. unfold check_components.
  replace (forallb _ t) with true; [reflexivity|].
  symmetry. apply forallb_forall. intros rows Hrows.
  apply forallb_forall. intros row Hrow.
  rewrite Forall_forall in H. specialize (H rows Hrows).
  rewrite Forall_forall in H. rewrite (H row Hrow), Nat.eqb_refl. reflexivity.
Qed.

Lemma sum_seq_vget (l : vector) :
  np.sum (map (fun n => vget l n) (seq 0 (length l))) = np.sum l.
Proof.
  unfold vget. rewrite (sum_seq_nth (fun y => y) l 0). now rewrite map_id.
Qed.

Lemma combine_map_left {A A' B : Type} (h : A -> A') (l1 : list A) (l2 : list B) :
  combine (map h l1) l2 = map (fun p => (h (fst p), snd p)) (combine l1 l2).
Proof.
  revert l2. induction l1 as [|a l1 IH]; intros [|b l2]; try reflexivity.
  cbn [map combine fst snd]. now rewrite IH.
Qed.

(** The rows of the body force of one cell, summed over the nodes: the
    partition of unity leaves the quadrature sum of the source. *)
Lemma body_force_cell_sum (f : vector -> vector) (vec0 v : nat)
      (pts_c : matrix) (JxW_c : vector) :
  (forall x, length (f x) = vec0) -> (v < vec0)%nat ->
  (length pts_c <= num_quads)%nat ->
  column_sum
    (map (fun n =>
            map (fun v =>
                   np.sum (map2 (fun vals_q fq => vget vals_q n * bget (fst fq) v * snd fq)
                                (map (eval_fns get_shape_val_functions) get_quad_points)
                                (combine (map f pts_c) JxW_c)))
                (seq 0 vec0))
         (seq 0 num_nodes)) v
  = np.sum (map2 (fun x w => vget (f x) v * w) pts_c JxW_c).
Proof.
  intros Hf Hv Hpts. unfold column_sum. rewrite map_map.
  rewrite (map_ext _ (fun n =>
             np.sum (map (fun p : vector * (vector * R) =>
                            vget (fst p) n * (bget (fst (snd p)) v * snd (snd p)))
                         (combine (map (eval_fns get_shape_val_functions) get_quad_points)
                                  (combine (map f pts_c) JxW_c))))).
  - rewrite sum_swap.
    rewrite (map_ext_in _ (fun p : vector * (vector * R) =>
                             (fun fq : vector * R => vget (fst fq) v * snd fq) (snd p))).
    + rewrite (map_snd_combine_le (fun fq : vector * R => vget (fst fq) v * snd fq)).
      * unfold map2. f_equal.
        rewrite combine_map_left, map_map. reflexivity.
      * rewrite length_combine, !length_map.
        change (length get_quad_points) with num_quads. lia.
    + intros [vals_q [fq w]] Hin. cbn [fst snd].
      rewrite (map_ext _ (fun n => (bget fq v * w) * vget vals_q n)) by (intros; ring).
      rewrite sum_map_scal.
      pose proof (in_combine_r _ _ _ _ Hin) as Hr.
      apply in_combine_l, in_map_iff in Hr as [x' [<- _]].
      apply in_combine_l, in_map_iff in Hin as [x [<- _]].
      replace (seq 0 num_nodes)
        with (seq 0 (length (eval_fns get_shape_val_functions x))) by reflexivity.
      rewrite sum_seq_vget, shape_vals_partition_of_unity.
      rewrite (bget_vget (f x') vec0 v (Hf x') Hv). ring.
  - intros n. unfold vget at 1.
    rewrite (@nth_map_in_range nat R _ _ v 0%nat 0) by (rewrite length_seq; exact Hv).
    rewrite seq_nth by exact Hv. cbn [Nat.add]. unfold map2. f_equal.
    apply map_ext. intros p. ring.
Qed.

Lemma map2_ext_in {A B C : Type} (f g : A -> B -> C) (l1 : list A) (l2 : list B) :
  (forall a b, In (a, b) (combine l1 l2) -> f a b = g a b) ->
  map2 f l1 l2 = map2 g l1 l2.
Proof. intros H. unfold map2. apply map_ext_in. intros [a b] Hin. now apply H. Qed.

Lemma map_map2 {A B C D : Type} (h : C -> D) (f : A -> B -> C)
      (l1 : list A) (l2 : list B) :
  map h (map2 f l1 l2) = map2 (fun a b => h (f a b)) l1 l2.
Proof. unfold map2. now rewrite map_map. Qed.

Lemma get_physical_quad_points_shape (m : Mesh) (shape_vals : matrix) :
  length (get_physical_quad_points m shape_vals) = num_cells m
  /\ Forall (fun pts_c => length pts_c = length shape_vals)
            (get_physical_quad_points m shape_vals).
Proof.
  unfold get_physical_quad_points, physical_coos, num_cells. split.
  - now rewrite !length_map.
  - apply Forall_map, Forall_forall. intros coos _. now rewrite length_map.
Qed.

(** X10.  The body-force vector sums, over the nodes, to the quadrature of
    the source over the mesh.  For a source that returns [vec] components
    at every point, [compute_body_force] returns an array of shape
    [(num_total_nodes, vec)] whose component [v], summed over the nodes,
    is the sum over the cells and their quadrature points of the source's
    component [v] at the physical quadrature point times [JxW]. *)
Theorem body_force_total
        (vec0 : nat) (m : Mesh) (dirichlet : dirichlet_bc_info) (self : FEM)
        (f : vector -> vector) :
  mesh_wf m -> (0 < vec0)%nat -> (0 < num_total_nodes m)%nat ->
  FEM_init vec0 m dirichlet = Ok self ->
  (forall x, length (f x) = vec0) ->
  exists rhs,
    compute_body_force self (Some f) = Ok rhs
    /\ shape2 rhs (num_total_nodes m) vec0
    /\ forall v, (v < vec0)%nat ->
         column_sum rhs v
         = np.sum (map2 (fun pts_c JxW_c =>
                           np.sum (map2 (fun x w => vget (f x) v * w) pts_c JxW_c))
                        (get_physical_quad_points m (shape_vals self)) (JxW self)).
Proof.
  intros Hwf Hvec HN Hinit Hf.
  destruct (FEM_init_fields vec0 m dirichlet self Hinit) as [Hm [Hv [Hsv [_ [Hg _]]]]].
  destruct (get_shape_grads_lengths m _ _ Hg) as [_ [HJ _]].
  destruct (get_physical_quad_points_shape m (shape_vals self)) as [HP HPq].
  unfold compute_body_force. rewrite Hm, Hv.
  set (PQP := get_physical_quad_points m (shape_vals self)) in *.
  rewrite check_components_ok.
  2:{ apply Forall_map, Forall_forall. intros pts _.
      apply Forall_map, Forall_forall. intros x _. apply Hf. }
  cbn [bind].
  set (G := fun (force_c : matrix) (JxW_c : vector) => map _ (seq 0 num_nodes)).
  assert (Hblocks : Forall (fun b => shape2 b num_nodes vec0)
                           (map2 G (map (map f) PQP) (JxW self))).
  { unfold map2. apply Forall_map, Forall_forall. intros [force_c JxW_c] _.
    unfold G. cbn [fst snd]. split.
    - now rewrite length_map, length_seq.
    - apply Forall_map, Forall_forall. intros n _. now rewrite length_map, length_seq. }
  assert (Hrows : shape2 (concat (map2 G (map (map f) PQP) (JxW self)))
                         (length (concat (cells m))) vec0).
  { split.
    - rewrite (length_concat_uniform num_nodes).
      + rewrite map2_length, length_map, HP, HJ, Nat.min_id.
        now rewrite concat_cells_length.
      + eapply Forall_impl; [|exact Hblocks]. now intros b [H _].
    - apply Forall_concat.
      eapply Forall_impl; [|exact Hblocks]. now intros b [_ H]. }
  rewrite reshape_rows_concat by (exact Hvec || apply Hrows). cbn [bind].
  assert (Hinds : Forall (fun i => (i < num_total_nodes m)%nat) (concat (cells m))).
  { destruct Hwf as [_ Hcells]. apply Forall_concat.
    eapply Forall_impl; [|exact Hcells]. now intros cell [_ H]. }
  destruct (scatter_add_column_sum (np.zeros (num_total_nodes m) vec0)
              (concat (cells m)) _ (num_total_nodes m) vec0
              (zeros_shape _ _) HN Hrows Hinds) as [rhs [-> [Hshape Hsum]]].
  exists rhs. split; [reflexivity|]. split; [exact Hshape|].
  intros v Hv0. rewrite Hsum, column_sum_zeros, Rplus_0_l.
  rewrite column_sum_concat_sum, map_map2, map2_map_l.
  f_equal. apply map2_ext_in. intros pts_c JxW_c Hin.
  unfold G. rewrite Hsv.
  apply (body_force_cell_sum f vec0 v pts_c JxW_c Hf Hv0).
  apply in_combine_l in Hin. rewrite Forall_forall in HPq.
  rewrite (HPq pts_c Hin), Hsv, length_map. apply Nat.le_refl.
Qed.

Lemma unit_cube_unit_source :
  exists self rhs,
    FEM_init 1 unit_cube ([], [], []) = Ok self
    /\ compute_body_force self (Some (fun _ => [1])) = Ok rhs
    /\ shape2 rhs 8 1
    /\ column_sum rhs 0
       = np.sum (map2 (fun pts_c JxW_c =>
                         np.sum (map2 (fun (x : list R) w => 1 * w) pts_c JxW_c))
                      (get_physical_quad_points unit_cube (shape_vals self)) (JxW self)).
Proof.
  destruct (FEM_init_ok 1 unit_cube) as [self Hinit].
  destruct (body_force_total 1 unit_cube ([], [], []) self (fun _ => [1])
              unit_cube_wf ltac:(lia) ltac:(cbn; lia) Hinit ltac:(reflexivity))
    as [rhs [Hrhs [Hshape Hsum]]].
  exists self, rhs. split; [exact Hinit|]. split; [exact Hrhs|]. split; [exact Hshape|].
  apply (Hsum 0%nat). lia.
Defined.

(** ** Constant fields *)

(** Every block of shape gradients that [get_shape_grads] returns holds
    the reference gradients at some point, times some matrix. *)
Lemma get_shape_grads_blocks (m : Mesh) (grads : tensor4) (weights : matrix) :
  get_shape_grads m = Ok (grads, weights) ->
  Forall (Forall (fun grads_q =>
                    exists x M, grads_q = map (fun g => vecmat g M)
                                              (eval_fns get_shape_grad_functions x)))
         grads.
Proof.
  intros Hg. rewrite get_shape_grads_explicit in Hg.
  assert (Hs : grads
               = map (fun coos =>
                        map (fun x =>
                               map (fun g => vecmat g (np.inv (jacobian coos
                                                (eval_fns get_shape_grad_functions x))))
                                   (eval_fns get_shape_grad_functions x))
                            get_quad_points)
                     (physical_coos m)) by congruence.
  subst grads. apply Forall_map, Forall_forall. intros coos _.
  apply Forall_map, Forall_forall. intros x _.
  eexists x, _. reflexivity.
Qed.

Lemma take_repeat {A : Type} (d row : A) (N n : nat) :
  (0 < N)%nat -> np.take d (repeat row N) n = row.
Proof.
  intros HN. unfold np.take.
  assert (Hlast : last (repeat row N) d = row).
  { destruct N as [|N]; [lia|]. clear HN.
    induction N as [|N IH]; [reflexivity|].
    change (repeat row (S (S N))) with (row :: repeat row (S N)).
    cbn [last]. exact IH. }
  rewrite Hlast.
  destruct (Nat.lt_ge_cases n N) as [Hn|Hn].
  - rewrite nth_repeat_lt by exact Hn. reflexivity.
  - apply nth_overflow. now rewrite repeat_length.
Qed.

(** The gradient of a constant field is zero at every quadrature point,
    also where the Jacobian is singular. *)
Lemma compute_u_grads_constant (vec0 : nat) (m : Mesh) (dirichlet : dirichlet_bc_info)
      (self : FEM) (row : vector) (c q i j : nat) :
  mesh_wf m -> FEM_init vec0 m dirichlet = Ok self ->
  mget (nth q (nth c (compute_u_grads self (repeat row (num_total_nodes m))) []) []) i j
  = 0.
Proof.
  intros Hwf Hinit.
  destruct (FEM_init_fields vec0 m dirichlet self Hinit) as [Hm [_ [_ [_ [Hg _]]]]].
  pose proof (get_shape_grads_blocks m _ _ Hg) as Hblocks.
  unfold compute_u_grads. rewrite Hm.
  set (sol := repeat row (num_total_nodes m)).
  unfold map2 at 1.
  destruct (Nat.lt_ge_cases c (length (combine (cells m) (shape_grads self)))) as [Hc|Hc].
  2:{ rewrite (nth_overflow (map _ (combine (cells m) (shape_grads self))))
        by now rewrite length_map.
      unfold mget, vget. destruct q, i, j; reflexivity. }
  rewrite (@nth_map_in_range (list nat * list (list (list R))) (list (list (list R)))
             _ _ c ([], []) []) by exact Hc.
  pose proof (nth_In _ ([], []) Hc) as Hin.
  destruct (nth c (combine (cells m) (shape_grads self)) ([], [])) as [cell grads_c].
  cbn [fst snd].
  pose proof (in_combine_l _ _ _ _ Hin) as Hcell.
  pose proof (in_combine_r _ _ _ _ Hin) as Hgc.
  destruct Hwf as [_ Hcells]. rewrite Forall_forall in Hcells.
  destruct (Hcells cell Hcell) as [Hlen _].
  rewrite Forall_forall in Hblocks. specialize (Hblocks grads_c Hgc).
  destruct (Nat.lt_ge_cases q (length grads_c)) as [Hq|Hq].
  2:{ rewrite nth_overflow by now rewrite length_map.
      unfold mget, vget. destruct i, j; reflexivity. }
  rewrite (@nth_map_in_range (list (list R)) (list (list R)) _ _ q [] []) by exact Hq.
  rewrite Forall_forall in Hblocks.
  destruct (Hblocks (nth q grads_c []) (nth_In _ _ Hq)) as [x [M ->]].
  unfold mget.
  destruct (Nat.lt_ge_cases i (ncols sol)) as [Hi|Hi].
  2:{ rewrite (nth_overflow (map _ (seq 0 (ncols sol))))
        by (rewrite length_map, length_seq; exact Hi).
      unfold vget. now destruct j. }
  rewrite (@nth_map_in_range nat (list R) _ _ i 0%nat []) by (rewrite length_seq; exact Hi).
  destruct (Nat.lt_ge_cases j dim) as [Hj|Hj].
  2:{ unfold vget. apply nth_overflow. now rewrite length_map, length_seq. }
  unfold vget at 1.
  rewrite (@nth_map_in_range nat R _ _ j 0%nat 0) by (rewrite length_seq; exact Hj).
  rewrite !seq_nth by assumption. cbn [Nat.add].
  assert (HN : (0 < num_total_nodes m)%nat).
  { unfold sol, ncols in Hi. destruct (num_total_nodes m); [cbn in Hi|]; lia. }
  rewrite map2_map_l.
  rewrite (map2_ext _ (fun (n : nat) g => vget row i * vget g j)).
  2:{ intros n g. unfold sol. now rewrite take_repeat. }
  unfold map2. cbv beta.
  rewrite (sum_map_scal (vget row i) (fun p : nat * list R => vget (snd p) j)).
  rewrite (map_snd_combine (fun g : list R => vget g j))
    by (rewrite Hlen, length_map; reflexivity).
  rewrite map_map, physical_grads_component_sum. ring.
Qed.

(** The assembly reads the solution field only for its shape. *)
Lemma assemble_zeros_like (L : Laplace) (sol sol' : matrix) (u_physics : tensor4) :
  np.zeros_like sol = np.zeros_like sol' ->
  assemble L sol u_physics = assemble L sol' u_physics.
Proof. intros H. unfold assemble. now rewrite H. Qed.

(** X11.  Constant fields are in the kernel of the discrete Laplacian:
    without source and without traction, the residual of [LinearPoisson]
    for a field with the same value at every node is the all-zero vector,
    on every well-formed mesh. *)
Theorem constant_field_zero_residual
        (m : Mesh) (dirichlet : dirichlet_bc_info) (self : LinearPoisson) (u0 : R) :
  mesh_wf m -> (0 < num_total_nodes m)%nat ->
  LinearPoisson_init m dirichlet None None = Ok self ->
  compute_residual (repeat [u0] (num_total_nodes m)) self
  = (Ok (np.zeros (num_total_nodes m) 1), self).
Proof.
  intros Hwf HN Hinit.
  destruct (LinearPoisson_init_wf m _ _ _ self Hwf HN Hinit) as [HL [Hm Hv]].
  assert (HLinit : Laplace_init 1 m dirichlet None None = Ok (laplace self)).
  { unfold LinearPoisson_init in Hinit.
    destruct (Laplace_init 1 m dirichlet None None) as [L|e]; [|discriminate Hinit].
    cbn [bind] in Hinit. inversion Hinit. reflexivity. }
  destruct (Laplace_init_no_loads 1 m dirichlet _ HLinit) as [Hbf Hnm].
  destruct (Laplace_init_fields 1 m _ _ _ _ HLinit) as [Hfem _].
  set (sol := repeat [u0] (num_total_nodes m)).
  assert (Hsol : shape2 sol (num_total_nodes m) 1) by apply (shape2_repeat [u0]).
  rewrite (compute_residual_assemble sol self (fun u => LinearPoisson_identity sol u self)).
  f_equal.
  rewrite (assemble_zeros_like _ sol (np.zeros (num_total_nodes m) 1))
    by (rewrite (zeros_like_eq sol _ _ Hsol); symmetry; apply zeros_like_zeros).
  pose proof (assemble_zero (laplace self) (compute_u_grads (fem (laplace self)) sol) HL)
    as Hz.
  cbn zeta in Hz. rewrite Hm, Hv in Hz. apply Hz.
  - exact Hbf.
  - exact Hnm.
  - pose proof (compute_u_grads_cells _ sol HL) as Hc. now rewrite Hm in Hc.
  - intros HC. rewrite <- Hv. apply (compute_u_grads_components _ sol (num_total_nodes m)).
    + exact HL.
    + rewrite Hv. exact Hsol.
    + exact HN.
    + now rewrite Hm.
  - intros c q i j. apply (compute_u_grads_constant 1 m dirichlet _ [u0] c q i j Hwf Hfem).
Qed.

Lemma unit_cube_constant_field :
  exists self,
    LinearPoisson_init unit_cube ([], [], []) None None = Ok self
    /\ compute_residual (repeat [5] 8) self = (Ok (np.zeros 8 1), self).
Proof.
  destruct (LinearPoisson_init_ok unit_cube) as [self Hinit].
  exists self. split; [exact Hinit|].
  exact (constant_field_zero_residual unit_cube ([], [], []) self 5
           unit_cube_wf ltac:(cbn; lia) Hinit).
Defined.

(** ** The material laws *)

Lemma elastic_stress_entries (fu : nat -> nat -> R) :
  elastic_stress (entries fu)
  = entries (fun i j => lmbda * (fu 0%nat 0%nat + fu 1%nat 1%nat + fu 2%nat 2%nat)
                        * kron i j
                        + mu * (fu i j + fu j i)).
Proof.
  unfold elastic_stress, entries, mmap2, mscale, map2, np.trace, np.eye, np.T, kron,
    mget, vget, dim.
  cbn [map seq combine fst snd nth length Nat.eqb].
  list_eq; field.
Qed.

Lemma elastic_stress_shape (u : matrix) :
  shape2 u dim dim -> shape2 (elastic_stress u) dim dim.
Proof.
  intros Hu. rewrite (matrix3_explicit u Hu), elastic_stress_entries.
  apply entries_shape.
Qed.

Lemma entries_ext (f g : nat -> nat -> R) :
  (forall i j, (i < dim)%nat -> (j < dim)%nat -> f i j = g i j) ->
  entries f = entries g.
Proof.
  intros H. unfold entries. apply map_ext_in. intros i Hi. apply in_seq in Hi.
  apply map_ext_in. intros j Hj. apply in_seq in Hj. apply H; lia.
Qed.

Lemma mget_entries_out (f : nat -> nat -> R) (i j : nat) :
  (dim <= i)%nat \/ (dim <= j)%nat -> mget (entries f) i j = 0.
Proof.
  unfold dim, mget, vget, entries. cbn [seq map]. intros H.
  destruct i as [|[|[|i]]]; cbn [nth];
    try (destruct j as [|[|[|j]]]; cbn [nth]; try lia; now destruct j).
  destruct i, j; reflexivity.
Qed.

(** X12.  Hooke's law of [LinearElasticity] on a 3x3 displacement
    gradient: the stress is [lmbda * tr(eps) * I + 2 * mu * eps] for the
    symmetric part [eps] of the gradient; it is symmetric; its trace is
    [(3 * lmbda + 2 * mu)] times the trace of the gradient; and it
    vanishes for a skew-symmetric gradient (an infinitesimal rotation). *)
Theorem elastic_stress_law (u : matrix) :
  shape2 u dim dim ->
  elastic_stress u
  = entries (fun i j => lmbda * (mget u 0 0 + mget u 1 1 + mget u 2 2) * kron i j
                        + 2 * mu * ((mget u i j + mget u j i) / 2))
  /\ (forall i j, mget (elastic_stress u) i j = mget (elastic_stress u) j i)
  /\ np.trace (elastic_stress u)
     = (3 * lmbda + 2 * mu) * (mget u 0 0 + mget u 1 1 + mget u 2 2)
  /\ ((forall i j, (i < dim)%nat -> (j < dim)%nat -> mget u i j = - mget u j i) ->
      elastic_stress u = np.zeros dim dim).
Proof.
  intros Hu.
  assert (E : elastic_stress u
              = entries (fun i j => lmbda * (mget u 0 0 + mget u 1 1 + mget u 2 2)
                                    * kron i j
                                    + mu * (mget u i j + mget u j i))).
  { rewrite (matrix3_explicit u Hu) at 1. apply elastic_stress_entries. }
  split; [|split; [|split]].
  - rewrite E. apply entries_ext. intros i j _ _. field.
  - intros i j. rewrite E.
    destruct (Nat.lt_ge_cases i dim) as [Hi|Hi];
      destruct (Nat.lt_ge_cases j dim) as [Hj|Hj].
    + rewrite !mget_entries by assumption. unfold kron.
      rewrite (Nat.eqb_sym j i). ring.
    + rewrite !mget_entries_out by auto. reflexivity.
    + rewrite !mget_entries_out by auto. reflexivity.
    + rewrite !mget_entries_out by auto. reflexivity.
  - rewrite E. unfold np.trace. rewrite !mget_entries by (unfold dim; lia).
    unfold kron. cbn [Nat.eqb]. ring.
  - intros Hskew. rewrite E.
    assert (H00 : mget u 0 0 = 0) by (pose proof (Hskew 0%nat 0%nat ltac:(unfold dim; lia) ltac:(unfold dim; lia)); lra).
    assert (H11 : mget u 1 1 = 0) by (pose proof (Hskew 1%nat 1%nat ltac:(unfold dim; lia) ltac:(unfold dim; lia)); lra).
    assert (H22 : mget u 2 2 = 0) by (pose proof (Hskew 2%nat 2%nat ltac:(unfold dim; lia) ltac:(unfold dim; lia)); lra).
    transitivity (entries (fun _ _ => 0)); [|reflexivity].
    apply entries_ext. intros i j Hi Hj.
    rewrite H00, H11, H22, (Hskew i j Hi Hj). ring.
Qed.

Lemma elastic_stress_of_rotation :
  elastic_stress [[0; 1; 0]; [-1; 0; 0]; [0; 0; 0]] = np.zeros dim dim.
Proof.
  destruct (elastic_stress_law [[0; 1; 0]; [-1; 0; 0]; [0; 0; 0]]) as [_ [_ [_ H]]].
  - split; [reflexivity|]. repeat constructor.
  - apply H. unfold dim. intros i j Hi Hj.
    destruct i as [|[|[|i]]]; [| | |lia]; (destruct j as [|[|[|j]]]; [| | |lia]);
      unfold mget, vget; cbn [nth]; lra.
Defined.

Lemma chunk_length {A : Type} (n k : nat) (l : list A) :
  (0 < n)%nat -> length l = (k * n)%nat -> length (chunk n l) = k.
Proof.
  intros Hn. revert l. induction k as [|k IH]; intros l Hl.
  - destruct l; [reflexivity|discriminate].
  - rewrite <- (firstn_skipn n l). rewrite chunk_app.
    + cbn [length]. f_equal. apply IH. rewrite length_skipn, Hl. cbn; lia.
    + exact Hn.
    + rewrite length_firstn, Hl. cbn; lia.
Qed.

(** [LinearElasticity.compute_physics] on a gradient array with [Q] matrices
    of shape [(3, 3)] per cell. *)
Lemma elastic_physics_ok
        (self : LinearElasticity) (sol : matrix) (u_grads : tensor4) (Q : nat) :
  vec (fem (elasticity_base self)) = dim ->
  (0 < Q)%nat ->
  Forall (fun uc => length uc = Q /\ Forall (fun u => shape2 u dim dim) uc) u_grads ->
  exists sigmas,
    compute_physics sol u_grads self = (Ok sigmas, self)
    /\ length sigmas = length u_grads
    /\ (forall c q, (c < length u_grads)%nat -> (q < Q)%nat ->
          nth q (nth c sigmas []) [] = elastic_stress (nth q (nth c u_grads []) []))
    /\ (u_grads = [] -> sigmas = []).
Proof.
  intros Hvec HQ Hall.
  assert (Hall' : Forall (Forall (fun u => shape2 u dim dim)) u_grads).
  { eapply Forall_impl; [|exact Hall]. intros uc [_ H]. exact H. }
  assert (HallQ : Forall (fun uc => length uc = Q) u_grads).
  { eapply Forall_impl; [|exact Hall]. intros uc [H _]. exact H. }
  assert (Hlen : length (concat u_grads) = (length u_grads * Q)%nat).
  { now apply length_concat_uniform. }
  cbn [compute_physics LinearElasticity_Physics].
  unfold LinearElasticity_compute_physics, bindM, getM, liftM, retM.
  rewrite Hvec, reshape_matrices_ok by exact Hall'.
  eexists. split; [reflexivity|].
  destruct u_grads as [|uc rest] eqn:Eu.
  { split; [reflexivity|]. split; [intros c q Hc; cbn in Hc; lia|reflexivity]. }
  rewrite <- Eu in *.
  assert (Hne : u_grads <> []) by (rewrite Eu; discriminate).
  set (out := map elastic_stress (concat u_grads)).
  assert (Hout : length out = (length u_grads * Q)%nat)
    by (unfold out; now rewrite length_map).
  assert (Hshape : Forall (fun s => shape2 s dim dim) out).
  { unfold out. apply Forall_map.
    pose proof (proj2 (Forall_concat _ _) Hall') as H.
    eapply Forall_impl; [|exact H]. intros u Hu. now apply elastic_stress_shape. }
  rewrite (reshape_like_chunk u_grads out Q Hne Hall HQ Hshape).
  split; [|split].
  - now apply chunk_length.
  - intros c q Hc Hq.
    assert (Hcq : (c * Q + q < length u_grads * Q)%nat) by nia.
    rewrite (nth_chunk Q (length u_grads) out c q []) by assumption.
    unfold out.
    rewrite (@nth_map_in_range (list (list R)) (list (list R)) _ _ _ [] [])
      by (rewrite Hlen; exact Hcq).
    rewrite (nth_concat_uniform Q u_grads c q []) by assumption.
    reflexivity.
  - intros H. contradiction.
Qed.

(** X13.  [LinearElasticity.compute_physics] applies Hooke's law at every
    quadrature point and neither reads the solution field nor changes the
    object: on a gradient array of shape [(num_cells, Q, 3, 3)] the
    reshape to a batch of matrices and back is the identity on positions.
    On an array without cells it returns the empty array. *)
Theorem LinearElasticity_compute_physics_pointwise
        (self : LinearElasticity) (sol : matrix) (u_grads : tensor4) (Q : nat) :
  vec (fem (elasticity_base self)) = dim ->
  (0 < Q)%nat ->
  Forall (fun uc => length uc = Q /\ Forall (fun u => shape2 u dim dim) uc) u_grads ->
  exists sigmas,
    compute_physics sol u_grads self = (Ok sigmas, self)
    /\ length sigmas = length u_grads
    /\ (forall c q, (c < length u_grads)%nat -> (q < Q)%nat ->
          nth q (nth c sigmas []) [] = elastic_stress (nth q (nth c u_grads []) []))
    /\ (u_grads = [] -> sigmas = []).
Proof. exact (elastic_physics_ok self sol u_grads Q). Qed.

Lemma LinearElasticity_init_ok (m : Mesh) :
  exists self, LinearElasticity_init m ([], [], []) None None = Ok self.
Proof.
  unfold LinearElasticity_init, Laplace_init, FEM_init.
  rewrite get_shape_vals_ok. cbn [bind].
  destruct (get_shape_grads_ok m) as [sg [-> _]]. cbn [bind].
  cbn [Dirichlet_boundary_conditions length Nat.eqb andb assert_ bind seq fold_left
       compute_body_force compute_Neumann_integral].
  eexists. reflexivity.
Qed.

Lemma LinearElasticity_init_wf (m : Mesh) (dirichlet : dirichlet_bc_info)
      (neumann_bc_info : option (list location_fn * list (vector -> vector)))
      (source_info : option (vector -> vector)) (self : LinearElasticity) :
  mesh_wf m -> (0 < num_total_nodes m)%nat ->
  LinearElasticity_init m dirichlet neumann_bc_info source_info = Ok self ->
  Laplace_init 3 m dirichlet neumann_bc_info source_info = Ok (elasticity_base self)
  /\ laplace_wf (elasticity_base self) /\ mesh (fem (elasticity_base self)) = m
  /\ vec (fem (elasticity_base self)) = dim.
Proof.
  intros Hwf HN H. unfold LinearElasticity_init in H.
  destruct (Laplace_init 3 m dirichlet neumann_bc_info source_info) as [L|e] eqn:E;
    [|discriminate H].
  cbn [bind] in H. inversion H; subst self. cbn [elasticity_base].
  split; [reflexivity|].
  apply (Laplace_init_wf 3 m dirichlet neumann_bc_info source_info L Hwf);
    [lia|exact HN|exact E].
Qed.

Lemma unit_cube_elastic_physics :
  exists self sigmas,
    LinearElasticity_init unit_cube ([], [], []) None None = Ok self
    /\ compute_physics (np.zeros 8 3) [[np.zeros 3 3]] self = (Ok sigmas, self)
    /\ nth 0 (nth 0 sigmas []) [] = elastic_stress (np.zeros 3 3).
Proof.
  destruct (LinearElasticity_init_ok unit_cube) as [self Hinit].
  destruct (LinearElasticity_init_wf unit_cube _ _ _ self unit_cube_wf
              ltac:(cbn; lia) Hinit) as [_ [_ [_ Hvec]]].
  destruct (LinearElasticity_compute_physics_pointwise self (np.zeros 8 3)
              [[np.zeros 3 3]] 1 Hvec ltac:(lia))
    as [sigmas [Hs [_ [Hpt _]]]].
  - repeat constructor.
  - exists self, sigmas. split; [exact Hinit|]. split; [exact Hs|].
    apply (Hpt 0%nat 0%nat); cbn; lia.
Defined.

(** ** The return mapping and the yield surface *)

Lemma deviator_entries (t : nat -> nat -> R) :
  deviator (entries t)
  = entries (fun i j => t i j
                        - (t 0%nat 0%nat + t 1%nat 1%nat + t 2%nat 2%nat) / 3 * kron i j).
Proof. apply s_dev_entries. Qed.

Lemma trace_entries (t : nat -> nat -> R) :
  np.trace (entries t) = t 0%nat 0%nat + t 1%nat 1%nat + t 2%nat 2%nat.
Proof. reflexivity. Qed.

Lemma msum_entries (g : nat -> nat -> R) :
  msum (entries g)
  = g 0%nat 0%nat + g 0%nat 1%nat + g 0%nat 2%nat
    + g 1%nat 0%nat + g 1%nat 1%nat + g 1%nat 2%nat
    + g 2%nat 0%nat + g 2%nat 1%nat + g 2%nat 2%nat.
Proof.
  unfold msum, entries, dim. cbn [seq map concat app np.sum fold_right]. ring.
Qed.

Lemma von_mises_entries (t : nat -> nat -> R) :
  von_mises (entries t)
  = sqrt (3 / 2 * msum (entries (fun i j =>
            (t i j - (t 0%nat 0%nat + t 1%nat 1%nat + t 2%nat 2%nat) / 3 * kron i j)
            * (t i j - (t 0%nat 0%nat + t 1%nat 1%nat + t 2%nat 2%nat) / 3 * kron i j)))).
Proof. unfold von_mises. rewrite deviator_entries. reflexivity. Qed.

Section Admissible.

Variables fu fs fe : nat -> nat -> R.

Let u_grad := entries fu.
Let sigma_old := entries fs.
Let epsilon_old := entries fe.
Let t := trial_stress u_grad sigma_old epsilon_old.
Let s := deviatoric_stress u_grad sigma_old epsilon_old.
Let dsq := deviatoric_square u_grad sigma_old epsilon_old.
Let n := regularised_norm u_grad sigma_old epsilon_old.
Let f := yield_excess u_grad sigma_old epsilon_old.

Lemma deviatoric_square_nonneg : 0 <= dsq.
Proof.
  unfold dsq, deviatoric_square. rewrite msum_entries.
  fold s.
  assert (H : forall x : R, 0 <= x * x) by (intros x; nra).
  pose proof (H (s 0 0)%nat). pose proof (H (s 0 1)%nat). pose proof (H (s 0 2)%nat).
  pose proof (H (s 1 0)%nat). pose proof (H (s 1 1)%nat). pose proof (H (s 1 2)%nat).
  pose proof (H (s 2 0)%nat). pose proof (H (s 2 1)%nat). pose proof (H (s 2 2)%nat).
  lra.
Qed.

Lemma von_mises_trial : von_mises (sigma_trial u_grad sigma_old epsilon_old) = sqrt dsq.
Proof.
  unfold sigma_trial, u_grad, sigma_old, epsilon_old.
  rewrite sigma_trial_entries, von_mises_entries. reflexivity.
Qed.

Lemma yielding_norm : 0 < f -> 0 < dsq /\ n = sqrt dsq /\ 250 < n.
Proof.
  intros Hf. unfold f, yield_excess in Hf. fold n in Hf.
  unfold n, regularised_norm in *. fold dsq in Hf |- *.
  destruct (Rlt_dec 0 dsq) as [Hpos|Hneg].
  - split; [exact Hpos|]. split; [reflexivity|lra].
  - pose proof sqrt_EPS_small. lra.
Qed.

(** The scaled deviator: the radial return shrinks the deviatoric part and
    leaves the trace. *)
Lemma von_mises_scaled (k : R) :
  0 <= 1 - k ->
  von_mises (entries (fun i j => t i j - k * s i j)) = (1 - k) * sqrt dsq.
Proof.
  intros Hk. rewrite von_mises_entries.
  replace (3 / 2 * msum _) with ((1 - k) * (1 - k) * dsq).
  - rewrite sqrt_mult_alt by nra. rewrite sqrt_square by exact Hk. reflexivity.
  - unfold dsq, deviatoric_square. rewrite !msum_entries.
    unfold s, deviatoric_stress. fold t. unfold kron. cbn [Nat.eqb]. field.
Qed.

Lemma trace_scaled (k : R) :
  np.trace (entries (fun i j => t i j - k * s i j)) = np.trace (entries t).
Proof.
  rewrite !trace_entries. unfold s, deviatoric_stress. fold t.
  unfold kron. cbn [Nat.eqb]. field.
Qed.

Lemma return_map_admissible_entries :
  let trial := sigma_trial u_grad sigma_old epsilon_old in
  let sigma := stress_return_map u_grad sigma_old epsilon_old in
  np.trace sigma = np.trace trial
  /\ von_mises sigma <= von_mises trial
  /\ von_mises sigma < 250 + EPS
  /\ (von_mises trial <= 250 -> sigma = trial)
  /\ (250 < von_mises trial -> 250 < von_mises sigma).
Proof.
  cbn zeta. rewrite von_mises_trial.
  unfold u_grad, sigma_old, epsilon_old.
  rewrite stress_return_map_entries.
  unfold sigma_trial. rewrite sigma_trial_entries.
  fold u_grad sigma_old epsilon_old. fold t.
  pose proof deviatoric_square_nonneg as Hd.
  assert (HEPS : 0 < EPS) by (unfold EPS; lra).
  destruct (Rle_dec f 0) as [Hle|Hgt].
  - (* the elastic step *)
    assert (E : entries (returned_stress u_grad sigma_old epsilon_old) = entries t).
    { apply entries_ext. intros i j _ _. unfold returned_stress. fold f.
      destruct (Rle_dec f 0); [reflexivity|lra]. }
    rewrite E.
    assert (Hvm : von_mises (entries t) = sqrt dsq).
    { rewrite <- von_mises_trial. unfold sigma_trial, u_grad, sigma_old, epsilon_old.
      now rewrite sigma_trial_entries. }
    rewrite Hvm.
    assert (Hn : sqrt dsq <= 250).
    { unfold f, yield_excess, regularised_norm in Hle. fold dsq in Hle.
      destruct (Rlt_dec 0 dsq) as [Hpos|Hneg]; [lra|].
      assert (dsq = 0) by lra. subst. replace dsq with 0 by lra. rewrite sqrt_0. lra. }
    repeat split; lra.
  - (* the plastic step *)
    destruct (yielding_norm ltac:(lra)) as [Hpos [Hn Hbig]].
    set (k := f / (n + EPS)).
    assert (E : entries (returned_stress u_grad sigma_old epsilon_old)
                = entries (fun i j => t i j - k * s i j)).
    { apply entries_ext. intros i j _ _. unfold returned_stress. fold f n t s.
      destruct (Rle_dec f 0); [lra|]. unfold k. field. lra. }
    rewrite E.
    assert (Hk : 1 - k = (250 + EPS) / (n + EPS)).
    { unfold k, f, yield_excess. fold n. field. lra. }
    assert (Hk0 : 0 < 1 - k).
    { rewrite Hk. apply Rdiv_lt_0_compat; lra. }
    assert (Hk1 : 1 - k < 1).
    { rewrite Hk. apply (Rmult_lt_reg_r (n + EPS)); [lra|].
      unfold Rdiv. rewrite Rmult_assoc, Rinv_l by lra. lra. }
    rewrite von_mises_scaled by lra. rewrite trace_scaled. rewrite <- Hn.
    assert (Hprod : (1 - k) * n = (250 + EPS) * n / (n + EPS)).
    { rewrite Hk. field. lra. }
    split; [reflexivity|]. split; [nra|]. split; [|split].
    + rewrite Hprod. apply (Rmult_lt_reg_r (n + EPS)); [lra|].
      unfold Rdiv. rewrite Rmult_assoc, Rinv_l by lra. nra.
    + intros H. lra.
    + intros _. rewrite Hprod. apply (Rmult_lt_reg_r (n + EPS)); [lra|].
      unfold Rdiv. rewrite Rmult_assoc, Rinv_l by lra. nra.
Qed.

End Admissible.



(** ** A fresh [Plasticity] object *)

Lemma Plasticity_init_state (m : Mesh) (dirichlet : dirichlet_bc_info)
      (neumann_bc_info : option (list location_fn * list (vector -> vector)))
      (source_info : option (vector -> vector)) (self : Plasticity) :
  mesh_wf m -> (0 < num_total_nodes m)%nat ->
  Plasticity_init m dirichlet neumann_bc_info source_info = Ok self ->
  Laplace_init 3 m dirichlet neumann_bc_info source_info = Ok (plasticity_base self)
  /\ vec (fem (plasticity_base self)) = dim
  /\ sigmas_old self = repeat (np.zeros dim dim) (num_cells m * num_quads)
  /\ epsilons_old self = repeat (np.zeros dim dim) (num_cells m * num_quads).
Proof.
  intros Hwf HN H. unfold Plasticity_init in H.
  destruct (Laplace_init 3 m dirichlet neumann_bc_info source_info) as [L|e] eqn:E;
    [|discriminate H].
  cbn [bind] in H. inversion H; subst self; clear H.
  destruct (Laplace_init_wf 3 m _ _ _ L Hwf ltac:(lia) HN E) as [_ [_ Hv]].
  cbn [plasticity_base sigmas_old epsilons_old]. rewrite Hv.
  split; [reflexivity|]. split; [reflexivity|]. split; [|reflexivity].
  unfold num_cells.
  induction (length (cells m) * num_quads)%nat as [|k IH]; [reflexivity|].
  cbn [repeat map]. rewrite IH, zeros_like_zeros. reflexivity.
Qed.

Lemma sigma_trial_from_rest (u : matrix) :
  shape2 u dim dim ->
  sigma_trial u (np.zeros dim dim) (np.zeros dim dim) = elastic_stress u.
Proof.
  intros Hu. rewrite (matrix3_explicit u Hu).
  unfold sigma_trial, elastic_stress, stress, strain, entries, mmap2, mscale, map2,
    np.trace, np.eye, np.T, np.zeros, mget, vget, dim.
  cbn [map seq combine fst snd nth length Nat.eqb repeat].
  list_eq; field.
Qed.

Lemma map2_repeat_r {A B C : Type} (F : A -> B -> C) (l : list A) (b : B) (n : nat) :
  length l = n -> map2 F l (repeat b n) = map (fun a => F a b) l.
Proof.
  intros <-. unfold map2. induction l as [|a l IH]; [reflexivity|].
  cbn [length repeat combine map fst snd]. now rewrite IH.
Qed.

Lemma combine_repeat {A B : Type} (a : A) (b : B) (n : nat) :
  combine (repeat a n) (repeat b n) = repeat (a, b) n.
Proof. induction n as [|n IH]; [reflexivity|]. cbn [repeat combine]. now rewrite IH. Qed.

(** X15.  Below the yield stress a fresh [Plasticity] object computes the
    stress of [LinearElasticity].  On the same mesh, for a gradient array
    of shape [(num_cells, num_quads, 3, 3)] whose linear-elastic stress
    has a von Mises norm of at most 250 at every quadrature point,
    [Plasticity.compute_physics] right after construction (all stored
    stresses and strains zero) and [LinearElasticity.compute_physics]
    return the same array. *)
Theorem fresh_plasticity_is_elastic
        (m : Mesh) (dirichlet : dirichlet_bc_info)
        (neumann_bc_info : option (list location_fn * list (vector -> vector)))
        (source_info : option (vector -> vector))
        (self_p : Plasticity) (self_e : LinearElasticity)
        (sol : matrix) (u_grads : tensor4) :
  mesh_wf m -> (0 < num_total_nodes m)%nat ->
  Plasticity_init m dirichlet neumann_bc_info source_info = Ok self_p ->
  LinearElasticity_init m dirichlet neumann_bc_info source_info = Ok self_e ->
  length u_grads = num_cells m ->
  Forall (fun uc => length uc = num_quads /\ Forall (fun u => shape2 u dim dim) uc)
         u_grads ->
  Forall (Forall (fun u => von_mises (elastic_stress u) <= 250)) u_grads ->
  exists sigmas,
    compute_physics sol u_grads self_p = (Ok sigmas, self_p)
    /\ compute_physics sol u_grads self_e = (Ok sigmas, self_e).
Proof.
  intros Hwf HN Hp He Hlen Hall Hyield.
  destruct (Plasticity_init_state m _ _ _ self_p Hwf HN Hp) as [_ [Hvp [Hs0 He0]]].
  destruct (LinearElasticity_init_wf m _ _ _ self_e Hwf HN He) as [_ [_ [_ Hve]]].
  assert (Hall' : Forall (Forall (fun u => shape2 u dim dim)) u_grads).
  { eapply Forall_impl; [|exact Hall]. intros uc [_ H]. exact H. }
  assert (HallQ : Forall (fun uc => length uc = num_quads) u_grads).
  { eapply Forall_impl; [|exact Hall]. intros uc [H _]. exact H. }
  assert (Hcat : length (concat u_grads) = (num_cells m * num_quads)%nat).
  { rewrite (length_concat_uniform num_quads u_grads HallQ), Hlen. reflexivity. }
  cbn [compute_physics Plasticity_Physics LinearElasticity_Physics].
  unfold Plasticity_compute_physics, LinearElasticity_compute_physics,
    bindM, getM, liftM, retM, stress_strain_fns.
  cbn [snd]. rewrite Hvp, Hve, reshape_matrices_ok by exact Hall'.
  unfold vmap3. rewrite Hs0, He0, Hcat, !repeat_length, !Nat.eqb_refl. cbn [andb].
  eexists. split; [reflexivity|].
  do 3 f_equal.
  rewrite combine_repeat, map2_repeat_r by exact Hcat. cbn [fst snd].
  symmetry. apply map_ext_in. intros u Hu.
  assert (Hu3 : shape2 u dim dim).
  { pose proof (proj2 (Forall_concat _ _) Hall') as H.
    rewrite Forall_forall in H. now apply H. }
  assert (Hy : von_mises (elastic_stress u) <= 250).
  { pose proof (proj2 (Forall_concat _ _) Hyield) as H.
    rewrite Forall_forall in H. now apply H. }
  destruct (return_map_admissible_entries (mget u) (mget (np.zeros dim dim))
              (mget (np.zeros dim dim))) as [_ [_ [_ [Hel _]]]].
  rewrite <- !matrix3_explicit in Hel by (apply zeros_shape || exact Hu3).
  rewrite sigma_trial_from_rest in Hel by exact Hu3.
  rewrite (Hel Hy). reflexivity.
Qed.

Lemma von_mises_at_rest : von_mises (elastic_stress (np.zeros 3 3)) = 0.
Proof.
  change (np.zeros 3 3) with (entries (fun _ _ => 0)).
  rewrite elastic_stress_entries, von_mises_entries, msum_entries.
  unfold kron. cbn [Nat.eqb].
  match goal with |- sqrt ?x = 0 => replace x with 0 by field end.
  apply sqrt_0.
Qed.

Lemma unit_cube_fresh_plasticity :
  exists self_p self_e sigmas,
    Plasticity_init unit_cube ([], [], []) None None = Ok self_p
    /\ LinearElasticity_init unit_cube ([], [], []) None None = Ok self_e
    /\ compute_physics (np.zeros 8 3) [repeat (np.zeros 3 3) 8] self_p
       = (Ok sigmas, self_p)
    /\ compute_physics (np.zeros 8 3) [repeat (np.zeros 3 3) 8] self_e
       = (Ok sigmas, self_e).
Proof.
  destruct (Plasticity_init_ok unit_cube) as [self_p [Hp _]].
  destruct (LinearElasticity_init_ok unit_cube) as [self_e He].
  destruct (fresh_plasticity_is_elastic unit_cube ([], [], []) None None self_p self_e
              (np.zeros 8 3) [repeat (np.zeros 3 3) 8]
              unit_cube_wf ltac:(cbn; lia) Hp He eq_refl)
    as [sigmas [H1 H2]].
  - repeat constructor.
  - constructor; [|constructor].
    apply Forall_forall. intros u Hu. apply repeat_spec in Hu. subst u.
    rewrite von_mises_at_rest. lra.
  - exists self_p, self_e, sigmas. repeat split; assumption.
Defined.

(** ** The average stress *)




Lemma unit_cube_JxW_all (vec0 : nat) (dirichlet : dirichlet_bc_info) (self : FEM) :
  FEM_init vec0 unit_cube dirichlet = Ok self ->
  JxW self = [repeat (1 / 8) 8].
Proof.
  intros Hinit.
  assert (Hq : forall q, (q < num_quads)%nat ->
                         length (JxW self) = 1%nat
                         /\ length (nth 0 (JxW self) []) = 8%nat
                         /\ nth q (nth 0 (JxW self) []) 0 = 1 / 8).
  { intros q Hq.
    destruct (FEM_init_shape_grads vec0 unit_cube dirichlet self 0 q Hinit
                ltac:(cbn; lia) Hq) as [_ [_ [_ [H1 [H8 ->]]]]].
    split; [exact H1|]. split; [exact H8|].
    rewrite unit_cube_jacobian. unfold np.det, half, mget, vget. cbn [nth]. field. }
  destruct (Hq 0%nat ltac:(unfold num_quads; lia)) as [H1 [H8 _]].
  destruct (JxW self) as [|row [|? ?]]; try discriminate H1.
  cbn [nth] in *. f_equal.
  rewrite (list8_explicit 0 row H8).
  cbn [repeat]. unfold num_quads in Hq.
  rewrite !(fun q H => proj2 (proj2 (Hq q H))) by lia. reflexivity.
Qed.


(** ** Construction and the update of the boundary conditions *)

Lemma Dirichlet_lengths (m : Mesh) (location_fns : list location_fn) (vecs : list Z)
      (value_fns : list value_fn) :
  (length location_fns = length value_fns /\ length value_fns = length vecs ->
   exists r, Dirichlet_boundary_conditions m (location_fns, vecs, value_fns) = Ok r)
  /\ (~ (length location_fns = length value_fns /\ length value_fns = length vecs) ->
      Dirichlet_boundary_conditions m (location_fns, vecs, value_fns)
      = Raise AssertionError).
Proof.
  unfold Dirichlet_boundary_conditions. split.
  - intros [H1 H2]. rewrite H1, H2, !Nat.eqb_refl. cbn [andb assert_ bind].
    eexists. reflexivity.
  - intros H.
    destruct (Nat.eqb (length location_fns) (length value_fns)) eqn:E1;
      [destruct (Nat.eqb (length value_fns) (length vecs)) eqn:E2|]; try reflexivity.
    exfalso. apply H. split; now apply Nat.eqb_eq.
Qed.

(** X17.  [update_Dirichlet_boundary_conditions] replaces the three
    Dirichlet lists and nothing else: on an object built by
    [FEM.__init__] it gives the object that [FEM.__init__] builds with the
    new boundary conditions.  When the lists of the new boundary
    conditions differ in length it raises the assertion error and the
    object keeps its old lists. *)
Theorem update_Dirichlet_reinitialises
        (vec0 : nat) (m : Mesh) (old : dirichlet_bc_info) (self : FEM)
        (location_fns : list location_fn) (vecs : list Z) (value_fns : list value_fn) :
  FEM_init vec0 m old = Ok self ->
  (length location_fns = length value_fns /\ length value_fns = length vecs ->
   exists self',
     FEM_init vec0 m (location_fns, vecs, value_fns) = Ok self'
     /\ update_Dirichlet_boundary_conditions (location_fns, vecs, value_fns) self
        = (Ok tt, self'))
  /\ (~ (length location_fns = length value_fns /\ length value_fns = length vecs) ->
      FEM_init vec0 m (location_fns, vecs, value_fns) = Raise AssertionError
      /\ update_Dirichlet_boundary_conditions (location_fns, vecs, value_fns) self
         = (Raise AssertionError, self)).
Proof.
  intros Hinit.
  destruct (Dirichlet_lengths m location_fns vecs value_fns) as [Hok Hbad].
  unfold FEM_init in *. rewrite get_shape_vals_ok in *. cbn [bind] in *.
  destruct (get_shape_grads m) as [[grads weights]|e]; [|discriminate Hinit].
  cbn [bind] in *.
  destruct (Dirichlet_boundary_conditions m old) as [[[nl vl] vals]|e];
    [|discriminate Hinit].
  cbn [bind] in Hinit. inversion Hinit; subst self; clear Hinit.
  unfold update_Dirichlet_boundary_conditions, bindM, getM, liftM, putM.
  cbn [mesh vec shape_vals shape_grads JxW face_shape_vals].
  split.
  - intros Hlen. destruct (Hok Hlen) as [[[nl' vl'] vals'] ->]. cbn [bind fst snd].
    eexists. split; reflexivity.
  - intros Hlen. rewrite (Hbad Hlen). split; reflexivity.
Qed.

Lemma update_Dirichlet_unit_cube :
  exists self self',
    FEM_init 1 unit_cube ([], [], []) = Ok self
    /\ FEM_init 1 unit_cube ([on_x0], [0%Z], [one]) = Ok self'
    /\ update_Dirichlet_boundary_conditions ([on_x0], [0%Z], [one]) self = (Ok tt, self').
Proof.
  destruct (FEM_init_ok 1 unit_cube) as [self Hinit].
  destruct (update_Dirichlet_reinitialises 1 unit_cube ([], [], []) self
              [on_x0] [0%Z] [one] Hinit) as [H _].
  destruct (H (conj eq_refl eq_refl)) as [self' [H1 H2]].
  exists self, self'. split; [exact Hinit|]. split; [exact H1|exact H2].
Defined.

(** X18.  On a well-formed mesh the constructor of a [Laplace] problem
    without source and traction fails in one way only: it returns the
    object, with the invariant of its arrays, when the three Dirichlet
    lists have one length, and raises the assertion error otherwise,
    whatever the geometry of the cells is. *)
Theorem Laplace_init_outcome
        (vec0 : nat) (m : Mesh)
        (location_fns : list location_fn) (vecs : list Z) (value_fns : list value_fn) :
  mesh_wf m -> (0 < vec0)%nat -> (0 < num_total_nodes m)%nat ->
  (length location_fns = length value_fns /\ length value_fns = length vecs ->
   exists L, Laplace_init vec0 m (location_fns, vecs, value_fns) None None = Ok L
             /\ laplace_wf L /\ mesh (fem L) = m /\ vec (fem L) = vec0
             /\ length (node_inds_list (fem L)) = length location_fns)
  /\ (~ (length location_fns = length value_fns /\ length value_fns = length vecs) ->
      forall neumann_bc_info source_info,
        Laplace_init vec0 m (location_fns, vecs, value_fns) neumann_bc_info source_info
        = Raise AssertionError).
Proof.
  intros Hwf Hvec HN.
  destruct (Dirichlet_lengths m location_fns vecs value_fns) as [Hok Hbad].
  split.
  - intros Hlen. destruct (Hok Hlen) as [[[nl vl] vals] Hd].
    assert (Hinit : exists L, Laplace_init vec0 m (location_fns, vecs, value_fns) None None
                              = Ok L /\ node_inds_list (fem L) = nl).
    { unfold Laplace_init, FEM_init. rewrite get_shape_vals_ok. cbn [bind].
      destruct (get_shape_grads_ok m) as [sg [-> _]]. cbn [bind].
      rewrite Hd. cbn [bind compute_body_force compute_Neumann_integral].
      eexists. split; reflexivity. }
    destruct Hinit as [L [HL Hnl]]. exists L. split; [exact HL|].
    destruct (Laplace_init_wf vec0 m _ _ _ L Hwf Hvec HN HL) as [H1 [H2 H3]].
    split; [exact H1|]. split; [exact H2|]. split; [exact H3|].
    rewrite Hnl. unfold Dirichlet_boundary_conditions in Hd.
    destruct Hlen as [E1 E2]. rewrite E1, E2, !Nat.eqb_refl in Hd.
    cbn [andb assert_ bind] in Hd.
    rewrite dirichlet_loop in Hd. cbn [app] in Hd. inversion Hd.
    now rewrite length_map, length_seq, E1, E2.
  - intros Hlen neumann_bc_info source_info.
    unfold Laplace_init, FEM_init. rewrite get_shape_vals_ok. cbn [bind].
    destruct (get_shape_grads_ok m) as [sg [-> _]]. cbn [bind].
    rewrite (Hbad Hlen). reflexivity.
Qed.

Lemma Laplace_init_unit_cube :
  exists L, Laplace_init 1 unit_cube ([on_x0], [0%Z], [one]) None None = Ok L
            /\ laplace_wf L.
Proof.
  destruct (Laplace_init_outcome 1 unit_cube [on_x0] [0%Z] [one]
              unit_cube_wf ltac:(lia) ltac:(cbn; lia)) as [H _].
  destruct (H (conj eq_refl eq_refl)) as [L [HL [Hwf _]]].
  exists L. split; [exact HL|exact Hwf].
Defined.

(** ** The Neumann lists *)

Lemma mapM_seq_first_error {B : Type} (f : nat -> result B) (e : exn) (k n : nat) :
  (k < n)%nat -> (forall i, (i < k)%nat -> exists b, f i = Ok b) -> f k = Raise e ->
  mapM f (seq 0 n) = Raise e.
Proof.
  intros Hk Hok Hbad.
  assert (G : forall s len, (s <= k)%nat -> (k < s + len)%nat ->
                            mapM f (seq s len) = Raise e).
  { intros s len. revert s. induction len as [|len IH]; intros s Hs Hlen; [lia|].
    cbn [seq mapM].
    destruct (Nat.eq_dec s k) as [->|Hne].
    - rewrite Hbad. reflexivity.
    - destruct (Hok s ltac:(lia)) as [b ->]. cbn [bind].
      rewrite IH by lia. reflexivity. }
  apply G; lia.
Qed.

Lemma mapM_length {A B : Type} (f : A -> result B) (l : list A) (l' : list B) :
  mapM f l = Ok l' -> length l' = length l.
Proof.
  revert l'. induction l as [|a l IH]; intros l' H; cbn [mapM] in H.
  - inversion H. reflexivity.
  - destruct (f a) as [b|e]; [|discriminate H]. cbn [bind] in H.
    destruct (mapM f l) as [bs|e]; [|discriminate H]. cbn [bind] in H.
    inversion H. cbn [length]. f_equal. now apply IH.
Qed.

Lemma fold_left_raise {A B : Type} (step : result A -> B -> result A) (l : list B) (e : exn) :
  (forall b e', step (Raise e') b = Raise e') ->
  fold_left step l (Raise e) = Raise e.
Proof.
  intros Hstep. induction l as [|b l IH]; [reflexivity|].
  cbn [fold_left]. now rewrite Hstep.
Qed.

(** X19.  [compute_Neumann_integral] does not compare the lengths of its
    two lists, but lists of different lengths never give an integral:
    with more value functions than location functions the index error of
    [Neuman_boundary_conditions_vals] (no index array for the value
    function) is raised; with more location functions than value
    functions the loop over the index arrays raises, at the latest with
    the index error of the missing traction. *)
Theorem Neumann_length_mismatch
        (self : FEM) (location_fns : list location_fn)
        (value_fns : list (vector -> vector)) :
  ((length location_fns < length value_fns)%nat ->
   compute_Neumann_integral self (Some (location_fns, value_fns)) = Raise IndexError)
  /\ ((length value_fns < length location_fns)%nat ->
      exists e, compute_Neumann_integral self (Some (location_fns, value_fns)) = Raise e)
  /\ compute_Neumann_integral self None
     = Ok (np.zeros (num_total_nodes (mesh self)) (vec self)).
Proof.
  assert (Hlen : length (Neuman_boundary_conditions_inds (mesh self) location_fns)
                 = length location_fns).
  { rewrite Neuman_boundary_conditions_inds_map. now rewrite length_map, length_seq. }
  split; [|split; [|reflexivity]].
  - intros Hlt. unfold compute_Neumann_integral, Neuman_boundary_conditions_vals.
    rewrite (mapM_seq_first_error _ IndexError (length location_fns)).
    + reflexivity.
    + exact Hlt.
    + intros i Hi.
      destruct (nth_error (Neuman_boundary_conditions_inds (mesh self) location_fns) i)
        as [inds|] eqn:E.
      * eexists. reflexivity.
      * apply nth_error_None in E. lia.
    + replace (nth_error _ (length location_fns)) with (@None (list (nat * nat))).
      * reflexivity.
      * symmetry. apply nth_error_None. lia.
  - intros Hlt. unfold compute_Neumann_integral.
    destruct (Neuman_boundary_conditions_vals _ _ _) as [tractions|e] eqn:Ev;
      [|exists e; reflexivity].
    cbn [bind].
    apply mapM_length in Ev. rewrite length_seq in Ev.
    set (bil := Neuman_boundary_conditions_inds (mesh self) location_fns) in *.
    set (step := fun (acc : result (list (list R))) (ib : nat * list (nat * nat)) => _).
    assert (Hraise : forall b e', step (Raise e') b = Raise e').
    { intros b e'. reflexivity. }
    assert (G : forall s (l : list (list (nat * nat))) acc,
               (s <= length value_fns)%nat -> (length value_fns < s + length l)%nat ->
               exists e, fold_left step (combine (seq s (length l)) l) acc = Raise e).
    { intros s l. revert s. induction l as [|b l IH]; intros s acc Hs Hl.
      - cbn [length] in Hl. lia.
      - cbn [length seq combine fold_left].
        destruct acc as [a|e'].
        + destruct (Nat.eq_dec s (length value_fns)) as [->|Hne].
          * assert (E : step (Ok a) (length value_fns, b) = Raise IndexError).
            { unfold step. cbn [bind].
              replace (nth_error tractions (length value_fns)) with (@None (list (list (list R)))).
              - reflexivity.
              - symmetry. apply nth_error_None. lia. }
            rewrite E. exists IndexError. now apply fold_left_raise.
          * apply IH; cbn [length] in Hl; lia.
        + rewrite Hraise. exists e'. now apply fold_left_raise. }
    apply G; [lia|]. fold bil in Hlen. rewrite Hlen. lia.
Qed.

(** ** The stored state of [Plasticity] *)

(** X20.  [update_stress_strain] keeps the invariant of the object: on an
    object with one stored 3x3 stress and strain per quadrature point, and
    for a solution field with three components, it does not raise, keeps
    the base object and again stores one 3x3 stress and strain per
    quadrature point.  The strain it stores depends on the field only:
    a second update with the same field stores the same strain. *)
Theorem update_stress_strain_keeps_invariant (self : Plasticity) (sol : matrix) (k : nat) :
  plasticity_wf self -> (0 < num_cells (mesh (fem (plasticity_base self))))%nat ->
  shape2 sol k dim -> (0 < k)%nat ->
  exists self',
    update_stress_strain sol self = (Ok tt, self')
    /\ plasticity_wf self'
    /\ plasticity_base self' = plasticity_base self
    /\ exists self'',
         update_stress_strain sol self' = (Ok tt, self'')
         /\ plasticity_wf self''
         /\ epsilons_old self'' = epsilons_old self'.
Proof.
  intros Hwf HC Hsol Hk.
  destruct (update_stress_strain_ok self sol k Hwf HC Hsol Hk)
    as [self' [H1 [Hwf' [Hbase [_ He]]]]].
  exists self'. split; [exact H1|]. split; [exact Hwf'|]. split; [exact Hbase|].
  assert (HC' : (0 < num_cells (mesh (fem (plasticity_base self'))))%nat)
    by now rewrite Hbase.
  destruct (update_stress_strain_ok self' sol k Hwf' HC' Hsol Hk)
    as [self'' [H2 [Hwf'' [_ [_ He']]]]].
  exists self''. split; [exact H2|]. split; [exact Hwf''|].
  cbn zeta in He, He'. rewrite He, He', Hbase. reflexivity.
Qed.

Lemma unit_cube_update_twice :
  exists self self',
    Plasticity_init unit_cube ([], [], []) None None = Ok self
    /\ update_stress_strain (points unit_cube) self = (Ok tt, self')
    /\ plasticity_wf self'.
Proof.
  destruct (Plasticity_init_ok unit_cube) as [self [Hinit [Hm _]]].
  destruct (Plasticity_init_wf unit_cube _ _ _ self unit_cube_wf ltac:(cbn; lia) Hinit)
    as [Hwf _].
  destruct (update_stress_strain_keeps_invariant self (points unit_cube) 8 Hwf)
    as [self' [H1 [Hwf' _]]].
  - rewrite Hm. cbn; lia.
  - split; [reflexivity|]. repeat constructor.
  - lia.
  - exists self, self'. split; [exact Hinit|]. split; [exact H1|exact Hwf'].
Defined.

(** ** The Neumann integral *)

(** The rows that one block of quadrature data gives for the nodes, summed
    over the nodes: rows of shape values that sum to one leave the
    quadrature sum. *)
Lemma weighted_block_sum (vals : matrix) (tr : matrix) (ws : vector) (vec0 v : nat) :
  Forall unit_row vals -> Forall (fun t => length t = vec0) tr ->
  (length tr <= length vals)%nat -> (v < vec0)%nat ->
  column_sum
    (map (fun n =>
            map (fun v =>
                   np.sum (map2 (fun vq tq => vget vq n * bget (fst tq) v * snd tq)
                                vals (combine tr ws)))
                (seq 0 vec0))
         (seq 0 num_nodes)) v
  = np.sum (map2 (fun t w => vget t v * w) tr ws).
Proof.
  intros Hvals Htr Hlen Hv. unfold column_sum. rewrite map_map.
  rewrite (map_ext _ (fun n =>
             np.sum (map (fun p : vector * (vector * R) =>
                            vget (fst p) n * (bget (fst (snd p)) v * snd (snd p)))
                         (combine vals (combine tr ws))))).
  - rewrite sum_swap.
    rewrite (map_ext_in _ (fun p : vector * (vector * R) =>
                             (fun fq : vector * R => vget (fst fq) v * snd fq) (snd p))).
    + rewrite (map_snd_combine_le (fun fq : vector * R => vget (fst fq) v * snd fq)).
      * reflexivity.
      * rewrite length_combine. lia.
    + intros [vq [tq w]] Hin. cbn [fst snd].
      rewrite (map_ext _ (fun n => (bget tq v * w) * vget vq n)) by (intros; ring).
      rewrite sum_map_scal.
      pose proof (in_combine_r _ _ _ _ Hin) as Hr.
      apply in_combine_l in Hr. apply in_combine_l in Hin.
      rewrite Forall_forall in Hvals, Htr.
      destruct (Hvals vq Hin) as [H8 H1].
      rewrite <- H8, sum_seq_vget, H1.
      rewrite (bget_vget tq vec0 v (Htr tq Hr) Hv). ring.
  - intros n. unfold vget at 1.
    rewrite (@nth_map_in_range nat R _ _ v 0%nat 0) by (rewrite length_seq; exact Hv).
    rewrite seq_nth by exact Hv. cbn [Nat.add]. unfold map2. f_equal.
    apply map_ext. intros p. ring.
Qed.

Lemma face_shape_vals_unit_rows (f : nat) :
  (f < num_faces)%nat ->
  Forall unit_row (nth f get_face_shape_vals []) /\ length (nth f get_face_shape_vals []) = 4%nat.
Proof.
  intros Hf. unfold get_face_shape_vals.
  destruct (face_shape_grads_reference_nth f Hf) as [_ [_ [H4 _]]].
  assert (H6 : length (fst get_face_quad_points) = num_faces)
    by (rewrite get_face_quad_points_eq; reflexivity).
  rewrite (@nth_map_in_range (list (list R)) (list (list R)) _ _ f [] [])
    by (rewrite H6; exact Hf).
  split; [|now rewrite length_map].
  apply Forall_map, Forall_forall. intros x _. split.
  - reflexivity.
  - apply shape_vals_partition_of_unity.
Qed.

Lemma combine_combine_drop {A B C D : Type} (h : B -> C -> D)
      (la : list A) (lb : list B) (lc : list C) :
  (length lb <= length la)%nat ->
  map (fun s : A * B * C => h (snd (fst s)) (snd s)) (combine (combine la lb) lc)
  = map2 h lb lc.
Proof.
  unfold map2. revert lb lc. induction la as [|a la IH]; intros [|b lb] [|c lc] H;
    try reflexivity; try (cbn in H; lia).
  cbn [combine map fst snd]. rewrite IH by (cbn in H; lia). reflexivity.
Qed.

(** One pass of the loop of [compute_Neumann_integral]. *)
Lemma Neumann_step (vec0 : nat) (m : Mesh) (dirichlet : dirichlet_bc_info) (self : FEM)
      (g : vector -> vector) (boundary_inds : list (nat * nat)) (integral : matrix) :
  mesh_wf m -> (0 < vec0)%nat -> (0 < num_total_nodes m)%nat ->
  FEM_init vec0 m dirichlet = Ok self ->
  (forall x, length (g x) = vec0) ->
  Forall (fun p => (fst p < num_cells m)%nat /\ (snd p < num_faces)%nat) boundary_inds ->
  shape2 integral (num_total_nodes m) vec0 ->
  let traction := map (map g) (get_physical_surface_quad_points self boundary_inds) in
  let nanson_scale := snd (get_face_shape_grads m boundary_inds) in
  let v_vals := map (fun p => np.take [] (face_shape_vals self) (snd p)) boundary_inds in
  let subset_cells := map (fun p => np.take [] (cells m) (fst p)) boundary_inds in
  let int_vals :=
    map (fun s =>
           map (fun n =>
                  map (fun v =>
                         np.sum (map2 (fun vq tq => vget vq n * bget (fst tq) v * snd tq)
                                      (fst (fst s))
                                      (combine (snd (fst s)) (snd s))))
                      (seq 0 vec0))
               (seq 0 num_nodes))
        (combine (combine v_vals traction) nanson_scale) in
  exists integral',
    (_ <- check_components vec0 traction ;;
     int_vals <- reshape_rows vec0 (concat (concat int_vals)) ;;
     scatter_add integral (concat subset_cells) int_vals) = Ok integral'
    /\ shape2 integral' (num_total_nodes m) vec0
    /\ forall v, (v < vec0)%nat ->
         column_sum integral' v
         = column_sum integral v
           + np.sum (map2 (fun pts ws => np.sum (map2 (fun x w => vget (g x) v * w) pts ws))
                          (get_physical_surface_quad_points self boundary_inds)
                          nanson_scale).
Proof.
  intros Hwf Hvec HN Hinit Hg Hinds Hshape traction nanson_scale v_vals subset_cells int_vals.
  destruct (FEM_init_fields vec0 m dirichlet self Hinit) as [Hm [_ [_ [Hfsv _]]]].
  set (PTS := get_physical_surface_quad_points self boundary_inds) in *.
  assert (HPTS : length PTS = length boundary_inds)
    by (unfold PTS, get_physical_surface_quad_points; now rewrite length_map).
  assert (HPTS4 : Forall (fun pts => length pts = 4%nat) PTS).
  { unfold PTS, get_physical_surface_quad_points. cbn zeta.
    apply Forall_map. eapply Forall_impl; [|exact Hinds].
    intros [c f] [_ Hf]. cbn [fst snd] in *. rewrite length_map, Hfsv.
    destruct (take_in_range [] get_face_shape_vals f) as [-> _].
    - destruct (get_face_shape_vals_nth f 0 Hf ltac:(lia)) as [-> _]. exact Hf.
    - apply (face_shape_vals_unit_rows f Hf). }
  assert (Hnan : length nanson_scale = length boundary_inds)
    by (unfold nanson_scale, get_face_shape_grads; cbn [snd]; now rewrite !length_map).
  rewrite check_components_ok.
  2:{ unfold traction. apply Forall_map, Forall_forall. intros pts _.
      apply Forall_map, Forall_forall. intros x _. apply Hg. }
  cbn [bind].
  assert (Hblocks : Forall (fun b => shape2 b num_nodes vec0) int_vals).
  { unfold int_vals. apply Forall_map, Forall_forall. intros s _. split.
    - now rewrite length_map, length_seq.
    - apply Forall_map, Forall_forall. intros n _. now rewrite length_map, length_seq. }
  assert (Hcount : length int_vals = length boundary_inds).
  { unfold int_vals, v_vals, traction.
    rewrite length_map, !length_combine, !length_map, HPTS, Hnan. lia. }
  assert (Hcells : Forall (fun cell => length cell = num_nodes
                                       /\ Forall (fun n => (n < num_total_nodes m)%nat) cell)
                          subset_cells).
  { unfold subset_cells. apply Forall_map. eapply Forall_impl; [|exact Hinds].
    intros [c f] [Hc _]. cbn [fst snd] in *.
    destruct (cell_nodes_in_range m c Hwf Hc) as [H8 [Hin _]].
    destruct (take_in_range [] (cells m) c Hc) as [-> _]. split; assumption. }
  assert (Hrows : shape2 (concat int_vals) (length (concat subset_cells)) vec0).
  { split.
    - rewrite (length_concat_uniform num_nodes), (length_concat_uniform num_nodes).
      + rewrite Hcount. unfold subset_cells. now rewrite length_map.
      + eapply Forall_impl; [|exact Hcells]. now intros cell [H _].
      + eapply Forall_impl; [|exact Hblocks]. now intros b [H _].
    - apply Forall_concat.
      eapply Forall_impl; [|exact Hblocks]. now intros b [_ H]. }
  rewrite reshape_rows_concat by (exact Hvec || apply Hrows). cbn [bind].
  assert (Hall : Forall (fun i => (i < num_total_nodes m)%nat) (concat subset_cells)).
  { apply Forall_concat. eapply Forall_impl; [|exact Hcells]. now intros cell [_ H]. }
  destruct (scatter_add_column_sum integral (concat subset_cells) (concat int_vals)
              (num_total_nodes m) vec0 Hshape HN Hrows Hall)
    as [integral' [-> [Hshape' Hsum]]].
  exists integral'. split; [reflexivity|]. split; [exact Hshape'|].
  intros v Hv. rewrite Hsum. f_equal.
  rewrite column_sum_concat_sum. unfold int_vals. rewrite map_map.
  rewrite (map_ext_in _ (fun s : matrix * matrix * vector =>
                           (fun tr ws => np.sum (map2 (fun t w => vget t v * w) tr ws))
                             (snd (fst s)) (snd s))).
  - rewrite (combine_combine_drop
               (fun tr ws => np.sum (map2 (fun t w => vget t v * w) tr ws))).
    + unfold traction. rewrite map2_map_l. f_equal. apply map2_ext.
      intros pts ws. now rewrite map2_map_l.
    + unfold v_vals, traction. rewrite !length_map, HPTS. apply Nat.le_refl.
  - intros [[vals tr] ws] Hin. cbn [fst snd].
    pose proof (in_combine_l _ _ _ _ Hin) as Hvt.
    pose proof (in_combine_l _ _ _ _ Hvt) as Hvals.
    pose proof (in_combine_r _ _ _ _ Hvt) as Htr.
    unfold v_vals in Hvals. apply in_map_iff in Hvals as [[c f] [<- Hp]].
    rewrite Forall_forall in Hinds. destruct (Hinds (c, f) Hp) as [_ Hf].
    cbn [fst snd] in *. rewrite Hfsv.
    destruct (take_in_range [] get_face_shape_vals f) as [-> _].
    { destruct (get_face_shape_vals_nth f 0 Hf ltac:(lia)) as [-> _]. exact Hf. }
    destruct (face_shape_vals_unit_rows f Hf) as [Hunit H4].
    unfold traction in Htr. apply in_map_iff in Htr as [pts [<- Hpts]].
    apply weighted_block_sum; try assumption.
    + apply Forall_map, Forall_forall. intros x _. apply Hg.
    + rewrite length_map, H4. rewrite Forall_forall in HPTS4.
      rewrite (HPTS4 pts Hpts). apply Nat.le_refl.
Qed.

Lemma mapM_ok {A B : Type} (f : A -> result B) (g : A -> B) (l : list A) :
  (forall a, In a l -> f a = Ok (g a)) -> mapM f l = Ok (map g l).
Proof.
  induction l as [|a l IH]; intros H; [reflexivity|].
  cbn [mapM map]. rewrite (H a (or_introl eq_refl)). cbn [bind].
  rewrite IH by (intros b Hb; apply H; now right). reflexivity.
Qed.

Lemma Neumann_inds_in_range (m : Mesh) (location_fns : list location_fn) :
  mesh_wf m ->
  Forall (Forall (fun p => (fst p < num_cells m)%nat /\ (snd p < num_faces)%nat))
         (Neuman_boundary_conditions_inds m location_fns).
Proof.
  intros Hwf. rewrite Neuman_boundary_conditions_inds_map.
  apply Forall_map, Forall_forall. intros i _.
  apply Forall_forall. intros [c f] Hin. cbn [fst snd].
  assert (Hlen : length (cell_face_points m) = num_cells m).
  { unfold cell_face_points, physical_coos, num_cells. now rewrite !length_map. }
  apply argwhere2_In in Hin. rewrite length_map, Hlen in Hin.
  destruct Hin as [Hc Hf]. split; [exact Hc|].
  rewrite (@nth_map_in_range tensor3 (list bool) _ _ c [] []) in Hf by now rewrite Hlen.
  apply (argwhere_map_In _ _ []) in Hf as [Hf _].
  destruct (cell_face_points_nth m c 0 Hwf Hc) as [Hsix _]; [cbv; lia|].
  now rewrite Hsix in Hf.
Qed.

Lemma map_combine_seq_nth {A B C : Type} (h : A -> B -> C) (d : A)
      (l : list A) (l' : list B) :
  length l = length l' ->
  map (fun ib : nat * B => h (nth (fst ib) l d) (snd ib)) (combine (seq 0 (length l')) l')
  = map2 h l l'.
Proof.
  intros Hlen.
  assert (G : forall (pre : list A) (l : list A) (l' : list B),
             length l = length l' ->
             map (fun ib : nat * B => h (nth (fst ib) (pre ++ l) d) (snd ib))
                 (combine (seq (length pre) (length l')) l')
             = map2 h l l').
  { clear. intros pre l. revert pre. induction l as [|a l IH]; intros pre [|b l'] H;
      try reflexivity; try discriminate H.
    cbn [length seq combine map fst snd]. unfold map2. cbn [combine map fst snd]. f_equal.
    - rewrite app_nth2 by apply Nat.le_refl. now rewrite Nat.sub_diag.
    - specialize (IH (pre ++ [a]) l' ltac:(cbn in H; lia)).
      rewrite <- app_assoc, length_app in IH. cbn [length app] in IH.
      rewrite Nat.add_1_r in IH. exact IH. }
  exact (G [] l l' Hlen).
Qed.

(** The loop of [compute_Neumann_integral] over any list of index arrays
    whose tractions are the values of [G i] at the surface quadrature
    points. *)
Lemma Neumann_loop (vec0 : nat) (m : Mesh) (dirichlet : dirichlet_bc_info) (self : FEM)
      (G : nat -> vector -> vector) (traction_list : list tensor3)
      (steps : list (nat * list (nat * nat))) (integral : matrix) :
  mesh_wf m -> (0 < vec0)%nat -> (0 < num_total_nodes m)%nat ->
  FEM_init vec0 m dirichlet = Ok self ->
  Forall (fun ib =>
            nth_error traction_list (fst ib)
            = Some (map (map (G (fst ib))) (get_physical_surface_quad_points self (snd ib)))
            /\ (forall x, length (G (fst ib) x) = vec0)
            /\ Forall (fun p => (fst p < num_cells m)%nat /\ (snd p < num_faces)%nat)
                      (snd ib))
         steps ->
  shape2 integral (num_total_nodes m) vec0 ->
  exists integral',
    fold_left
      (fun acc ib =>
         integral <- acc ;;
         let '(i, boundary_inds) := ib in
         match nth_error traction_list i with
         | None => Raise IndexError
         | Some traction =>
             _ <- check_components vec0 traction ;;
             let nanson_scale := snd (get_face_shape_grads m boundary_inds) in
             let v_vals :=
               map (fun p => np.take [] (face_shape_vals self) (snd p)) boundary_inds in
             let subset_cells :=
               map (fun p => np.take [] (cells m) (fst p)) boundary_inds in
             let int_vals :=
               map (fun s =>
                      map (fun n =>
                             map (fun v =>
                                    np.sum (map2 (fun vq tq =>
                                                    vget vq n * bget (fst tq) v * snd tq)
                                                 (fst (fst s))
                                                 (combine (snd (fst s)) (snd s))))
                                 (seq 0 vec0))
                          (seq 0 num_nodes))
                   (combine (combine v_vals traction) nanson_scale) in
             int_vals <- reshape_rows vec0 (concat (concat int_vals)) ;;
             scatter_add integral (concat subset_cells) int_vals
         end)
      steps (Ok integral) = Ok integral'
    /\ shape2 integral' (num_total_nodes m) vec0
    /\ forall v, (v < vec0)%nat ->
         column_sum integral' v
         = column_sum integral v
           + np.sum (map (fun ib =>
                            np.sum (map2 (fun pts ws =>
                                            np.sum (map2 (fun x w => vget (G (fst ib) x) v * w)
                                                         pts ws))
                                         (get_physical_surface_quad_points self (snd ib))
                                         (snd (get_face_shape_grads m (snd ib)))))
                         steps).
Proof.
  intros Hwf Hvec HN Hinit Hsteps.
  set (F := fun (acc : result matrix) (ib : nat * list (nat * nat)) => _).
  revert integral.
  induction Hsteps as [|[i inds] steps [Htr [Hg Hin]] _ IH]; intros integral Hshape.
  - exists integral. split; [reflexivity|]. split; [exact Hshape|].
    intros v _. cbn [map]. rewrite sum_nil. ring.
  - cbn [fst snd] in Htr, Hg, Hin.
    change (fold_left F ((i, inds) :: steps) (Ok integral))
      with (fold_left F steps (F (Ok integral) (i, inds))).
    destruct (Neumann_step vec0 m dirichlet self (G i) inds integral
                Hwf Hvec HN Hinit Hg Hin Hshape) as [mid [Hstep [Hmid Hsum]]].
    assert (E : F (Ok integral) (i, inds) = Ok mid).
    { unfold F. cbn [bind]. rewrite Htr. exact Hstep. }
    rewrite E.
    destruct (IH mid Hmid) as [integral' [-> [Hshape' Hsum']]].
    exists integral'. split; [reflexivity|]. split; [exact Hshape'|].
    intros v Hv. rewrite (Hsum' v Hv), (Hsum v Hv). cbn [map fst snd].
    rewrite sum_cons. ring.
Qed.

(** X21.  The Neumann load vector sums, over the nodes, to the quadrature
    of the tractions over the selected faces.  With as many value
    functions as location functions, each returning [vec] components,
    [compute_Neumann_integral] returns an array of shape
    [(num_total_nodes, vec)] whose component [v], summed over the nodes,
    is the sum, over the pairs of a value function and the faces its
    location function selects, of the value function's component [v] at
    the surface quadrature points times [nanson_scale]. *)
Theorem Neumann_integral_total
        (vec0 : nat) (m : Mesh) (dirichlet : dirichlet_bc_info) (self : FEM)
        (location_fns : list location_fn) (value_fns : list (vector -> vector)) :
  mesh_wf m -> (0 < vec0)%nat -> (0 < num_total_nodes m)%nat ->
  FEM_init vec0 m dirichlet = Ok self ->
  length location_fns = length value_fns ->
  Forall (fun g => forall x, length (g x) = vec0) value_fns ->
  exists integral,
    compute_Neumann_integral self (Some (location_fns, value_fns)) = Ok integral
    /\ shape2 integral (num_total_nodes m) vec0
    /\ forall v, (v < vec0)%nat ->
         column_sum integral v
         = np.sum (map2 (fun g boundary_inds =>
                           np.sum (map2 (fun pts ws =>
                                           np.sum (map2 (fun x w => vget (g x) v * w) pts ws))
                                        (get_physical_surface_quad_points self boundary_inds)
                                        (snd (get_face_shape_grads m boundary_inds))))
                        value_fns (Neuman_boundary_conditions_inds m location_fns)).
Proof.
  intros Hwf Hvec HN Hinit Hlen Hvals.
  destruct (FEM_init_fields vec0 m dirichlet self Hinit) as [Hm [Hvec0 _]].
  unfold compute_Neumann_integral. rewrite Hm, Hvec0.
  set (bil := Neuman_boundary_conditions_inds m location_fns).
  assert (Hbil : length bil = length value_fns).
  { unfold bil. rewrite Neuman_boundary_conditions_inds_map.
    now rewrite length_map, length_seq. }
  set (G := fun i => nth i value_fns (fun _ : vector => @nil R)).
  unfold Neuman_boundary_conditions_vals.
  rewrite (mapM_ok _ (fun i => map (map (G i))
                                   (get_physical_surface_quad_points self (nth i bil [])))).
  2:{ intros i Hi. apply in_seq in Hi.
      rewrite (nth_error_nth' bil []) by lia. reflexivity. }
  cbn [bind].
  set (traction_list := map _ (seq 0 (length value_fns))).
  destruct (Neumann_loop vec0 m dirichlet self G traction_list
              (combine (seq 0 (length bil)) bil)
              (np.zeros (num_total_nodes m) vec0) Hwf Hvec HN Hinit)
    as [integral [Hfold [Hshape Hsum]]].
  - apply Forall_forall. intros [i inds] Hin. cbn [fst snd].
    apply (combine_seq_In bil []) in Hin as [Hi ->]. split; [|split].
    + unfold traction_list.
      rewrite (nth_error_nth' _ []) by (rewrite length_map, length_seq; lia).
      rewrite nth_map_seq by lia. reflexivity.
    + rewrite Forall_forall in Hvals. apply Hvals. unfold G. apply nth_In. lia.
    + pose proof (Neumann_inds_in_range m location_fns Hwf) as Hr.
      rewrite Forall_forall in Hr. apply Hr. apply nth_In. exact Hi.
  - apply zeros_shape.
  - exists integral. split; [exact Hfold|]. split; [exact Hshape|].
    intros v Hv. rewrite (Hsum v Hv), column_sum_zeros, Rplus_0_l. f_equal.
    unfold G.
    exact (map_combine_seq_nth
             (fun g inds =>
                np.sum (map2 (fun pts ws => np.sum (map2 (fun x w => vget (g x) v * w) pts ws))
                             (get_physical_surface_quad_points self inds)
                             (snd (get_face_shape_grads m inds))))
             (fun _ : vector => @nil R) value_fns bil (eq_sym Hbil)).
Qed.

Lemma unit_cube_unit_traction :
  exists self integral,
    FEM_init 1 unit_cube ([], [], []) = Ok self
    /\ compute_Neumann_integral self (Some ([on_x1], [fun _ => [1]])) = Ok integral
    /\ shape2 integral 8 1
    /\ column_sum integral 0
       = np.sum (map2 (fun (g : vector -> vector) boundary_inds =>
                         np.sum (map2 (fun pts ws =>
                                         np.sum (map2 (fun x w => vget (g x) 0 * w) pts ws))
                                      (get_physical_surface_quad_points self boundary_inds)
                                      (snd (get_face_shape_grads unit_cube boundary_inds))))
                      [fun _ => [1]] (Neuman_boundary_conditions_inds unit_cube [on_x1])).
Proof.
  destruct (FEM_init_ok 1 unit_cube) as [self Hinit].
  destruct (Neumann_integral_total 1 unit_cube ([], [], []) self [on_x1] [fun _ => [1]]
              unit_cube_wf ltac:(lia) ltac:(cbn; lia) Hinit ltac:(reflexivity)
              ltac:(repeat constructor))
    as [integral [Hint [Hshape Hsum]]].
  exists self, integral. split; [exact Hinit|]. split; [exact Hint|].
  split; [exact Hshape|]. apply (Hsum 0%nat). lia.
Defined.

(** ** The residual of [LinearElasticity] *)

(** [compute_residual] in terms of what [compute_physics] returns. *)
Lemma compute_residual_with {Self : Type} `{Physics Self}
      (sol : matrix) (self self' : Self) (u_physics : tensor4) :
  compute_physics sol (compute_u_grads (fem (laplace self)) sol) self
  = (Ok u_physics, self') ->
  compute_residual sol self = (assemble (laplace self) sol u_physics, self').
Proof.
  intros Hp. unfold compute_residual, assemble, bindM, getM, liftM.
  rewrite Hp.
  destruct (reshape_rows _ _) as [weak|e]; [|reflexivity]. cbn [bind].
  destruct (scatter_add _ _ _) as [res|e]; [|reflexivity]. cbn [bind].
  destruct (np_subtract res _) as [res'|e]; reflexivity.
Qed.

Lemma hd_nth_0 {A : Type} (l : list A) (d : A) : hd d l = nth 0 l d.
Proof. destruct l; reflexivity. Qed.

(** The stress array of [LinearElasticity] for the gradient of a
    displacement field with three components. *)
Lemma elastic_residual_physics
      (m : Mesh) (dirichlet : dirichlet_bc_info)
      (neumann_bc_info : option (list location_fn * list (vector -> vector)))
      (source_info : option (vector -> vector))
      (self : LinearElasticity) (sol : matrix) :
  mesh_wf m -> (0 < num_total_nodes m)%nat ->
  LinearElasticity_init m dirichlet neumann_bc_info source_info = Ok self ->
  shape2 sol (num_total_nodes m) dim ->
  let u_grads := compute_u_grads (fem (laplace self)) sol in
  exists sigmas,
    compute_physics sol u_grads self = (Ok sigmas, self)
    /\ length sigmas = num_cells m
    /\ ((0 < num_cells m)%nat -> length (hd [] (hd [] sigmas)) = dim)
    /\ (forall c q, (c < num_cells m)%nat -> (q < num_quads)%nat ->
          nth q (nth c sigmas []) [] = elastic_stress (nth q (nth c u_grads []) [])
          /\ shape2 (nth q (nth c u_grads []) []) dim dim).
Proof.
  intros Hwf HN Hinit Hsol u_grads.
  destruct (LinearElasticity_init_wf m _ _ _ self Hwf HN Hinit) as [_ [HL [Hm Hvec]]].
  pose proof (compute_u_grads_shape (elasticity_base self) sol HL) as Hshape.
  unfold ncols in Hshape. rewrite (shape2_ncols sol _ dim Hsol HN) in Hshape.
  pose proof (compute_u_grads_cells (elasticity_base self) sol HL) as Hcells.
  rewrite Hm in Hcells.
  change (compute_u_grads (fem (elasticity_base self)) sol) with u_grads in *.
  destruct (elastic_physics_ok self sol u_grads num_quads Hvec ltac:(unfold num_quads; lia)
              Hshape) as [sigmas [E [Hlen [Hpt _]]]].
  assert (Hu : forall c q, (c < num_cells m)%nat -> (q < num_quads)%nat ->
                           shape2 (nth q (nth c u_grads []) []) dim dim).
  { intros c q Hc Hq. rewrite Forall_forall in Hshape.
    destruct (Hshape (nth c u_grads [])) as [HQ Hall];
      [apply nth_In; now rewrite Hcells|].
    rewrite Forall_forall in Hall. apply Hall, nth_In. now rewrite HQ. }
  exists sigmas. split; [exact E|]. split; [now rewrite Hlen|]. split.
  - intros HC. rewrite !hd_nth_0.
    rewrite (Hpt 0%nat 0%nat) by (rewrite ?Hcells; unfold num_quads; lia).
    apply elastic_stress_shape, Hu; [exact HC|unfold num_quads; lia].
  - intros c q Hc Hq. split; [|now apply Hu].
    apply Hpt; [now rewrite Hcells|exact Hq].
Qed.

(** X22.  The nodal forces of [LinearElasticity] balance the loads: for
    every displacement field with three components per node the residual
    is computed, the object is unchanged, and every component of the
    residual summed over the nodes is minus the sum of the body-force
    vector minus the sum of the Neumann vector, whatever the stresses. *)
Theorem elasticity_residual_balances_loads
        (m : Mesh) (dirichlet : dirichlet_bc_info)
        (neumann_bc_info : option (list location_fn * list (vector -> vector)))
        (source_info : option (vector -> vector))
        (self : LinearElasticity) (sol : matrix) :
  mesh_wf m -> (0 < num_total_nodes m)%nat ->
  LinearElasticity_init m dirichlet neumann_bc_info source_info = Ok self ->
  shape2 sol (num_total_nodes m) dim ->
  exists res,
    compute_residual sol self = (Ok res, self)
    /\ shape2 res (num_total_nodes m) dim
    /\ forall v, column_sum res v
                 = - column_sum (body_force (laplace self)) v
                   - column_sum (neumann (laplace self)) v.
Proof.
  intros Hwf HN Hinit Hsol.
  destruct (LinearElasticity_init_wf m _ _ _ self Hwf HN Hinit) as [HLinit _].
  destruct (elastic_residual_physics m _ _ _ self sol Hwf HN Hinit Hsol)
    as [sigmas [E [Hlen [Hcomp _]]]].
  rewrite (compute_residual_with sol self self sigmas E).
  destruct (assemble_column_sum dim m _ _ _ (laplace self) sol sigmas
              Hwf ltac:(unfold dim; lia) HN HLinit Hsol Hlen Hcomp)
    as [res [-> [Hshape Hsum]]].
  exists res. split; [reflexivity|]. split; [exact Hshape|exact Hsum].
Qed.

Lemma unit_cube_stretch_balance :
  exists self res,
    LinearElasticity_init unit_cube ([], [], []) None None = Ok self
    /\ compute_residual (points unit_cube) self = (Ok res, self)
    /\ forall v, column_sum res v
                 = - column_sum (body_force (laplace self)) v
                   - column_sum (neumann (laplace self)) v.
Proof.
  destruct (LinearElasticity_init_ok unit_cube) as [self Hinit].
  destruct (elasticity_residual_balances_loads unit_cube ([], [], []) None None self
              (points unit_cube) unit_cube_wf ltac:(cbn; lia) Hinit)
    as [res [Hres [_ Hsum]]].
  - split; [reflexivity|]. repeat constructor.
  - exists self, res. split; [exact Hinit|]. split; [exact Hres|exact Hsum].
Defined.

Lemma chunk_Forall {A : Type} (P : A -> Prop) (n : nat) (l : list A) :
  Forall P l -> Forall (Forall P) (chunk n l).
Proof.
  unfold chunk. generalize (length l) as fuel. intros fuel. revert l.
  induction fuel as [|fuel IH]; intros l Hl; [constructor|].
  cbn [chunk_fuel]. destruct l as [|a l]; [constructor|].
  constructor.
  - apply Forall_forall. intros x Hx. rewrite Forall_forall in Hl.
    apply Hl. rewrite <- (firstn_skipn n (a :: l)). apply in_or_app. now left.
  - apply IH. apply Forall_forall. intros x Hx. rewrite Forall_forall in Hl.
    apply Hl. rewrite <- (firstn_skipn n (a :: l)). apply in_or_app. now right.
Qed.

Lemma mget_nil (i j : nat) : mget [] i j = 0.
Proof. unfold mget, vget. destruct i, j; reflexivity. Qed.

(** Entries of an array all of whose matrices are zero. *)
Lemma all_zero_entries (t : tensor4) :
  Forall (Forall (fun s => forall i j, mget s i j = 0)) t ->
  forall c q i j, mget (nth q (nth c t []) []) i j = 0.
Proof.
  intros Hall c q i j. rewrite Forall_forall in Hall.
  destruct (nth_in_or_default c t []) as [Hin | ->].
  - specialize (Hall _ Hin). rewrite Forall_forall in Hall.
    destruct (nth_in_or_default q (nth c t []) []) as [Hq | ->].
    + apply Hall, Hq.
    + apply mget_nil.
  - destruct q; apply mget_nil.
Qed.

Lemma elastic_physics_value (self : LinearElasticity) (sol : matrix) (u_grads : tensor4) :
  vec (fem (elasticity_base self)) = dim ->
  Forall (Forall (fun u => shape2 u dim dim)) u_grads ->
  compute_physics sol u_grads self
  = (Ok (reshape_like u_grads (map elastic_stress (concat u_grads))), self).
Proof.
  intros Hvec Hall.
  cbn [compute_physics LinearElasticity_Physics].
  unfold LinearElasticity_compute_physics, bindM, getM, liftM, retM.
  now rewrite Hvec, reshape_matrices_ok by exact Hall.
Qed.

Lemma affine_field_shape (b : vector) (A : matrix) (m : Mesh) :
  shape2 (affine_field b A m) (num_total_nodes m) dim.
Proof.
  unfold affine_field, num_total_nodes. split.
  - now rewrite length_map.
  - apply Forall_map, Forall_forall. intros x _. now rewrite length_map, length_seq.
Qed.

Lemma affine_field_values (b : vector) (A : matrix) (m : Mesh) (n v : nat) :
  (n < num_total_nodes m)%nat -> (v < dim)%nat ->
  vget (nth n (affine_field b A m) []) v
  = vget b v + dot (nth v A []) (nth n (points m) []).
Proof.
  intros Hn Hv. unfold affine_field.
  rewrite (@nth_map_in_range (list R) (list R) _ _ n [] []) by exact Hn.
  unfold vget at 1.
  rewrite (@nth_map_in_range nat R _ _ v 0%nat 0) by (rewrite length_seq; exact Hv).
  rewrite seq_nth by exact Hv. reflexivity.
Qed.

Lemma elastic_stress_skew (u : matrix) :
  shape2 u dim dim ->
  (forall i j, (i < dim)%nat -> (j < dim)%nat -> mget u i j = - mget u j i) ->
  forall i j, mget (elastic_stress u) i j = 0.
Proof.
  intros Hu Hskew i j.
  rewrite (matrix3_explicit u Hu), elastic_stress_entries.
  assert (H00 : mget u 0 0 = 0)
    by (pose proof (Hskew 0%nat 0%nat ltac:(unfold dim; lia) ltac:(unfold dim; lia)); lra).
  assert (H11 : mget u 1 1 = 0)
    by (pose proof (Hskew 1%nat 1%nat ltac:(unfold dim; lia) ltac:(unfold dim; lia)); lra).
  assert (H22 : mget u 2 2 = 0)
    by (pose proof (Hskew 2%nat 2%nat ltac:(unfold dim; lia) ltac:(unfold dim; lia)); lra).
  rewrite (entries_ext _ (fun _ _ => 0)).
  - destruct (Nat.lt_ge_cases i dim) as [Hi|Hi];
      destruct (Nat.lt_ge_cases j dim) as [Hj|Hj];
      first [now rewrite mget_entries by assumption | now rewrite mget_entries_out by auto].
  - intros a b Ha Hb. rewrite H00, H11, H22, (Hskew a b Ha Hb). ring.
Qed.

(** X23.  Rigid motions produce no nodal forces.  On a well-formed mesh
    whose cells have a Jacobian determinant other than zero at every
    quadrature point, without source and without traction, the residual of
    [LinearElasticity] for the displacement field [x |-> b + W x] with a
    skew-symmetric [W] (a translation and an infinitesimal rotation) is
    the all-zero array. *)
Theorem rigid_motion_zero_residual
        (m : Mesh) (dirichlet : dirichlet_bc_info) (self : LinearElasticity)
        (b : vector) (W : matrix) :
  mesh_wf m -> (0 < num_total_nodes m)%nat ->
  LinearElasticity_init m dirichlet None None = Ok self ->
  (forall c q, (c < num_cells m)%nat -> (q < num_quads)%nat ->
               nth q (nth c (JxW (fem (laplace self))) []) 0 <> 0) ->
  (forall i j, (i < dim)%nat -> (j < dim)%nat -> mget W i j = - mget W j i) ->
  compute_residual (affine_field b W m) self
  = (Ok (np.zeros (num_total_nodes m) dim), self).
Proof.
  intros Hwf HN Hinit Hdet Hskew.
  destruct (LinearElasticity_init_wf m _ _ _ self Hwf HN Hinit) as [HLinit [HL [Hm Hvec]]].
  destruct (Laplace_init_no_loads dim m dirichlet _ HLinit) as [Hbf Hnm].
  destruct (Laplace_init_fields dim m _ _ _ _ HLinit) as [Hfem _].
  set (sol := affine_field b W m).
  assert (Hsol : shape2 sol (num_total_nodes m) dim) by apply affine_field_shape.
  destruct (elastic_residual_physics m _ _ _ self sol Hwf HN Hinit Hsol)
    as [sigmas [E [Hlen [Hcomp _]]]].
  rewrite (compute_residual_with sol self self sigmas E). f_equal.
  pose proof (compute_u_grads_shape (elasticity_base self) sol HL) as Hshape.
  unfold ncols in Hshape. rewrite (shape2_ncols sol _ dim Hsol HN) in Hshape.
  pose proof (compute_u_grads_cells (elasticity_base self) sol HL) as Hcells.
  rewrite Hm in Hcells.
  change (laplace self) with (elasticity_base self) in *.
  set (u_grads := compute_u_grads (fem (elasticity_base self)) sol) in *.
  assert (Hall' : Forall (Forall (fun u => shape2 u dim dim)) u_grads).
  { eapply Forall_impl; [|exact Hshape]. intros uc [_ H]. exact H. }
  rewrite (elastic_physics_value self sol u_grads Hvec Hall') in E.
  assert (Hzero : forall c q i j, mget (nth q (nth c sigmas []) []) i j = 0).
  { apply all_zero_entries.
    injection E as <-.
    destruct u_grads as [|uc rest] eqn:Eu; [constructor|].
    rewrite <- Eu in *.
    assert (Hne : u_grads <> []) by (rewrite Eu; discriminate).
    assert (Hout : Forall (fun s => forall i j, mget s i j = 0)
                          (map elastic_stress (concat u_grads))).
    { apply Forall_map, Forall_concat, Forall_forall. intros ucell Hcell.
      apply Forall_forall. intros u Hu.
      destruct (In_nth _ _ [] Hcell) as [c [Hc Ec]].
      rewrite Forall_forall in Hshape. destruct (Hshape ucell Hcell) as [HQ Hus].
      destruct (In_nth _ _ [] Hu) as [q [Hq Eq]].
      rewrite Forall_forall in Hus. pose proof (Hus u Hu) as Hushape.
      apply elastic_stress_skew; [exact Hushape|].
      intros i j Hi Hj. subst u ucell.
      rewrite Hcells in Hc. rewrite HQ in Hq.
      assert (Hent : forall v d, (v < dim)%nat -> (d < dim)%nat ->
                mget (nth q (nth c u_grads []) []) v d = mget W v d).
      { intros v d Hv Hd. unfold u_grads.
        apply (affine_gradient_entry dim m dirichlet (fem (elasticity_base self))
                 sol W b c q v d Hwf Hfem); try assumption.
        - apply Hsol.
        - intros n Hn. now apply affine_field_values.
        - unfold ncols. now rewrite (shape2_ncols sol _ dim Hsol HN).
        - now apply Hdet. }
      rewrite !Hent by assumption. now apply Hskew. }
    rewrite (reshape_like_chunk u_grads _ num_quads Hne Hshape
               ltac:(unfold num_quads; lia)).
    - now apply chunk_Forall.
    - apply Forall_map.
      pose proof (proj2 (Forall_concat _ _) Hall') as H.
      eapply Forall_impl; [|exact H]. intros u Hu. now apply elastic_stress_shape. }
  rewrite (assemble_zeros_like _ sol (np.zeros (num_total_nodes m) dim)).
  2:{ rewrite (zeros_like_eq sol _ _ Hsol), zeros_like_zeros. reflexivity. }
  pose proof (assemble_zero (elasticity_base self) sigmas HL) as Hz.
  cbn zeta in Hz. rewrite Hm, Hvec in Hz. apply Hz; try assumption.
Qed.

Lemma unit_cube_rotation_about_z :
  exists self,
    LinearElasticity_init unit_cube ([], [], []) None None = Ok self
    /\ compute_residual
         (affine_field [1; 2; 3] [[0; -1; 0]; [1; 0; 0]; [0; 0; 0]] unit_cube) self
       = (Ok (np.zeros 8 3), self).
Proof.
  destruct (LinearElasticity_init_ok unit_cube) as [self Hinit].
  exists self. split; [exact Hinit|].
  assert (HN : (0 < num_total_nodes unit_cube)%nat) by (cbn; lia).
  destruct (LinearElasticity_init_wf unit_cube _ _ _ self unit_cube_wf HN Hinit)
    as [HLinit _].
  destruct (Laplace_init_fields dim unit_cube _ _ _ _ HLinit) as [Hfem _].
  apply (rigid_motion_zero_residual unit_cube ([], [], []) self
           [1; 2; 3] [[0; -1; 0]; [1; 0; 0]; [0; 0; 0]] unit_cube_wf HN Hinit).
  - intros c q Hc Hq. cbn in Hc. assert (c = 0%nat) by lia. subst c.
    change (laplace self) with (elasticity_base self).
    rewrite (unit_cube_JxW_all dim ([], [], []) _ Hfem).
    cbn [nth]. unfold num_quads in Hq.
    do 8 (destruct q as [|q]; [cbn [repeat nth]; lra|]). lia.
  - intros i j Hi Hj. unfold dim in *.
    destruct i as [|[|[|i]]]; destruct j as [|[|[|j]]]; try lia;
      unfold mget, vget; cbn [nth]; lra.
Defined.

(** ** [NonlinearPoisson] *)

Lemma NonlinearPoisson_init_ok (m : Mesh) :
  exists self, NonlinearPoisson_init m ([], [], []) None None = Ok self.
Proof.
  unfold NonlinearPoisson_init, Laplace_init, FEM_init.
  rewrite get_shape_vals_ok. cbn [bind].
  destruct (get_shape_grads_ok m) as [sg [-> _]]. cbn [bind].
  cbn [Dirichlet_boundary_conditions length Nat.eqb andb assert_ bind seq fold_left
       compute_body_force compute_Neumann_integral].
  eexists. reflexivity.
Qed.

Lemma NonlinearPoisson_init_wf (m : Mesh) (dirichlet : dirichlet_bc_info)
      (neumann_bc_info : option (list location_fn * list (vector -> vector)))
      (source_info : option (vector -> vector)) (self : NonlinearPoisson) :
  mesh_wf m -> (0 < num_total_nodes m)%nat ->
  NonlinearPoisson_init m dirichlet neumann_bc_info source_info = Ok self ->
  Laplace_init 1 m dirichlet neumann_bc_info source_info = Ok (nonlinear_base self)
  /\ laplace_wf (nonlinear_base self) /\ mesh (fem (nonlinear_base self)) = m
  /\ vec (fem (nonlinear_base self)) = 1%nat.
Proof.
  intros Hwf HN H. unfold NonlinearPoisson_init in H.
  destruct (Laplace_init 1 m dirichlet neumann_bc_info source_info) as [L|e] eqn:E;
    [|discriminate H].
  cbn [bind] in H. inversion H; subst self. cbn [nonlinear_base].
  split; [reflexivity|].
  apply (Laplace_init_wf 1 m dirichlet neumann_bc_info source_info L Hwf);
    [lia|exact HN|exact E].
Qed.

(** The value of the solution at quadrature point [q] of the cell with the
    nodes [cell]: the nodal values weighted with the shape values. *)
Lemma interpolated_value_bounds (sol : matrix) (cell : list nat) (q : nat) (lo hi : R) :
  length cell = num_nodes -> (q < num_quads)%nat ->
  Forall (fun n => lo <= vget (np.take [] sol n) 0 <= hi) cell ->
  lo <= np.sum (map2 (fun u_n s => vget u_n 0 * s)
                     (map (np.take [] sol) cell)
                     (nth q (map (eval_fns get_shape_val_functions) get_quad_points) []))
     <= hi.
Proof.
  intros Hlen Hq Hbox.
  assert (H8 : length get_quad_points = num_quads) by reflexivity.
  rewrite (@nth_map_in_range (list R) (list R) _ _ q [] []) by (rewrite H8; exact Hq).
  set (x := nth q get_quad_points []).
  set (ws := eval_fns get_shape_val_functions x).
  assert (Hx : In x get_quad_points) by (apply nth_In; rewrite H8; exact Hq).
  pose proof quad_points_in_cube as Hcube. rewrite Forall_forall in Hcube.
  destruct (Hcube x Hx) as [H0 [H1 H2]].
  pose proof (shape_vals_nonneg x H0 H1 H2) as Hpos. fold ws in Hpos.
  pose proof (weighted_sum_bounds (fun n => vget (np.take [] sol n) 0) lo hi ws cell
                Hpos Hbox ltac:(rewrite Hlen; reflexivity)) as Hb.
  assert (Hsum : np.sum ws = 1) by apply shape_vals_partition_of_unity.
  rewrite Hsum, !Rmult_1_r in Hb.
  assert (E : np.sum (map2 (fun u_n s => vget u_n 0 * s) (map (np.take [] sol) cell) ws)
              = np.sum (map2 (fun w n => w * vget (np.take [] sol n) 0) ws cell)).
  { rewrite map2_map_l. f_equal. unfold map2.
    assert (Hl : length cell = length ws) by (rewrite Hlen; reflexivity).
    clear -Hl. revert Hl. generalize ws. clear ws.
    induction cell as [|n cell IH]; intros [|w ws] Hl;
      try reflexivity; try discriminate Hl.
    cbn [combine map fst snd]. f_equal; [ring|]. apply IH. now injection Hl. }
  rewrite E. exact Hb.
Qed.

(** X24.  The flux of [NonlinearPoisson] is the gradient times
    [1 + u^2], with [u] the solution interpolated to the quadrature point
    with the shape values.  For a solution field with one component per
    node and a gradient array of shape [(num_cells, num_quads, 1, 3)],
    [compute_physics] returns, without changing the object, the array
    whose entry at quadrature point [q] of cell [c] is [(1 + u^2)] times
    the gradient there; [u] lies between any bounds of the nodal values of
    the cell, so the coefficient is at least 1. *)
Theorem nonlinear_poisson_flux
        (m : Mesh) (dirichlet : dirichlet_bc_info)
        (neumann_bc_info : option (list location_fn * list (vector -> vector)))
        (source_info : option (vector -> vector))
        (self : NonlinearPoisson) (sol : matrix) (u_grads : tensor4)
        (c q d : nat) (lo hi : R) :
  mesh_wf m -> (0 < num_total_nodes m)%nat ->
  NonlinearPoisson_init m dirichlet neumann_bc_info source_info = Ok self ->
  shape2 sol (num_total_nodes m) 1 ->
  length u_grads = num_cells m ->
  Forall (fun uc => length uc = num_quads /\ Forall (fun u => shape2 u 1 dim) uc) u_grads ->
  (c < num_cells m)%nat -> (q < num_quads)%nat -> (d < dim)%nat ->
  Forall (fun n => lo <= vget (nth n sol []) 0 <= hi) (nth c (cells m) []) ->
  let u := np.sum (map2 (fun u_n s => vget u_n 0 * s)
                        (map (fun n => nth n sol []) (nth c (cells m) []))
                        (nth q (shape_vals (fem (laplace self))) [])) in
  exists flux,
    compute_physics sol u_grads self = (Ok flux, self)
    /\ mget (nth q (nth c flux []) []) 0 d
       = (1 + u * u) * mget (nth q (nth c u_grads []) []) 0 d
    /\ lo <= u <= hi
    /\ 1 <= 1 + u * u.
Proof.
  intros Hwf HN Hinit Hsol Hlen Hshape Hc Hq Hd Hbox u.
  destruct (NonlinearPoisson_init_wf m _ _ _ self Hwf HN Hinit) as [HLinit [HL [Hm Hvec]]].
  destruct (Laplace_init_fields 1 m _ _ _ _ HLinit) as [Hfem _].
  destruct (FEM_init_fields 1 m dirichlet _ Hfem) as [_ [_ [Hsv _]]].
  destruct (cell_nodes_in_range m c Hwf Hc) as [H8 [Hin _]].
  assert (Hcols : ncols sol = 1%nat) by (apply (shape2_ncols sol _ 1 Hsol HN)).
  assert (Htake : map (np.take [] sol) (nth c (cells m) [])
                  = map (fun n => nth n sol []) (nth c (cells m) [])).
  { apply map_ext_in. intros n Hn. rewrite Forall_forall in Hin.
    apply take_in_range. destruct Hsol as [-> _]. apply Hin, Hn. }
  assert (Hu : lo <= u <= hi).
  { unfold u. change (laplace self) with (nonlinear_base self). rewrite Hsv, <- Htake.
    apply interpolated_value_bounds; try assumption.
    apply Forall_forall. intros n Hn. rewrite Forall_forall in Hbox, Hin.
    destruct (take_in_range [] sol n) as [-> _]; [destruct Hsol as [-> _]; apply Hin, Hn|].
    apply Hbox, Hn. }
  cbn [compute_physics NonlinearPoisson_Physics].
  unfold NonlinearPoisson_compute_physics, bindM, getM, retM.
  eexists. split; [reflexivity|]. split; [|split; [exact Hu|nra]].
  rewrite Hm, Hcols.
  set (u_vals := map _ (cells m)).
  assert (Hul : length u_vals = length u_grads).
  { unfold u_vals. rewrite length_map. symmetry. exact Hlen. }
  rewrite (@nth_map2 _ _ _ _ u_vals u_grads c [] [] [])
    by (rewrite ?Hul, ?Hlen; auto).
  rewrite Forall_forall in Hshape.
  destruct (Hshape (nth c u_grads [])) as [HQ Hus]; [apply nth_In; now rewrite Hlen|].
  assert (Hvc : nth c u_vals []
                = map (fun vals_q =>
                         map (fun v => np.sum (map2 (fun u_n s => vget u_n v * s)
                                                  (map (np.take [] sol) (nth c (cells m) []))
                                                  vals_q))
                             (seq 0 1))
                      (shape_vals (fem (nonlinear_base self)))).
  { unfold u_vals.
    now rewrite (@nth_map_in_range (list nat) (list (list R)) _ _ c [] []) by exact Hc. }
  assert (Hsvl : length (shape_vals (fem (nonlinear_base self))) = num_quads)
    by (rewrite Hsv, length_map; reflexivity).
  rewrite (@nth_map2 _ _ _ _ (nth c u_vals []) (nth c u_grads []) q [] [] [])
    by (rewrite Hvc, length_map, Hsvl, ?HQ; auto).
  rewrite Hvc.
  rewrite (@nth_map_in_range (list R) (list R) _ _ q [] []) by (rewrite Hsvl; exact Hq).
  rewrite Forall_forall in Hus.
  destruct (Hus (nth q (nth c u_grads []) [])) as [H1 Hrows];
    [apply nth_In; now rewrite HQ|].
  destruct (nth q (nth c u_grads []) []) as [|row [|row' rest]]; try discriminate H1.
  inversion Hrows as [|? ? Hrow _]; subst.
  cbn [seq map map2 combine fst snd]. unfold map2 at 1. cbn [combine map fst snd].
  unfold mget. cbn [nth]. unfold vget at 1.
  rewrite (@nth_map_in_range R R _ _ d 0 0) by (rewrite Hrow; exact Hd).
  unfold u. change (laplace self) with (nonlinear_base self). rewrite <- Htake.
  reflexivity.
Qed.

Lemma unit_cube_nonlinear_flux :
  exists self flux u,
    NonlinearPoisson_init unit_cube ([], [], []) None None = Ok self
    /\ compute_physics [[0]; [1]; [1]; [0]; [0]; [1]; [1]; [0]]
         (compute_u_grads (fem (laplace self)) [[0]; [1]; [1]; [0]; [0]; [1]; [1]; [0]])
         self = (Ok flux, self)
    /\ mget (nth 0 (nth 0 flux []) []) 0 0
       = (1 + u * u)
         * mget (nth 0 (nth 0 (compute_u_grads (fem (laplace self))
                                 [[0]; [1]; [1]; [0]; [0]; [1]; [1]; [0]]) []) []) 0 0
    /\ 0 <= u <= 1.
Proof.
  destruct (NonlinearPoisson_init_ok unit_cube) as [self Hinit].
  assert (HN : (0 < num_total_nodes unit_cube)%nat) by (cbn; lia).
  destruct (NonlinearPoisson_init_wf unit_cube _ _ _ self unit_cube_wf HN Hinit)
    as [_ [HL [Hm _]]].
  set (sol := [[0]; [1]; [1]; [0]; [0]; [1]; [1]; [0]]).
  assert (Hsol : shape2 sol (num_total_nodes unit_cube) 1)
    by (split; [reflexivity|repeat constructor]).
  destruct (nonlinear_poisson_flux unit_cube ([], [], []) None None self sol
              (compute_u_grads (fem (laplace self)) sol) 0 0 0 0 1
              unit_cube_wf HN Hinit Hsol)
    as [flux [Hflux [Hent [Hu _]]]].
  - pose proof (compute_u_grads_cells _ sol HL) as Hcells. now rewrite Hm in Hcells.
  - apply (compute_u_grads_shape _ sol HL).
  - cbn; lia.
  - unfold num_quads; lia.
  - unfold dim; lia.
  - unfold sol, vget. cbn [unit_cube cells nth]. repeat constructor; cbn [nth]; lra.
  - eexists self, flux, _. split; [exact Hinit|]. split; [exact Hflux|].
    split; [exact Hent|exact Hu].
Defined.

(** ** [HyperElasticity]: the energy and its gradient *)

Lemma Rpower_one (y : R) : Rpower 1 y = 1.
Proof. unfold Rpower. now rewrite ln_1, Rmult_0_r, exp_0. Qed.

Lemma det_entries (f : nat -> nat -> R) :
  np.det (entries f)
  = f 0%nat 0%nat * (f 1%nat 1%nat * f 2%nat 2%nat - f 1%nat 2%nat * f 2%nat 1%nat)
    - f 0%nat 1%nat * (f 1%nat 0%nat * f 2%nat 2%nat - f 1%nat 2%nat * f 2%nat 0%nat)
    + f 0%nat 2%nat * (f 1%nat 0%nat * f 2%nat 1%nat - f 1%nat 1%nat * f 2%nat 0%nat).
Proof. reflexivity. Qed.

(** The first invariant [trace(F.T @ F)]: the sum of the squares of the
    entries. *)
Lemma first_invariant_entries (f : nat -> nat -> R) :
  np.trace (matmul (np.T (entries f)) (entries f))
  = f 0%nat 0%nat * f 0%nat 0%nat + f 0%nat 1%nat * f 0%nat 1%nat
    + f 0%nat 2%nat * f 0%nat 2%nat + f 1%nat 0%nat * f 1%nat 0%nat
    + f 1%nat 1%nat * f 1%nat 1%nat + f 1%nat 2%nat * f 1%nat 2%nat
    + f 2%nat 0%nat * f 2%nat 0%nat + f 2%nat 1%nat * f 2%nat 1%nat
    + f 2%nat 2%nat * f 2%nat 2%nat.
Proof.
  unfold np.trace, matmul, np.T, entries, ncols, map2, mget, vget, dim.
  cbn [map seq combine fst snd nth length hd np.sum fold_right]. ring.
Qed.

Lemma cofactor_entries (f : nat -> nat -> R) (i j : nat) :
  (i < dim)%nat -> (j < dim)%nat ->
  mget (cofactor (entries f)) i j
  = f ((i + 1) mod 3)%nat ((j + 1) mod 3)%nat * f ((i + 2) mod 3)%nat ((j + 2) mod 3)%nat
    - f ((i + 1) mod 3)%nat ((j + 2) mod 3)%nat * f ((i + 2) mod 3)%nat ((j + 1) mod 3)%nat.
Proof.
  intros Hi Hj. unfold cofactor. rewrite mget_entries by assumption.
  rewrite !mget_entries by (unfold dim; apply Nat.mod_upper_bound; lia).
  reflexivity.
Qed.

(** The energy along one entry of [F]: the determinant is affine in the
    entry, the first invariant quadratic. *)
Lemma psi_along_entry (f : nat -> nat -> R) (i j : nat) (t : R) :
  (i < dim)%nat -> (j < dim)%nat ->
  let b := mget (cofactor (entries f)) i j in
  let a := np.det (entries f) - b * f i j in
  let c := np.trace (matmul (np.T (entries f)) (entries f)) - f i j * f i j in
  psi (set_entry (entries f) i j t)
  = mu / 2 * (Rpower (a + b * t) (-2 / 3) * (c + t * t) - 3)
    + kappa / 2 * ((a + b * t - 1) * (a + b * t - 1)).
Proof.
  intros Hi Hj b a c. unfold psi, set_entry. cbn zeta.
  rewrite det_entries, first_invariant_entries.
  assert (Hd : forall x y, (x < dim)%nat -> (y < dim)%nat ->
                           mget (entries f) x y = f x y)
    by (intros; now apply mget_entries).
  assert (Edet : (if Nat.eqb 0 i && Nat.eqb 0 j then t else mget (entries f) 0 0)
                 * ((if Nat.eqb 1 i && Nat.eqb 1 j then t else mget (entries f) 1 1)
                    * (if Nat.eqb 2 i && Nat.eqb 2 j then t else mget (entries f) 2 2)
                    - (if Nat.eqb 1 i && Nat.eqb 2 j then t else mget (entries f) 1 2)
                      * (if Nat.eqb 2 i && Nat.eqb 1 j then t else mget (entries f) 2 1))
                 - (if Nat.eqb 0 i && Nat.eqb 1 j then t else mget (entries f) 0 1)
                   * ((if Nat.eqb 1 i && Nat.eqb 0 j then t else mget (entries f) 1 0)
                      * (if Nat.eqb 2 i && Nat.eqb 2 j then t else mget (entries f) 2 2)
                      - (if Nat.eqb 1 i && Nat.eqb 2 j then t else mget (entries f) 1 2)
                        * (if Nat.eqb 2 i && Nat.eqb 0 j then t else mget (entries f) 2 0))
                 + (if Nat.eqb 0 i && Nat.eqb 2 j then t else mget (entries f) 0 2)
                   * ((if Nat.eqb 1 i && Nat.eqb 0 j then t else mget (entries f) 1 0)
                      * (if Nat.eqb 2 i && Nat.eqb 1 j then t else mget (entries f) 2 1)
                      - (if Nat.eqb 1 i && Nat.eqb 1 j then t else mget (entries f) 1 1)
                        * (if Nat.eqb 2 i && Nat.eqb 0 j then t else mget (entries f) 2 0))
                 = a + b * t).
  { unfold a, b. rewrite det_entries, cofactor_entries by assumption.
    rewrite !Hd by (unfold dim; lia). unfold dim in Hi, Hj.
    destruct i as [|[|[|i]]]; try lia; destruct j as [|[|[|j]]]; try lia;
      cbn [Nat.eqb andb Nat.add Nat.modulo Nat.divmod fst snd Nat.sub]; ring. }
  assert (EI : (if Nat.eqb 0 i && Nat.eqb 0 j then t else mget (entries f) 0 0)
               * (if Nat.eqb 0 i && Nat.eqb 0 j then t else mget (entries f) 0 0)
               + (if Nat.eqb 0 i && Nat.eqb 1 j then t else mget (entries f) 0 1)
                 * (if Nat.eqb 0 i && Nat.eqb 1 j then t else mget (entries f) 0 1)
               + (if Nat.eqb 0 i && Nat.eqb 2 j then t else mget (entries f) 0 2)
                 * (if Nat.eqb 0 i && Nat.eqb 2 j then t else mget (entries f) 0 2)
               + (if Nat.eqb 1 i && Nat.eqb 0 j then t else mget (entries f) 1 0)
                 * (if Nat.eqb 1 i && Nat.eqb 0 j then t else mget (entries f) 1 0)
               + (if Nat.eqb 1 i && Nat.eqb 1 j then t else mget (entries f) 1 1)
                 * (if Nat.eqb 1 i && Nat.eqb 1 j then t else mget (entries f) 1 1)
               + (if Nat.eqb 1 i && Nat.eqb 2 j then t else mget (entries f) 1 2)
                 * (if Nat.eqb 1 i && Nat.eqb 2 j then t else mget (entries f) 1 2)
               + (if Nat.eqb 2 i && Nat.eqb 0 j then t else mget (entries f) 2 0)
                 * (if Nat.eqb 2 i && Nat.eqb 0 j then t else mget (entries f) 2 0)
               + (if Nat.eqb 2 i && Nat.eqb 1 j then t else mget (entries f) 2 1)
                 * (if Nat.eqb 2 i && Nat.eqb 1 j then t else mget (entries f) 2 1)
               + (if Nat.eqb 2 i && Nat.eqb 2 j then t else mget (entries f) 2 2)
                 * (if Nat.eqb 2 i && Nat.eqb 2 j then t else mget (entries f) 2 2)
               = c + t * t).
  { unfold c. rewrite first_invariant_entries.
    rewrite !Hd by (unfold dim; lia). unfold dim in Hi, Hj.
    destruct i as [|[|[|i]]]; try lia; destruct j as [|[|[|j]]]; try lia;
      cbn [Nat.eqb andb]; ring. }
  rewrite Edet, EI. ring.
Qed.

Lemma derivable_pt_lim_eq (f : R -> R) (x l l' : R) :
  derivable_pt_lim f x l -> l = l' -> derivable_pt_lim f x l'.
Proof. intros H <-. exact H. Qed.

(** The derivative of the energy along a line on which the determinant is
    [a + b t] and the first invariant [c + t^2]. *)
Lemma energy_line_derivative (a b c t0 : R) :
  0 < a + b * t0 ->
  derivable_pt_lim
    (fun t => mu / 2 * (Rpower (a + b * t) (-2 / 3) * (c + t * t) - 3)
              + kappa / 2 * ((a + b * t - 1) * (a + b * t - 1)))
    t0
    (mu / 2 * (-2 / 3 * Rpower (a + b * t0) (-2 / 3 - 1) * b * (c + t0 * t0)
               + Rpower (a + b * t0) (-2 / 3) * (2 * t0))
     + kappa / 2 * (2 * (a + b * t0 - 1) * b)).
Proof.
  intros Hpos.
  assert (Hg : derivable_pt_lim (fun t => a + b * t) t0 b).
  { apply (derivable_pt_lim_eq _ _ (0 + b * 1)); [|ring].
    apply (derivable_pt_lim_plus (fun _ => a) (fun t => b * t)).
    - apply derivable_pt_lim_const.
    - apply (derivable_pt_lim_scal id b t0 1), derivable_pt_lim_id. }
  assert (Hp : derivable_pt_lim (fun t => Rpower (a + b * t) (-2 / 3)) t0
                 (-2 / 3 * Rpower (a + b * t0) (-2 / 3 - 1) * b)).
  { apply (derivable_pt_lim_comp (fun t => a + b * t) (fun x => Rpower x (-2 / 3)));
      [exact Hg|].
    now apply derivable_pt_lim_power. }
  assert (Hq : derivable_pt_lim (fun t => c + t * t) t0 (2 * t0)).
  { apply (derivable_pt_lim_eq _ _ (0 + (1 * t0 + t0 * 1))); [|ring].
    apply (derivable_pt_lim_plus (fun _ => c) (fun t => t * t)).
    - apply derivable_pt_lim_const.
    - apply (derivable_pt_lim_mult id id); apply derivable_pt_lim_id. }
  assert (H1 : derivable_pt_lim (fun t => a + b * t - 1) t0 b).
  { apply (derivable_pt_lim_eq _ _ (b - 0)); [|ring].
    apply (derivable_pt_lim_minus (fun t => a + b * t) (fun _ => 1)); [exact Hg|].
    apply derivable_pt_lim_const. }
  apply (derivable_pt_lim_plus
           (fun t => mu / 2 * (Rpower (a + b * t) (-2 / 3) * (c + t * t) - 3))
           (fun t => kappa / 2 * ((a + b * t - 1) * (a + b * t - 1)))).
  - apply (derivable_pt_lim_scal
             (fun t => Rpower (a + b * t) (-2 / 3) * (c + t * t) - 3) (mu / 2)).
    apply (derivable_pt_lim_eq _ _
             (-2 / 3 * Rpower (a + b * t0) (-2 / 3 - 1) * b * (c + t0 * t0)
              + Rpower (a + b * t0) (-2 / 3) * (2 * t0) - 0)); [|ring].
    apply (derivable_pt_lim_minus
             (fun t => Rpower (a + b * t) (-2 / 3) * (c + t * t)) (fun _ => 3)).
    + apply (derivable_pt_lim_mult
               (fun t => Rpower (a + b * t) (-2 / 3)) (fun t => c + t * t));
        assumption.
    + apply derivable_pt_lim_const.
  - apply (derivable_pt_lim_scal
             (fun t => (a + b * t - 1) * (a + b * t - 1)) (kappa / 2)).
    apply (derivable_pt_lim_eq _ _ (b * (a + b * t0 - 1) + (a + b * t0 - 1) * b));
      [|ring].
    apply (derivable_pt_lim_mult (fun t => a + b * t - 1) (fun t => a + b * t - 1));
      exact H1.
Qed.

Lemma set_entry_same (F : matrix) (i j : nat) :
  shape2 F dim dim -> set_entry F i j (mget F i j) = F.
Proof.
  intros HF. transitivity (entries (mget F)); [|symmetry; now apply matrix3_explicit].
  unfold set_entry. apply entries_ext. intros a b Ha Hb.
  destruct (Nat.eqb a i && Nat.eqb b j) eqn:E; [|reflexivity].
  apply andb_prop in E as [Ea Eb].
  apply Nat.eqb_eq in Ea, Eb. now subst.
Qed.

(** [P_fn] is the gradient of [psi] where the determinant is positive. *)
Lemma P_fn_is_gradient (F : matrix) (i j : nat) :
  shape2 F dim dim -> 0 < np.det F -> (i < dim)%nat -> (j < dim)%nat ->
  derivable_pt_lim (fun t => psi (set_entry F i j t)) (mget F i j) (mget (P_fn F) i j).
Proof.
  intros HF Hdet Hi Hj.
  rewrite (matrix3_explicit F HF) in *.
  set (f := mget F) in *.
  rewrite (mget_entries f i j Hi Hj).
  pose proof (fun t => psi_along_entry f i j t Hi Hj) as Hline. cbn zeta in Hline.
  set (b := mget (cofactor (entries f)) i j) in *.
  set (a := np.det (entries f) - b * f i j) in *.
  set (c := np.trace (matmul (np.T (entries f)) (entries f)) - f i j * f i j) in *.
  assert (Ha : a + b * f i j = np.det (entries f)) by (unfold a; ring).
  assert (Hc : c + f i j * f i j = np.trace (matmul (np.T (entries f)) (entries f)))
    by (unfold c; ring).
  pose proof (energy_line_derivative a b c (f i j) ltac:(rewrite Ha; exact Hdet)) as Hd.
  rewrite Ha, Hc in Hd.
  unfold P_fn. cbn zeta. rewrite mget_entries by assumption.
  fold b. rewrite (mget_entries f i j Hi Hj).
  intros eps Heps. destruct (Hd eps Heps) as [delta Hdelta].
  exists delta. intros h Hh Hhd. rewrite !Hline. now apply Hdelta.
Qed.

Lemma eye_entries : np.eye dim = entries kron.
Proof. reflexivity. Qed.

Lemma mmap2_entries (op : R -> R -> R) (f g : nat -> nat -> R) :
  mmap2 op (entries f) (entries g) = entries (fun i j => op (f i j) (g i j)).
Proof. reflexivity. Qed.

Lemma deformation_gradient_shape (u_grad : matrix) :
  shape2 u_grad dim dim -> shape2 (mmap2 Rplus u_grad (np.eye dim)) dim dim.
Proof.
  intros Hu. rewrite (matrix3_explicit u_grad Hu), eye_entries, mmap2_entries.
  apply entries_shape.
Qed.

(** X25.  The stress of [HyperElasticity] is the gradient of its energy.
    For a displacement gradient [u_grad] of shape [(3, 3)] whose
    deformation gradient [F = u_grad + I] has a positive determinant,
    entry [(i, j)] of [first_PK_stress u_grad] is the derivative of the
    energy [psi] with respect to entry [(i, j)] of [F], the other entries
    kept. *)
Theorem first_PK_stress_is_energy_gradient (u_grad : matrix) (i j : nat) :
  shape2 u_grad dim dim ->
  0 < np.det (mmap2 Rplus u_grad (np.eye dim)) ->
  (i < dim)%nat -> (j < dim)%nat ->
  let F := mmap2 Rplus u_grad (np.eye dim) in
  set_entry F i j (mget F i j) = F
  /\ derivable_pt_lim (fun t => psi (set_entry F i j t)) (mget F i j)
                      (mget (first_PK_stress u_grad) i j).
Proof.
  intros Hu Hdet Hi Hj F.
  pose proof (deformation_gradient_shape u_grad Hu) as HF.
  split.
  - now apply set_entry_same.
  - unfold first_PK_stress. cbn zeta. now apply P_fn_is_gradient.
Qed.

Lemma det_eye : np.det (np.eye dim) = 1.
Proof. rewrite eye_entries, det_entries. unfold kron. cbn [Nat.eqb]. ring. Qed.

Lemma zero_plus_eye : mmap2 Rplus (np.zeros dim dim) (np.eye dim) = np.eye dim.
Proof.
  unfold mmap2, map2, np.zeros, np.eye, dim.
  cbn [repeat seq map combine fst snd Nat.eqb]. list_eq; ring.
Qed.

Lemma energy_gradient_at_rest :
  derivable_pt_lim (fun t => psi (set_entry (np.eye dim) 0 1 t)) 0
                   (mget (first_PK_stress (np.zeros dim dim)) 0 1).
Proof.
  destruct (first_PK_stress_is_energy_gradient (np.zeros dim dim) 0 1) as [_ H].
  - apply zeros_shape.
  - rewrite zero_plus_eye, det_eye. lra.
  - unfold dim; lia.
  - unfold dim; lia.
  - rewrite zero_plus_eye in H. exact H.
Defined.

(** ** [HyperElasticity]: rotations *)

Lemma matmul_entries (q f : nat -> nat -> R) :
  matmul (entries q) (entries f)
  = entries (fun i j => q i 0%nat * f 0%nat j + q i 1%nat * f 1%nat j
                        + q i 2%nat * f 2%nat j).
Proof.
  unfold matmul, entries, ncols, map2, vget, dim.
  cbn [map seq combine fst snd nth length hd np.sum fold_right].
  list_eq; ring.
Qed.

Lemma transpose_entries (q : nat -> nat -> R) :
  np.T (entries q) = entries (fun i j => q j i).
Proof. reflexivity. Qed.

Lemma entries_inj (f g : nat -> nat -> R) (i j : nat) :
  entries f = entries g -> (i < dim)%nat -> (j < dim)%nat -> f i j = g i j.
Proof.
  intros E Hi Hj. rewrite <- (mget_entries f i j Hi Hj), E. now apply mget_entries.
Qed.

(** The equations between the entries of a rotation. *)
Lemma rotation_entries (q : nat -> nat -> R) :
  rotation (entries q) ->
  (forall k l, (k < dim)%nat -> (l < dim)%nat ->
     q 0%nat k * q 0%nat l + q 1%nat k * q 1%nat l + q 2%nat k * q 2%nat l = kron k l)
  /\ q 0%nat 0%nat * (q 1%nat 1%nat * q 2%nat 2%nat - q 1%nat 2%nat * q 2%nat 1%nat)
     - q 0%nat 1%nat * (q 1%nat 0%nat * q 2%nat 2%nat - q 1%nat 2%nat * q 2%nat 0%nat)
     + q 0%nat 2%nat * (q 1%nat 0%nat * q 2%nat 1%nat - q 1%nat 1%nat * q 2%nat 0%nat)
     = 1.
Proof.
  intros [_ [Horth Hdet]]. split.
  - intros k l Hk Hl.
    rewrite transpose_entries, matmul_entries, eye_entries in Horth.
    exact (entries_inj _ _ k l Horth Hk Hl).
  - now rewrite det_entries in Hdet.
Qed.

Ltac rotation_equations q HQ :=
  let Ho := fresh "Ho" in
  let Hd := fresh "Hd" in
  destruct (rotation_entries q HQ) as [Ho Hd];
  pose proof (Ho 0%nat 0%nat ltac:(unfold dim; lia) ltac:(unfold dim; lia));
  pose proof (Ho 0%nat 1%nat ltac:(unfold dim; lia) ltac:(unfold dim; lia));
  pose proof (Ho 0%nat 2%nat ltac:(unfold dim; lia) ltac:(unfold dim; lia));
  pose proof (Ho 1%nat 1%nat ltac:(unfold dim; lia) ltac:(unfold dim; lia));
  pose proof (Ho 1%nat 2%nat ltac:(unfold dim; lia) ltac:(unfold dim; lia));
  pose proof (Ho 2%nat 2%nat ltac:(unfold dim; lia) ltac:(unfold dim; lia));
  clear Ho; unfold kron in *; cbn [Nat.eqb] in *.

Lemma det_rotated (q f : nat -> nat -> R) :
  rotation (entries q) ->
  np.det (matmul (entries q) (entries f)) = np.det (entries f).
Proof.
  intros HQ. destruct (rotation_entries q HQ) as [_ Hd].
  rewrite matmul_entries, !det_entries.
  transitivity
    ((q 0%nat 0%nat * (q 1%nat 1%nat * q 2%nat 2%nat - q 1%nat 2%nat * q 2%nat 1%nat)
      - q 0%nat 1%nat * (q 1%nat 0%nat * q 2%nat 2%nat - q 1%nat 2%nat * q 2%nat 0%nat)
      + q 0%nat 2%nat * (q 1%nat 0%nat * q 2%nat 1%nat - q 1%nat 1%nat * q 2%nat 0%nat))
     * (f 0%nat 0%nat * (f 1%nat 1%nat * f 2%nat 2%nat - f 1%nat 2%nat * f 2%nat 1%nat)
        - f 0%nat 1%nat * (f 1%nat 0%nat * f 2%nat 2%nat - f 1%nat 2%nat * f 2%nat 0%nat)
        + f 0%nat 2%nat * (f 1%nat 0%nat * f 2%nat 1%nat - f 1%nat 1%nat * f 2%nat 0%nat))).
  - ring.
  - rewrite Hd. ring.
Qed.

Lemma first_invariant_rotated (q f : nat -> nat -> R) :
  rotation (entries q) ->
  np.trace (matmul (np.T (matmul (entries q) (entries f))) (matmul (entries q) (entries f)))
  = np.trace (matmul (np.T (entries f)) (entries f)).
Proof.
  intros HQ. rotation_equations q HQ.
  rewrite matmul_entries, !first_invariant_entries.
  nsatz.
Qed.

Lemma cofactor_rotated (q f : nat -> nat -> R) (i j : nat) :
  rotation (entries q) -> (i < dim)%nat -> (j < dim)%nat ->
  mget (cofactor (matmul (entries q) (entries f))) i j
  = q i 0%nat * mget (cofactor (entries f)) 0 j
    + q i 1%nat * mget (cofactor (entries f)) 1 j
    + q i 2%nat * mget (cofactor (entries f)) 2 j.
Proof.
  intros HQ Hi Hj. rotation_equations q HQ.
  rewrite matmul_entries.
  rewrite !cofactor_entries by (assumption || (unfold dim; lia)).
  unfold dim in Hi, Hj.
  destruct i as [|[|[|i]]]; try lia; destruct j as [|[|[|j]]]; try lia;
    cbn [Nat.add Nat.modulo Nat.divmod fst snd Nat.sub]; nsatz.
Qed.

Lemma zeros_entries : np.zeros dim dim = entries (fun _ _ => 0).
Proof. reflexivity. Qed.

Lemma matmul_eye (q : nat -> nat -> R) : matmul (entries q) (np.eye dim) = entries q.
Proof.
  rewrite eye_entries, matmul_entries. apply entries_ext. intros i j _ Hj.
  unfold dim in Hj. unfold kron.
  destruct j as [|[|[|j]]]; try lia; cbn [Nat.eqb]; ring.
Qed.

Lemma psi_eye : psi (np.eye dim) = 0.
Proof.
  unfold psi. cbn zeta. rewrite det_eye, eye_entries, first_invariant_entries.
  rewrite Rpower_one. unfold kron. cbn [Nat.eqb]. ring.
Qed.

Lemma P_fn_eye : P_fn (np.eye dim) = np.zeros dim dim.
Proof.
  unfold P_fn. cbn zeta. rewrite det_eye, zeros_entries.
  rewrite eye_entries, first_invariant_entries.
  apply entries_ext. intros i j Hi Hj.
  rewrite cofactor_entries, mget_entries by assumption.
  rewrite !Rpower_one. unfold dim in Hi, Hj. unfold kron.
  destruct i as [|[|[|i]]]; try lia; destruct j as [|[|[|j]]]; try lia;
    cbn [Nat.eqb Nat.add Nat.modulo Nat.divmod fst snd Nat.sub]; field.
Qed.

Lemma P_fn_rotated (q f : nat -> nat -> R) :
  rotation (entries q) ->
  P_fn (matmul (entries q) (entries f)) = matmul (entries q) (P_fn (entries f)).
Proof.
  intros HQ. unfold P_fn. cbn zeta.
  rewrite (det_rotated q f HQ), (first_invariant_rotated q f HQ).
  match goal with
  | |- _ = matmul (entries q) (entries ?g) => rewrite (matmul_entries q g)
  end.
  apply entries_ext. intros i j Hi Hj.
  rewrite (cofactor_rotated q f i j HQ Hi Hj).
  rewrite (matmul_entries q f), (mget_entries _ i j Hi Hj).
  rewrite !mget_entries by (assumption || (unfold dim; lia)).
  ring.
Qed.

Lemma rotation_stress_free (q : nat -> nat -> R) :
  rotation (entries q) ->
  first_PK_stress (entries (fun i j => q i j - kron i j)) = np.zeros dim dim.
Proof.
  intros HQ. unfold first_PK_stress. cbn zeta.
  rewrite eye_entries, mmap2_entries.
  rewrite (entries_ext _ q) by (intros; ring).
  rewrite <- (matmul_eye q) at 1. rewrite eye_entries, (P_fn_rotated q kron HQ).
  rewrite <- eye_entries, P_fn_eye, zeros_entries, matmul_entries.
  apply entries_ext. intros. ring.
Qed.

(** X26.  The energy of [HyperElasticity] is frame-indifferent.  For a
    rotation [Q] (orthogonal, determinant one) and a 3x3 deformation
    gradient [F], the energy of [Q @ F] is the energy of [F] and the
    stress [P_fn] of [Q @ F] is [Q] times the stress of [F]; a rotation
    alone has no energy, and the displacement gradient [Q - I] of a rigid
    rotation has the stress zero. *)
Theorem hyperelastic_frame_indifference (Q F : matrix) :
  rotation Q -> shape2 F dim dim ->
  psi (matmul Q F) = psi F
  /\ P_fn (matmul Q F) = matmul Q (P_fn F)
  /\ psi Q = 0
  /\ first_PK_stress (mmap2 Rminus Q (np.eye dim)) = np.zeros dim dim.
Proof.
  intros HQ HF. pose proof HQ as [HQs _].
  rewrite (matrix3_explicit Q HQs) in *. rewrite (matrix3_explicit F HF).
  set (q := mget Q) in *. set (f := mget F).
  split; [|split; [|split]].
  - unfold psi. cbn zeta.
    now rewrite (det_rotated q f HQ), (first_invariant_rotated q f HQ).
  - now apply P_fn_rotated.
  - rewrite <- (matmul_eye q), eye_entries. unfold psi. cbn zeta.
    rewrite (det_rotated q kron HQ), (first_invariant_rotated q kron HQ).
    rewrite <- eye_entries. apply psi_eye.
  - rewrite <- (rotation_stress_free q HQ). reflexivity.
Qed.

Lemma quarter_turn_about_z :
  psi (matmul [[0; -1; 0]; [1; 0; 0]; [0; 0; 1]] [[2; 0; 0]; [0; 1; 0]; [0; 0; 1]])
  = psi [[2; 0; 0]; [0; 1; 0]; [0; 0; 1]]
  /\ first_PK_stress (mmap2 Rminus [[0; -1; 0]; [1; 0; 0]; [0; 0; 1]] (np.eye dim))
     = np.zeros dim dim.
Proof.
  destruct (hyperelastic_frame_indifference
              [[0; -1; 0]; [1; 0; 0]; [0; 0; 1]] [[2; 0; 0]; [0; 1; 0]; [0; 0; 1]])
    as [H1 [_ [_ H4]]].
  - split; [split; [reflexivity|repeat constructor]|]. split.
    + unfold matmul, np.T, np.eye, ncols, map2, mget, vget, dim.
      cbn [map seq combine fst snd nth length hd np.sum fold_right Nat.eqb].
      list_eq; ring.
    + unfold np.det, mget, vget. cbn [nth]. ring.
  - split; [reflexivity|repeat constructor].
  - split; [exact H1|exact H4].
Defined.

(** ** The residual of [HyperElasticity] *)

Lemma HyperElasticity_init_ok (m : Mesh) :
  exists self, HyperElasticity_init m ([], [], []) None None = Ok self.
Proof.
  unfold HyperElasticity_init, Laplace_init, FEM_init.
  rewrite get_shape_vals_ok. cbn [bind].
  destruct (get_shape_grads_ok m) as [sg [-> _]]. cbn [bind].
  cbn [Dirichlet_boundary_conditions length Nat.eqb andb assert_ bind seq fold_left
       compute_body_force compute_Neumann_integral].
  eexists. reflexivity.
Qed.

Lemma HyperElasticity_init_wf (m : Mesh) (dirichlet : dirichlet_bc_info)
      (neumann_bc_info : option (list location_fn * list (vector -> vector)))
      (source_info : option (vector -> vector)) (self : HyperElasticity) :
  mesh_wf m -> (0 < num_total_nodes m)%nat ->
  HyperElasticity_init m dirichlet neumann_bc_info source_info = Ok self ->
  Laplace_init 3 m dirichlet neumann_bc_info source_info = Ok (hyper_base self)
  /\ laplace_wf (hyper_base self) /\ mesh (fem (hyper_base self)) = m
  /\ vec (fem (hyper_base self)) = dim.
Proof.
  intros Hwf HN H. unfold HyperElasticity_init in H.
  destruct (Laplace_init 3 m dirichlet neumann_bc_info source_info) as [L|e] eqn:E;
    [|discriminate H].
  cbn [bind] in H. inversion H; subst self. cbn [hyper_base].
  split; [reflexivity|].
  apply (Laplace_init_wf 3 m dirichlet neumann_bc_info source_info L Hwf);
    [lia|exact HN|exact E].
Qed.

Lemma hyper_physics_value (self : HyperElasticity) (sol : matrix) (u_grads : tensor4) :
  vec (fem (hyper_base self)) = dim ->
  Forall (Forall (fun u => shape2 u dim dim)) u_grads ->
  compute_physics sol u_grads self
  = (Ok (reshape_like u_grads (map first_PK_stress (concat u_grads))), self).
Proof.
  intros Hvec Hall.
  cbn [compute_physics HyperElasticity_Physics].
  unfold HyperElasticity_compute_physics, bindM, getM, liftM, retM.
  now rewrite Hvec, reshape_matrices_ok by exact Hall.
Qed.

Lemma first_PK_stress_shape (u : matrix) : shape2 (first_PK_stress u) dim dim.
Proof. unfold first_PK_stress, P_fn. cbn zeta. apply entries_shape. Qed.

(** A function on 3x3 matrices applied at every quadrature point, as the
    material classes do it with a reshape to a batch and back. *)
Lemma reshape_like_map (g : matrix -> matrix) (u_grads : tensor4) (Q : nat) :
  (0 < Q)%nat ->
  Forall (fun uc => length uc = Q /\ Forall (fun u => shape2 u dim dim) uc) u_grads ->
  (forall u, shape2 (g u) dim dim) ->
  let sigmas := reshape_like u_grads (map g (concat u_grads)) in
  length sigmas = length u_grads
  /\ (u_grads <> [] -> length (hd [] (hd [] sigmas)) = dim)
  /\ (forall c q, (c < length u_grads)%nat -> (q < Q)%nat ->
        nth q (nth c sigmas []) [] = g (nth q (nth c u_grads []) []))
  /\ ((forall u, In u (concat u_grads) -> forall i j, mget (g u) i j = 0) ->
      forall c q i j, mget (nth q (nth c sigmas []) []) i j = 0).
Proof.
  intros HQ Hall Hg sigmas.
  assert (HallQ : Forall (fun uc => length uc = Q) u_grads).
  { eapply Forall_impl; [|exact Hall]. intros uc [H _]. exact H. }
  assert (Hlen : length (concat u_grads) = (length u_grads * Q)%nat).
  { now apply length_concat_uniform. }
  assert (Hcases : u_grads = [] \/ u_grads <> [])
    by (destruct u_grads; [left|right]; congruence).
  destruct Hcases as [E0|Hne].
  { subst sigmas u_grads. cbn. split; [reflexivity|]. split; [intros H; contradiction|].
    split; [intros c q Hc; cbn in Hc; lia|].
    intros _ c q i j. destruct c, q; apply mget_nil. }
  set (out := map g (concat u_grads)) in *.
  assert (Hout : length out = (length u_grads * Q)%nat)
    by (unfold out; now rewrite length_map).
  assert (Hshape : Forall (fun s => shape2 s dim dim) out).
  { unfold out. apply Forall_map, Forall_forall. intros u _. apply Hg. }
  assert (E : sigmas = chunk Q out)
    by (apply (reshape_like_chunk u_grads out Q Hne Hall HQ Hshape)).
  assert (Hpt : forall c q, (c < length u_grads)%nat -> (q < Q)%nat ->
                  nth q (nth c sigmas []) [] = g (nth q (nth c u_grads []) [])).
  { intros c q Hc Hq. rewrite E.
    assert (Hcq : (c * Q + q < length u_grads * Q)%nat) by nia.
    rewrite (nth_chunk Q (length u_grads) out c q []) by assumption.
    unfold out.
    rewrite (@nth_map_in_range (list (list R)) (list (list R)) _ _ _ [] [])
      by (rewrite Hlen; exact Hcq).
    now rewrite (nth_concat_uniform Q u_grads c q []) by assumption. }
  split; [|split; [|split]].
  - rewrite E. now apply chunk_length.
  - intros _. rewrite !hd_nth_0, Hpt.
    + apply Hg.
    + destruct u_grads; [contradiction|cbn; lia].
    + exact HQ.
  - exact Hpt.
  - intros Hzero. apply all_zero_entries. rewrite E. apply chunk_Forall.
    unfold out. apply Forall_map, Forall_forall. intros u Hu. now apply Hzero.
Qed.

(** X27.  Rigid motions produce no nodal forces in [HyperElasticity],
    finite rotations included.  On a well-formed mesh whose cells have a
    Jacobian determinant other than zero at every quadrature point,
    without source and without traction, the residual for the displacement
    field [x |-> b + (Q - I) x] of a translation and a rotation [Q] is the
    all-zero array. *)
Theorem hyperelastic_rigid_motion_zero_residual
        (m : Mesh) (dirichlet : dirichlet_bc_info) (self : HyperElasticity)
        (b : vector) (Q : matrix) :
  mesh_wf m -> (0 < num_total_nodes m)%nat ->
  HyperElasticity_init m dirichlet None None = Ok self ->
  (forall c q, (c < num_cells m)%nat -> (q < num_quads)%nat ->
               nth q (nth c (JxW (fem (laplace self))) []) 0 <> 0) ->
  rotation Q ->
  compute_residual (affine_field b (mmap2 Rminus Q (np.eye dim)) m) self
  = (Ok (np.zeros (num_total_nodes m) dim), self).
Proof.
  intros Hwf HN Hinit Hdet HQ.
  destruct (HyperElasticity_init_wf m _ _ _ self Hwf HN Hinit) as [HLinit [HL [Hm Hvec]]].
  destruct (Laplace_init_no_loads dim m dirichlet _ HLinit) as [Hbf Hnm].
  destruct (Laplace_init_fields dim m _ _ _ _ HLinit) as [Hfem _].
  pose proof HQ as [HQs _].
  rewrite (matrix3_explicit Q HQs) in *. set (q := mget Q) in *.
  rewrite eye_entries, mmap2_entries.
  set (A := entries (fun i j => q i j - kron i j)).
  set (sol := affine_field b A m).
  assert (Hsol : shape2 sol (num_total_nodes m) dim) by apply affine_field_shape.
  change (laplace self) with (hyper_base self) in *.
  pose proof (compute_u_grads_shape (hyper_base self) sol HL) as Hshape.
  unfold ncols in Hshape. rewrite (shape2_ncols sol _ dim Hsol HN) in Hshape.
  pose proof (compute_u_grads_cells (hyper_base self) sol HL) as Hcells.
  rewrite Hm in Hcells.
  set (u_grads := compute_u_grads (fem (hyper_base self)) sol) in *.
  assert (Hall' : Forall (Forall (fun u => shape2 u dim dim)) u_grads).
  { eapply Forall_impl; [|exact Hshape]. intros uc [_ H]. exact H. }
  pose proof (hyper_physics_value self sol u_grads Hvec Hall') as E.
  destruct (reshape_like_map first_PK_stress u_grads num_quads
              ltac:(unfold num_quads; lia) Hshape first_PK_stress_shape)
    as [Hlen [Hcomp [_ Hzero]]].
  set (sigmas := reshape_like u_grads (map first_PK_stress (concat u_grads))) in *.
  rewrite (compute_residual_with sol self self sigmas E). f_equal.
  rewrite (assemble_zeros_like _ sol (np.zeros (num_total_nodes m) dim)).
  2:{ rewrite (zeros_like_eq sol _ _ Hsol), zeros_like_zeros. reflexivity. }
  pose proof (assemble_zero (hyper_base self) sigmas HL) as Hz.
  cbn zeta in Hz. rewrite Hm, Hvec in Hz. apply Hz; try assumption.
  - now rewrite Hlen.
  - intros HC. apply Hcomp. intros E0. rewrite E0 in Hcells. cbn in Hcells. lia.
  - apply Hzero. intros u Hu.
    apply in_concat in Hu as [ucell [Hcell Hu]].
    destruct (In_nth _ _ [] Hcell) as [c [Hc Ec]].
    rewrite Forall_forall in Hshape. destruct (Hshape ucell Hcell) as [HQl Hus].
    destruct (In_nth _ _ [] Hu) as [k [Hk Ek]].
    rewrite Forall_forall in Hus. pose proof (Hus u Hu) as Hushape.
    assert (Eu : u = A).
    { rewrite (matrix3_explicit u Hushape). apply entries_ext. intros v d Hv Hd.
      subst u ucell. rewrite Hcells in Hc. rewrite HQl in Hk.
      transitivity (mget A v d); [|unfold A; now rewrite mget_entries].
      unfold u_grads.
      apply (affine_gradient_entry dim m dirichlet (fem (hyper_base self))
               sol A b c k v d Hwf Hfem); try assumption.
      - apply Hsol.
      - intros n Hn. now apply affine_field_values.
      - unfold ncols. now rewrite (shape2_ncols sol _ dim Hsol HN).
      - now apply Hdet. }
    intros i j. rewrite Eu. unfold A. rewrite (rotation_stress_free q HQ).
    rewrite zeros_entries.
    destruct (Nat.lt_ge_cases i dim) as [Hi|Hi];
      destruct (Nat.lt_ge_cases j dim) as [Hj|Hj];
      first [now rewrite mget_entries by assumption | now rewrite mget_entries_out by auto].
Qed.

Lemma unit_cube_quarter_turn :
  exists self,
    HyperElasticity_init unit_cube ([], [], []) None None = Ok self
    /\ compute_residual
         (affine_field [1; 2; 3]
            (mmap2 Rminus [[0; -1; 0]; [1; 0; 0]; [0; 0; 1]] (np.eye dim)) unit_cube)
         self
       = (Ok (np.zeros 8 3), self).
Proof.
  destruct (HyperElasticity_init_ok unit_cube) as [self Hinit].
  exists self. split; [exact Hinit|].
  assert (HN : (0 < num_total_nodes unit_cube)%nat) by (cbn; lia).
  destruct (HyperElasticity_init_wf unit_cube _ _ _ self unit_cube_wf HN Hinit)
    as [HLinit _].
  destruct (Laplace_init_fields dim unit_cube _ _ _ _ HLinit) as [Hfem _].
  apply (hyperelastic_rigid_motion_zero_residual unit_cube ([], [], []) self
           [1; 2; 3] [[0; -1; 0]; [1; 0; 0]; [0; 0; 1]] unit_cube_wf HN Hinit).
  - intros c q Hc Hq. cbn in Hc. assert (c = 0%nat) by lia. subst c.
    change (laplace self) with (hyper_base self).
    rewrite (unit_cube_JxW_all dim ([], [], []) _ Hfem).
    cbn [nth]. unfold num_quads in Hq.
    do 8 (destruct q as [|q]; [cbn [repeat nth]; lra|]). lia.
  - split; [split; [reflexivity|repeat constructor]|]. split.
    + unfold matmul, np.T, np.eye, ncols, map2, mget, vget, dim.
      cbn [map seq combine fst snd nth length hd np.sum fold_right Nat.eqb].
      list_eq; ring.
    + unfold np.det, mget, vget. cbn [nth]. ring.
Defined.

(** ** Surface integrals *)

Lemma broadcast_pair_same {A B : Type} (da : A) (db : B) (a : list A) (b : list B) :
  length a = length b -> broadcast_pair da db a b = Ok (combine a b).
Proof.
  intros H. unfold broadcast_pair.
  assert (E : (if Nat.eqb (length a) 1 then length b else length a) = length a)
    by (destruct (Nat.eqb (length a) 1); congruence).
  rewrite E, broadcast_axis_id by reflexivity. cbn [bind].
  rewrite broadcast_axis_id by (symmetry; exact H). reflexivity.
Qed.

Lemma sum_concat (a : matrix) : np.sum (concat a) = np.sum (map np.sum a).
Proof.
  induction a as [|row a IH]; [reflexivity|].
  cbn [concat map]. now rewrite sum_app, sum_cons, IH.
Qed.

Lemma selected_faces_in_range (m : Mesh) (loc : location_fn) :
  mesh_wf m ->
  Forall (fun p => (fst p < num_cells m)%nat /\ (snd p < num_faces)%nat)
         (hd [] (Neuman_boundary_conditions_inds m [loc])).
Proof.
  intros Hwf. pose proof (Neumann_inds_in_range m [loc] Hwf) as H.
  destruct (Neuman_boundary_conditions_inds m [loc]) as [|inds rest]; [constructor|].
  now inversion H.
Qed.

(** The extents of the arrays of [get_face_shape_grads]: four quadrature
    points for every selected face. *)
Lemma face_shape_grads_extents (m : Mesh) (boundary_inds : list (nat * nat)) :
  Forall (fun p => (snd p < num_faces)%nat) boundary_inds ->
  length (fst (get_face_shape_grads m boundary_inds)) = length boundary_inds
  /\ length (snd (get_face_shape_grads m boundary_inds)) = length boundary_inds
  /\ Forall (fun g => length g = 4%nat) (fst (get_face_shape_grads m boundary_inds))
  /\ Forall (fun w => length w = 4%nat) (snd (get_face_shape_grads m boundary_inds)).
Proof.
  intros Hin. unfold get_face_shape_grads. cbn zeta. cbn [fst snd].
  rewrite !length_map. split; [reflexivity|]. split; [reflexivity|].
  assert (H4 : forall f, (f < num_faces)%nat ->
                         length (np.take [] face_shape_grads_reference f) = 4%nat).
  { intros f Hf. destruct (face_shape_grads_reference_nth f Hf) as [H6 [E [H4 _]]].
    destruct (take_in_range [] face_shape_grads_reference f) as [-> _];
      [now rewrite H6|].
    now rewrite E, length_map. }
  split.
  - rewrite map_map. apply Forall_map. eapply Forall_impl; [|exact Hin].
    intros [c f] Hf. cbn [fst snd] in *.
    now rewrite map2_length, !length_map, Nat.min_id, H4.
  - rewrite map_map. apply Forall_map. eapply Forall_impl; [|exact Hin].
    intros [c f] Hf. cbn [fst snd] in *.
    now rewrite map2_length, !length_map, Nat.min_id, H4.
Qed.

(** [surface_integral] for a traction with one row per face quadrature
    point. *)
Lemma surface_integral_value (self : FEM) (loc : location_fn)
      (surface_fn : nat -> tensor4 -> result (nat * tensor3)) (sol : matrix)
      (components : nat) (traction : tensor3) :
  let boundary_inds := hd [] (Neuman_boundary_conditions_inds (mesh self) [loc]) in
  let nanson_scale := snd (get_face_shape_grads (mesh self) boundary_inds) in
  surface_fn (ncols sol) (compute_u_grads_face self boundary_inds sol)
  = Ok (components, traction) ->
  length traction = length nanson_scale ->
  (forall t_f n_f, In (t_f, n_f) (combine traction nanson_scale) ->
                   length t_f = length n_f) ->
  surface_integral self loc surface_fn sol
  = Ok (map (fun v =>
               np.sum (map2 (fun t_f n_f => np.sum (map2 (fun t w => vget t v * w) t_f n_f))
                            traction nanson_scale))
            (seq 0 components)).
Proof.
  intros boundary_inds nanson_scale Hfn Hlen Hrows.
  unfold surface_integral. cbn zeta.
  fold boundary_inds. fold nanson_scale. rewrite Hfn. cbn [bind].
  rewrite broadcast_pair_same by exact Hlen. cbn [bind].
  rewrite (mapM_ok _ (fun tn => combine (fst tn) (snd tn))).
  - cbn [bind]. f_equal. apply map_ext. intros v. f_equal.
    unfold map2. rewrite map_map. apply map_ext. intros [t_f n_f]. cbn [fst snd].
    reflexivity.
  - intros [t_f n_f] Hin. cbn [fst snd]. apply broadcast_pair_same. now apply Hrows.
Qed.

(** The traction of [unity_fn]: the value one in every component at every
    face quadrature point. *)
Lemma unity_traction (self : FEM) (boundary_inds : list (nat * nat)) (sol : matrix) :
  Forall (fun p => (snd p < num_faces)%nat) boundary_inds ->
  exists traction,
    unity_fn (ncols sol) (compute_u_grads_face self boundary_inds sol)
    = Ok (ncols sol, traction)
    /\ length traction = length boundary_inds
    /\ Forall (fun t_f => length t_f = 4%nat
                          /\ Forall (fun t => forall v, (v < ncols sol)%nat -> vget t v = 1)
                                    t_f)
              traction.
Proof.
  intros Hin.
  destruct (face_shape_grads_extents (mesh self) boundary_inds Hin)
    as [Hlen [_ [H4 _]]].
  unfold unity_fn. cbn zeta. eexists. split; [reflexivity|]. split.
  - unfold compute_u_grads_face. cbn zeta.
    now rewrite !length_map, map2_length, Hlen, Nat.min_id.
  - rewrite map_map. apply Forall_map.
    unfold compute_u_grads_face. cbn zeta. unfold map2 at 1.
    apply Forall_map, Forall_forall. intros [p grads_f] Hp. cbn [fst snd].
    apply in_combine_r in Hp. rewrite Forall_forall in H4.
    split; [now rewrite !length_map, (H4 grads_f Hp)|].
    rewrite !map_map. apply Forall_map, Forall_forall. intros grads_q _.
    intros v Hv. rewrite !map_map. unfold vget at 1.
    rewrite (@nth_map_in_range nat R _ _ v 0%nat 0) by (rewrite length_seq; exact Hv).
    reflexivity.
Qed.

(** The integral of [unity_fn] over the selected faces: the sum of the
    surface weights, in every component. *)
Lemma unity_integral (self : FEM) (loc : location_fn) (sol : matrix) :
  mesh_wf (mesh self) ->
  let boundary_inds := hd [] (Neuman_boundary_conditions_inds (mesh self) [loc]) in
  surface_integral self loc unity_fn sol
  = Ok (repeat (msum (snd (get_face_shape_grads (mesh self) boundary_inds))) (ncols sol)).
Proof.
  intros Hwf boundary_inds.
  assert (Hin : Forall (fun p => (snd p < num_faces)%nat) boundary_inds).
  { eapply Forall_impl; [|exact (selected_faces_in_range (mesh self) loc Hwf)].
    now intros p [_ H]. }
  destruct (face_shape_grads_extents (mesh self) boundary_inds Hin)
    as [_ [Hlen [_ H4]]].
  destruct (unity_traction self boundary_inds sol Hin) as [traction [Hfn [Htl Ht]]].
  rewrite (surface_integral_value self loc unity_fn sol (ncols sol) traction Hfn).
  - f_equal.
    set (nanson_scale := snd (get_face_shape_grads (mesh self) boundary_inds)) in *.
    assert (E : forall v, (v < ncols sol)%nat ->
              np.sum (map2 (fun t_f n_f => np.sum (map2 (fun t w => vget t v * w) t_f n_f))
                           traction nanson_scale)
              = msum nanson_scale).
    { intros v Hv. unfold msum. rewrite sum_concat. f_equal.
      rewrite (map2_ext_in _ (fun _ n_f => np.sum n_f)).
      - unfold map2. apply (map_snd_combine_le np.sum). rewrite Htl, Hlen. apply Nat.le_refl.
      - intros t_f n_f Hp. f_equal.
        pose proof (in_combine_l _ _ _ _ Hp) as Htf.
        pose proof (in_combine_r _ _ _ _ Hp) as Hnf.
        rewrite Forall_forall in Ht, H4.
        destruct (Ht t_f Htf) as [Ht4 Hone]. rewrite Forall_forall in Hone.
        rewrite (map2_ext_in _ (fun _ w => w)).
        + unfold map2. rewrite (map_snd_combine_le (fun w => w)).
          * apply map_id.
          * rewrite Ht4, (H4 n_f Hnf). apply Nat.le_refl.
        + intros t w Htw. apply in_combine_l in Htw.
          rewrite (Hone t Htw v Hv). ring. }
    generalize (msum nanson_scale) E. intros A HA.
    clear -HA. 
    assert (G : forall s k, (s + k <= ncols sol)%nat ->
              map (fun v => np.sum (map2 (fun t_f n_f =>
                                            np.sum (map2 (fun t w => vget t v * w) t_f n_f))
                                         traction nanson_scale))
                  (seq s k) = repeat A k).
    { intros s k. revert s. induction k as [|k IH]; intros s Hs; [reflexivity|].
      cbn [seq map repeat]. rewrite HA by lia. f_equal. apply IH. lia. }
    apply (G 0%nat). lia.
  - change (length traction
            = length (snd (get_face_shape_grads (mesh self) boundary_inds))).
    now rewrite Htl, Hlen.
  - intros t_f n_f Hp.
    pose proof (in_combine_l _ _ _ _ Hp) as Htf.
    pose proof (in_combine_r _ _ _ _ Hp) as Hnf.
    rewrite Forall_forall in Ht, H4.
    destruct (Ht t_f Htf) as [Ht4 _]. now rewrite Ht4, (H4 n_f Hnf).
Qed.

Lemma sum_of_four (row : vector) (a : R) :
  length row = 4%nat -> (forall q, (q < 4)%nat -> nth q row 0 = a / 4) -> np.sum row = a.
Proof.
  intros Hlen Hq.
  do 5 (destruct row as [|? row]; try discriminate Hlen).
  pose proof (Hq 0%nat ltac:(lia)) as H0. pose proof (Hq 1%nat ltac:(lia)) as H1.
  pose proof (Hq 2%nat ltac:(lia)) as H2. pose proof (Hq 3%nat ltac:(lia)) as H3.
  cbn [nth] in *. subst. cbn [np.sum fold_right]. field.
Qed.

(** The surface weights of faces of parallelepipeds of positive
    orientation sum to the areas of the faces. *)
Lemma nanson_scale_total (m : Mesh) (boundary_inds : list (nat * nat))
      (e1 e2 e3 : nat -> vector) :
  Forall (fun p => (fst p < num_cells m)%nat /\ (snd p < num_faces)%nat) boundary_inds ->
  (forall c f, In (c, f) boundary_inds ->
     (exists p, nth c (physical_coos m) [] = parallelepiped p (e1 c) (e2 c) (e3 c))
     /\ 0 < triple_product (e1 c) (e2 c) (e3 c)) ->
  msum (snd (get_face_shape_grads m boundary_inds))
  = np.sum (map (fun cf => face_area (snd cf) (e1 (fst cf)) (e2 (fst cf)) (e3 (fst cf)))
                boundary_inds).
Proof.
  intros Hin Hbox.
  assert (Hf : Forall (fun p => (snd p < num_faces)%nat) boundary_inds).
  { eapply Forall_impl; [|exact Hin]. now intros p [_ H]. }
  destruct (face_shape_grads_extents m boundary_inds Hf) as [_ [Hlen [_ H4]]].
  unfold msum. rewrite sum_concat. f_equal.
  apply (nth_ext _ _ 0 0); [now rewrite !length_map|].
  intros k Hk. rewrite length_map, Hlen in Hk.
  rewrite (@nth_map_in_range (list R) R np.sum _ k [] 0) by now rewrite Hlen.
  rewrite (@nth_map_in_range (nat * nat) R _ _ k (0, 0)%nat 0) by exact Hk.
  pose proof (nth_In boundary_inds (0, 0)%nat Hk) as Hp.
  rewrite Forall_forall in Hin. destruct (Hin _ Hp) as [Hc Hface].
  destruct (nth k boundary_inds (0, 0)%nat) as [c f] eqn:Ecf. cbn [fst snd] in *.
  destruct (Hbox c f Hp) as [[p Hcell] Hpos].
  apply sum_of_four.
  - rewrite Forall_forall in H4. apply H4, nth_In. now rewrite Hlen.
  - intros q Hq.
    pose proof (nanson_scale_value m boundary_inds k q p (e1 c) (e2 c) (e3 c) Hk Hq) as H.
    rewrite Ecf in H. cbn [fst snd] in H.
    destruct (H Hc Hface Hcell) as [Hplus _]. now apply Hplus.
Qed.

(** X28.  [compute_surface_area] returns the area of the selected
    surface, once for every component of the solution field, and does not
    read the values of the field.  On a well-formed mesh the result is the
    sum of the surface weights [nanson_scale] of the selected faces,
    repeated [sol.shape[1]] times; when the selected faces belong to cells
    that are parallelepipeds of positive orientation (boxes, for one),
    this sum is the sum of the areas of the faces. *)
Theorem surface_area_of_selected_faces
        (m : Mesh) (dirichlet : dirichlet_bc_info)
        (neumann_bc_info : option (list location_fn * list (vector -> vector)))
        (source_info : option (vector -> vector))
        (self : LinearElasticity) (loc : location_fn) (sol : matrix)
        (e1 e2 e3 : nat -> vector) :
  mesh_wf m -> (0 < num_total_nodes m)%nat ->
  LinearElasticity_init m dirichlet neumann_bc_info source_info = Ok self ->
  let boundary_inds := hd [] (Neuman_boundary_conditions_inds m [loc]) in
  compute_surface_area loc sol self
  = (Ok (repeat (msum (snd (get_face_shape_grads m boundary_inds))) (ncols sol)), self)
  /\ ((forall c f, In (c, f) boundary_inds ->
         (exists p, nth c (physical_coos m) [] = parallelepiped p (e1 c) (e2 c) (e3 c))
         /\ 0 < triple_product (e1 c) (e2 c) (e3 c)) ->
      compute_surface_area loc sol self
      = (Ok (repeat (np.sum (map (fun cf => face_area (snd cf) (e1 (fst cf)) (e2 (fst cf))
                                                      (e3 (fst cf)))
                                 boundary_inds))
                    (ncols sol)), self)).
Proof.
  intros Hwf HN Hinit boundary_inds.
  destruct (LinearElasticity_init_wf m _ _ _ self Hwf HN Hinit) as [_ [_ [Hm _]]].
  assert (E : compute_surface_area loc sol self
              = (Ok (repeat (msum (snd (get_face_shape_grads m boundary_inds)))
                            (ncols sol)), self)).
  { unfold compute_surface_area, bindM, getM, liftM.
    rewrite unity_integral by (rewrite Hm; exact Hwf). now rewrite Hm. }
  split; [exact E|].
  intros Hbox. rewrite E.
  now rewrite (nanson_scale_total m boundary_inds e1 e2 e3
                 (selected_faces_in_range m loc Hwf) Hbox).
Qed.

Lemma unit_cube_selected_x1 :
  hd [] (Neuman_boundary_conditions_inds unit_cube [on_x1]) = [(0, 1)%nat].
Proof.
  rewrite Neuman_boundary_conditions_inds_map.
  unfold cell_face_points. rewrite get_face_inds_eq.
  cbn [length seq map nth physical_coos unit_cube points cells np.take hd].
  unfold on_boundary, on_x1. cbn [map vget nth].
  rewrite !isclose_refl, !isclose_0_1. reflexivity.
Qed.

Lemma unit_cube_face_x1_area :
  exists self,
    LinearElasticity_init unit_cube ([], [], []) None None = Ok self
    /\ compute_surface_area on_x1 (points unit_cube) self = (Ok [1; 1; 1], self).
Proof.
  destruct (LinearElasticity_init_ok unit_cube) as [self Hinit].
  exists self. split; [exact Hinit|].
  destruct (surface_area_of_selected_faces unit_cube ([], [], []) None None self on_x1
              (points unit_cube) (fun _ => [1; 0; 0]) (fun _ => [0; 1; 0])
              (fun _ => [0; 0; 1]) unit_cube_wf ltac:(cbn; lia) Hinit) as [_ H].
  rewrite H.
  - rewrite unit_cube_selected_x1.
    unfold face_area, face_span, face_axis, cross, norm.
    cbn [map fst snd Nat.div Nat.divmod nth vget np.sum fold_right].
    replace ((1 * 1 - 0 * 0) * (1 * 1 - 0 * 0)
             + ((0 * 0 - 0 * 1) * (0 * 0 - 0 * 1)
                + ((0 * 0 - 1 * 0) * (0 * 0 - 1 * 0) + 0))) with 1 by ring.
    rewrite sqrt_1, Rplus_0_r. reflexivity.
  - rewrite unit_cube_selected_x1. intros c f [Hcf|[]]. injection Hcf as <- <-.
    split.
    + exists [0; 0; 0]. apply unit_cube_parallelepiped.
    + unfold triple_product, np.det, mget, vget; cbn [nth]; lra.
Defined.

(** ** The traction integral of [HyperElasticity] *)

(** A function on 3x3 matrices applied through the reshape to a batch and
    back: it is applied at every position. *)
Lemma reshape_like_map_eq (g : matrix -> matrix) (u_grads : tensor4) (Q : nat) :
  (0 < Q)%nat ->
  Forall (fun uc => length uc = Q /\ Forall (fun u => shape2 u dim dim) uc) u_grads ->
  (forall u, shape2 (g u) dim dim) ->
  reshape_like u_grads (map g (concat u_grads)) = map (map g) u_grads.
Proof.
  intros HQ Hall Hg.
  destruct u_grads as [|uc rest] eqn:Eu; [reflexivity|].
  rewrite <- Eu in *.
  assert (Hne : u_grads <> []) by (rewrite Eu; discriminate).
  rewrite (reshape_like_chunk u_grads _ Q Hne Hall HQ).
  - rewrite concat_map. apply chunk_concat; [exact HQ|].
    apply Forall_map. eapply Forall_impl; [|exact Hall].
    intros u [H _]. now rewrite length_map.
  - apply Forall_map, Forall_forall. intros u _. apply Hg.
Qed.

(** The product of a 3x3 stress with the column [(0, 0, 1)]: its third
    column. *)
Lemma stress_times_fixed_normal (f : nat -> nat -> R) :
  map (fun row => vget row 0) (matmul (entries f) [[0]; [0]; [1]])
  = map (fun v => f v 2%nat) (seq 0 dim).
Proof.
  unfold matmul, entries, ncols, map2, vget, dim.
  cbn [map seq combine fst snd nth length hd np.sum fold_right].
  list_eq; ring.
Qed.

Lemma compute_u_grads_face_shape (self : FEM) (boundary_inds : list (nat * nat))
      (sol : matrix) :
  Forall (fun p => (snd p < num_faces)%nat) boundary_inds ->
  length (compute_u_grads_face self boundary_inds sol) = length boundary_inds
  /\ Forall (fun uc => length uc = 4%nat
                       /\ Forall (fun u => shape2 u (ncols sol) dim) uc)
            (compute_u_grads_face self boundary_inds sol).
Proof.
  intros Hin.
  destruct (face_shape_grads_extents (mesh self) boundary_inds Hin)
    as [Hlen [_ [H4 _]]].
  unfold compute_u_grads_face. cbn zeta. split.
  - now rewrite map2_length, Hlen, Nat.min_id.
  - unfold map2 at 1. apply Forall_map, Forall_forall. intros [p grads_f] Hp.
    cbn [fst snd]. apply in_combine_r in Hp. rewrite Forall_forall in H4. split.
    + now rewrite length_map, (H4 grads_f Hp).
    + apply Forall_map, Forall_forall. intros gq _. split.
      * now rewrite length_map, length_seq.
      * apply Forall_map, Forall_forall. intros v _. now rewrite length_map, length_seq.
Qed.

(** X29.  [HyperElasticity.compute_traction] integrates the third column
    of the first Piola-Kirchhoff stress over the selected faces: the
    stress is multiplied with the fixed vector [(0, 0, 1)], whatever the
    orientation of the faces.  For a solution field with three components
    per node, component [v] of the result is the sum, over the selected
    faces and their quadrature points, of entry [(v, 2)] of
    [first_PK_stress] of the gradient there times [nanson_scale]; the
    object is unchanged. *)
Theorem compute_traction_fixed_normal
        (m : Mesh) (dirichlet : dirichlet_bc_info)
        (neumann_bc_info : option (list location_fn * list (vector -> vector)))
        (source_info : option (vector -> vector))
        (self : HyperElasticity) (loc : location_fn) (sol : matrix) :
  mesh_wf m -> (0 < num_total_nodes m)%nat ->
  HyperElasticity_init m dirichlet neumann_bc_info source_info = Ok self ->
  shape2 sol (num_total_nodes m) dim ->
  let boundary_inds := hd [] (Neuman_boundary_conditions_inds m [loc]) in
  let u_grads_face := compute_u_grads_face (fem (laplace self)) boundary_inds sol in
  let nanson_scale := snd (get_face_shape_grads m boundary_inds) in
  compute_traction loc sol self
  = (Ok (map (fun v =>
                np.sum (map2 (fun u_f n_f =>
                                np.sum (map2 (fun u w => mget (first_PK_stress u) v 2 * w)
                                             u_f n_f))
                             u_grads_face nanson_scale))
             (seq 0 dim)), self).
Proof.
  intros Hwf HN Hinit Hsol boundary_inds u_grads_face nanson_scale.
  destruct (HyperElasticity_init_wf m _ _ _ self Hwf HN Hinit) as [_ [_ [Hm Hvec]]].
  change (laplace self) with (hyper_base self) in *.
  assert (Hcols : ncols sol = dim) by apply (shape2_ncols sol _ dim Hsol HN).
  assert (Hin : Forall (fun p => (snd p < num_faces)%nat) boundary_inds).
  { eapply Forall_impl; [|exact (selected_faces_in_range m loc Hwf)].
    now intros p [_ H]. }
  destruct (face_shape_grads_extents m boundary_inds Hin) as [_ [Hlen [_ H4]]].
  destruct (compute_u_grads_face_shape (fem (hyper_base self)) boundary_inds sol Hin)
    as [HUlen HU].
  rewrite Hcols in HU. fold u_grads_face in HUlen, HU.
  assert (HU' : Forall (Forall (fun u => shape2 u dim dim)) u_grads_face).
  { eapply Forall_impl; [|exact HU]. intros uc [_ H]. exact H. }
  set (traction := map (map (fun u => map (fun v => mget (first_PK_stress u) v 2)
                                          (seq 0 dim)))
                       u_grads_face).
  assert (Hfn : traction_fn self (ncols sol) u_grads_face = Ok (ncols sol, traction)).
  { unfold traction_fn. rewrite Hvec, reshape_matrices_ok by exact HU'. cbn [bind].
    rewrite (reshape_like_map_eq first_PK_stress u_grads_face 4 ltac:(lia) HU
               first_PK_stress_shape).
    f_equal. f_equal. unfold traction. rewrite map_map. apply map_ext. intros uc.
    rewrite map_map. apply map_ext. intros u.
    unfold first_PK_stress at 1, P_fn at 1. cbn zeta.
    rewrite stress_times_fixed_normal. apply map_ext_in. intros v Hv.
    apply in_seq in Hv. unfold first_PK_stress, P_fn. cbn zeta.
    now rewrite mget_entries by (unfold dim in *; lia). }
  unfold compute_traction, bindM, getM, liftM. f_equal.
  pose proof (surface_integral_value (fem (hyper_base self)) loc (traction_fn self) sol
                (ncols sol) traction) as Hval.
  cbn zeta in Hval. rewrite Hm in Hval. fold boundary_inds in Hval.
  fold u_grads_face in Hval. fold nanson_scale in Hval.
  rewrite Hval; clear Hval.
  - rewrite Hcols. f_equal. apply map_ext_in. intros v Hv. apply in_seq in Hv.
    f_equal. unfold traction. rewrite map2_map_l. apply map2_ext. intros uc n_f.
    f_equal. rewrite map2_map_l. apply map2_ext. intros u w. f_equal.
    unfold vget at 1.
    rewrite (@nth_map_in_range nat R _ _ v 0%nat 0) by (rewrite length_seq; lia).
    now rewrite seq_nth by lia.
  - exact Hfn.
  - unfold traction, nanson_scale. now rewrite length_map, HUlen, Hlen.
  - intros t_f n_f Hp.
    pose proof (in_combine_l _ _ _ _ Hp) as Htf.
    pose proof (in_combine_r _ _ _ _ Hp) as Hnf.
    unfold traction in Htf. apply in_map_iff in Htf as [uc [<- Huc]].
    rewrite Forall_forall in HU, H4. destruct (HU uc Huc) as [Huc4 _].
    now rewrite length_map, Huc4, (H4 n_f Hnf).
Qed.

Lemma unit_cube_traction_at_rest :
  exists self,
    HyperElasticity_init unit_cube ([], [], []) None None = Ok self
    /\ compute_traction on_x1 (np.zeros 8 3) self
       = (Ok (map (fun v =>
                     np.sum
                       (map2 (fun u_f n_f =>
                                np.sum (map2 (fun u w => mget (first_PK_stress u) v 2 * w)
                                             u_f n_f))
                             (compute_u_grads_face (fem (laplace self))
                                (hd [] (Neuman_boundary_conditions_inds unit_cube [on_x1]))
                                (np.zeros 8 3))
                             (snd (get_face_shape_grads unit_cube
                                     (hd [] (Neuman_boundary_conditions_inds unit_cube
                                               [on_x1]))))))
                  (seq 0 dim)), self).
Proof.
  destruct (HyperElasticity_init_ok unit_cube) as [self Hinit].
  exists self. split; [exact Hinit|].
  apply (compute_traction_fixed_normal unit_cube ([], [], []) None None self on_x1
           (np.zeros 8 3) unit_cube_wf ltac:(cbn; lia) Hinit).
  apply zeros_shape.
Defined.

(** ** Elastic load steps of [Plasticity] *)

Lemma strain_is_entries (u : matrix) :
  shape2 u dim dim ->
  strain u = entries (fun i j => (mget u i j + mget u j i) / 2).
Proof.
  intros Hu. rewrite (matrix3_explicit u Hu) at 1.
  unfold strain, entries, mmap2, mscale, map2, np.T, mget, vget, dim.
  cbn [map seq combine fst snd nth length].
  list_eq; field.
Qed.

(** After an elastic step the trial stress of the next step is the
    linear-elastic stress of the new gradient: the stored stress and
    strain cancel. *)
Lemma trial_after_elastic_step (u1 u2 : matrix) :
  shape2 u1 dim dim -> shape2 u2 dim dim ->
  sigma_trial u2 (elastic_stress u1) (strain u1) = elastic_stress u2.
Proof.
  intros H1 H2. rewrite (matrix3_explicit u1 H1), (matrix3_explicit u2 H2).
  unfold sigma_trial, elastic_stress, stress, strain, entries, mmap2, mscale, map2,
    np.trace, np.eye, np.T, mget, vget, dim.
  cbn [map seq combine fst snd nth length Nat.eqb].
  list_eq; field.
Qed.

Lemma return_map_below_yield (u sigma_old epsilon_old : matrix) :
  shape2 u dim dim -> shape2 sigma_old dim dim -> shape2 epsilon_old dim dim ->
  von_mises (sigma_trial u sigma_old epsilon_old) <= 250 ->
  stress_return_map u sigma_old epsilon_old = sigma_trial u sigma_old epsilon_old.
Proof.
  intros Hu Hs He Hy.
  destruct (return_map_admissible_entries (mget u) (mget sigma_old) (mget epsilon_old))
    as [_ [_ [_ [Hel _]]]].
  rewrite <- !matrix3_explicit in Hel by assumption.
  now apply Hel.
Qed.

Lemma strain_shape (u : matrix) : shape2 u dim dim -> shape2 (strain u) dim dim.
Proof. intros Hu. rewrite (strain_is_entries u Hu). apply entries_shape. Qed.

(** X30.  Load steps below the yield stress are independent of the path.
    After [update_stress_strain] has stored, on a fresh [Plasticity]
    object, the step to a field [sol1], [compute_physics] for a second
    field [sol2] returns, at every quadrature point where the
    linear-elastic stress of both fields has a von Mises norm of at most
    250, the linear-elastic stress of the gradient of [sol2]: the stored
    stress and strain of the first step cancel. *)
Theorem elastic_steps_path_independent
        (m : Mesh) (dirichlet : dirichlet_bc_info)
        (neumann_bc_info : option (list location_fn * list (vector -> vector)))
        (source_info : option (vector -> vector))
        (self0 : Plasticity) (sol1 sol2 : matrix) (c q : nat) :
  mesh_wf m -> (0 < num_total_nodes m)%nat ->
  Plasticity_init m dirichlet neumann_bc_info source_info = Ok self0 ->
  shape2 sol1 (num_total_nodes m) dim -> shape2 sol2 (num_total_nodes m) dim ->
  (c < num_cells m)%nat -> (q < num_quads)%nat ->
  let u1 := nth q (nth c (compute_u_grads (fem (laplace self0)) sol1) []) [] in
  let u2 := nth q (nth c (compute_u_grads (fem (laplace self0)) sol2) []) [] in
  von_mises (elastic_stress u1) <= 250 ->
  von_mises (elastic_stress u2) <= 250 ->
  exists self1 sigmas,
    update_stress_strain sol1 self0 = (Ok tt, self1)
    /\ compute_physics sol2 (compute_u_grads (fem (laplace self1)) sol2) self1
       = (Ok sigmas, self1)
    /\ nth q (nth c sigmas []) [] = elastic_stress u2.
Proof.
  intros Hwf HN Hinit Hsol1 Hsol2 Hc Hq u1 u2 Hy1 Hy2.
  destruct (Plasticity_init_wf m _ _ _ self0 Hwf HN Hinit) as [Hwf0 Hm].
  destruct (Plasticity_init_state m _ _ _ self0 Hwf HN Hinit) as [_ [_ [Hs0 He0]]].
  change (laplace self0) with (plasticity_base self0) in *.
  assert (HC : (0 < num_cells (mesh (fem (plasticity_base self0))))%nat)
    by (rewrite Hm; lia).
  destruct (update_stress_strain_ok self0 sol1 (num_total_nodes m) Hwf0 HC Hsol1 HN)
    as [self1 [Hupd [Hwf1 [Hbase [Hs1 He1]]]]].
  exists self1.
  pose proof Hwf0 as [HL0 _]. pose proof Hwf1 as [HL1 [Hvec1 [Hsl [Hel [Hss Hes]]]]].
  change (laplace self1) with (plasticity_base self1). rewrite Hbase in *.
  set (L := plasticity_base self0) in *.
  (* the gradients of both fields *)
  assert (Hug : forall sol, shape2 sol (num_total_nodes m) dim ->
            length (compute_u_grads (fem L) sol) = num_cells m
            /\ Forall (fun uc => length uc = num_quads
                                 /\ Forall (fun u => shape2 u dim dim) uc)
                      (compute_u_grads (fem L) sol)).
  { intros sol Hsol. split.
    - rewrite (compute_u_grads_cells L sol HL0). now rewrite Hm.
    - pose proof (compute_u_grads_shape L sol HL0) as H.
      unfold ncols in H. now rewrite (shape2_ncols sol _ dim Hsol HN) in H. }
  destruct (Hug sol1 Hsol1) as [Hlen1 Hshape1].
  destruct (Hug sol2 Hsol2) as [Hlen2 Hshape2].
  set (ug1 := compute_u_grads (fem L) sol1) in *.
  set (ug2 := compute_u_grads (fem L) sol2) in *.
  assert (Hin : forall ug : tensor4, length ug = num_cells m ->
            Forall (fun uc => length uc = num_quads
                              /\ Forall (fun u => shape2 u dim dim) uc) ug ->
            shape2 (nth q (nth c ug []) []) dim dim).
  { intros ug Hl Hsh. rewrite Forall_forall in Hsh.
    destruct (Hsh (nth c ug [])) as [HQ Hall]; [apply nth_In; now rewrite Hl|].
    rewrite Forall_forall in Hall. apply Hall, nth_In. now rewrite HQ. }
  pose proof (Hin ug1 Hlen1 Hshape1) as Hu1. fold u1 in Hu1.
  pose proof (Hin ug2 Hlen2 Hshape2) as Hu2. fold u2 in Hu2.
  (* the state stored by the first step *)
  assert (HallQ1 : Forall (fun uc => length uc = num_quads) ug1).
  { eapply Forall_impl; [|exact Hshape1]. intros uc [H _]. exact H. }
  assert (Hcat1 : length (concat ug1) = (num_cells m * num_quads)%nat).
  { rewrite (length_concat_uniform num_quads ug1 HallQ1), Hlen1. reflexivity. }
  assert (Hcq : (c * num_quads + q < num_cells m * num_quads)%nat) by nia.
  rewrite Hs0, He0, combine_repeat, map2_repeat_r in Hs1 by exact Hcat1.
  cbn [fst snd] in Hs1.
  assert (Hsig : nth (c * num_quads + q) (sigmas_old self1) [] = elastic_stress u1).
  { rewrite Hs1.
    rewrite (@nth_map_in_range (list (list R)) (list (list R)) _ _ _ [] [])
      by (rewrite Hcat1; exact Hcq).
    rewrite (nth_concat_uniform num_quads ug1 c q []) by (rewrite ?Hlen1; assumption).
    fold u1.
    rewrite return_map_below_yield; try apply zeros_shape; try assumption.
    - now apply sigma_trial_from_rest.
    - now rewrite sigma_trial_from_rest. }
  assert (Heps : nth (c * num_quads + q) (epsilons_old self1) [] = strain u1).
  { rewrite He1.
    rewrite (@nth_map_in_range (list (list R)) (list (list R)) _ _ _ [] [])
      by (rewrite Hcat1; exact Hcq).
    now rewrite (nth_concat_uniform num_quads ug1 c q []) by (rewrite ?Hlen1; assumption). }
  (* the second step *)
  assert (Hne : ug2 <> []).
  { intros E. rewrite E in Hlen2. cbn in Hlen2. lia. }
  fold L in Hm. rewrite Hm in Hsl, Hel.
  destruct (Plasticity_compute_physics_pointwise self1 sol2 ug2 num_quads)
    as [sigmas [Hphys Hpt]]; try assumption.
  - now rewrite Hbase.
  - unfold num_quads; lia.
  - now rewrite Hlen2.
  - now rewrite Hlen2.
  - exists sigmas. split; [exact Hupd|]. split; [exact Hphys|].
    rewrite Hpt by (rewrite ?Hlen2; assumption).
    fold u2. rewrite Hsig, Heps.
    rewrite return_map_below_yield;
      try assumption; try (now apply elastic_stress_shape); try (now apply strain_shape).
    + now apply trial_after_elastic_step.
    + now rewrite trial_after_elastic_step.
Qed.

Lemma unit_cube_two_small_steps :
  exists self0 self1 sigmas,
    Plasticity_init unit_cube ([], [], []) None None = Ok self0
    /\ update_stress_strain (np.zeros 8 3) self0 = (Ok tt, self1)
    /\ compute_physics (np.zeros 8 3)
         (compute_u_grads (fem (laplace self1)) (np.zeros 8 3)) self1
       = (Ok sigmas, self1)
    /\ nth 0 (nth 0 sigmas []) []
       = elastic_stress
           (nth 0 (nth 0 (compute_u_grads (fem (laplace self0)) (np.zeros 8 3)) []) []).
Proof.
  destruct (Plasticity_init_ok unit_cube) as [self0 [Hinit _]].
  assert (HN : (0 < num_total_nodes unit_cube)%nat) by (cbn; lia).
  destruct (Plasticity_init_wf unit_cube _ _ _ self0 unit_cube_wf HN Hinit)
    as [[HL _] Hm].
  assert (Hrest : forall u : matrix,
            shape2 u dim dim -> (forall i j, mget u i j = 0) ->
            von_mises (elastic_stress u) <= 250).
  { intros u Hu Hz. rewrite (matrix3_explicit u Hu).
    rewrite (entries_ext _ (fun _ _ => 0)) by (intros; apply Hz).
    change (entries (fun _ _ => 0)) with (np.zeros 3 3).
    rewrite von_mises_at_rest. lra. }
  assert (Hu : shape2 (nth 0 (nth 0 (compute_u_grads (fem (laplace self0)) (np.zeros 8 3))
                                  []) []) dim dim).
  { change (laplace self0) with (plasticity_base self0).
    pose proof (compute_u_grads_shape (plasticity_base self0) (np.zeros 8 3) HL) as Hs.
    pose proof (compute_u_grads_cells (plasticity_base self0) (np.zeros 8 3) HL) as Hc.
    rewrite Hm in Hc. rewrite Forall_forall in Hs.
    destruct (Hs (nth 0 (compute_u_grads (fem (plasticity_base self0)) (np.zeros 8 3)) []))
      as [HQ Hall]; [apply nth_In; rewrite Hc; cbn; lia|].
    rewrite Forall_forall in Hall. apply Hall, nth_In. rewrite HQ. unfold num_quads; lia. }
  destruct (elastic_steps_path_independent unit_cube ([], [], []) None None self0
              (np.zeros 8 3) (np.zeros 8 3) 0 0 unit_cube_wf HN Hinit)
    as [self1 [sigmas [H1 [H2 H3]]]].
  - apply zeros_shape.
  - apply zeros_shape.
  - cbn; lia.
  - unfold num_quads; lia.
  - apply Hrest; [exact Hu|]. intros i j. apply compute_u_grads_zero.
  - apply Hrest; [exact Hu|]. intros i j. apply compute_u_grads_zero.
  - exists self0, self1, sigmas. repeat split; assumption.
Defined.
